(** * SnowflakeDB: a shallow embedding of the storage core and its helpers

    Part I follows the JavaScript sources, one module per source unit:
    - [Sanitize], [Core]   [src/core/SnowflakeCore.js]
    - [CoreHelper]         [src/core/SnowflakeCoreHelper.js]
    - [RangeQuery]         [src/core/SnowflakeRangeQuery.js]
    - [Aol]                [src/core/SnowflakeAol.js] and
                           [src/core/workers/worker_aol.js]
    - [Cli]                the class [SnowflakeCLI] (lockdown tracker), with
                           [Snowflake.now] of the [Snowflake] object
    - [Startup], [Files], [Loading]
                           the start of the database: the listing of the
                           directory, the headers and the generation of the
                           shard files, the loading of the shard files and
                           the replay of the backups
    - [CommandLine], [Commands]
                           the command line of [SnowflakeCLI] and the
                           commands [SnowflakeCoreHelper.init] registers
    - [Shell]              the class [SnowflakeShell]: the handler of incoming
                           data, with the listeners of its events
    - [Json], [Obj], [Dec] the parts of the JavaScript runtime the AOL codec
                           leans on: [JSON.stringify], [JSON.parse], property
                           order of plain objects, decimal numerals
    - [Plain]              where a plain object is the dictionary the model
                           takes it for.
    Part II states and proves the properties.

    Conventions.  A JavaScript string is a [string]: one [ascii] per code
    unit, so the strings of the model are those whose code units are below
    256.  A JavaScript number that is an integer is a [Z]; numbers with a
    fractional part, NaN and the infinities are outside the model.  A plain
    object used as a dictionary is a [gmap] when only lookups matter and an
    association list in enumeration order when the order is observable;
    properties inherited from [Object.prototype] are not modelled, and the
    properties that depend on it are stated for the other names
    ([Plain.inherited]).  A thrown exception is a result of its own
    ([Thrown], [Throws]), and so is the end of the process ([Exits]). *)

From Stdlib Require Import ZArith Lia List Bool Ascii String.
From Stdlib Require Import Decimal DecimalFacts DecimalN DecimalString.
From stdpp Require Import gmap strings list.
From Equations Require Import Equations.

Local Open Scope Z_scope.
Local Open Scope string_scope.

(** * Part I: the model *)

(** ** Characters *)

Module Chars.

Definition code (c : ascii) : N := N_of_ascii c.

Definition in_range (lo hi : N) (c : ascii) : bool :=
  ((lo <=? code c) && (code c <=? hi))%N.

Definition is_digit (c : ascii) : bool := in_range 48 57 c.
Definition is_lower (c : ascii) : bool := in_range 97 122 c.
Definition is_upper (c : ascii) : bool := in_range 65 90 c.

(** The class [\s] of a JavaScript regular expression, cut down to the
    code units below 256: TAB, LF, VT, FF, CR, SPACE and NBSP. *)
Definition is_space (c : ascii) : bool :=
  in_range 9 13 c || (code c =? 32)%N || (code c =? 160)%N.

Definition underscore : ascii := "_"%char.
Definition hyphen : ascii := "-"%char.

(** The complement of the class [[^a-zA-Z0-9\-_]]. *)
Definition is_key_char (c : ascii) : bool :=
  is_lower c || is_upper c || is_digit c
  || Ascii.eqb c hyphen || Ascii.eqb c underscore.

End Chars.

(** ** Strings as lists of code units *)

Module Str.

Fixpoint map (f : ascii -> ascii) (s : string) : string :=
  match s with
  | EmptyString => EmptyString
  | String c r => String (f c) (map f r)
  end.

Fixpoint filter (p : ascii -> bool) (s : string) : string :=
  match s with
  | EmptyString => EmptyString
  | String c r => if p c then String c (filter p r) else filter p r
  end.

Fixpoint all (p : ascii -> bool) (s : string) : bool :=
  match s with
  | EmptyString => true
  | String c r => p c && all p r
  end.

(** Drop the longest prefix whose characters satisfy [p]. *)
Fixpoint drop_while (p : ascii -> bool) (s : string) : string :=
  match s with
  | EmptyString => EmptyString
  | String c r => if p c then drop_while p r else s
  end.

(** Drop the longest suffix whose characters satisfy [p]. *)
Fixpoint drop_while_end (p : ascii -> bool) (s : string) : string :=
  match s with
  | EmptyString => EmptyString
  | String c r =>
      match drop_while_end p r with
      | EmptyString => if p c then EmptyString else String c EmptyString
      | r' => String c r'
      end
  end.

Definition first (s : string) : option ascii :=
  match s with
  | EmptyString => None
  | String c _ => Some c
  end.

Fixpoint last (s : string) : option ascii :=
  match s with
  | EmptyString => None
  | String c EmptyString => Some c
  | String _ r => last r
  end.

Definition is_empty (s : string) : bool :=
  match s with
  | EmptyString => true
  | String _ _ => false
  end.

End Str.

(** ** [SnowflakeCore.sanitizeKey] *)

Module Sanitize.
Import Chars.

(** [key.replaceAll(/\s/g, "_")] *)
Definition replace_spaces (key : string) : string :=
  Str.map (fun c => if is_space c then underscore else c) key.

(** [key.replaceAll(/[^a-zA-Z0-9\-_]/g, "")] *)
Definition strip_illegal (key : string) : string :=
  Str.filter is_key_char key.

Definition is_underscore (c : ascii) : bool := Ascii.eqb c underscore.

(** [key.replace(/^_+|_+$/g, "")]: with the [g] flag both the leading and
    the trailing run of underscores are removed. *)
Definition trim_underscores (key : string) : string :=
  Str.drop_while_end is_underscore (Str.drop_while is_underscore key).

Definition sanitizeKey (key : string) (trim : bool) : string :=
  let key := replace_spaces key in
  let key := strip_illegal key in
  if trim then trim_underscores key else key.

End Sanitize.

(** ** Values held by the store *)

Module Values.

(** The value trees of the binary codec: nil, booleans, integer numbers,
    strings, byte strings ([Buffer]), sequences and string-keyed mappings
    (own properties in enumeration order). *)
#[local] Unset Elimination Schemes.
Inductive value : Type :=
| VNil
| VBool (b : bool)
| VNum (n : Z)
| VStr (s : string)
| VBytes (bs : list N)
| VSeq (items : list value)
| VMap (fields : list (string * value)).
#[local] Set Elimination Schemes.

(** Induction over value trees, through sequences and mappings. *)
Section ValueInduction.
Variable P : value -> Prop.
Hypothesis HNil : P VNil.
Hypothesis HBool : forall b, P (VBool b).
Hypothesis HNum : forall n, P (VNum n).
Hypothesis HStr : forall s, P (VStr s).
Hypothesis HBytes : forall bs, P (VBytes bs).
Hypothesis HSeq : forall items, Forall P items -> P (VSeq items).
Hypothesis HMap :
  forall fields, Forall (fun kv => P (snd kv)) fields -> P (VMap fields).

Fixpoint value_ind (v : value) : P v :=
  match v with
  | VNil => HNil
  | VBool b => HBool b
  | VNum n => HNum n
  | VStr s => HStr s
  | VBytes bs => HBytes bs
  | VSeq items =>
      HSeq items
        ((fix all (l : list value) : Forall P l :=
            match l with
            | [] => List.Forall_nil P
            | x :: r => List.Forall_cons P x r (value_ind x) (all r)
            end) items)
  | VMap fields =>
      HMap fields
        ((fix all (l : list (string * value))
            : Forall (fun kv => P (snd kv)) l :=
            match l with
            | [] => List.Forall_nil _
            | (k, x) :: r => List.Forall_cons _ (k, x) r (value_ind x) (all r)
            end) fields)
  end.

End ValueInduction.

(** JavaScript's [ToBoolean]: [null], [false], [0] and [""] are falsy,
    every object (array, mapping, Buffer) is truthy. *)
Definition truthy (v : value) : bool :=
  match v with
  | VNil => false
  | VBool b => b
  | VNum n => negb (n =? 0)%Z
  | VStr s => negb (Str.is_empty s)
  | VBytes _ | VSeq _ | VMap _ => true
  end.

(** An entry of the free list ([#lookup.trash]). *)
Record slot : Type := Slot { size : Z; position : Z; length : Z }.

End Values.

(** ** [SnowflakeCore]: lookup tables, shard selector and the core API *)

Module Core.
Import Values.

(** An entry of [#lookup.key], as [#setLookupKey] builds it.  The digest
    is kept in its hexadecimal form ([hash_str]); the [Buffer] it is
    printed from carries the same information. *)
Record key_entry : Type := KeyEntry {
  meid : Z;
  name : string;
  hash_str : string;
  key_size : Z;
  key_position : Z;
  key_length : Z
}.

(** [#lookup = { key: {}, value: {}, trash: [] }].  A property that was
    assigned [undefined] is a binding to [None]. *)
Record lookup : Type := Lookup {
  key : gmap string (option key_entry);
  value : gmap string (option Values.value);
  trash : list slot
}.

(** A request posted to the AOL worker with [worker.postMessage]. *)
Record request : Type := Request {
  action : string;
  req_key : string;
  req_value : Values.value
}.

(** The private fields of a started [SnowflakeCore] that the core API
    reads or writes.  [posted] lists the requests handed to the AOL
    worker, oldest first. *)
Record core : Type := MkCore {
  memory_monitor : bool;
  max_memory : option Z;
  tables : lookup;
  cache : gmap string string;
  current_meid : Z;
  meids_size : Z;
  posted : list request
}.

Definition with_tables (t : lookup) (st : core) : core :=
  MkCore (memory_monitor st) (max_memory st) t (cache st)
         (current_meid st) (meids_size st) (posted st).

Definition with_cache (c : gmap string string) (st : core) : core :=
  MkCore (memory_monitor st) (max_memory st) (tables st) c
         (current_meid st) (meids_size st) (posted st).

Definition with_current_meid (m : Z) (st : core) : core :=
  MkCore (memory_monitor st) (max_memory st) (tables st) (cache st)
         m (meids_size st) (posted st).

Definition with_posted (p : list request) (st : core) : core :=
  MkCore (memory_monitor st) (max_memory st) (tables st) (cache st)
         (current_meid st) (meids_size st) p.

(** A core right after [start()] with [n] shards, no entries, and the
    memory monitor configured by [monitor] and [cap]. *)
Definition fresh (n : Z) (monitor : bool) (cap : option Z) : core :=
  MkCore monitor cap (Lookup ∅ ∅ []) ∅ (-1) n [].

Section WithCodec.

(** [Snowflake.sha256(key, true).toString("hex")]: the SHA-256 digest of
    the MessagePack encoding of the key, in hexadecimal. *)
Variable sha256 : string -> string.

(** [Snowflake.toBuffer(value).length]: the byte length of the
    MessagePack encoding of a value. *)
Variable encoded_length : Values.value -> Z.

(** [#sha256(key, use_cache)] with its memo table [#cache]. *)
Definition sha256_cached (k : string) (use_cache : bool) (st : core)
  : string * core :=
  match (if use_cache then cache st !! k else None) with
  | Some h => (h, st)
  | None =>
      let h := sha256 k in
      (h, if use_cache then with_cache (<[k := h]> (cache st)) st else st)
  end.

(** [#setLookupKey(key, meid_index, size, position, key_hash)] with a
    digest supplied by the caller. *)
Definition setLookupKey (k : string) (meid_index size position : Z)
           (key_hash : string) (st : core) : core :=
  let entry := KeyEntry meid_index k key_hash size position (36 + size) in
  let t := tables st in
  with_tables (Lookup (<[k := Some entry]> (key t)) (value t) (trash t)) st.

(** [#setLookupValue(hash, value)] for a 32-byte digest. *)
Definition setLookupValue (h : string) (v : Values.value) (st : core)
  : core :=
  let t := tables st in
  with_tables (Lookup (key t) (<[h := Some v]> (value t)) (trash t)) st.

(** [nextMeid()] *)
Definition nextMeid (st : core) : Z * core :=
  if (meids_size st <=? 1)%Z then (0, st)
  else
    let c := current_meid st + 1 in
    let c := if (c >=? meids_size st)%Z then -1 else c in
    (Z.max c 0, with_current_meid c st).

(** [lookupKey(key)]: [this.#lookup.key[key] || {}]; the empty object
    is [None]. *)
Definition lookupKey (k : string) (st : core) : option key_entry :=
  match key (tables st) !! k with
  | Some (Some e) => Some e
  | _ => None
  end.

(** [lookupValue(hash)]: [this.#lookup.value[hash] || undefined]. *)
Definition lookupValue (h : string) (st : core) : option Values.value :=
  match value (tables st) !! h with
  | Some (Some v) => if truthy v then Some v else None
  | _ => None
  end.

(** [exist(key)]: [this.lookupKey(key).length > 0], where [length] is
    the field [36 + size] of the entry and [undefined] on [{}]. *)
Definition exist (k : string) (st : core) : bool :=
  match lookupKey k st with
  | Some e => (key_length e >? 0)%Z
  | None => false
  end.

(** [askWorker("aol", request)] on a started core: the request is
    posted to the worker; the promise is dropped by the caller. *)
Definition askWorker (r : request) (st : core) : core :=
  with_posted (posted st ++ [r]) st.

(** [setUnsafe(key, value)] *)
Definition setUnsafe (k : string) (v : Values.value) (st : core)
  : Z * core :=
  if Str.is_empty k then (0, st)
  else
    let '(h, st) := sha256_cached k true st in
    if exist k st then (1, setLookupValue h v st)
    else
      let data_length := encoded_length v in
      let '(index, st) := nextMeid st in
      let st := setLookupKey k index data_length (-1) h st in
      (2, setLookupValue h v st).

(** [set(key, value)]: [confirm] posts the request and answers [true]. *)
Definition set (k : string) (v : Values.value) (st : core) : Z * core :=
  let k := Sanitize.sanitizeKey k false in
  if negb (Str.is_empty k) then
    let st := askWorker (Request "set" k v) st in
    setUnsafe k v st
  else (0, st).

(** [get(key, def)] *)
Definition get (k : string) (def : Values.value) (st : core)
  : Values.value * core :=
  let '(h, st) := sha256_cached k true st in
  match lookupValue h st with
  | None => (def, st)
  | Some v => (v, st)
  end.

(** [remove(key)] *)
Definition remove (k : string) (st : core) : bool * core :=
  if negb (exist k st) then (false, st)
  else
    let '(h, st) := sha256_cached k true st in
    let t := tables st in
    match key t !! k with
    | Some (Some e) =>
        let t := Lookup (<[k := None]> (key t)) (<[h := None]> (value t))
                        (trash t ++ [Slot (key_size e) (key_position e)
                                          (key_length e)]) in
        (true, with_tables t st)
    | _ => (false, st) (* not reached: [exist] answered [true] *)
    end.

End WithCodec.

End Core.

(** ** [SnowflakeRangeQuery] *)

Module RangeQuery.
Import Values.

(** What a call produces: a returned value or a thrown [TypeError]. *)
Inductive outcome (A : Type) : Type :=
| Returned (a : A)
| Thrown.
Arguments Returned {A} a.
Arguments Thrown {A}.

(** [element[field_name]] on a free-list entry; [None] is [undefined]. *)
Definition field (field_name : string) (e : slot) : option Z :=
  if (field_name =? "size")%string then Some (size e)
  else if (field_name =? "position")%string then Some (position e)
  else if (field_name =? "length")%string then Some (length e)
  else None.

(** [array[i]] for an integer [i]; [None] is [undefined]. *)
Definition index (array : list slot) (i : Z) : option slot :=
  if (i <? 0)%Z then None else array !! Z.to_nat i.

(** The [while (left <= right)] loop of [binarySearch], started from any
    [left] ([lft]), [right] ([rgt]) and [result] ([None] is [null]).
    Reading [array[mid]] outside the array throws. *)
Equations? search (array : list slot) (target lft rgt : Z)
  (result : option slot) : outcome (option slot)
  by wf (Z.to_nat (rgt - lft + 1)) lt :=
search array target lft rgt result with Z_le_gt_dec lft rgt => {
  | right _ := Returned result;
  | left _ with index array ((lft + rgt) / 2) => {
      | None := Thrown;
      | Some e with (size e >=? target)%Z => {
          | true := search array target lft ((lft + rgt) / 2 - 1) (Some e);
          | false := search array target ((lft + rgt) / 2 + 1) rgt result } } }.
Proof.
  all: clear search;
    pose proof (Z.div_mod (lft + rgt) 2 ltac:(lia));
    pose proof (Z.mod_pos_bound (lft + rgt) 2 ltac:(lia)); lia.
Qed.

(** [binarySearch(array, target)] *)
Definition binarySearch (array : list slot) (target : Z)
  : outcome (option slot) :=
  search array target 0 (Z.of_nat (List.length array) - 1) None.

(** The comparator of [sortBy]: [(a[f] ?? 0) - (b[f] ?? 0)]. *)
Definition compare_by (field_name : string) (a b : slot) : Z :=
  default 0 (field field_name a) - default 0 (field field_name b).

(** Insertion of [x] in front of the first element it does not compare
    greater than.  Folding it from the right gives the stable order that
    [Array.prototype.sort] is required to produce. *)
Fixpoint insert_by (cmp : slot -> slot -> Z) (x : slot) (l : list slot)
  : list slot :=
  match l with
  | [] => [x]
  | y :: r => if (cmp x y <=? 0)%Z then x :: y :: r else y :: insert_by cmp x r
  end.

(** [sortBy(field_name)]: the array sorted in place, as a new list. *)
Definition sortBy (field_name : string) (array : list slot) : list slot :=
  foldr (insert_by (compare_by field_name)) [] array.

(** [findSmallestFit(field_name, fit)] on the array of the instance. *)
Definition findSmallestFit (array : list slot) (field_name : string)
  (fit : Z) : outcome (option slot) :=
  match index array (Z.of_nat (List.length array) - 1) with
  | None => Thrown
  | Some largestSizeElement =>
      match field field_name largestSizeElement with
      | None => Returned None
      | Some largestSize =>
          if (largestSize >=? fit)%Z then
            match binarySearch array fit with
            | Returned (Some smallestFit) => Returned (Some smallestFit)
            | Returned None => Returned None
            | Thrown => Thrown
            end
          else Returned None
      end
  end.

End RangeQuery.

(** ** [SnowflakeCLI]: the lockdown tracker *)

Module Cli.

(** [Snowflake.now(micro_time)]: [Math.floor(micro_time ? Date.now() :
    Date.now() / 1000)], for a clock [date_now] in milliseconds. *)
Definition now (micro_time : bool) (date_now : Z) : Z :=
  if micro_time then date_now else date_now / 1000.

(** An entry of [#lockdown], as the login handler writes it. *)
Record entry : Type := Entry { time : Z; attempts : Z }.

(** The fields of [SnowflakeCLI] the tracker uses: [#configs.lockdown],
    [#configs.cooldown], [#configs.max_login_attempt] and [#lockdown]. *)
Record cli : Type := MkCli {
  lockdown_mode : string;
  cooldown : Z;
  max_login_attempt : Z;
  lockdown : gmap string entry
}.

Definition with_lockdown (t : gmap string entry) (c : cli) : cli :=
  MkCli (lockdown_mode c) (cooldown c) (max_login_attempt c) t.

(** The inner [isLockedDown(s)] of [lockedDown]. *)
Definition isLockedDown (c : cli) (date_now : Z) (s : string) : bool :=
  match lockdown c !! s with
  | Some e =>
      if negb (time e =? 0)%Z && negb (attempts e =? 0)%Z then
        (now false date_now <=? time e)%Z
        && (attempts e >=? max_login_attempt c)%Z
      else false
  | None => false
  end.

(** [lockedDown(subject)]; [None] is the default [null]: any entry. *)
Definition lockedDown (c : cli) (date_now : Z) (subject : option string)
  : bool :=
  if (max_login_attempt c <=? 0)%Z then false
  else if negb ((lockdown_mode c =? "ip")%string
                || (lockdown_mode c =? "token")%string) then false
  else
    match subject with
    | Some s => isLockedDown c date_now s
    | None =>
        existsb (fun kv => isLockedDown c date_now (fst kv))
                (map_to_list (lockdown c))
    end.

(** The table update of the ["cli_server_login_attempt"] handler, for an
    attempt from [remoteAddress] ([None] when the socket has none) with
    [token].  Writing the [.lockdown] file and the login log do not touch
    the table. *)
Definition login_attempt (c : cli) (date_now : Z)
  (remoteAddress : option string) (success : bool) (token : string) : cli :=
  if (max_login_attempt c >? 0)%Z then
    if negb success then
      let subject :=
        if (lockdown_mode c =? "ip")%string then remoteAddress else Some token in
      match subject with
      | Some s =>
          let old := default 0 (attempts <$> lockdown c !! s) in
          let e := Entry (now false date_now + cooldown c * 1000) (old + 1) in
          with_lockdown (<[s := e]> (lockdown c)) c
      | None => c
      end
    else c
  else c.

(** Failed attempts of one client, one per clock value of [clocks]. *)
Definition failed_attempts (c : cli) (remoteAddress : option string)
  (token : string) (clocks : list Z) : cli :=
  foldl (fun c t => login_attempt c t remoteAddress false token) c clocks.

End Cli.

(** ** Decimal numerals *)

Module Dec.
Import Chars.

(** The decimal numeral of a natural number, without leading zeros:
    [Number.prototype.toString] on a non-negative safe integer. *)
Definition of_N (n : N) : string :=
  NilEmpty.string_of_uint (N.to_uint n).

(** The decimal numeral of an integer. *)
Definition of_Z (z : Z) : string :=
  match z with
  | Z0 => of_N 0
  | Zpos p => of_N (Npos p)
  | Zneg p => String "-" (of_N (Npos p))
  end.

(** The value of a string of decimal digits. *)
Definition to_N (digits : string) : option N :=
  option_map N.of_uint (NilEmpty.uint_of_string digits).

(** The longest prefix whose characters satisfy [p], and what follows. *)
Fixpoint span (p : ascii -> bool) (s : string) : string * string :=
  match s with
  | EmptyString => (EmptyString, EmptyString)
  | String c r =>
      if p c then let '(a, b) := span p r in (String c a, b)
      else (EmptyString, s)
  end.

End Dec.

(** ** Plain objects as dictionaries in enumeration order *)

Module Obj.
Import Chars.

(** The array index a property key denotes, if any: the canonical numeral
    of an integer below [2^32 - 1].  Such keys are enumerated first, in
    ascending order; all other keys follow in insertion order. *)
Definition array_index (k : string) : option N :=
  if Str.is_empty k || negb (Str.all is_digit k) then None
  else
    match Dec.to_N k with
    | Some n =>
        if (Dec.of_N n =? k)%string && (n <? 4294967295)%N then Some n
        else None
    | None => None
    end.

Section Dict.
Context {V : Type}.

Fixpoint has (k : string) (o : list (string * V)) : bool :=
  match o with
  | [] => false
  | (k', _) :: r => (k' =? k)%string || has k r
  end.

Fixpoint get (k : string) (o : list (string * V)) : option V :=
  match o with
  | [] => None
  | (k', v) :: r => if (k' =? k)%string then Some v else get k r
  end.

(** Assignment to a property that exists: the value changes in place. *)
Fixpoint replace (k : string) (v : V) (o : list (string * V))
  : list (string * V) :=
  match o with
  | [] => []
  | (k', v') :: r =>
      if (k' =? k)%string then (k', v) :: r else (k', v') :: replace k v r
  end.

(** A new array-index key [k] (denoting [n]) goes behind the smaller
    indices and before everything else. *)
Fixpoint insert_index (n : N) (k : string) (v : V) (o : list (string * V))
  : list (string * V) :=
  match o with
  | [] => [(k, v)]
  | (k', v') :: r =>
      match array_index k' with
      | Some n' =>
          if (n' <? n)%N then (k', v') :: insert_index n k v r
          else (k, v) :: o
      | None => (k, v) :: o
      end
  end.

(** [o[k] = v] *)
Definition set (k : string) (v : V) (o : list (string * V))
  : list (string * V) :=
  if has k o then replace k v o
  else
    match array_index k with
    | Some n => insert_index n k v o
    | None => o ++ [(k, v)]
    end.

(** The object obtained by assigning the pairs of [l] in order to [{}]. *)
Definition from_list (l : list (string * V)) : list (string * V) :=
  foldl (fun o kv => set (fst kv) (snd kv) o) [] l.

End Dict.

End Obj.

(** ** [JSON.stringify] and [JSON.parse] *)

Module Json.
Import Chars Values.

Definition dquote : ascii := ascii_of_N 34.
Definition backslash : ascii := ascii_of_N 92.

Definition hex_digit (n : N) : ascii :=
  if (n <? 10)%N then ascii_of_N (48 + n) else ascii_of_N (87 + n).

(** One code unit inside a string literal, as [QuoteJSONString] writes
    it. *)
Definition escape_char (c : ascii) : string :=
  let n := code c in
  if (n =? 8)%N then "\b"
  else if (n =? 9)%N then "\t"
  else if (n =? 10)%N then "\n"
  else if (n =? 12)%N then "\f"
  else if (n =? 13)%N then "\r"
  else if (n =? 34)%N then String backslash (String dquote EmptyString)
  else if (n =? 92)%N then String backslash (String backslash EmptyString)
  else if (n <? 32)%N then
    "\u00" ++ String (hex_digit (n / 16)) (String (hex_digit (n mod 16)) EmptyString)
  else String c EmptyString.

Fixpoint escape (s : string) : string :=
  match s with
  | EmptyString => EmptyString
  | String c r => escape_char c ++ escape r
  end.

Definition quote (s : string) : string :=
  String dquote (escape s ++ String dquote EmptyString).

Fixpoint join (sep : string) (parts : list string) : string :=
  match parts with
  | [] => EmptyString
  | [p] => p
  | p :: r => p ++ sep ++ join sep r
  end.

(** [JSON.stringify(value)] without indentation.  A [Buffer] is written
    through its [toJSON()]: an object with the fields [type] and [data].
    Numbers are written in decimal, which is what the engine does for the
    safe integers. *)
Fixpoint stringify (v : value) : string :=
  match v with
  | VNil => "null"
  | VBool true => "true"
  | VBool false => "false"
  | VNum n => Dec.of_Z n
  | VStr s => quote s
  | VBytes bs =>
      "{" ++ quote "type" ++ ":" ++ quote "Buffer" ++ "," ++ quote "data"
          ++ ":[" ++ join "," (map Dec.of_N bs) ++ "]}"
  | VSeq items => "[" ++ join "," (map stringify items) ++ "]"
  | VMap fields =>
      "{" ++ join "," (map (fun kv => quote (fst kv) ++ ":" ++ stringify (snd kv))
                           fields)
          ++ "}"
  end.

(** What reading a prefix of a text gives: a result and the rest of the
    text, a [SyntaxError], or a text whose reading is outside the model (a
    number that is not a safe integer, an escape for a code unit above
    255). *)
Inductive parsed (A : Type) : Type :=
| Ok (a : A) (rest : string)
| SyntaxError
| Unmodelled.
Arguments Ok {A} a rest.
Arguments SyntaxError {A}.
Arguments Unmodelled {A}.

Definition pmap {A B : Type} (f : A -> B) (p : parsed A) : parsed B :=
  match p with
  | Ok a rest => Ok (f a) rest
  | SyntaxError => SyntaxError
  | Unmodelled => Unmodelled
  end.

(** JSON white space: space, TAB, LF, CR. *)
Definition is_ws (c : ascii) : bool :=
  let n := code c in
  (n =? 32)%N || (n =? 9)%N || (n =? 10)%N || (n =? 13)%N.

Definition skip_ws (s : string) : string := Str.drop_while is_ws s.

(** The rest of a literal name ([null], [true], [false]). *)
Fixpoint expect {A : Type} (name : string) (s : string) (a : A) : parsed A :=
  match name with
  | EmptyString => Ok a s
  | String c name' =>
      match s with
      | String d s' => if Ascii.eqb c d then expect name' s' a else SyntaxError
      | EmptyString => SyntaxError
      end
  end.

(** The character a single-letter escape stands for. *)
Definition unescape (e : ascii) : option ascii :=
  let n := code e in
  if (n =? 34)%N then Some dquote
  else if (n =? 92)%N then Some backslash
  else if (n =? 47)%N then Some "/"%char
  else if (n =? 98)%N then Some (ascii_of_N 8)
  else if (n =? 102)%N then Some (ascii_of_N 12)
  else if (n =? 110)%N then Some (ascii_of_N 10)
  else if (n =? 114)%N then Some (ascii_of_N 13)
  else if (n =? 116)%N then Some (ascii_of_N 9)
  else None.

Definition hex_value (c : ascii) : option N :=
  let n := code c in
  if is_digit c then Some (n - 48)%N
  else if in_range 97 102 c then Some (n - 87)%N
  else if in_range 65 70 c then Some (n - 55)%N
  else None.

Definition hex4 (a b c d : ascii) : option N :=
  match hex_value a, hex_value b, hex_value c, hex_value d with
  | Some x, Some y, Some z, Some w => Some (((x * 16 + y) * 16 + z) * 16 + w)%N
  | _, _, _, _ => None
  end.

(** The characters of a string literal, after its opening quote. *)
Fixpoint parse_chars (s : string) : parsed string :=
  match s with
  | EmptyString => SyntaxError
  | String c r =>
      if (code c =? 34)%N then Ok EmptyString r
      else if (code c =? 92)%N then
        match r with
        | EmptyString => SyntaxError
        | String e r1 =>
            match unescape e with
            | Some c' => pmap (String c') (parse_chars r1)
            | None =>
                if (code e =? 117)%N then
                  match r1 with
                  | String h1 (String h2 (String h3 (String h4 r2))) =>
                      match hex4 h1 h2 h3 h4 with
                      | Some n =>
                          if (n <? 256)%N
                          then pmap (String (ascii_of_N n)) (parse_chars r2)
                          else Unmodelled
                      | None => SyntaxError
                      end
                  | _ => SyntaxError
                  end
                else SyntaxError
            end
        end
      else if (code c <? 32)%N then SyntaxError
      else pmap (String c) (parse_chars r)
  end.

(** The largest integer up to which every integer is a double. *)
Definition max_safe : N := 9007199254740992.

(** The digits of a number token, after its sign.  A leading zero is
    only allowed alone; a fraction or an exponent makes the number leave
    the model, and so does a magnitude above [2^53]. *)
Definition parse_digits (negative : bool) (s : string) : parsed value :=
  let '(digits, rest) := Dec.span is_digit s in
  match digits with
  | EmptyString => SyntaxError
  | String d ds =>
      if Ascii.eqb d "0" && negb (Str.is_empty ds) then SyntaxError
      else
        let continues :=
          match rest with
          | String c _ =>
              Ascii.eqb c "." || Ascii.eqb c "e" || Ascii.eqb c "E"
          | EmptyString => false
          end in
        if continues then Unmodelled
        else
          match Dec.to_N digits with
          | Some n =>
              if (n <=? max_safe)%N
              then Ok (VNum (if negative then - Z.of_N n else Z.of_N n)) rest
              else Unmodelled
          | None => Unmodelled
          end
  end.

(** A number token: an optional minus sign and digits. *)
Definition parse_number (s : string) : parsed value :=
  match s with
  | String c r => if Ascii.eqb c "-" then parse_digits true r
                  else parse_digits false s
  | EmptyString => SyntaxError
  end.

(** Values, array elements and object members.  [fuel] bounds the
    number of nested calls; a call spends at most two units for each
    character it reads, and [parse] below supplies that much. *)
Fixpoint parse_value (fuel : nat) (s : string) {struct fuel} : parsed value :=
  match fuel with
  | O => Unmodelled
  | S fuel =>
      match skip_ws s with
      | EmptyString => SyntaxError
      | String c r =>
          if Ascii.eqb c "n" then expect "ull" r VNil
          else if Ascii.eqb c "t" then expect "rue" r (VBool true)
          else if Ascii.eqb c "f" then expect "alse" r (VBool false)
          else if Ascii.eqb c dquote then pmap VStr (parse_chars r)
          else if Ascii.eqb c "[" then
            match skip_ws r with
            | String c' r' =>
                if Ascii.eqb c' "]" then Ok (VSeq []) r'
                else pmap VSeq (parse_elements fuel r)
            | EmptyString => SyntaxError
            end
          else if Ascii.eqb c "{" then
            match skip_ws r with
            | String c' r' =>
                if Ascii.eqb c' "}" then Ok (VMap []) r'
                else pmap (fun l => VMap (Obj.from_list l)) (parse_members fuel r)
            | EmptyString => SyntaxError
            end
          else if Ascii.eqb c "-" || is_digit c then parse_number (String c r)
          else SyntaxError
      end
  end
with parse_elements (fuel : nat) (s : string) {struct fuel}
  : parsed (list value) :=
  match fuel with
  | O => Unmodelled
  | S fuel =>
      match parse_value fuel s with
      | Ok v rest =>
          match skip_ws rest with
          | String c r =>
              if Ascii.eqb c "," then pmap (cons v) (parse_elements fuel r)
              else if Ascii.eqb c "]" then Ok [v] r
              else SyntaxError
          | EmptyString => SyntaxError
          end
      | SyntaxError => SyntaxError
      | Unmodelled => Unmodelled
      end
  end
with parse_members (fuel : nat) (s : string) {struct fuel}
  : parsed (list (string * value)) :=
  match fuel with
  | O => Unmodelled
  | S fuel =>
      match skip_ws s with
      | String c r =>
          if Ascii.eqb c dquote then
            match parse_chars r with
            | Ok k rest =>
                match skip_ws rest with
                | String c2 r2 =>
                    if Ascii.eqb c2 ":" then
                      match parse_value fuel r2 with
                      | Ok v rest2 =>
                          match skip_ws rest2 with
                          | String c3 r3 =>
                              if Ascii.eqb c3 ","
                              then pmap (cons (k, v)) (parse_members fuel r3)
                              else if Ascii.eqb c3 "}" then Ok [(k, v)] r3
                              else SyntaxError
                          | EmptyString => SyntaxError
                          end
                      | SyntaxError => SyntaxError
                      | Unmodelled => Unmodelled
                      end
                    else SyntaxError
                | EmptyString => SyntaxError
                end
            | SyntaxError => SyntaxError
            | Unmodelled => Unmodelled
            end
          else SyntaxError
      | EmptyString => SyntaxError
      end
  end.

(** What [JSON.parse(text)] does: a value, a thrown [SyntaxError], or a
    text outside the model. *)
Inductive result : Type :=
| Value (v : value)
| Throws
| Outside.

(** [JSON.parse(text)] *)
Definition parse (text : string) : result :=
  match parse_value (S (2 * String.length text)) text with
  | Ok v rest => if Str.is_empty (skip_ws rest) then Value v else Throws
  | SyntaxError => Throws
  | Unmodelled => Outside
  end.

(** The values [JSON.stringify] writes so that [JSON.parse] can read
    them back: no byte string anywhere, numbers that are safe integers, and
    mappings whose fields stand in the enumeration order of an object
    (assigning them one by one to an empty object gives them back). *)
Fixpoint representable (v : value) : Prop :=
  match v with
  | VNil | VBool _ | VStr _ => True
  | VNum n => (- Z.of_N max_safe <= n <= Z.of_N max_safe)%Z
  | VBytes _ => False
  | VSeq items =>
      (fix all (l : list value) : Prop :=
         match l with
         | [] => True
         | x :: r => representable x /\ all r
         end) items
  | VMap fields =>
      Obj.from_list fields = fields
      /\ (fix all (l : list (string * value)) : Prop :=
            match l with
            | [] => True
            | kv :: r => representable (snd kv) /\ all r
            end) fields
  end.

End Json.

(** ** [SnowflakeAol]: the text codec, the instruction parser, the writer *)

Module Aol.
Import Chars Values.

Definition newline : ascii := ascii_of_N 10.

(** [SnowflakeAol.stringify(input)] *)
Definition stringify (input : value) : string :=
  match input with
  | VSeq _ | VStr _ | VMap _ | VBytes _ => Json.stringify input
  | VNil => "N"
  | VBool true => "T"
  | VBool false => "F"
  | VNum n => Dec.of_Z n
  end.

(** [String.prototype.trim] *)
Definition trim (s : string) : string :=
  Str.drop_while_end is_space (Str.drop_while is_space s).

(** What [Number(input)] is for a string: an integer of the model, [NaN],
    or a number outside the model (a fraction, an exponent, a radix
    prefix, an infinity, a magnitude above [2^53]); a text that starts like
    a number and does not consist of digits is left undecided. *)
Inductive number : Type :=
| Integer (n : Z)
| NaN
| OtherNumber.

Definition to_number (input : string) : number :=
  match trim input with
  | EmptyString => Integer 0
  | String c r =>
      let '(negative, body) :=
        if Ascii.eqb c "-" then (true, r)
        else if Ascii.eqb c "+" then (false, r)
        else (false, String c r) in
      if (body =? "Infinity")%string then OtherNumber
      else
        match body with
        | EmptyString => NaN
        | String d _ =>
            if is_digit d || Ascii.eqb d "." then
              if Str.all is_digit body then
                match Dec.to_N body with
                | Some n =>
                    if (n <=? Json.max_safe)%N
                    then Integer (if negative then - Z.of_N n else Z.of_N n)
                    else OtherNumber
                | None => OtherNumber
                end
              else OtherNumber
            else NaN
        end
  end.

(** [SnowflakeAol.parse(input)]; [None] when the result is outside the
    model. *)
Definition parse (input : string) : option value :=
  if (input =? "N")%string || (input =? "n")%string then Some VNil
  else if (input =? "T")%string || (input =? "t")%string then Some (VBool true)
  else if (input =? "F")%string || (input =? "f")%string then Some (VBool false)
  else
    match Json.parse input with
    | Json.Value v => Some v
    | Json.Outside => None
    | Json.Throws =>
        match to_number input with
        | Integer n => Some (VNum n)
        | NaN => Some (VStr input)
        | OtherNumber => None
        end
    end.

(** The keys of one value in the [Map] of [encodeSets]: a new value opens
    a group behind the others, a known one gets the key appended. *)
Fixpoint group_add (stringValue key : string)
  (groups : list (string * list string)) : list (string * list string) :=
  match groups with
  | [] => [(stringValue, [key])]
  | (s, keys) :: r =>
      if (s =? stringValue)%string then (s, (keys ++ [key])%list) :: r
      else (s, keys) :: group_add stringValue key r
  end.

(** [SnowflakeAol.encodeSets(data)] *)
Definition encodeSets (data : list (string * value)) : string :=
  let valueToKeysMap :=
    foldl (fun groups kv => group_add (stringify (snd kv)) (fst kv) groups)
          [] data in
  Json.join (String newline EmptyString)
    (map (fun g => Json.join "<" (snd g) ++ "<" ++ fst g) valueToKeysMap).

(** [SnowflakeAol.encodeRemoval(keys)] *)
Definition encodeRemoval (keys : list string) : string :=
  Json.join (String newline EmptyString) (map (fun key => "#" ++ key) keys).

(** [s.split(sep)] for a separator of one character. *)
Fixpoint split (sep : ascii) (s : string) : list string :=
  match s with
  | EmptyString => [EmptyString]
  | String c r =>
      if Ascii.eqb c sep then EmptyString :: split sep r
      else
        match split sep r with
        | p :: ps => String c p :: ps
        | [] => [String c EmptyString]
        end
  end.

(** An instruction of a backup file: the pair [("set", {key: value, ...})]
    or [("remove", [keys])] of the array [parseInstructions] returns. *)
Inductive instruction : Type :=
| ISet (currentSet : list (string * value))
| IRemove (keysToRemove : list string).

Definition starts_with (c : ascii) (s : string) : bool :=
  match s with
  | String d _ => Ascii.eqb d c
  | EmptyString => false
  end.

(** [key.slice(1)] *)
Definition slice1 (s : string) : string :=
  match s with
  | String _ r => r
  | EmptyString => EmptyString
  end.

(** The body of the [lines.forEach] callback: the instructions one trimmed
    line contributes. *)
Definition instructions_of_line (line : string) : option (list instruction) :=
  if starts_with ";" line || Str.is_empty line then Some []
  else if starts_with "#" line then
    let keysToRemove :=
      map slice1 (List.filter (fun k => negb (Str.is_empty k))
                              (split " " line)) in
    Some [IRemove keysToRemove]
  else
    let parts := split "<" line in
    match parse (List.last parts EmptyString) with
    | Some value =>
        let currentSet :=
          foldl (fun o key => Obj.set key value o) [] (removelast parts) in
        Some [ISet currentSet]
    | None => None
    end.

(** The lines [parseInstructions] works on: split at line feeds, trimmed,
    empty ones dropped. *)
Definition lines_of (input : string) : list string :=
  List.filter (fun line => negb (Str.is_empty line))
              (map trim (split newline input)).

Fixpoint collect (lines : list string) : option (list instruction) :=
  match lines with
  | [] => Some []
  | line :: r =>
      match instructions_of_line line, collect r with
      | Some a, Some b => Some (a ++ b)%list
      | _, _ => None
      end
  end.

(** [SnowflakeAol.parseInstructions(input)]; [None] when a value is
    outside the model. *)
Definition parseInstructions (input : string) : option (list instruction) :=
  collect (lines_of input).

(** The fields of a [SnowflakeAol] instance the writer uses.  The file
    descriptor is the path that was opened for appending. *)
Record aol : Type := MkAol {
  path : string;
  current_file_name : option string;
  file_path : string;
  file_descriptor : option string;
  queue : list (string * value);
  instructions_changed : bool
}.

(** [new SnowflakeAol(database_path)] *)
Definition create (database_path : string) : aol :=
  MkAol database_path None EmptyString None [] false.

(** [add(key, value)] *)
Definition add (key : string) (value : value) (a : aol) : aol :=
  MkAol (path a) (current_file_name a) (file_path a) (file_descriptor a)
        (Obj.set key value (queue a)) true.

(** [rotate()] at clock [date_now] (milliseconds). *)
Definition rotate (date_now : Z) (a : aol) : aol :=
  match current_file_name a with
  | None =>
      MkAol (path a) (Some (Dec.of_Z (date_now / 1000) ++ ".sfb"))
            (file_path a) (file_descriptor a) (queue a)
            (instructions_changed a)
  | Some _ => a
  end.

(** The files of the database directory: path to content. *)
Definition disk : Type := gmap string string.

(** [#make()]: the current file is opened for appending, which creates
    it when it does not exist.  [path.join] is modelled for a directory
    without a trailing separator. *)
Definition make (a : aol) (d : disk) : aol * disk :=
  match current_file_name a with
  | Some name =>
      let p := path a ++ "/" ++ name in
      (MkAol (path a) (current_file_name a) p (Some p) (queue a)
             (instructions_changed a),
       match d !! p with
       | Some _ => d
       | None => <[p := EmptyString]> d
       end)
  | None => (a, d)
  end.

(** [worker()]: [rotate()], [#make()]; [#jobs()] then arms the timer. *)
Definition worker (date_now : Z) (a : aol) (d : disk) : aol * disk :=
  make (rotate date_now a) d.

(** One firing of the interval callback of [#jobs()]. *)
Definition job (a : aol) (d : disk) : aol * disk :=
  if negb (instructions_changed a) then (a, d)
  else
    match queue a, file_descriptor a with
    | [], _ => (a, d)
    | _ :: _, Some fd =>
        let text := encodeSets (queue a) ++ String newline EmptyString in
        (MkAol (path a) (current_file_name a) (file_path a)
               (file_descriptor a) [] false,
         <[fd := default EmptyString (d !! fd) ++ text]> d)
    | _ :: _, None => (a, d)
    end.

(** The ["message"] handler of [worker_aol.js]; the boolean is the
    [success] field of the reply. *)
Definition on_message (a : aol) (data : Core.request) : aol * bool :=
  if (Core.action data =? "set")%string then
    if Str.is_empty (Core.req_key data) then (a, false)
    else (add (Core.req_key data) (Core.req_value data) a, true)
  else (a, false).

End Aol.

(** ** Replay into the core ([SnowflakeCoreHelper.loadDatabase]) *)

Module CoreHelper.
Import Values Core Aol.

Section WithCodec.

Variable sha256 : string -> string.
Variable encoded_length : Values.value -> Z.

(** [sanitizeValue(value)] *)
Definition sanitizeValue (v : Values.value) : Values.value := v.

(** One pair of the instruction array, as [restore_backup] applies it. *)
Definition apply_instruction (st : core) (i : instruction) : core :=
  match i with
  | ISet data =>
      foldl (fun st kv =>
               snd (Core.setUnsafe sha256 encoded_length
                      (Sanitize.sanitizeKey (fst kv) false)
                      (sanitizeValue (snd kv)) st))
            st data
  | IRemove data =>
      foldl (fun st k => snd (Core.remove sha256 k st)) st data
  end.

(** [restore_backup(file)] on the content of the file; [None] when the
    content holds a value outside the model. *)
Definition restore_backup (content : string) (st : core) : option core :=
  match parseInstructions content with
  | Some instructions => Some (foldl apply_instruction st instructions)
  | None => None
  end.

End WithCodec.

End CoreHelper.

(** ** Start-up: the files of the database directory, the replay of the
    backups *)

Module Startup.
Import Chars Values Core Aol.

(** What is left of [s] behind [prefix], when [s] starts with it. *)
Fixpoint strip (prefix s : string) : option string :=
  match prefix with
  | EmptyString => Some s
  | String c p =>
      match s with
      | String d r => if Ascii.eqb c d then strip p r else None
      | EmptyString => None
      end
  end.

(** [s.startsWith(prefix)] *)
Definition startsWith (prefix s : string) : bool :=
  match strip prefix s with
  | Some _ => true
  | None => false
  end.

(** A match of [\d+] followed by [suffix], up to the end of [s]. *)
Definition numbered (suffix s : string) : bool :=
  let '(digits, rest) := Dec.span is_digit s in
  negb (Str.is_empty digits) && (rest =? suffix)%string.

(** [file_pattern.test(file_name)] for the pattern
    [/^(meid-\d+\.sfd|key-\d+\.sfk|\d+\.sfb)$/]. *)
Definition file_pattern (file_name : string) : bool :=
  match strip "meid-" file_name with
  | Some r => numbered ".sfd" r
  | None => false
  end
  || match strip "key-" file_name with
     | Some r => numbered ".sfk" r
     | None => false
     end
  || numbered ".sfb" file_name.

Record database_files : Type := DatabaseFiles {
  meids_files : list string;
  keys_files : list string;
  backup_files : list string
}.

(** The body of the loop of [getDatabaseFiles()]. *)
Definition push_file (files : database_files) (file_name : string)
  : database_files :=
  if file_pattern file_name then
    if startsWith "meid-" file_name then
      DatabaseFiles (meids_files files ++ [file_name])
                    (keys_files files) (backup_files files)
    else if startsWith "key-" file_name then
      DatabaseFiles (meids_files files) (keys_files files ++ [file_name])
                    (backup_files files)
    else
      DatabaseFiles (meids_files files) (keys_files files)
                    (backup_files files ++ [file_name])
  else files.

(** [getDatabaseFiles()] on the names [fs.readdirSync] lists. *)
Definition getDatabaseFiles (names : list string) : database_files :=
  foldl push_file (DatabaseFiles [] [] []) names.

(** [[...new Set(list)]]: the first occurrence of each name, in order. *)
Fixpoint unique (seen l : list string) : list string :=
  match l with
  | [] => []
  | x :: r =>
      if existsb (String.eqb x) seen then unique seen r
      else x :: unique (x :: seen) r
  end.

(** The getter [backupFiles]. *)
Definition backupFiles (backups : list string) : list string :=
  unique [] backups.

Section WithCodec.

Variable sha256 : string -> string.
Variable encoded_length : Values.value -> Z.

(** The closure [restore_backup(file)] of [loadDatabase]: a file that
    does not exist is passed over.  [Snowflake.resolvePath] is modelled
    for a database path without a trailing separator. *)
Definition restore_file (db_path : string) (d : disk) (st : core)
           (file : string) : option core :=
  match d !! (db_path ++ "/" ++ file) with
  | Some content =>
      CoreHelper.restore_backup sha256 encoded_length content st
  | None => Some st
  end.

End WithCodec.

End Startup.

(** ** [SnowflakeCLI]: the command line, the registry, [exec] *)

Module CommandLine.
Import Chars Values.

(** The class [\S], on the code units below 256. *)
Definition non_space (c : ascii) : bool := negb (is_space c).

Definition squote : ascii := ascii_of_N 39.

(** The text up to the next [q], and what follows that [q]. *)
Fixpoint until (q : ascii) (s : string) : option (string * string) :=
  match s with
  | EmptyString => None
  | String c r =>
      if Ascii.eqb c q then Some (EmptyString, r)
      else
        match until q r with
        | Some (text, rest) => Some (String c text, rest)
        | None => None
        end
  end.

(** A run of [\S] cut at its last [=] that has something behind it. *)
Fixpoint cut_at_equals (run : string) : option (string * string) :=
  match run with
  | EmptyString => None
  | String c r =>
      match cut_at_equals r with
      | Some (k, v) => Some (String c k, v)
      | None =>
          if Ascii.eqb c "=" && negb (Str.is_empty r)
          then Some (EmptyString, r)
          else None
      end
  end.

(** [(\S+)=(\S+)] on a run of [\S], both groups as long as backtracking
    leaves them: the first one reaches up to the last [=] that leaves
    something on either side. *)
Definition option_with_value (run : string) : option (string * string) :=
  match cut_at_equals run with
  | Some (k, v) => if Str.is_empty k then None else Some (k, v)
  | None => None
  end.

(** A match of the pattern of [parseCommand], by the alternative that
    matched, with its groups: a text between double quotes, a text
    between single quotes, [--(\S+)=(\S+)], [--(\S+)], [-(\S)] or
    [(\S+)]. *)
Inductive token : Type :=
| Quoted (q : ascii) (text : string)
| OptionValue (k v : string)
| LongOption (k : string)
| ShortOption (c : ascii)
| Plain (s : string).

(** [match[0]]: the text that was matched. *)
Definition raw (m : token) : string :=
  match m with
  | Quoted q text => String q (text ++ String q EmptyString)
  | OptionValue k v => "--" ++ k ++ "=" ++ v
  | LongOption k => "--" ++ k
  | ShortOption c => String "-" (String c EmptyString)
  | Plain s => s
  end.

(** The match at the start of [String c r], by the first alternative
    that matches there, and the text behind it; [None] when no
    alternative matches, which is the case at white space only. *)
Definition match_at (c : ascii) (r : string) : option (token * string) :=
  let plain :=
    let '(run, rest) := Dec.span non_space (String c r) in
    Some (Plain run, rest) in
  if Ascii.eqb c Json.dquote || Ascii.eqb c squote then
    match until c r with
    | Some (text, rest) => Some (Quoted c text, rest)
    | None => plain
    end
  else if Ascii.eqb c "-" then
    match r with
    | EmptyString => plain
    | String d r2 =>
        if is_space d then plain
        else if Ascii.eqb d "-" then
          let '(run, rest) := Dec.span non_space r2 in
          if Str.is_empty run then Some (ShortOption d, r2)
          else
            match option_with_value run with
            | Some (k, v) => Some (OptionValue k v, rest)
            | None => Some (LongOption run, rest)
            end
        else Some (ShortOption d, r2)
    end
  else if is_space c then None
  else plain.

(** [[...input.matchAll(regex)]]: a match is followed by the search
    behind it, a position without a match is passed over.  Every step
    takes at least one character: the length of the input is fuel
    enough. *)
Fixpoint matchAll (fuel : nat) (s : string) : list token :=
  match fuel with
  | O => []
  | S fuel =>
      match s with
      | EmptyString => []
      | String c r =>
          match match_at c r with
          | Some (m, rest) => m :: matchAll fuel rest
          | None => matchAll fuel r
          end
      end
  end.

(** The value of an option: [true] or the text behind [=]. *)
Inductive option_value : Type :=
| OTrue
| OText (s : string).

(** The object [parseCommand] returns. *)
Record parsed : Type := Parsed {
  command : string;
  args : list string;
  options : list (string * option_value)
}.

(** The callback of [matches.forEach]. *)
Definition collect (result : parsed) (m : token) : parsed :=
  if Str.is_empty (command result) then
    Parsed (raw m) (args result) (options result)
  else
    match m with
    | OptionValue k v =>
        Parsed (command result) (args result)
               (Obj.set k (OText v) (options result))
    | LongOption k =>
        Parsed (command result) (args result) (Obj.set k OTrue (options result))
    | ShortOption c =>
        Parsed (command result) (args result)
               (Obj.set (String c EmptyString) OTrue (options result))
    | Quoted _ text =>
        if Str.is_empty text then result
        else Parsed (command result) (args result ++ [text]) (options result)
    | Plain s =>
        Parsed (command result) (args result ++ [s]) (options result)
    end.

(** [parseCommand(input)] *)
Definition parseCommand (input : string) : parsed :=
  foldl collect (Parsed EmptyString [] [])
        (matchAll (S (String.length input)) input).

(** What a callback does: it returns, it throws, or it leaves the
    model. *)
Inductive outcome (A : Type) : Type :=
| Returned (a : A)
| Threw
| Unmodelled.
Arguments Returned {A} a.
Arguments Threw {A}.
Arguments Unmodelled {A}.

(** What [exec] returns: the array [[message, value, status, output]],
    an element that was left [undefined] being [None]; the array
    [[e.toString(), null, 5, null]] of the [catch] clauses, whose text is
    not modelled; or a result outside the model. *)
Inductive reply : Type :=
| Reply (message value status output : option Values.value)
| Failed
| Outside.

Section Registry.

(** What the callbacks of the commands work on. *)
Context {S : Type}.

(** An entry of [#commands]: its two callbacks.  (The entry also keeps
    the texts [help] and [usage] and the flag [internal], which only the
    [help] command reads.)  A validation callback reads the state; an
    execution callback may change it, and returns an array ([Some]) or
    something else ([None]). *)
Record handler : Type := Handler {
  validate : parsed -> S -> bool;
  exec_callback : parsed -> S -> outcome (option (list Values.value)) * S
}.

(** The callbacks of the argument [data] of [command]; [None] when
    [data] has none. *)
Record data : Type := Data {
  data_validate : option (parsed -> S -> bool);
  data_exec :
    option (parsed -> S -> outcome (option (list Values.value)) * S)
}.

(** [#commands] and [#aliases]. *)
Record cli : Type := Cli {
  commands : gmap string handler;
  aliases : gmap string string
}.

(** [getOriginalCommand(command_name)] *)
Definition getOriginalCommand (c : cli) (command_name : string) : string :=
  default command_name (aliases c !! command_name).

(** [alias(alias_name, target_command)] *)
Definition alias (alias_name target_command : string) (c : cli) : cli :=
  Cli (commands c) (<[alias_name := target_command]> (aliases c)).

(** [command(command, data)]: the entry built from [data] is overlaid
    with the entry that [#commands[command]] holds already, field by
    field, and stored under the original name.  An entry holds every
    field, so that an old entry stays as it is.  The command name
    [__proto__] is outside the model. *)
Definition register (name : string) (d : data) (c : cli) : cli :=
  let fresh :=
    Handler (default (fun _ _ => true) (data_validate d))
            (default (fun _ st =>
                        (Returned (Some [VStr EmptyString; VNil; VNum 0; VNil]),
                         st))
                     (data_exec d)) in
  Cli (<[getOriginalCommand c name := default fresh (commands c !! name)]>
         (commands c))
      (aliases c).

(** The array [exec] answers for a name it does not know. *)
Definition not_found : reply :=
  Reply (Some (VStr "Command not found")) (Some VNil) (Some (VNum 3))
        (Some VNil).

(** [exec(input, shell)].  Under the name [__proto__] the empty object
    [#commands] holds its prototype, an object without callbacks. *)
Definition exec (c : cli) (input : string) (st : S) : reply * S :=
  let command_data := parseCommand input in
  let name := command command_data in
  if Str.is_empty name then (not_found, st)
  else
    match commands c !! name with
    | None =>
        if (name =? "__proto__")%string
        then (Reply (Some (VStr EmptyString)) (Some VNil) (Some (VNum 0))
                    (Some VNil), st)
        else (not_found, st)
    | Some h =>
        if negb (validate h command_data st) then
          (Reply (Some (VStr ("command is not valid"
                               ++ String Aol.newline
                                    ("try: 'help " ++ name ++ "'"
                                     ++ String Aol.newline EmptyString))))
                 (Some VNil) (Some (VNum 4)) (Some VNil), st)
        else
          match exec_callback h command_data st with
          | (Returned (Some response), st) =>
              (Reply (response !! 0%nat) (response !! 1%nat)
                     (response !! 2%nat) (response !! 3%nat), st)
          | (Returned None, st) =>
              (Reply (Some (VStr EmptyString)) (Some VNil) (Some (VNum 0))
                     (Some VNil), st)
          | (Threw, st) => (Failed, st)
          | (Unmodelled, st) => (Outside, st)
          end
    end.

End Registry.

Arguments handler : clear implicits.
Arguments data : clear implicits.
Arguments cli : clear implicits.

End CommandLine.

(** ** The commands of [SnowflakeCoreHelper.init()] *)

Module Commands.
Import Chars Values Core CommandLine.

(** [words.join(" ")] *)
Definition join_words (words : list string) : string := Json.join " " words.

(** [n > 1 ? many : one] *)
Definition plural (n : Z) (one many : string) : string :=
  if (n >? 1)%Z then many else one.

(** [options.hasOwnProperty(short) || options.hasOwnProperty(long)] *)
Definition has_option (short long : string) (p : parsed) : bool :=
  Obj.has short (options p) || Obj.has long (options p).

(** [String.prototype.toLowerCase] on the letters [A] to [Z]; it is
    only used to compare a word with [key] and [value], which no other
    code unit below 256 is lowered to. *)
Definition lower (c : ascii) : ascii :=
  if is_upper c then ascii_of_N (code c + 32) else c.

(** [Object.entries(parsedItem)] for what [JSON.parse] returned; [None]
    when it throws, which it does on [null]. *)
Definition entries_of (v : Values.value) : option (list (string * Values.value)) :=
  match v with
  | VMap fields => Some fields
  | VSeq items =>
      Some (imap (fun i x => (Dec.of_N (N.of_nat i), x)) items)
  | VStr s =>
      Some (imap (fun i c => (Dec.of_N (N.of_nat i),
                              VStr (String c EmptyString)))
                 (list_ascii_of_string s))
  | VNum _ | VBool _ => Some []
  | VNil => None
  | VBytes _ => None
  end.

(** The arguments taken two by two; a last one without a partner is
    left out. *)
Fixpoint pairs (args : list string) : list (string * string) :=
  match args with
  | k :: v :: r => (k, v) :: pairs r
  | _ => []
  end.

Section WithCodec.

Variable sha256 : string -> string.
Variable encoded_length : Values.value -> Z.

(** [this.get(key, Snowflake.DUMMY.UNDEF)]: the symbol, which no entry
    can hold, is [None]. *)
Definition get_undef (k : string) (st : core)
  : option Values.value * core :=
  let '(h, st) := Core.sha256_cached sha256 k true st in
  (Core.lookupValue h st, st).

(** The [validate] callback of [get], [set] and [delete]. *)
Definition some_args (p : parsed) (_ : core) : bool :=
  (0 <? Z.of_nat (List.length (args p)))%Z.

(** The [exec] callback of [get]. *)
Definition get_exec (p : parsed) (st : core)
  : outcome (option (list Values.value)) * core :=
  let useJson := has_option "j" "json" p in
  match args p with
  | [] => (Threw, st)
  | [a] =>
      let key := Sanitize.sanitizeKey a false in
      match get_undef key st with
      | (None, st) =>
          (Returned (Some [VStr "key doesn't exist"; VNil; VNum 6]), st)
      | (Some v, st) =>
          (Returned (Some [VStr EmptyString;
                           if useJson then VMap [("key", v)] else v;
                           VNum 0; VBool true]), st)
      end
  | _ =>
      let '(values, st) :=
        foldl (fun acc k =>
                 let key := Sanitize.sanitizeKey k false in
                 match get_undef key (snd acc) with
                 | (Some v, st) => (Obj.set key v (fst acc), st)
                 | (None, st) => (fst acc, st)
                 end)
              ([], st) (args p) in
      let entries := Z.of_nat (List.length values) in
      if (entries =? 0)%Z then
        (Returned (Some [VStr "keys don't exist"; VNil; VNum 6]), st)
      else
        (Returned (Some [VStr ("found " ++ Dec.of_Z entries ++ " entr"
                                ++ plural entries "y" "ies");
                         VMap values; VNum 0; VBool true]), st)
  end.

(** The counters of the [exec] callback of [set], and its [setItem]. *)
Record tally : Type := Tally { updates : Z; news : Z; store : core }.

Definition setItem (t : tally) (kv : string * Values.value) : tally :=
  let '(result, st) :=
    Core.set sha256 encoded_length (fst kv) (snd kv) (store t) in
  if (result =? 1)%Z then Tally (updates t + 1) (news t) st
  else if (result =? 2)%Z then Tally (updates t) (news t + 1) st
  else Tally (updates t) (news t) st.

(** One argument of [set] in JSON mode; [None] when [JSON.parse] leaves
    the model. *)
Definition set_json_item (t : option tally) (item : string) : option tally :=
  match t with
  | None => None
  | Some t =>
      match Json.parse item with
      | Json.Value v =>
          match entries_of v with
          | Some entries => Some (foldl setItem t entries)
          | None => Some t
          end
      | Json.Throws => Some t
      | Json.Outside => None
      end
  end.

(** The [exec] callback of [set]. *)
Definition set_exec (p : parsed) (st : core)
  : outcome (option (list Values.value)) * core :=
  match args p with
  | [] => (Returned (Some [VStr "value missing"; VNum 0; VBool true]), st)
  | [a] =>
      (Returned (Some [VStr ("value missing" ++ " for key: '" ++ a ++ "'");
                       VNum 0; VBool true]), st)
  | _ =>
      let counted :=
        if has_option "j" "json" p then
          foldl set_json_item (Some (Tally 0 0 st)) (args p)
        else
          Some (foldl (fun t kv => setItem t (fst kv, VStr (snd kv)))
                      (Tally 0 0 st) (pairs (args p))) in
      match counted with
      | None => (Unmodelled, st)
      | Some t =>
          let msg :=
            (if (updates t >? 0)%Z then
               Dec.of_Z (updates t) ++ " entr" ++ plural (updates t) "y" "ies"
               ++ " updated" ++ String Aol.newline EmptyString
             else EmptyString)
            ++ (if (news t >? 0)%Z then
                  Dec.of_Z (news t) ++ " entr" ++ plural (news t) "y" "ies"
                  ++ " inserted"
                else EmptyString) in
          (Returned (Some [VStr (Aol.trim msg); VNum (updates t + news t);
                           VNum 0]), store t)
      end
  end.

(** The [exec] callback of [delete].  Without an argument it calls
    [remove(undefined)], which is outside the model. *)
Definition delete_exec (p : parsed) (st : core)
  : outcome (option (list Values.value)) * core :=
  match args p with
  | [] => (Unmodelled, st)
  | [a] =>
      let '(success, st) := Core.remove sha256 a st in
      (Returned (Some [VStr (if success then "1 item deleted"
                             else "Deletion failed");
                       VBool success;
                       VNum (if success then 0 else 5)]), st)
  | _ =>
      let '(removed, failed, st) :=
        foldl (fun acc item =>
                 let '(removed, failed, st) := acc in
                 let '(success, st) := Core.remove sha256 item st in
                 if success then (removed + 1, failed, st)
                 else (removed, failed + 1, st))
              (0, 0, st) (args p) in
      let deleted :=
        if (removed =? 0)%Z then []
        else [Dec.of_Z removed ++ " item" ++ plural removed "" "s"
              ++ " deleted"] in
      let not_deleted :=
        if (failed =? 0)%Z then []
        else [Dec.of_Z failed ++ " item" ++ plural failed "" "s"
              ++ " failed"] in
      let msg := (deleted ++ not_deleted)%list in
      let msg := match msg with [] => ["completed"] | _ => msg end in
      (Returned (Some [VStr (Json.join ", " msg); VNum removed; VNum 0]), st)
  end.

(** The [validate] callback of [sanitize]. *)
Definition two_args (p : parsed) (_ : core) : bool :=
  (1 <? Z.of_nat (List.length (args p)))%Z.

(** The [exec] callback of [sanitize]. *)
Definition sanitize_exec (p : parsed) (st : core)
  : outcome (option (list Values.value)) * core :=
  let '(type, rest) :=
    match args p with
    | [] => ("undefined", [])
    | t :: rest => (Str.map lower t, rest)
    end in
  let value :=
    if (type =? "key")%string then
      Sanitize.sanitizeKey (join_words rest) (has_option "t" "trim" p)
    else if (type =? "value")%string then join_words rest
    else EmptyString in
  (Returned (Some [VStr EmptyString; VStr value; VNum 0; VBool true]), st).

(** The registrations of [init()], on top of the registry [c]. *)
Definition init (c : cli core) : cli core :=
  register "sanitize" (Data (Some two_args) (Some sanitize_exec))
    (alias "remove" "delete"
       (register "delete" (Data (Some some_args) (Some delete_exec))
          (register "set" (Data (Some some_args) (Some set_exec))
             (register "get" (Data (Some some_args) (Some get_exec)) c)))).

End WithCodec.

End Commands.

(** ** The files of the shards: headers, generation, validation *)

Module Files.
Import Chars Startup.

(** A buffer is the list of its bytes, each below 256. *)
Definition alloc (size : nat) : list N := replicate size 0%N.

(** The [size] bytes of [n], most significant first. *)
Fixpoint be (size : nat) (n : N) : list N :=
  match size with
  | O => []
  | S k => be k (n / 256) ++ [(n mod 256)%N]
  end.

(** [readUInt16BE()], [readBigUInt64BE()] on a buffer of that size. *)
Definition unbe (bytes : list N) : N :=
  foldl (fun acc b => (acc * 256 + b)%N) 0%N bytes.

(** The bytes [bytes] written into [buffer] from [offset] on; the callers
    write inside the buffer. *)
Definition write_at (offset : nat) (bytes buffer : list N) : list N :=
  take offset buffer ++ bytes ++ drop (offset + length bytes) buffer.

(** [this.subarray(start, start + length)] *)
Definition sf_capture (start length : nat) (buffer : list N) : list N :=
  take length (drop start buffer).

(** The UTF-8 bytes of a code unit below 256. *)
Definition utf8_char (c : ascii) : list N :=
  let n := N_of_ascii c in
  if (n <? 128)%N then [n] else [(192 + n / 64)%N; (128 + n mod 64)%N].

(** The bytes [buffer.write(s, offset)] writes when [room] bytes are left:
    the characters that fit as a whole. *)
Fixpoint utf8_fit (room : nat) (s : string) : list N :=
  match s with
  | EmptyString => []
  | String c r =>
      let b := utf8_char c in
      if (length b <=? room)%nat then b ++ utf8_fit (room - length b) r
      else []
  end.

Definition HDR_FULL_SIZE : nat := 256.

Module HDR_SIZE.
Definition VERSION_CODE : nat := 2.
Definition SIGNATURE : nat := 8.
Definition DATA : nat := 128.
Definition TIME : nat := 8.
End HDR_SIZE.

Module HDR_POS.
Definition VERSION_CODE : nat := 0.
Definition SIGNATURE : nat := 2.
Definition DATA : nat := 128.
Definition TIME : nat := 128.
End HDR_POS.

Module FILE_STATES.
Definition READY : Z := 0.
Definition NEW : Z := 1.
Definition FAINT : Z := 2.
Definition isReady (state : Z) : bool :=
  (state =? READY)%Z || (state =? NEW)%Z.
End FILE_STATES.

(** The files of the database directory, by name: [path.join(db_path, name)]
    is the file [name].  Permissions ([chmodSync]) are not modelled. *)
Abbreviation directory := (gmap string (list N)) (only parsing).

Definition existsSync (file : string) (d : directory) : bool :=
  match d !! file with
  | Some _ => true
  | None => false
  end.

Record file_data : Type := FileData {
  index : Z;
  name : string;
  exists_ : bool;
  state : Z
}.

Section WithConfig.

(** [appConfig.meid_version] and [appConfig.signature] of [app.json]. *)
Variable meid_version : Z.
Variable signature : string.

(** [SnowflakeCoreHelper.getHeader()] at the time [date_now] (in
    milliseconds).  [None]: [writeUInt16BE] throws, the version does not
    fit two bytes; or the time is outside the range of [Date]. *)
Definition getHeader (date_now : Z) : option (list N) :=
  let version := Z.max meid_version 1 in
  if ((65535 <? version) || (date_now <? 0)
      || (8640000000000000 <? date_now))%Z
  then None
  else
    let buffer := alloc 256 in
    let buffer :=
      write_at HDR_POS.VERSION_CODE (be 2 (Z.to_N version)) buffer in
    let buffer :=
      write_at HDR_POS.TIME (be 8 (Z.to_N (date_now / 1000))) buffer in
    let buffer :=
      write_at HDR_POS.SIGNATURE
               (utf8_fit (256 - HDR_POS.SIGNATURE) signature) buffer in
    Some buffer.

(** [SnowflakeCoreHelper.matchHeaders(buffer, header)] with a header
    given. *)
Definition matchHeaders (buffer header : list N) : bool :=
  bool_decide (take HDR_POS.DATA buffer = take HDR_POS.DATA header).

(** The names of the two files of shard [i]. *)
Definition meid_name (i : N) : string := "meid-" ++ Dec.of_N i ++ ".sfd".
Definition key_name (i : N) : string := "key-" ++ Dec.of_N i ++ ".sfk".

(** The variables of [initMeidsAndKeys()] its first loop changes. *)
Record generation : Type := Generation {
  meids : list (string * file_data);
  keys : list (string * file_data);
  header : option (list N);
  header_check : bool;
  files : directory
}.

(** The body of the first loop, for shard [i]: a file that is missing is
    written with the header, which is made once, when the first file is
    found missing.  [None]: [getHeader()] throws. *)
Definition generate (date_now : Z) (g : generation) (i : N)
  : option generation :=
  let meid_exists := existsSync (meid_name i) (files g) in
  let key_exists := existsSync (key_name i) (files g) in
  let made :=
    if negb meid_exists || negb key_exists then
      match header g with
      | None =>
          match getHeader date_now with
          | Some h => Some (Some h, false)
          | None => None
          end
      | Some h => Some (Some h, header_check g)
      end
    else Some (header g, header_check g) in
  match made with
  | None => None
  | Some (hdr, check) =>
      (* a file is written only behind the branch that made the header *)
      let content := default [] hdr in
      let fs := files g in
      let fs := if meid_exists then fs else <[meid_name i := content]> fs in
      let fs := if key_exists then fs else <[key_name i := content]> fs in
      let file_state :=
        if meid_exists then FILE_STATES.READY else FILE_STATES.NEW in
      Some (Generation
              (Obj.set (meid_name i)
                       (FileData (Z.of_N i) (meid_name i) meid_exists
                                 file_state) (meids g))
              (Obj.set (key_name i)
                       (FileData (Z.of_N i) (key_name i) key_exists
                                 file_state) (keys g))
              hdr check fs)
  end.

(** [parseInt(file.replaceAll(/^(meid|key)-/g, ""))] on a name of the
    listing, where digits follow the prefix; [None] is NaN.  The number is
    exact below 2^53. *)
Definition file_index (file : string) : option N :=
  let rest :=
    match strip "meid-" file with
    | Some r => r
    | None =>
        match strip "key-" file with
        | Some r => r
        | None => file
        end
    end in
  let digits := fst (Dec.span is_digit rest) in
  if Str.is_empty digits then None else Dec.to_N digits.

(** The body of the second loop: a listed file whose index is beyond the
    shards in use is marked as faint. *)
Definition mark_faint (meids_count : Z)
           (mk : list (string * file_data) * list (string * file_data))
           (file : string)
  : list (string * file_data) * list (string * file_data) :=
  match file_index file with
  | Some n =>
      if (meids_count - 1 <? Z.of_N n)%Z then
        let data := FileData (Z.of_N n) file true FILE_STATES.FAINT in
        if startsWith "meid-" file then (Obj.set file data (fst mk), snd mk)
        else (fst mk, Obj.set file data (snd mk))
      else mk
  | None => mk
  end.

(** [Object.assign(target, source)] *)
Definition assign (target source : list (string * file_data))
  : list (string * file_data) :=
  foldl (fun o kv => Obj.set (fst kv) (snd kv) o) target source.

(** The body of the loop of [validateHeaders()]: the first 256 bytes of the
    file, zeros where the file is shorter, are matched with the valid
    header.  [None]: the file cannot be opened. *)
Definition validate_file (meids_data : list (string * file_data))
           (d : directory) (valid_header : list N)
           (is_valid : option bool) (file_name : string) : option bool :=
  match is_valid with
  | None => None
  | Some ok =>
      match d !! file_name with
      | None => None
      | Some content =>
          let ready :=
            match Obj.get file_name meids_data with
            | Some data => FILE_STATES.isReady (state data)
            | None => false
            end in
          let header := take 256 (content ++ alloc 256) in
          let valid := matchHeaders header valid_header in
          Some (if negb valid && ready then false else ok)
      end
  end.

(** How a call ends that hands back nothing of interest: it returns, it
    throws, or it ends the process ([process.exit(code)]). *)
Inductive ending : Type :=
| Returns
| Throws
| Exits (code : Z).

(** [validateHeaders()].  With [is_valid] false behind the loop it calls
    [logger.assert(text)], and that ends the process:
    [process.exit(exit)] with [exit = 1]. *)
Definition validateHeaders (listed : list string)
           (meids_data : list (string * file_data)) (d : directory)
           (date_now : Z) : ending :=
  match getHeader date_now with
  | None => Throws
  | Some valid_header =>
      match foldl (validate_file meids_data d valid_header) (Some true)
                  listed with
      | Some true => Returns
      | Some false => Exits 1
      | None => Throws
      end
  end.

(** What [initMeidsAndKeys()] leaves behind when it returns: the fields it
    sets, the directory, and in [headers_valid] whether
    [validateHeaders()] was called: [Some true] when it was (it returned,
    so every header it checked was valid), [None] when it was not. *)
Record shards : Type := Shards {
  meids_size : Z;
  meids_data : list (string * file_data);
  keys_data : list (string * file_data);
  headers_valid : option bool;
  directory_of : directory
}.

(** [initMeidsAndKeys()] with [count] for [yaml.getInt("meids.count")] and
    [names] for the listing of the directory.  [getHeader()] is called at
    most once, in the first loop or in [validateHeaders()].  [None]: the
    call does not return, on an exception or because [validateHeaders()]
    ends the process. *)
Definition initMeidsAndKeys (count : Z) (names : list string)
           (date_now : Z) (d : directory) : option shards :=
  let listing := getDatabaseFiles names in
  let meids_count := Z.max count (-1) in
  let meids_count :=
    if (meids_count <=? 0)%Z
    then Z.max (Z.of_nat (length (meids_files listing))) 1
    else meids_count in
  match foldl (fun acc i =>
                 match acc with
                 | Some g => generate date_now g i
                 | None => None
                 end)
              (Some (Generation [] [] None true d))
              (map N.of_nat (seq 0 (Z.to_nat meids_count))) with
  | None => None
  | Some g =>
      let listed := (meids_files listing ++ keys_files listing)%list in
      let mk := foldl (mark_faint meids_count) (meids g, keys g) listed in
      let all := assign (fst mk) (snd mk) in
      if header_check g then
        match validateHeaders listed all (files g) date_now with
        | Returns =>
            Some (Shards meids_count all (snd mk) (Some true) (files g))
        | Throws | Exits _ => None
        end
      else Some (Shards meids_count all (snd mk) None (files g))
  end.

End WithConfig.

End Files.

(** ** Loading the database: the files of the shards, then the backups *)

Module Loading.
Import Chars Startup.

(** [buffer.toString("hex")] *)
Definition hex_digit (n : N) : ascii :=
  ascii_of_N (if (n <? 10)%N then 48 + n else 87 + n).

Definition hex (buffer : list N) : string :=
  foldr (fun b s =>
           String (hex_digit (b / 16)) (String (hex_digit (b mod 16)) s))
        EmptyString buffer.

(** One block of a file of a shard, read from the bytes that are left: the
    digest, the size, the payload (shorter than the size where the file
    ends before) and the bytes behind the block.  [None]: [readUInt32BE]
    throws, fewer than four bytes are left for the size. *)
Definition read_block (data : list N)
  : option (list N * Z * list N * list N) :=
  let hash := take 32 data in
  let data := drop 32 data in
  if (length data <? 4)%nat then None
  else
    let size := Files.unbe (take 4 data) in
    let data := drop 4 data in
    Some (hash, Z.of_N size, take (N.to_nat size) data,
          drop (N.to_nat size) data).

Section WithCodec.

Variable sha256 : string -> string.
Variable encoded_length : Values.value -> Z.

(** [Snowflake.fromBuffer(buffer)], the MessagePack decoder; [None] when
    it throws or when the value is outside the model. *)
Variable fromBuffer : list N -> option Values.value.

(** The loops [while (pos < data.length)] of [loadDatabaseFile]: [data] is
    what is left from [pos] on.  Every block takes 36 bytes or more, so
    that a [fuel] of the length of [data] is never used up.  [None]: an
    exception ([readUInt32BE], the decoder, or a key that is no string,
    on which [sanitizeKey] throws). *)
Fixpoint load_blocks (fuel : nat) (is_meid : bool) (index pos : Z)
         (data : list N) (st : Core.core) : option Core.core :=
  match data with
  | [] => Some st
  | _ :: _ =>
      match fuel with
      | O => None
      | S fuel =>
          match read_block data with
          | None => None
          | Some (hash, size, payload, rest) =>
              match fromBuffer payload with
              | None => None
              | Some decoded =>
                  if is_meid then
                    load_blocks fuel is_meid index (pos + 36 + size) rest
                                (Core.setLookupValue (hex hash) decoded st)
                  else
                    match decoded with
                    | Values.VStr key =>
                        let st :=
                          if (sha256 (Sanitize.sanitizeKey key false)
                              =? hex hash)%string
                          then Core.setLookupKey key index size pos
                                                 (hex hash) st
                          else st in
                        load_blocks fuel is_meid index (pos + 36 + size)
                                    rest st
                    | _ => None
                    end
              end
          end
      end
  end.

(** [loadDatabaseFile(file_path, index, is_meid)] for the file [file_name]
    of the database directory.  [None]: an exception (of [readFileSync]
    when the file is not there, or of the loop). *)
Definition loadDatabaseFile (dir : gmap string (list N))
           (file_name : string) (index : Z) (is_meid : bool)
           (st : Core.core) : option Core.core :=
  match dir !! file_name with
  | None => None
  | Some buffer =>
      if (256 <=? length buffer)%nat then
        let data := Files.sf_capture 256 (length buffer - 256) buffer in
        load_blocks (length data) is_meid index 0 data st
      else Some st
  end.

(** The entries of [{...this.#meids_data, ...this.#keys_data}]. *)
Definition database_files (meids_data keys_data : list (string * Files.file_data))
  : list (string * Files.file_data) :=
  Files.assign (Files.assign [] meids_data) keys_data.

(** [SnowflakeCore.loadDatabase()], which [SnowflakeCoreHelper] calls as
    [super.loadDatabase()]: every file that is ready is loaded. *)
Definition super_loadDatabase
           (meids_data keys_data : list (string * Files.file_data))
           (dir : gmap string (list N)) (st : Core.core)
  : option Core.core :=
  foldl (fun acc entry =>
           match acc with
           | Some st =>
               if Files.FILE_STATES.isReady (Files.state (snd entry)) then
                 loadDatabaseFile dir (fst entry) (Files.index (snd entry))
                                  (startsWith "meid-" (fst entry)) st
               else Some st
           | None => None
           end)
        (Some st) (database_files meids_data keys_data).

(** [SnowflakeCoreHelper.loadDatabase()]: the files of the shards are
    loaded, the backups are replayed in the order of the listing, then
    the free list is sorted in place by [size].  The files of the shards
    are in [dir], by name; the backups in [d], by path. *)
Definition loadDatabase
           (meids_data keys_data : list (string * Files.file_data))
           (dir : gmap string (list N)) (db_path : string) (d : Aol.disk)
           (backups : list string) (st : Core.core) : option Core.core :=
  match super_loadDatabase meids_data keys_data dir st with
  | None => None
  | Some st =>
      let files := backupFiles backups in
      match foldl (fun acc file =>
                     match acc with
                     | Some st =>
                         restore_file sha256 encoded_length db_path d st file
                     | None => None
                     end) (Some st) files with
      | Some st =>
          let t := Core.tables st in
          Some (Core.with_tables
                  (Core.Lookup (Core.key t) (Core.value t)
                               (RangeQuery.sortBy "size" (Core.trash t)))
                  st)
      | None => None
      end
  end.

End WithCodec.

End Loading.

(** ** [SnowflakeShell]: the handler of incoming data, up to the call of
    [exec] *)

Module Shell.
Import Chars Startup Cli.

(** The names every plain object inherits from [Object.prototype]; what
    they hold is a function, or for [__proto__] the prototype itself. *)
Definition prototype_names : list string :=
  [ "constructor"; "__defineGetter__"; "__defineSetter__"; "hasOwnProperty";
    "__lookupGetter__"; "__lookupSetter__"; "isPrototypeOf";
    "propertyIsEnumerable"; "toString"; "valueOf"; "__proto__";
    "toLocaleString" ].

(** An entry of [access_keys] in [app.json]: an object that may hold an
    alias and a limit of connections.  Entries that are no objects are
    outside the model. *)
Record access_key : Type := AccessKey {
  alias : option string;
  max_connections : option Z
}.

(** What [authenticate] hands out when it is not [false]: an entry of
    [access_keys], or what the object inherits under that name. *)
Inductive auth : Type :=
| Keyed (k : access_key)
| Inherited.

(** [authenticate(access_token)]:
    [(appConfig.access_keys ?? {})[access_token] ?? false], with [None] for
    [false].  The lookup follows the prototype of the object. *)
Definition authenticate (access_keys : gmap string access_key)
           (access_token : string) : option auth :=
  match access_keys !! access_token with
  | Some k => Some (Keyed k)
  | None =>
      if existsb (String.eqb access_token) prototype_names
      then Some Inherited else None
  end.

(** [auth.max_connections || -1] *)
Definition connection_limit (a : auth) : Z :=
  match a with
  | Keyed k =>
      match max_connections k with
      | Some n => if (n =? 0)%Z then -1 else n
      | None => -1
      end
  | Inherited => -1
  end.

(** [auth.alias || "user"] *)
Definition alias_of (a : auth) : string :=
  match a with
  | Keyed k =>
      match alias k with
      | Some s => if Str.is_empty s then "user" else s
      | None => "user"
      end
  | Inherited => "user"
  end.

(** [Snowflake.isTrue(value)] on a string. *)
Definition isTrue (value : string) : bool :=
  existsb (String.eqb (Str.map Commands.lower value))
          ["true"; "1"; "yes"; "on"; "y"].

(** The fields of a shell the handler reads and writes; [access] is [None]
    while [#access] is falsy, and [lockdown_reported] is the variable of
    that name of [#init]. *)
Record shell : Type := MkShell {
  access : option auth;
  user_alias : string;
  token : option string;
  mode : string;
  timing : bool;
  max_input_size : Z;
  lockdown_reported : bool
}.

Definition with_reported (b : bool) (sh : shell) : shell :=
  MkShell (access sh) (user_alias sh) (token sh) (mode sh) (timing sh)
          (max_input_size sh) b.

Definition with_mode (m : string) (sh : shell) : shell :=
  MkShell (access sh) (user_alias sh) (token sh) m (timing sh)
          (max_input_size sh) (lockdown_reported sh).

Definition with_timing (b : bool) (sh : shell) : shell :=
  MkShell (access sh) (user_alias sh) (token sh) (mode sh) b
          (max_input_size sh) (lockdown_reported sh).

(** The fields of [SnowflakeCLI] the handler and the listeners of its
    events use: the lockdown tracker and [#sessions]. *)
Record server : Type := Server {
  cli : Cli.cli;
  sessions : gmap string Z
}.

(** [tokenSessions(token)] *)
Definition tokenSessions (sv : server) (token : string) : Z :=
  default 0 (sessions sv !! token).

(** What reaches the socket: a message of [send] (its action and status
    code), the prompt, the banner behind an authorization, the end of the
    connection.  The texts are not modelled. *)
Inductive effect : Type :=
| Message (action : string) (status_code : Z)
| Prompt (br : Z)
| Banner
| Destroyed.

(** [send(action, ...)]: something is written in the modes [echo] and
    [json]. *)
Definition send (sh : shell) (action : string) (status_code : Z)
  : list effect :=
  if (mode sh =? "echo")%string || (mode sh =? "json")%string
  then [Message action status_code] else [].

(** [sendState(state, value, status_code)] *)
Definition sendState (sh : shell) (state : string) (status_code : Z)
  : list effect :=
  if (mode sh =? "echo")%string then [] else send sh state status_code.

(** [writePrompt(br)] *)
Definition writePrompt (sh : shell) (br : Z) : list effect :=
  if (mode sh =? "echo")%string then [Prompt br] else [].

(** The listener of ["cli_server_login_attempt"]: the table of the
    tracker.  [None]: a failure counted against the subject [__proto__],
    which the listener writes into [Object.prototype]. *)
Definition login_attempt_event (sv : server) (date_now : Z)
           (remoteAddress : option string) (success : bool) (token : string)
  : option server :=
  let subject :=
    if (lockdown_mode (cli sv) =? "ip")%string then remoteAddress
    else Some token in
  if negb success && (max_login_attempt (cli sv) >? 0)%Z
     && match subject with
        | Some s => (s =? "__proto__")%string
        | None => false
        end
  then None
  else
    Some (Server (Cli.login_attempt (cli sv) date_now remoteAddress success
                                    token)
                 (sessions sv)).

(** The listener of ["cli_server_shell_authorized"]. *)
Definition shell_authorized_event (sv : server) (token : string) : server :=
  Server (cli sv) (<[token := tokenSessions sv token + 1]> (sessions sv)).

(** The listener of ["cli_server_connection_end"]: the session of the
    token of the shell, when it has one, is given back. *)
Definition connection_end_event (sv : server) (sh : shell) : server :=
  match token sh with
  | Some t =>
      match sessions sv !! t with
      | Some n => Server (cli sv) (<[t := Z.max (n - 1) 0]> (sessions sv))
      | None => sv
      end
  | None => sv
  end.

(** The readings of the clock during one event: in [lockedDown(remote_ip)],
    in [lockedDown(command)] and in the listener of the login attempts. *)
Record clock : Type := Clock {
  at_address : Z;
  at_token : Z;
  at_attempt : Z
}.

(** How the handler ends: it returns, or it goes on to
    [this.#cli.exec(command, this)], or it leaves the model. *)
Inductive result : Type :=
| Handled (sh : shell) (sv : server) (out : list effect)
| Executes (command : string) (sh : shell) (sv : server)
| Outside.

(** [report_lockdown()] *)
Definition report_lockdown (sh : shell) (sv : server) (command : string)
           (remote_ip : option string) (t : clock) (out : list effect)
  : result :=
  if lockdown_reported sh then Handled sh sv out
  else
    match login_attempt_event sv (at_attempt t) remote_ip false command with
    | Some sv => Handled (with_reported true sh) sv out
    | None => Outside
    end.

(** The branch of a shell without access: [command] is taken as an access
    token. *)
Definition authorize (access_keys : gmap string access_key)
           (sh : shell) (sv : server) (command : string)
           (remote_ip : option string) (is_locked_down : bool) (t : clock)
  : result :=
  let rejected :=
    let out := send sh "authorize_again" 2 in
    if is_locked_down then report_lockdown sh sv command remote_ip t out
    else
      match login_attempt_event sv (at_attempt t) remote_ip false command with
      | Some sv => Handled sh sv out
      | None => Outside
      end in
  match authenticate access_keys command with
  | Some a =>
      if is_locked_down then rejected
      else if Cli.lockedDown (cli sv) (at_token t) (Some command) then
        report_lockdown sh sv command remote_ip t []
      else
        let limit := connection_limit a in
        if negb (limit =? -1)%Z && (limit <=? tokenSessions sv command)%Z
        then
          let out := (sendState sh "full_room" (-2) ++ [Destroyed])%list in
          let sv := connection_end_event sv sh in
          match login_attempt_event sv (at_attempt t) remote_ip false
                                    command with
          | Some sv => Handled sh sv out
          | None => Outside
          end
        else
          let out := send sh "clear" 0 in
          let sh :=
            MkShell (access sh) (alias_of a) (token sh) (mode sh) (timing sh)
                    (max_input_size sh) (lockdown_reported sh) in
          let sv := shell_authorized_event sv command in
          match login_attempt_event sv (at_attempt t) remote_ip true
                                    command with
          | Some sv =>
              let out := (out ++ sendState sh "authorized" (-2))%list in
              let out :=
                if (mode sh =? "echo")%string
                then (out ++ [Banner] ++ writePrompt sh 0)%list else out in
              Handled (MkShell (Some a) (user_alias sh) (Some command)
                               (mode sh) (timing sh) (max_input_size sh)
                               (lockdown_reported sh))
                      sv out
          | None => Outside
          end
  | None => rejected
  end.

(** The listener of ["data"] for the text [data] of the chunk, from the
    address [remote_ip] ([None] when the socket has none). *)
Definition on_data (access_keys : gmap string access_key)
           (sh : shell) (sv : server) (data : string)
           (remote_ip : option string) (t : clock) : result :=
  let command := Aol.trim data in
  let size_limit := max_input_size sh in
  if (size_limit >? 0)%Z && (Z.of_nat (String.length command) >? size_limit)%Z
  then Handled sh sv (send sh "size_limit" 9 ++ writePrompt sh 1)%list
  else
    let is_locked_down :=
      match remote_ip with
      | Some ip =>
          negb (Str.is_empty ip)
          && Cli.lockedDown (cli sv) (at_address t) (Some ip)
      | None => false
      end in
    let sh := if is_locked_down then sh else with_reported false sh in
    if (command =? "@json")%string || (command =? "@echo")%string then
      let m := default command (strip "@" command) in
      let sh := with_mode m sh in
      Handled sh sv (sendState sh "mode_changed" (-3) ++ writePrompt sh 1)%list
    else if startsWith "@timing" command then
      let m := Aol.trim (default command (strip "@timing" command)) in
      let sh := with_timing (isTrue m) sh in
      Handled sh sv (send sh "response" 0 ++ writePrompt sh 1)%list
    else if (command =? "clear")%string || (command =? "cls")%string then
      Handled sh sv (send sh "clear" 0 ++ writePrompt sh 0)%list
    else
      match access sh with
      | None => authorize access_keys sh sv command remote_ip is_locked_down t
      | Some _ =>
          if (command =? "")%string then Handled sh sv (writePrompt sh 0)
          else Executes command sh sv
      end.

End Shell.

(** ** Where a plain object is a dictionary *)

Module Plain.
Import Values Core.

(** [k] is a name every plain object inherits from [Object.prototype].  A
    read of such a name finds a function (or the prototype) where the
    object has no property of its own, and an assignment to [__proto__]
    replaces the prototype instead of adding a property.  The lookup
    tables, the queue of the writer and the table of the lockdown tracker
    are plain objects: they are the finite maps of the model for the
    other names. *)
Definition inherited (k : string) : bool :=
  existsb (String.eqb k) Shell.prototype_names.

(** The key table has the prototype it was created with: nothing was
    assigned to its [__proto__]. *)
Definition unspoiled (st : core) : Prop :=
  key (tables st) !! "__proto__" = None.

(** No [Buffer] anywhere inside: the values [worker.postMessage] hands
    over as they are (a [Buffer] arrives as a [Uint8Array]). *)
Fixpoint buffer_free (v : Values.value) : bool :=
  match v with
  | VNil | VBool _ | VNum _ | VStr _ => true
  | VBytes _ => false
  | VSeq items =>
      (fix all (l : list Values.value) : bool :=
         match l with
         | [] => true
         | x :: r => buffer_free x && all r
         end) items
  | VMap fields =>
      (fix all (l : list (string * Values.value)) : bool :=
         match l with
         | [] => true
         | kv :: r => buffer_free (snd kv) && all r
         end) fields
  end.

(** An instruction of a backup whose keys are no names that objects
    inherit; for [set] both as the line has them and sanitized. *)
Definition ordinary_instruction (i : Aol.instruction) : bool :=
  match i with
  | Aol.ISet data =>
      forallb (fun kv => negb (inherited (fst kv))
                         && negb (inherited (Sanitize.sanitizeKey (fst kv) false)))
              data
  | Aol.IRemove data => forallb (fun k => negb (inherited k)) data
  end.

(** The backup [file] of the directory [db_path], when it exists and is
    understood, holds such instructions only. *)
Definition ordinary_backup (db_path : string) (d : Aol.disk) (file : string)
  : bool :=
  match d !! (db_path ++ "/" ++ file) with
  | Some content =>
      match Aol.parseInstructions content with
      | Some instructions => forallb ordinary_instruction instructions
      | None => true
      end
  | None => true
  end.

End Plain.

(** * Part II: properties *)

(** ** Properties of [sanitizeKey] *)

Module SanitizeFacts.
Import Chars Sanitize.

Lemma all_filter p s : Str.all p (Str.filter p s) = true.
Proof.
  induction s as [|c r IH]; simpl; [reflexivity|].
  destruct (p c) eqn:E; simpl; [rewrite E|]; auto.
Qed.

Lemma filter_fixed p s : Str.all p s = true -> Str.filter p s = s.
Proof.
  induction s as [|c r IH]; simpl; [reflexivity|].
  intros [Hc Hr]%andb_true_iff. rewrite Hc, IH; auto.
Qed.

Lemma filter_append p a b :
  Str.filter p (a ++ b) = Str.filter p a ++ Str.filter p b.
Proof.
  induction a as [|c r IH]; simpl; [reflexivity|].
  destruct (p c); simpl; rewrite IH; reflexivity.
Qed.

Lemma map_append f a b : Str.map f (a ++ b) = Str.map f a ++ Str.map f b.
Proof. induction a as [|c r IH]; simpl; [|rewrite IH]; reflexivity. Qed.

Lemma key_char_not_space c : is_key_char c = true -> is_space c = false.
Proof. destruct c as [[] [] [] [] [] [] [] []]; vm_compute; congruence. Qed.

Lemma replace_spaces_fixed s :
  Str.all is_key_char s = true -> replace_spaces s = s.
Proof.
  unfold replace_spaces.
  induction s as [|c r IH]; simpl; [reflexivity|].
  intros [Hc Hr]%andb_true_iff.
  rewrite (key_char_not_space _ Hc). f_equal. apply IH, Hr.
Qed.

Lemma all_drop_while p q s :
  Str.all p s = true -> Str.all p (Str.drop_while q s) = true.
Proof.
  induction s as [|c r IH]; simpl; [reflexivity|].
  intros H. pose proof H as [Hc Hr]%andb_true_iff.
  destruct (q c); simpl; [auto|]. exact H.
Qed.

Lemma all_drop_while_end p q s :
  Str.all p s = true -> Str.all p (Str.drop_while_end q s) = true.
Proof.
  induction s as [|c r IH]; simpl; [reflexivity|].
  intros [Hc Hr]%andb_true_iff. specialize (IH Hr).
  destruct (Str.drop_while_end q r) as [|d r'].
  - destruct (q c); simpl; [reflexivity|]. rewrite Hc. reflexivity.
  - change (Str.all p (String c (String d r')) = true).
    simpl in *. rewrite Hc. exact IH.
Qed.

Lemma first_drop_while p s c :
  Str.first (Str.drop_while p s) = Some c -> p c = false.
Proof.
  induction s as [|d r IH]; simpl; [discriminate|].
  destruct (p d) eqn:E; simpl; [exact IH|].
  intros [= <-]. exact E.
Qed.

Lemma last_drop_while_end p s c :
  Str.last (Str.drop_while_end p s) = Some c -> p c = false.
Proof.
  induction s as [|d r IH]; simpl; [discriminate|].
  destruct (Str.drop_while_end p r) as [|e r'] eqn:E.
  - destruct (p d) eqn:Ed; simpl; [discriminate|]. intros [= <-]. exact Ed.
  - intros H. apply IH. exact H.
Qed.

(** Dropping a suffix keeps the first character when something is left. *)
Lemma first_drop_while_end p s c :
  Str.first (Str.drop_while_end p s) = Some c -> Str.first s = Some c.
Proof.
  destruct s as [|d r]; simpl; [discriminate|].
  destruct (Str.drop_while_end p r); [destruct (p d)|]; simpl; congruence.
Qed.

Lemma drop_while_fixed p s :
  (forall c, Str.first s = Some c -> p c = false) -> Str.drop_while p s = s.
Proof.
  destruct s as [|d r]; simpl; [reflexivity|].
  intros H. rewrite (H d eq_refl). reflexivity.
Qed.

Lemma drop_while_end_fixed p s :
  (forall c, Str.last s = Some c -> p c = false) ->
  Str.drop_while_end p s = s.
Proof.
  induction s as [|d r IH]; simpl; [reflexivity|].
  intros H. destruct r as [|e r'].
  - simpl. rewrite (H d eq_refl). reflexivity.
  - rewrite IH by exact H. reflexivity.
Qed.

Lemma trim_underscores_fixed s :
  (forall c, Str.first s = Some c -> is_underscore c = false) ->
  (forall c, Str.last s = Some c -> is_underscore c = false) ->
  trim_underscores s = s.
Proof.
  intros Hf Hl. unfold trim_underscores.
  rewrite (drop_while_fixed _ _ Hf). apply drop_while_end_fixed, Hl.
Qed.

Lemma trim_underscores_first s c :
  Str.first (trim_underscores s) = Some c -> is_underscore c = false.
Proof.
  intros H%first_drop_while_end. exact (first_drop_while _ _ _ H).
Qed.

Lemma trim_underscores_last s c :
  Str.last (trim_underscores s) = Some c -> is_underscore c = false.
Proof. apply last_drop_while_end. Qed.

Lemma sanitizeKey_key_chars key trim :
  Str.all is_key_char (sanitizeKey key trim) = true.
Proof.
  unfold sanitizeKey, strip_illegal, trim_underscores.
  destruct trim; [|apply all_filter].
  apply all_drop_while_end, all_drop_while, all_filter.
Qed.

Lemma sanitizeKey_idempotent key trim :
  sanitizeKey (sanitizeKey key trim) trim = sanitizeKey key trim.
Proof.
  pose proof (sanitizeKey_key_chars key trim) as Hall.
  set (k := sanitizeKey key trim) in *.
  unfold sanitizeKey at 1.
  rewrite (replace_spaces_fixed _ Hall).
  unfold strip_illegal. rewrite (filter_fixed _ _ Hall).
  destruct trim; [|reflexivity].
  apply trim_underscores_fixed; subst k; unfold sanitizeKey.
  - apply trim_underscores_first.
  - apply trim_underscores_last.
Qed.

Lemma sanitizeKey_space a c b :
  is_space c = true ->
  sanitizeKey (a ++ String c b) false =
  sanitizeKey a false ++ String underscore (sanitizeKey b false).
Proof.
  intros Hc. unfold sanitizeKey, replace_spaces, strip_illegal.
  rewrite map_append, filter_append. simpl. rewrite Hc. reflexivity.
Qed.

(** C9.  [sanitizeKey] is idempotent for either value of [trim]; every
    character of its output lies in [A-Za-z0-9_-]; a whitespace character
    of the input shows up as ['_'] in the output; and with [trim = true]
    the output neither starts nor ends with ['_']. *)
Theorem sanitizeKey_spec :
  forall key : string,
    (forall trim, sanitizeKey (sanitizeKey key trim) trim = sanitizeKey key trim)
    /\ (forall trim, Str.all is_key_char (sanitizeKey key trim) = true)
    /\ (forall a c b, key = a ++ String c b -> is_space c = true ->
          sanitizeKey key false =
          sanitizeKey a false ++ String underscore (sanitizeKey b false))
    /\ Str.first (sanitizeKey key true) <> Some underscore
    /\ Str.last (sanitizeKey key true) <> Some underscore.
Proof.
  intros key. split; [|split; [|split; [|split]]].
  - intros trim. apply sanitizeKey_idempotent.
  - intros trim. apply sanitizeKey_key_chars.
  - intros a c b -> Hc. apply sanitizeKey_space, Hc.
  - intros H. apply trim_underscores_first in H. discriminate.
  - intros H. apply trim_underscores_last in H. discriminate.
Qed.

Example sanitizeKey_ex1 : sanitizeKey " my key!_" false = "_my_key_".
Proof. reflexivity. Qed.

Example sanitizeKey_ex2 : sanitizeKey " my key!_" true = "my_key".
Proof. reflexivity. Qed.

End SanitizeFacts.

(** ** The shard selector [nextMeid] *)

Module ShardFacts.
Import Values Core.

(** The state after [k] calls of [nextMeid]. *)
Fixpoint after_calls (k : nat) (st : core) : core :=
  match k with
  | O => st
  | S k' => snd (nextMeid (after_calls k' st))
  end.

(** The shard index returned by the [k]-th call ([k >= 1]). *)
Definition kth_call (k : nat) (st : core) : Z :=
  fst (nextMeid (after_calls (k - 1) st)).

Lemma meids_size_after k st : meids_size (after_calls k st) = meids_size st.
Proof.
  induction k as [|k IH]; simpl; [reflexivity|].
  unfold nextMeid.
  destruct (meids_size (after_calls k st) <=? 1)%Z; simpl; exact IH.
Qed.

Lemma succ_mod (k m : Z) :
  0 <= k -> 0 < m ->
  (k + 1) mod m = if (k mod m + 1 =? m)%Z then 0 else k mod m + 1.
Proof.
  intros Hk Hm.
  pose proof (Z.mod_pos_bound k m Hm) as Hr.
  pose proof (Z.div_mod k m ltac:(lia)) as Hd.
  destruct (k mod m + 1 =? m)%Z eqn:E.
  - apply Z.eqb_eq in E. symmetry.
    apply (Z.mod_unique_pos _ _ (k / m + 1) 0); lia.
  - apply Z.eqb_neq in E. symmetry.
    apply (Z.mod_unique_pos _ _ (k / m)); lia.
Qed.

(** With [n >= 2] shards the counter has period [n + 1], not [n]: after
    [k] calls it holds [k mod (n + 1) - 1]. *)
Lemma current_meid_after n monitor cap (k : nat) :
  2 <= n ->
  current_meid (after_calls k (fresh n monitor cap))
  = Z.of_nat k mod (n + 1) - 1.
Proof.
  intros Hn. induction k as [|k IH].
  - simpl. rewrite Z.mod_0_l by lia. reflexivity.
  - cbn [after_calls]. unfold nextMeid.
    rewrite meids_size_after. cbn [fresh meids_size].
    destruct (n <=? 1)%Z eqn:E1; [apply Z.leb_le in E1; lia|].
    cbn [snd with_current_meid current_meid]. rewrite IH.
    rewrite Nat2Z.inj_succ, <- Z.add_1_r.
    rewrite (succ_mod (Z.of_nat k) (n + 1)) by lia.
    pose proof (Z.mod_pos_bound (Z.of_nat k) (n + 1) ltac:(lia)).
    destruct (Z.of_nat k mod (n + 1) + 1 =? n + 1)%Z eqn:E2;
      [apply Z.eqb_eq in E2 | apply Z.eqb_neq in E2];
      destruct (Z.of_nat k mod (n + 1) - 1 + 1 >=? n)%Z eqn:E3; lia.
Qed.

(** What the [k]-th call returns on a store with [n >= 2] shards. *)
Lemma kth_call_formula n monitor cap (k : nat) :
  2 <= n -> (1 <= k)%nat ->
  kth_call k (fresh n monitor cap)
  = Z.max (Z.of_nat k mod (n + 1) - 1) 0.
Proof.
  intros Hn Hk. unfold kth_call.
  assert (Hret : forall st, (meids_size st <=? 1)%Z = false ->
            fst (nextMeid st) = Z.max (current_meid (snd (nextMeid st))) 0).
  { intros st E. unfold nextMeid. rewrite E. reflexivity. }
  rewrite Hret.
  - change (snd (nextMeid (after_calls (k - 1) (fresh n monitor cap))))
      with (after_calls (S (k - 1)) (fresh n monitor cap)).
    replace (S (k - 1)) with k by lia.
    rewrite current_meid_after by lia. reflexivity.
  - rewrite meids_size_after. cbn [fresh meids_size].
    apply Z.leb_gt. lia.
Qed.

(** X1.  The first [n] calls on a fresh store with [n >= 1] shards hand
    out the shards [0, 1, ..., n - 1] in this order, one each: the [k]-th
    call returns [k - 1] for [1 <= k <= n]. *)
Lemma first_round n monitor cap (k : nat) :
  1 <= n -> (1 <= k)%nat -> Z.of_nat k <= n ->
  kth_call k (fresh n monitor cap) = Z.of_nat k - 1.
Proof.
  intros Hn Hk Hkn.
  destruct (Z.eq_dec n 1) as [->|Hne].
  - unfold kth_call, nextMeid. rewrite meids_size_after. simpl. lia.
  - rewrite kth_call_formula by lia.
    rewrite Z.mod_small by lia. lia.
Qed.

Lemma first_round_witness :
  1 <= 3 /\ (1 <= 3)%nat /\ Z.of_nat 3 <= 3
  /\ kth_call 3 (fresh 3 false None) = Z.of_nat 3 - 1.
Proof.
  split; [lia|]. split; [lia|]. split; [lia|].
  apply (first_round 3 false None 3); lia.
Defined.

Lemma single_shard monitor cap (k : nat) :
  kth_call k (fresh 1 monitor cap) = 0.
Proof. unfold kth_call, nextMeid. rewrite meids_size_after. reflexivity. Qed.

(** C8.  On a fresh store with two shards the first four calls of
    [nextMeid] return 0, 1, 0, 0: the fourth call returns 0, whereas
    [(4 - 1) mod 2 = 1].  The wrap-around resets the counter to [-1] and
    answers [max(-1, 0) = 0], and the next call answers 0 again. *)
Theorem nextMeid_fourth_call_two_shards :
  map (fun k => kth_call k (fresh 2 false None)) [1; 2; 3; 4]%nat
  = [0; 1; 0; 0]
  /\ (4 - 1) mod 2 = 1.
Proof. split; reflexivity. Qed.

End ShardFacts.

(** ** The core API: [set], [get], [remove] *)

Module CoreFacts.
Import Values Core.

Section WithCodec.

Variable sha256 : string -> string.
Variable encoded_length : Values.value -> Z.

#[local] Abbreviation sha256_cached := (Core.sha256_cached sha256).
#[local] Abbreviation setUnsafe := (Core.setUnsafe sha256 encoded_length).
#[local] Abbreviation set := (Core.set sha256 encoded_length).
#[local] Abbreviation get := (Core.get sha256).
#[local] Abbreviation remove := (Core.remove sha256).

(** The digest [#sha256] hands out for [k] in state [st]. *)
Definition digest_of (k : string) (st : core) : string :=
  fst (sha256_cached k true st).

Lemma sha256_cached_tables k st :
  tables (snd (sha256_cached k true st)) = tables st
  /\ posted (snd (sha256_cached k true st)) = posted st
  /\ meids_size (snd (sha256_cached k true st)) = meids_size st
  /\ current_meid (snd (sha256_cached k true st)) = current_meid st.
Proof.
  unfold Core.sha256_cached. destruct (cache st !! k); simpl; auto.
Qed.

(** Once asked, a digest is served from the memo table unchanged. *)
Lemma sha256_cached_again k st :
  cache (snd (sha256_cached k true st)) !! k = Some (digest_of k st).
Proof.
  unfold digest_of, Core.sha256_cached.
  destruct (cache st !! k) eqn:E; simpl; [exact E|].
  apply lookup_insert_eq.
Qed.

Lemma sha256_cached_hit k h st :
  cache st !! k = Some h -> sha256_cached k true st = (h, st).
Proof. intros E. unfold Core.sha256_cached. rewrite E. reflexivity. Qed.

(** The shape of the state [setUnsafe] leaves behind for a non-empty
    key: the digest is memoised and bound to the new value. *)
Lemma setUnsafe_state k v st :
  Str.is_empty k = false ->
  let st' := snd (setUnsafe k v st) in
  cache st' !! k = Some (digest_of k st)
  /\ value (tables st') !! digest_of k st = Some (Some v)
  /\ posted st' = posted st
  /\ (fst (setUnsafe k v st) = 1 \/ fst (setUnsafe k v st) = 2).
Proof.
  intros Hk. unfold Core.setUnsafe. rewrite Hk.
  pose proof (sha256_cached_again k st) as Hc.
  pose proof (sha256_cached_tables k st) as (Ht & Hp & _).
  unfold digest_of in *.
  destruct (sha256_cached k true st) as [h st1]. simpl in Hc, Ht, Hp |- *.
  destruct (exist k st1).
  - simpl. rewrite lookup_insert_eq. auto.
  - unfold nextMeid.
    destruct (meids_size st1 <=? 1)%Z; simpl;
      rewrite lookup_insert_eq; auto.
Qed.

Lemma digest_of_cache k st1 st2 :
  cache st1 = cache st2 -> digest_of k st1 = digest_of k st2.
Proof.
  intros E. unfold digest_of, Core.sha256_cached. rewrite E.
  destruct (cache st2 !! k); reflexivity.
Qed.

Lemma set_state k v st :
  let k' := Sanitize.sanitizeKey k false in
  Str.is_empty k' = false ->
  let st' := snd (set k v st) in
  cache st' !! k' = Some (digest_of k' st)
  /\ value (tables st') !! digest_of k' st = Some (Some v)
  /\ posted st' = (posted st ++ [Request "set" k' v])%list
  /\ (fst (set k v st) = 1 \/ fst (set k v st) = 2).
Proof.
  intros k' Hk. unfold Core.set. fold k'. rewrite Hk. simpl negb. cbv iota.
  pose proof (setUnsafe_state k' v (askWorker (Request "set" k' v) st) Hk)
    as H.
  rewrite (digest_of_cache k' (askWorker (Request "set" k' v) st) st) in H
    by reflexivity.
  exact H.
Qed.

Lemma get_value k def st v :
  cache st !! k = Some (digest_of k st) ->
  value (tables st) !! digest_of k st = Some (Some v) ->
  fst (get k def st) = if truthy v then v else def.
Proof.
  intros Hc Hv. unfold Core.get. rewrite (sha256_cached_hit _ _ _ Hc).
  unfold lookupValue. rewrite Hv. destruct (truthy v); reflexivity.
Qed.

(** [get] right after a [set] that went through: the value comes back
    when it is truthy, the default when it is falsy. *)
Lemma get_after_set k v def st :
  let k' := Sanitize.sanitizeKey k false in
  Str.is_empty k' = false ->
  fst (get k' def (snd (set k v st))) = if truthy v then v else def.
Proof.
  intros k' Hk.
  destruct (set_state k v st Hk) as (Hc & Hv & _).
  fold k' in Hc, Hv.
  assert (Hd : digest_of k' (snd (set k v st)) = digest_of k' st).
  { unfold digest_of at 1. rewrite (sha256_cached_hit _ _ _ Hc). reflexivity. }
  apply get_value; rewrite Hd; assumption.
Qed.

Lemma exist_entry k st :
  exist k st = true ->
  exists e, key (tables st) !! k = Some (Some e) /\ (key_length e >? 0)%Z = true.
Proof.
  unfold exist, lookupKey.
  destruct (key (tables st) !! k) as [[e|]|]; try discriminate.
  intros H. exists e. auto.
Qed.

(** [remove] of a live key: the slot goes to the free list, both table
    entries are cleared, nothing is posted to the AOL worker. *)
Lemma remove_live k st :
  exist k st = true ->
  exists e,
    key (tables st) !! k = Some (Some e)
    /\ fst (remove k st) = true
    /\ trash (tables (snd (remove k st)))
       = (trash (tables st) ++ [Slot (key_size e) (key_position e) (key_length e)])%list
    /\ key (tables (snd (remove k st))) !! k = Some None
    /\ value (tables (snd (remove k st))) !! digest_of k st = Some None
    /\ cache (snd (remove k st)) !! k = Some (digest_of k st)
    /\ posted (snd (remove k st)) = posted st.
Proof.
  intros Hex. destruct (exist_entry _ _ Hex) as (e & He & _). exists e.
  unfold Core.remove. rewrite Hex. simpl negb. cbv iota.
  pose proof (sha256_cached_again k st) as Hc.
  pose proof (sha256_cached_tables k st) as (Ht & Hp & _).
  unfold digest_of in *.
  destruct (sha256_cached k true st) as [h st1]. simpl in Hc, Ht, Hp |- *.
  rewrite Ht, He. simpl. rewrite !lookup_insert_eq. repeat split; auto.
Qed.

Lemma remove_absent k st : exist k st = false -> remove k st = (false, st).
Proof. intros H. unfold Core.remove. rewrite H. reflexivity. Qed.

Lemma exist_after_remove k st :
  exist k st = true -> exist k (snd (remove k st)) = false.
Proof.
  intros Hex. destruct (remove_live k st Hex) as (e & _ & _ & _ & Hk & _).
  unfold exist, lookupKey. rewrite Hk. reflexivity.
Qed.

Lemma get_after_remove k def st :
  exist k st = true -> fst (get k def (snd (remove k st))) = def.
Proof.
  intros Hex.
  destruct (remove_live k st Hex) as (e & _ & _ & _ & _ & Hv & Hc & _).
  unfold Core.get. rewrite (sha256_cached_hit _ _ _ Hc).
  unfold lookupValue. rewrite Hv. reflexivity.
Qed.

(** A key is live after [set] as soon as encodings are not empty. *)
Lemma exist_after_set k v st :
  (forall w, 0 < encoded_length w) ->
  let k' := Sanitize.sanitizeKey k false in
  Str.is_empty k' = false ->
  exist k' (snd (set k v st)) = true.
Proof.
  intros Hlen k' Hk. unfold Core.set. fold k'. rewrite Hk. simpl negb. cbv iota.
  unfold Core.setUnsafe. rewrite Hk.
  destruct (sha256_cached k' true (askWorker (Request "set" k' v) st))
    as [h st1].
  destruct (exist k' st1) eqn:E.
  - simpl. exact E.
  - unfold nextMeid. specialize (Hlen v).
    destruct (meids_size st1 <=? 1)%Z; simpl;
      unfold exist, lookupKey; simpl; rewrite lookup_insert_eq; simpl;
      apply Z.gtb_lt; lia.
Qed.

End WithCodec.

(** X2.  For a key whose sanitized form [k'] is not empty and a truthy
    value [v] (not [null], [false], [0] or the empty string): after
    [set(k, v)], [get(k', def)] is [v]; and once [k'] is live, after
    [remove(k')] it is [def]. *)
Theorem get_after_set_and_remove :
  forall (sha256 : string -> string) (encoded_length : Values.value -> Z)
         (k : string) (v def : Values.value) (st : core),
    Str.is_empty (Sanitize.sanitizeKey k false) = false ->
    truthy v = true ->
    let k' := Sanitize.sanitizeKey k false in
    let st' := snd (Core.set sha256 encoded_length k v st) in
    fst (Core.get sha256 k' def st') = v
    /\ (exist k' st' = true ->
        fst (Core.get sha256 k' def (snd (Core.remove sha256 k' st'))) = def).
Proof.
  intros sha256 encoded_length k v def st Hk Hv k' st'. split.
  - subst st' k'. rewrite get_after_set by exact Hk. rewrite Hv. reflexivity.
  - intros Hex. apply get_after_remove, Hex.
Qed.

Lemma get_after_set_and_remove_witness :
  let sha256 := fun k : string => k in
  let encoded_length := fun _ : Values.value => 1 in
  let st' := snd (Core.set sha256 encoded_length "my key" (VStr "v")
                           (fresh 2 false None)) in
  Str.is_empty (Sanitize.sanitizeKey "my key" false) = false
  /\ truthy (VStr "v") = true
  /\ fst (Core.get sha256 "my_key" VNil st') = VStr "v"
  /\ (exist "my_key" st' = true ->
      fst (Core.get sha256 "my_key" VNil
             (snd (Core.remove sha256 "my_key" st'))) = VNil).
Proof.
  intros sha256 encoded_length st'.
  split; [reflexivity|]. split; [reflexivity|].
  exact (get_after_set_and_remove sha256 encoded_length "my key" (VStr "v")
           VNil (fresh 2 false None) eq_refl eq_refl).
Defined.

(** C1.  On a fresh store [set("k", 0)] succeeds with 2 (inserted), yet
    [get("k", "default")] returns ["default"] instead of the 0 that was set:
    [lookupValue] reads the table with [|| undefined], which turns every
    falsy value into a missing one.  The same holds for [""], [false] and
    [null]. *)
Theorem get_after_set_zero_is_default :
  forall (sha256 : string -> string) (encoded_length : Values.value -> Z),
    let st := snd (Core.set sha256 encoded_length "k" (VNum 0)
                            (fresh 1 false None)) in
    fst (Core.set sha256 encoded_length "k" (VNum 0) (fresh 1 false None)) = 2
    /\ fst (Core.get sha256 "k" (VStr "default") st) = VStr "default"
    /\ fst (Core.get sha256 "k" (VStr "default")
              (snd (Core.set sha256 encoded_length "k" (VNum 5)
                             (fresh 1 false None)))) = VNum 5.
Proof.
  intros sha256 encoded_length st. split; [reflexivity|]. split.
  - exact (get_after_set sha256 encoded_length "k" (VNum 0) (VStr "default")
             (fresh 1 false None) eq_refl).
  - exact (get_after_set sha256 encoded_length "k" (VNum 5) (VStr "default")
             (fresh 1 false None) eq_refl).
Qed.

(** C3.  [set] takes no size into account: on a store whose memory
    monitor is on with a cap of [cap] bytes, a value of any encoded length
    is inserted (result 2) and bound in the value table, also when the
    length exceeds the cap.  Neither [#max_memory] nor the per-entry limit
    [meids.size] is read by [set] or [setUnsafe]. *)
Theorem set_ignores_size_caps :
  forall (sha256 : string -> string) (encoded_length : Values.value -> Z)
         (cap : Z) (v : Values.value),
    let r := Core.set sha256 encoded_length "k" v (fresh 1 true (Some cap)) in
    fst r = 2
    /\ value (tables (snd r)) !! sha256 "k" = Some (Some v)
    /\ max_memory (snd r) = Some cap.
Proof.
  intros sha256 encoded_length cap v r. subst r.
  split; [reflexivity|]. split; [|reflexivity].
  unfold Core.set, Core.setUnsafe. simpl. apply lookup_insert_eq.
Qed.

End CoreFacts.

(** ** Correctness of the free-list search *)

Module RangeQueryFacts.
Import Values RangeQuery.

(** Ascending order of the [size] field, by positions. *)
Definition sorted_by_size (array : list slot) : Prop :=
  forall (i j : nat) (a b : slot),
    (i <= j)%nat -> array !! i = Some a -> array !! j = Some b ->
    size a <= size b.

(** [k] is the boundary of [target] in [array]: sizes below [target]
    strictly before [k], sizes at least [target] from [k] on. *)
Definition boundary (array : list slot) (target : Z) (k : nat) : Prop :=
  (forall (i : nat) (a : slot),
      (i < k)%nat -> array !! i = Some a -> size a < target)
  /\ (forall (i : nat) (a : slot),
      (k <= i)%nat -> array !! i = Some a -> target <= size a).

Lemma index_Some array i e :
  index array i = Some e -> 0 <= i /\ array !! Z.to_nat i = Some e.
Proof.
  unfold index. destruct (i <? 0)%Z eqn:E; [discriminate|].
  apply Z.ltb_ge in E. auto.
Qed.

Lemma search_boundary array target lft rgt result :
  sorted_by_size array ->
  0 <= lft -> rgt < Z.of_nat (List.length array) -> lft <= rgt + 1 ->
  (forall (i : nat) (a : slot),
      Z.of_nat i < lft -> array !! i = Some a -> size a < target) ->
  (forall (i : nat) (a : slot),
      rgt < Z.of_nat i -> array !! i = Some a -> target <= size a) ->
  result = array !! Z.to_nat (rgt + 1) ->
  exists k : nat,
    search array target lft rgt result = Returned (array !! k)
    /\ boundary array target k.
Proof.
  intros Hsorted.
  funelim (search array target lft rgt result); intros Hlo Hhi Hle Hbelow Habove Hres.
  all: try (pose proof (Z.div_mod (lft + rgt) 2 ltac:(lia));
            pose proof (Z.mod_pos_bound (lft + rgt) 2 ltac:(lia))).
  - (* the loop is left *)
    exists (Z.to_nat (rgt + 1)). split; [rewrite Hres; reflexivity|].
    split; intros i a Hi Ha; [apply (Hbelow i a) | apply (Habove i a)];
      auto; lia.
  - (* array[mid] is missing: excluded by the bounds *)
    exfalso. unfold index in Heq.
    destruct ((lft + rgt) / 2 <? 0)%Z eqn:E; [apply Z.ltb_lt in E; lia|].
    apply lookup_ge_None in Heq. lia.
  - (* array[mid].size >= target *)
    apply Z.geb_le in Heq. apply index_Some in Heq0 as [Hmid Heq0].
    apply H; [assumption | lia | lia | lia | assumption | | ].
    + intros i a Hi Ha.
      destruct (Z_le_gt_dec (Z.of_nat i) rgt).
      * apply Z.le_trans with (size e); [lia|].
        apply (Hsorted (Z.to_nat ((lft + rgt) / 2)) i); auto. lia.
      * apply (Habove i a); auto; lia.
    + replace ((lft + rgt) / 2 - 1 + 1) with ((lft + rgt) / 2) by lia.
      symmetry. exact Heq0.
  - (* array[mid].size < target *)
    assert (Hlt : size e < target).
    { rewrite Z.geb_leb in Heq. apply Z.leb_gt in Heq. lia. }
    apply index_Some in Heq0 as [Hmid Heq0].
    apply H; [assumption | lia | lia | lia | | assumption | assumption].
    intros i a Hi Ha.
    apply Z.le_lt_trans with (size e); [|lia].
    apply (Hsorted i (Z.to_nat ((lft + rgt) / 2))); auto. lia.
Qed.

Lemma binarySearch_boundary array target :
  sorted_by_size array ->
  exists k : nat,
    binarySearch array target = Returned (array !! k)
    /\ boundary array target k.
Proof.
  intros Hsorted. unfold binarySearch.
  apply search_boundary; auto; try lia.
  - intros i a Hi Ha. apply lookup_lt_Some in Ha. lia.
  - symmetry. apply lookup_ge_None. lia.
Qed.

(** Sortedness of a list built by consing. *)
Lemma sorted_by_size_cons x l :
  (forall y, y ∈ l -> size x <= size y) ->
  sorted_by_size l -> sorted_by_size (x :: l).
Proof.
  intros Hx Hl [|i] [|j] a b Hij Ha Hb; simpl in *.
  - injection Ha as <-. injection Hb as <-. lia.
  - injection Ha as <-. apply Hx. eapply list_elem_of_lookup_2, Hb.
  - lia.
  - apply (Hl i j); auto. lia.
Qed.

Lemma sorted_by_size_tail x l : sorted_by_size (x :: l) -> sorted_by_size l.
Proof. intros H i j a b Hij Ha Hb. apply (H (S i) (S j)); auto. lia. Qed.

Lemma sorted_by_size_head x l y :
  sorted_by_size (x :: l) -> y ∈ l -> size x <= size y.
Proof.
  intros H [j Hj]%list_elem_of_lookup_1.
  apply (H 0%nat (S j)); auto. lia.
Qed.

Lemma elem_of_insert_by cmp x l y :
  y ∈ insert_by cmp x l <-> y = x \/ y ∈ l.
Proof.
  induction l as [|z r IH]; simpl.
  - rewrite elem_of_cons. reflexivity.
  - destruct (cmp x z <=? 0)%Z.
    + rewrite elem_of_cons. reflexivity.
    + rewrite !elem_of_cons, IH. tauto.
Qed.

Lemma insert_by_sorted x l :
  sorted_by_size l -> sorted_by_size (insert_by (compare_by "size") x l).
Proof.
  induction l as [|z r IH]; intros Hl; simpl.
  - apply sorted_by_size_cons; [set_solver|]. intros i j a b _ Ha. discriminate.
  - unfold compare_by at 1. simpl.
    destruct (size x - size z <=? 0)%Z eqn:E.
    + apply Z.leb_le in E. apply sorted_by_size_cons; [|exact Hl].
      intros y [->|Hy]%elem_of_cons; [lia|].
      pose proof (sorted_by_size_head _ _ _ Hl Hy). lia.
    + apply Z.leb_gt in E. apply sorted_by_size_cons.
      * intros y [->|Hy]%elem_of_insert_by; [lia|].
        exact (sorted_by_size_head _ _ _ Hl Hy).
      * apply IH. exact (sorted_by_size_tail _ _ Hl).
Qed.

(** [sortBy("size")] leaves the array in ascending order of [size], with
    the same elements. *)
Lemma sortBy_sorted array : sorted_by_size (sortBy "size" array).
Proof.
  induction array as [|x r IH]; simpl.
  - intros i j a b _ Ha. discriminate.
  - apply insert_by_sorted, IH.
Qed.

Lemma elem_of_sortBy f array y : y ∈ sortBy f array <-> y ∈ array.
Proof.
  induction array as [|x r IH]; simpl; [reflexivity|].
  rewrite elem_of_insert_by, elem_of_cons, IH. reflexivity.
Qed.

(** C10.  On a non-empty free list in ascending order of [size],
    [findSmallestFit("size", fit)] returns an element of the list whose
    size is at least [fit] and no larger than the size of any other element
    that is at least [fit], whenever the list has such an element; and it
    returns [null] when every size is below [fit]. *)
Theorem findSmallestFit_correct :
  forall (array : list slot) (fit : Z),
    array <> [] ->
    sorted_by_size array ->
    ((exists x, x ∈ array /\ fit <= size x) ->
     exists e,
       findSmallestFit array "size" fit = Returned (Some e)
       /\ e ∈ array /\ fit <= size e
       /\ forall y, y ∈ array -> fit <= size y -> size e <= size y)
    /\ ((forall x, x ∈ array -> size x < fit) ->
        findSmallestFit array "size" fit = Returned None).
Proof.
  intros array fit Hne Hsorted.
  assert (Hlast : exists z, index array (Z.of_nat (List.length array) - 1) = Some z
                            /\ z ∈ array /\ forall y, y ∈ array -> size y <= size z).
  { destruct (array !! (List.length array - 1)%nat) as [z|] eqn:E.
    - exists z. split; [|split].
      + unfold index. destruct array; [congruence|]. simpl List.length in *.
        destruct (Z.of_nat (S (base.length array)) - 1 <? 0)%Z eqn:E0;
          [apply Z.ltb_lt in E0; lia|].
        rewrite <- E. f_equal. lia.
      + eapply list_elem_of_lookup_2, E.
      + intros y [j Hj]%list_elem_of_lookup_1.
        apply (Hsorted j (List.length array - 1)%nat); auto.
        apply lookup_lt_Some in Hj. lia.
    - apply lookup_ge_None in E. destruct array; [congruence|]. simpl in E. lia. }
  destruct Hlast as (z & Hz & Hzin & Hzmax).
  destruct (binarySearch_boundary array fit Hsorted) as (k & Hbs & Hlow & Hhigh).
  unfold findSmallestFit. rewrite Hz.
  change (field "size" z) with (Some (size z)). cbv iota. rewrite Hbs.
  split.
  - intros (x & Hx & Hfit).
    destruct (size z >=? fit)%Z eqn:E;
      [|rewrite Z.geb_leb in E; apply Z.leb_gt in E; specialize (Hzmax x Hx); lia].
    destruct (array !! k) as [e|] eqn:Ek.
    + exists e. split; [reflexivity|]. split; [eapply list_elem_of_lookup_2, Ek|].
      split; [apply (Hhigh k e); auto|].
      intros y [j Hj]%list_elem_of_lookup_1 Hy.
      destruct (le_lt_dec k j) as [Hkj|Hjk].
      * apply (Hsorted k j); auto.
      * specialize (Hlow j y Hjk Hj). lia.
    + exfalso. apply list_elem_of_lookup_1 in Hx as [j Hj].
      apply lookup_ge_None in Ek. pose proof (lookup_lt_Some _ _ _ Hj).
      assert (Hjk : (j < k)%nat) by lia.
      specialize (Hlow j x Hjk Hj). lia.
  - intros Hall.
    destruct (size z >=? fit)%Z eqn:E; [|reflexivity].
    apply Z.geb_le in E. specialize (Hall z Hzin). lia.
Qed.

Lemma findSmallestFit_witness :
  let array := [Slot 1 0 37; Slot 5 40 41; Slot 5 90 41; Slot 9 200 45] in
  array <> []
  /\ sorted_by_size array
  /\ (exists e,
        findSmallestFit array "size" 3 = Returned (Some e)
        /\ e ∈ array /\ 3 <= size e
        /\ forall y, y ∈ array -> 3 <= size y -> size e <= size y)
  /\ findSmallestFit array "size" 10 = Returned None.
Proof.
  intros array.
  assert (Hne : array <> []) by discriminate.
  assert (Hsorted : sorted_by_size array).
  { change array with (sortBy "size" array). apply sortBy_sorted. }
  split; [exact Hne|]. split; [exact Hsorted|].
  split.
  - apply (findSmallestFit_correct array 3 Hne Hsorted).
    exists (Slot 9 200 45). split; [|simpl; lia].
    subst array. rewrite !elem_of_cons. tauto.
  - apply (findSmallestFit_correct array 10 Hne Hsorted).
    intros x Hx. subst array.
    repeat (apply elem_of_cons in Hx as [->|Hx]; [simpl; lia|]).
    inversion Hx.
Defined.

Example findSmallestFit_ex :
  findSmallestFit [Slot 1 0 37; Slot 5 40 41; Slot 5 90 41; Slot 9 200 45]
                  "size" 3
  = Returned (Some (Slot 5 40 41)).
Proof. reflexivity. Qed.

Example findSmallestFit_empty : findSmallestFit [] "size" 3 = Thrown.
Proof. reflexivity. Qed.

End RangeQueryFacts.

(** ** The lockdown tracker *)

Module CliFacts.
Import Cli.

(** A tracker configured as [configs.yaml] ships it: lockdown by IP, two
    attempts, a cooldown of 60 seconds, and an empty table. *)
Definition shipped : cli := MkCli "ip" 60 2 ∅.

(** Each failed attempt adds one to the counter of its subject and sets
    the expiry to [now(false) + cooldown * 1000]: a clock in seconds plus
    the cooldown in milliseconds. *)
Lemma login_attempt_entry c date_now ip token :
  (0 < max_login_attempt c)%Z ->
  lockdown_mode c = "ip" ->
  lockdown (login_attempt c date_now (Some ip) false token) !! ip
  = Some (Entry (date_now / 1000 + cooldown c * 1000)
                (default 0 (attempts <$> lockdown c !! ip) + 1)).
Proof.
  intros Hmax Hmode. unfold login_attempt.
  destruct (max_login_attempt c >? 0)%Z eqn:E;
    [|rewrite Z.gtb_ltb in E; apply Z.ltb_ge in E; lia].
  rewrite Hmode. simpl. apply lookup_insert_eq.
Qed.

Lemma failed_attempts_snoc c ip token clocks t :
  failed_attempts c ip token (clocks ++ [t])
  = login_attempt (failed_attempts c ip token clocks) t ip false token.
Proof. unfold failed_attempts. rewrite foldl_app. reflexivity. Qed.

Lemma failed_attempts_configs c ip token clocks :
  let c' := failed_attempts c ip token clocks in
  lockdown_mode c' = lockdown_mode c
  /\ cooldown c' = cooldown c
  /\ max_login_attempt c' = max_login_attempt c.
Proof.
  induction clocks as [|t r IH] using rev_ind; [simpl; auto|].
  rewrite failed_attempts_snoc. simpl in *. destruct IH as (H1 & H2 & H3).
  unfold login_attempt.
  destruct (max_login_attempt _ >? 0)%Z; [|auto].
  simpl. destruct (if (lockdown_mode _ =? "ip")%string then ip else Some token);
    simpl; auto.
Qed.

(** The counter of an address counts its failed attempts; the expiry
    follows the clock of the last one. *)
Lemma failed_attempts_entry c ip token clocks t :
  (0 < max_login_attempt c)%Z ->
  lockdown_mode c = "ip" ->
  lockdown c !! ip = None ->
  lockdown (failed_attempts c (Some ip) token (clocks ++ [t])) !! ip
  = Some (Entry (t / 1000 + cooldown c * 1000)
                (Z.of_nat (List.length clocks) + 1)).
Proof.
  intros Hmax Hmode Hnone. revert t.
  induction clocks as [|u r IH] using rev_ind; intros t.
  - simpl. rewrite login_attempt_entry by assumption.
    rewrite Hnone. reflexivity.
  - rewrite failed_attempts_snoc.
    destruct (failed_attempts_configs c (Some ip) token (r ++ [u]))
      as (Hm & Hc & Hx). simpl in Hm, Hc, Hx.
    rewrite login_attempt_entry by congruence.
    rewrite IH, Hc. simpl. rewrite length_app. simpl. do 2 f_equal. lia.
Qed.

(** X3.  After [max_login_attempt] failures (lockdown by IP, a subject
    with no earlier entry) the address is locked, and it stays locked
    exactly while the clock in seconds does not exceed the clock of the last
    failure in seconds plus a thousand times the cooldown. *)
Lemma locked_after_failures c ip token clocks t date_now :
  (0 < max_login_attempt c)%Z ->
  lockdown_mode c = "ip" ->
  lockdown c !! ip = None ->
  (0 <= t)%Z -> (0 < cooldown c)%Z ->
  (max_login_attempt c <= Z.of_nat (List.length clocks) + 1)%Z ->
  lockedDown (failed_attempts c (Some ip) token (clocks ++ [t])) date_now
             (Some ip)
  = (date_now / 1000 <=? t / 1000 + cooldown c * 1000)%Z.
Proof.
  intros Hmax Hmode Hnone Ht Hcool Hn.
  destruct (failed_attempts_configs c (Some ip) token (clocks ++ [t]))
    as (Hm & Hc & Hx). simpl in Hm, Hc, Hx.
  unfold lockedDown, isLockedDown. rewrite Hm, Hx, Hmode.
  rewrite failed_attempts_entry by assumption.
  destruct (max_login_attempt c <=? 0)%Z eqn:E; [apply Z.leb_le in E; lia|].
  simpl.
  pose proof (Z.div_pos t 1000 Ht ltac:(lia)).
  destruct (t / 1000 + cooldown c * 1000 =? 0)%Z eqn:E1;
    [apply Z.eqb_eq in E1; lia|].
  destruct (Z.of_nat (List.length clocks) + 1 =? 0)%Z eqn:E2;
    [apply Z.eqb_eq in E2; lia|].
  simpl.
  replace (Z.of_nat (List.length clocks) + 1 >=? max_login_attempt c)%Z
    with true; [apply andb_true_r|].
  symmetry. rewrite Z.geb_leb. apply Z.leb_le. lia.
Qed.

Lemma locked_after_failures_witness :
  (0 < max_login_attempt shipped)%Z
  /\ lockdown_mode shipped = "ip"
  /\ lockdown shipped !! "10.0.0.1" = None
  /\ (0 <= 1000000)%Z /\ (0 < cooldown shipped)%Z
  /\ (max_login_attempt shipped <= Z.of_nat (List.length [1000000%Z]) + 1)%Z
  /\ lockedDown (failed_attempts shipped (Some "10.0.0.1") "guess"
                                 ([1000000] ++ [1000000]))
                1000000 (Some "10.0.0.1")
     = (1000000 / 1000 <=? 1000000 / 1000 + cooldown shipped * 1000)%Z.
Proof.
  repeat (split; [first [reflexivity | simpl; lia]|]).
  apply (locked_after_failures shipped "10.0.0.1" "guess" [1000000] 1000000
                               1000000);
    first [reflexivity | simpl; lia].
Defined.

(** C4.  With the shipped configuration (two attempts, cooldown 60 s), two
    failed logins from 10.0.0.1 at clock 1000000 ms lock the address; the
    counter is 2 and the expiry is 61000 = 1000 + 60 * 1000, not
    1060 = 1000 + 60.  The address is still locked 61 seconds and one hour
    after the last failure. *)
Theorem lockdown_outlasts_cooldown :
  let c := failed_attempts shipped (Some "10.0.0.1") "guess"
                           [1000000; 1000000] in
  lockdown c !! "10.0.0.1" = Some (Entry 61000 2)
  /\ lockedDown c 1000000 (Some "10.0.0.1") = true
  /\ lockedDown c (1000000 + 61 * 1000) (Some "10.0.0.1") = true
  /\ lockedDown c (1000000 + 3600 * 1000) (Some "10.0.0.1") = true
  /\ now false 1000000 + cooldown shipped = 1060.
Proof. vm_compute. repeat split; reflexivity. Qed.

End CliFacts.

(** ** Decimal numerals, read back *)

Module DecFacts.
Import Chars Dec.

Lemma all_digits_uint d : Str.all is_digit (NilEmpty.string_of_uint d) = true.
Proof. induction d; simpl; auto. Qed.

Lemma all_digits_of_N n : Str.all is_digit (of_N n) = true.
Proof. apply all_digits_uint. Qed.

Lemma to_N_of_N n : to_N (of_N n) = Some n.
Proof.
  unfold to_N, of_N. rewrite NilEmpty.usu. simpl.
  rewrite DecimalN.Unsigned.of_to. reflexivity.
Qed.

Lemma to_uint_normal n : Decimal.unorm (N.to_uint n) = N.to_uint n.
Proof.
  rewrite <- (DecimalN.Unsigned.of_to n) at 2.
  rewrite DecimalN.Unsigned.to_of. reflexivity.
Qed.

(** A numeral is not empty, and starts with [0] only when it is ["0"]. *)
Lemma of_N_head n :
  exists c r, of_N n = String c r
              /\ is_digit c = true
              /\ (c = "0"%char -> r = EmptyString /\ n = 0%N).
Proof.
  unfold of_N. pose proof (to_uint_normal n) as Hn.
  pose proof (DecimalN.Unsigned.of_to n) as Hof.
  destruct (N.to_uint n) as [|u|u|u|u|u|u|u|u|u|u] eqn:E; simpl.
  2: { exists "0"%char, (NilEmpty.string_of_uint u).
       split; [reflexivity|]. split; [reflexivity|]. intros _.
       unfold Decimal.unorm in Hn. simpl in Hn.
       destruct (Decimal.nzhead u) eqn:Eu;
         try (exfalso;
              apply (DecimalFacts.nzhead_nonzero (Decimal.D0 u) u);
              simpl; rewrite Eu; exact Hn).
       injection Hn as <-. simpl. split; [reflexivity|].
       rewrite <- Hof. reflexivity. }
  1: exfalso; revert Hn; apply DecimalFacts.unorm_nonnil.
  all: eexists _, _; split; [reflexivity|]; split; [reflexivity|]; discriminate.
Qed.

(** [span] cuts a string where its first character outside [p] stands. *)
Lemma span_append p a b :
  Str.all p a = true ->
  (forall c, Str.first b = Some c -> p c = false) ->
  span p (a ++ b) = (a, b).
Proof.
  intros Ha Hb. induction a as [|c r IH]; simpl in *.
  - destruct b as [|c r]; [reflexivity|]. simpl.
    rewrite (Hb c eq_refl). reflexivity.
  - apply andb_true_iff in Ha as [Hc Hr]. rewrite Hc, (IH Hr). reflexivity.
Qed.

End DecFacts.

(** ** Sample runs of the JSON model *)

Module JsonTests.
Import Values Json.

Definition sample : value :=
  VMap [("2", VNum 5); ("a", VSeq [VNil; VBool true; VNum (-12); VStr "x<y"]);
        ("b", VMap []); ("c", VSeq []); ("d", VStr (String dquote "q\"))].

Example stringify_sample :
  stringify (VSeq [VNum 1; VStr "a"; VNil]) = "[1," ++ quote "a" ++ ",null]".
Proof. reflexivity. Qed.

Example parse_sample : parse (stringify sample) = Value sample.
Proof. vm_compute. reflexivity. Qed.

Example parse_reorders :
  parse ("{" ++ quote "b" ++ ":1," ++ quote "2" ++ ":2," ++ quote "b" ++ ":3}")
  = Value (VMap [("2", VNum 2); ("b", VNum 3)]).
Proof. vm_compute. reflexivity. Qed.

Example parse_spaces : parse " [ 1 , 2 ] " = Value (VSeq [VNum 1; VNum 2]).
Proof. vm_compute. reflexivity. Qed.

Example parse_fraction : parse "1.5" = Outside.
Proof. vm_compute. reflexivity. Qed.

Example parse_leading_zero : parse "01" = Throws.
Proof. vm_compute. reflexivity. Qed.

Example parse_truncated : parse "[1,2" = Throws.
Proof. vm_compute. reflexivity. Qed.

End JsonTests.

(** ** The JSON reader inverts the JSON writer *)

Module JsonFacts.
Import Chars Values Json.

Lemma append_assoc (a b c : string) : (a ++ b) ++ c = a ++ (b ++ c).
Proof.
  induction a as [|x a IH]; [reflexivity|].
  change (String x ((a ++ b) ++ c) = String x (a ++ (b ++ c))).
  f_equal. exact IH.
Qed.

Lemma length_append (a b : string) :
  String.length (a ++ b) = (String.length a + String.length b)%nat.
Proof.
  induction a as [|x a IH]; [reflexivity|].
  change (S (String.length (a ++ b)) = S (String.length a + String.length b)).
  f_equal. exact IH.
Qed.

(** *** String literals *)

Lemma parse_chars_escape_char c rest :
  parse_chars (escape_char c ++ rest) = pmap (String c) (parse_chars rest).
Proof. destruct c as [[] [] [] [] [] [] [] []]; reflexivity. Qed.

Lemma parse_chars_escape s rest :
  parse_chars (escape s ++ String dquote rest) = Ok s rest.
Proof.
  induction s as [|c r IH]; [reflexivity|].
  change (escape (String c r)) with (escape_char c ++ escape r).
  rewrite append_assoc, parse_chars_escape_char, IH.
  reflexivity.
Qed.

Lemma parse_chars_quote s rest :
  parse_chars (escape s ++ String dquote EmptyString ++ rest) = Ok s rest.
Proof. apply parse_chars_escape. Qed.

(** *** Numbers *)

(** What may follow a number: no digit, no fraction, no exponent. *)
Definition ends_number (rest : string) : Prop :=
  forall c, Str.first rest = Some c ->
            is_digit c = false
            /\ (Ascii.eqb c "." || Ascii.eqb c "e" || Ascii.eqb c "E") = false.

Lemma parse_digits_of_N negative n rest :
  (n <= max_safe)%N -> ends_number rest ->
  parse_digits negative (Dec.of_N n ++ rest)
  = Ok (VNum (if negative then - Z.of_N n else Z.of_N n)) rest.
Proof.
  intros Hn Hrest. unfold parse_digits.
  rewrite DecFacts.span_append;
    [|apply DecFacts.all_digits_of_N|intros c Hc; apply (Hrest c Hc)].
  destruct (DecFacts.of_N_head n) as (d & ds & E & _ & Hzero).
  pose proof (DecFacts.to_N_of_N n) as HtoN. rewrite E in HtoN |- *.
  assert (Hlead : Ascii.eqb d "0" && negb (Str.is_empty ds) = false).
  { destruct (Ascii.eqb d "0") eqn:Ed; [|reflexivity].
    apply Ascii.eqb_eq in Ed. destruct (Hzero Ed) as [-> _]. reflexivity. }
  rewrite Hlead, HtoN.
  assert (Hcont : match rest with
                  | String c _ =>
                      Ascii.eqb c "." || Ascii.eqb c "e" || Ascii.eqb c "E"
                  | EmptyString => false
                  end = false).
  { destruct rest as [|c r]; [reflexivity|]. apply (Hrest c eq_refl). }
  rewrite Hcont.
  destruct (n <=? max_safe)%N eqn:E1; [reflexivity|].
  apply N.leb_gt in E1. lia.
Qed.

Definition safe_integer (z : Z) : Prop :=
  - Z.of_N max_safe <= z <= Z.of_N max_safe.

Lemma parse_number_of_Z z rest :
  safe_integer z -> ends_number rest ->
  parse_number (Dec.of_Z z ++ rest) = Ok (VNum z) rest.
Proof.
  intros Hz Hrest. unfold safe_integer in Hz.
  destruct z as [|p|p]; unfold Dec.of_Z.
  - destruct (DecFacts.of_N_head 0) as (d & ds & E & Hd & _).
    pose proof (parse_digits_of_N false 0 rest ltac:(unfold max_safe; lia) Hrest) as H.
    rewrite E in H |- *. simpl. 
    destruct (Ascii.eqb d "-") eqn:Ed;
      [apply Ascii.eqb_eq in Ed; subst d; discriminate|].
    exact H.
  - destruct (DecFacts.of_N_head (Npos p)) as (d & ds & E & Hd & _).
    pose proof (parse_digits_of_N false (Npos p) rest ltac:(lia) Hrest) as H.
    rewrite E in H |- *. simpl.
    destruct (Ascii.eqb d "-") eqn:Ed;
      [apply Ascii.eqb_eq in Ed; subst d; discriminate|].
    exact H.
  - simpl.
    exact (parse_digits_of_N true (Npos p) rest ltac:(lia) Hrest).
Qed.

(** *** Values *)

(** Fuel that is enough to read the text of a value. *)
Fixpoint need (v : value) : nat :=
  match v with
  | VSeq items =>
      S ((fix sum (l : list value) : nat :=
            match l with
            | [] => O
            | x :: r => S (need x + sum r)
            end) items)
  | VMap fields =>
      S ((fix sum (l : list (string * value)) : nat :=
            match l with
            | [] => O
            | kv :: r => S (need (snd kv) + sum r)
            end) fields)
  | _ => 1%nat
  end.

Definition need_items (l : list value) : nat :=
  (fix sum (l : list value) : nat :=
     match l with
     | [] => O
     | x :: r => S (need x + sum r)
     end) l.

Definition need_fields (l : list (string * value)) : nat :=
  (fix sum (l : list (string * value)) : nat :=
     match l with
     | [] => O
     | kv :: r => S (need (snd kv) + sum r)
     end) l.

Definition representable_items (l : list value) : Prop :=
  (fix all (l : list value) : Prop :=
     match l with
     | [] => True
     | x :: r => representable x /\ all r
     end) l.

Definition representable_fields (l : list (string * value)) : Prop :=
  (fix all (l : list (string * value)) : Prop :=
     match l with
     | [] => True
     | kv :: r => representable (snd kv) /\ all r
     end) l.

(** The first character of a written value: it is no white space and
    closes neither an array nor an object. *)
Definition opens_value (c : ascii) : Prop :=
  is_ws c = false /\ Ascii.eqb c "]" = false /\ Ascii.eqb c "}" = false.

Lemma digit_opens_value c : is_digit c = true -> opens_value c.
Proof.
  destruct c as [[] [] [] [] [] [] [] []]; vm_compute; intros H;
    try discriminate; repeat split.
Qed.

Lemma stringify_head v :
  exists c r, stringify v = String c r /\ opens_value c.
Proof.
  destruct v as [|[]|z|s|bs|items|fields];
    try (eexists _, _; split; [reflexivity|repeat split]).
  destruct z as [|p|p]; unfold stringify, Dec.of_Z.
  - eexists _, _; split; [reflexivity|repeat split].
  - destruct (DecFacts.of_N_head (Npos p)) as (d & ds & E & Hd & _).
    exists d, ds. split; [exact E|]. apply digit_opens_value, Hd.
  - eexists _, _; split; [reflexivity|repeat split].
Qed.

Lemma skip_ws_value c r : is_ws c = false -> skip_ws (String c r) = String c r.
Proof. intros H. unfold skip_ws. simpl. rewrite H. reflexivity. Qed.

(** One step of each reader on a text whose first character is known. *)
Lemma parse_value_quote f r :
  parse_value (S f) (String dquote r) = pmap VStr (parse_chars r).
Proof. reflexivity. Qed.

Lemma parse_value_array f c r :
  opens_value c ->
  parse_value (S f) (String "[" (String c r))
  = pmap VSeq (parse_elements f (String c r)).
Proof.
  intros (H1 & H2 & H3).
  destruct c as [[] [] [] [] [] [] [] []]; try discriminate; reflexivity.
Qed.

Lemma parse_value_object f r :
  parse_value (S f) (String "{" (String dquote r))
  = pmap (fun l => VMap (Obj.from_list l)) (parse_members f (String dquote r)).
Proof. reflexivity. Qed.

Lemma parse_value_number f c r :
  Ascii.eqb c "-" || is_digit c = true ->
  parse_value (S f) (String c r) = parse_number (String c r).
Proof.
  destruct c as [[] [] [] [] [] [] [] []]; intros H; try discriminate;
    reflexivity.
Qed.

Lemma parse_elements_step f s :
  parse_elements (S f) s
  = match parse_value f s with
    | Ok v rest =>
        match skip_ws rest with
        | String c r =>
            if Ascii.eqb c "," then pmap (cons v) (parse_elements f r)
            else if Ascii.eqb c "]" then Ok [v] r
            else SyntaxError
        | EmptyString => SyntaxError
        end
    | SyntaxError => SyntaxError
    | Unmodelled => Unmodelled
    end.
Proof. reflexivity. Qed.

Lemma parse_members_step f k r :
  parse_members (S f) (quote k ++ r)
  = match skip_ws r with
    | String c2 r2 =>
        if Ascii.eqb c2 ":" then
          match parse_value f r2 with
          | Ok v rest2 =>
              match skip_ws rest2 with
              | String c3 r3 =>
                  if Ascii.eqb c3 ","
                  then pmap (cons (k, v)) (parse_members f r3)
                  else if Ascii.eqb c3 "}" then Ok [(k, v)] r3
                  else SyntaxError
              | EmptyString => SyntaxError
              end
          | SyntaxError => SyntaxError
          | Unmodelled => Unmodelled
          end
        else SyntaxError
    | EmptyString => SyntaxError
    end.
Proof.
  unfold quote.
  change (String dquote (escape k ++ String dquote EmptyString) ++ r)
    with (String dquote ((escape k ++ String dquote EmptyString) ++ r)).
  rewrite append_assoc.
  change (String dquote EmptyString ++ r) with (String dquote r).
  change (parse_members (S f) (String dquote (escape k ++ String dquote r)))
    with (match parse_chars (escape k ++ String dquote r) with
          | Ok k rest =>
              match skip_ws rest with
              | String c2 r2 =>
                  if Ascii.eqb c2 ":" then
                    match parse_value f r2 with
                    | Ok v rest2 =>
                        match skip_ws rest2 with
                        | String c3 r3 =>
                            if Ascii.eqb c3 ","
                            then pmap (cons (k, v)) (parse_members f r3)
                            else if Ascii.eqb c3 "}" then Ok [(k, v)] r3
                            else SyntaxError
                        | EmptyString => SyntaxError
                        end
                    | SyntaxError => SyntaxError
                    | Unmodelled => Unmodelled
                    end
                  else SyntaxError
              | EmptyString => SyntaxError
              end
          | SyntaxError => SyntaxError
          | Unmodelled => Unmodelled
          end).
  rewrite parse_chars_escape. reflexivity.
Qed.

Lemma ends_number_sep c r :
  is_digit c = false ->
  Ascii.eqb c "." || Ascii.eqb c "e" || Ascii.eqb c "E" = false ->
  ends_number (String c r).
Proof. intros H1 H2 d [= <-]. auto. Qed.

Lemma ends_number_empty : ends_number EmptyString.
Proof. intros c [=]. Qed.

(** Reading the items of a written array, up to its closing bracket. *)
Lemma parse_elements_stringify (x : value) (l : list value) :
  Forall (fun v => representable v ->
            forall fuel rest, (need v <= fuel)%nat -> ends_number rest ->
              parse_value fuel (stringify v ++ rest) = Ok v rest) (x :: l) ->
  representable_items (x :: l) ->
  forall fuel rest, (need_items (x :: l) <= fuel)%nat ->
    parse_elements fuel (join "," (map stringify (x :: l)) ++ String "]" rest)
    = Ok (x :: l) rest.
Proof.
  revert x. induction l as [|y l IH]; intros x HP Hrep fuel rest Hfuel.
  - apply Forall_cons in HP as [Hx _]. destruct Hrep as [Hrx _].
    simpl in Hfuel. destruct fuel as [|f]; [lia|].
    rewrite parse_elements_step. simpl map. simpl join.
    rewrite (Hx Hrx f (String "]" rest)) by
      (try lia; apply ends_number_sep; reflexivity).
    reflexivity.
  - apply Forall_cons in HP as [Hx HP]. destruct Hrep as [Hrx Hrep].
    change (need_items (x :: y :: l))
      with (S (need x + need_items (y :: l))) in Hfuel.
    destruct fuel as [|f]; [lia|].
    rewrite parse_elements_step.
    change (join "," (map stringify (x :: y :: l)))
      with (stringify x ++ "," ++ join "," (map stringify (y :: l))).
    rewrite !append_assoc.
    change ("," ++ join "," (map stringify (y :: l)) ++ String "]" rest)
      with (String "," (join "," (map stringify (y :: l)) ++ String "]" rest)).
    rewrite (Hx Hrx f) by (try lia; apply ends_number_sep; reflexivity).
    change (skip_ws (String "," (join "," (map stringify (y :: l)) ++ String "]" rest)))
      with (String "," (join "," (map stringify (y :: l)) ++ String "]" rest)).
    cbv iota beta. change (Ascii.eqb "," ",") with true. cbv iota.
    rewrite (IH y HP Hrep f rest) by lia. reflexivity.
Qed.

(** The text of one member of a written object. *)
Definition member (kv : string * value) : string :=
  quote (fst kv) ++ ":" ++ stringify (snd kv).

(** Reading the members of a written object, up to its closing brace. *)
Lemma parse_members_stringify (kv : string * value)
  (l : list (string * value)) :
  Forall (fun kv => representable (snd kv) ->
            forall fuel rest, (need (snd kv) <= fuel)%nat -> ends_number rest ->
              parse_value fuel (stringify (snd kv) ++ rest) = Ok (snd kv) rest)
         (kv :: l) ->
  representable_fields (kv :: l) ->
  forall fuel rest, (need_fields (kv :: l) <= fuel)%nat ->
    parse_members fuel (join "," (map member (kv :: l)) ++ String "}" rest)
    = Ok (kv :: l) rest.
Proof.
  revert kv. induction l as [|kv' l IH]; intros [k v] HP Hrep fuel rest Hfuel.
  - apply Forall_cons in HP as [Hx _]. destruct Hrep as [Hrx _].
    simpl in Hfuel, Hx, Hrx. destruct fuel as [|f]; [lia|].
    change (join "," (map member [(k, v)])) with (quote k ++ ":" ++ stringify v).
    rewrite !append_assoc. rewrite parse_members_step.
    change (":" ++ stringify v ++ String "}" rest)
      with (String ":" (stringify v ++ String "}" rest)).
    change (skip_ws (String ":" (stringify v ++ String "}" rest)))
      with (String ":" (stringify v ++ String "}" rest)).
    cbv iota beta. change (Ascii.eqb ":" ":") with true. cbv iota.
    rewrite (Hx Hrx f (String "}" rest)) by
      (try lia; apply ends_number_sep; reflexivity).
    reflexivity.
  - apply Forall_cons in HP as [Hx HP]. destruct Hrep as [Hrx Hrep].
    change (need_fields ((k, v) :: kv' :: l))
      with (S (need v + need_fields (kv' :: l))) in Hfuel.
    simpl in Hx, Hrx. destruct fuel as [|f]; [lia|].
    change (join "," (map member ((k, v) :: kv' :: l)))
      with ((quote k ++ ":" ++ stringify v) ++ ","
            ++ join "," (map member (kv' :: l))).
    rewrite !append_assoc. rewrite parse_members_step.
    set (tail := join "," (map member (kv' :: l)) ++ String "}" rest).
    change (":" ++ stringify v ++ "," ++ tail)
      with (String ":" (stringify v ++ String "," tail)).
    change (skip_ws (String ":" (stringify v ++ String "," tail)))
      with (String ":" (stringify v ++ String "," tail)).
    cbv iota beta. change (Ascii.eqb ":" ":") with true. cbv iota.
    rewrite (Hx Hrx f (String "," tail)) by
      (try lia; apply ends_number_sep; reflexivity).
    change (skip_ws (String "," tail)) with (String "," tail).
    cbv iota beta. change (Ascii.eqb "," ",") with true. cbv iota.
    subst tail. rewrite (IH kv' HP Hrep f rest) by lia. reflexivity.
Qed.

Lemma of_Z_head z :
  exists c r, Dec.of_Z z = String c r /\ Ascii.eqb c "-" || is_digit c = true.
Proof.
  destruct z as [|p|p]; unfold Dec.of_Z.
  - eexists _, _. split; reflexivity.
  - destruct (DecFacts.of_N_head (Npos p)) as (d & ds & E & Hd & _).
    exists d, ds. split; [exact E|]. rewrite Hd. apply orb_true_r.
  - eexists _, _. split; reflexivity.
Qed.

Lemma join_stringify_head x l :
  exists c r, join "," (map stringify (x :: l)) = String c r /\ opens_value c.
Proof.
  destruct (stringify_head x) as (c & r & E & Hc).
  destruct l as [|y l].
  - exists c, r. split; [exact E|exact Hc].
  - exists c, (r ++ "," ++ join "," (map stringify (y :: l))).
    split; [|exact Hc].
    change (join "," (map stringify (x :: y :: l)))
      with (stringify x ++ "," ++ join "," (map stringify (y :: l))).
    rewrite E. reflexivity.
Qed.

Lemma join_member_head kv l :
  exists r, join "," (map member (kv :: l)) = String dquote r.
Proof. destruct l; eexists; reflexivity. Qed.

(** Reading what [stringify] wrote gives the value back and stops right
    behind it, for every fuel that covers the nesting of the value. *)
Lemma parse_value_stringify v :
  representable v ->
  forall fuel rest, (need v <= fuel)%nat -> ends_number rest ->
    parse_value fuel (stringify v ++ rest) = Ok v rest.
Proof.
  induction v as [|b|z|s|bs|items IH|fields IH] using value_ind;
    intros Hrep fuel rest Hfuel Hrest;
    (destruct fuel as [|f]; [simpl in Hfuel; lia|]).
  - reflexivity.
  - destruct b; reflexivity.
  - destruct (of_Z_head z) as (c & r & E & Hc).
    pose proof (parse_number_of_Z z rest Hrep Hrest) as H.
    unfold stringify. rewrite E in H |- *.
    change (String c r ++ rest) with (String c (r ++ rest)) in H |- *.
    rewrite parse_value_number by exact Hc. exact H.
  - unfold stringify, quote.
    change (String dquote (escape s ++ String dquote EmptyString) ++ rest)
      with (String dquote ((escape s ++ String dquote EmptyString) ++ rest)).
    rewrite parse_value_quote, append_assoc.
    change (String dquote EmptyString ++ rest) with (String dquote rest).
    rewrite parse_chars_escape. reflexivity.
  - destruct Hrep.
  - destruct items as [|x l]; [reflexivity|].
    change (stringify (VSeq (x :: l)))
      with ("[" ++ join "," (map stringify (x :: l)) ++ "]").
    destruct (join_stringify_head x l) as (c & r & E & Hc).
    change (("[" ++ join "," (map stringify (x :: l)) ++ "]") ++ rest)
      with (String "[" ((join "," (map stringify (x :: l)) ++ "]") ++ rest)).
    rewrite append_assoc.
    change ("]" ++ rest) with (String "]" rest).
    pose proof (parse_elements_stringify x l IH Hrep f rest) as H.
    rewrite E in H |- *.
    change (String c r ++ String "]" rest)
      with (String c (r ++ String "]" rest)) in H |- *.
    rewrite parse_value_array by exact Hc.
    rewrite H; [reflexivity|].
    change (need (VSeq (x :: l))) with (S (need_items (x :: l))) in Hfuel. lia.
  - destruct fields as [|kv l]; [reflexivity|].
    destruct Hrep as [Hobj Hrep].
    change (stringify (VMap (kv :: l)))
      with ("{" ++ join "," (map member (kv :: l)) ++ "}").
    destruct (join_member_head kv l) as (r & E).
    change (("{" ++ join "," (map member (kv :: l)) ++ "}") ++ rest)
      with (String "{" ((join "," (map member (kv :: l)) ++ "}") ++ rest)).
    rewrite append_assoc.
    change ("}" ++ rest) with (String "}" rest).
    pose proof (parse_members_stringify kv l IH Hrep f rest) as H.
    rewrite E in H |- *.
    change (String dquote r ++ String "}" rest)
      with (String dquote (r ++ String "}" rest)) in H |- *.
    rewrite parse_value_object.
    rewrite H; [simpl; rewrite Hobj; reflexivity|].
    change (need (VMap (kv :: l))) with (S (need_fields (kv :: l))) in Hfuel.
    lia.
Qed.

(** The fuel [parse] supplies covers every written value. *)
Lemma need_le_length v : (need v <= String.length (stringify v))%nat.
Proof.
  induction v as [|b|z|s|bs|items IH|fields IH] using value_ind.
  - simpl. lia.
  - destruct b; simpl; lia.
  - destruct (of_Z_head z) as (c & r & E & _). unfold stringify.
    rewrite E. simpl. lia.
  - simpl. lia.
  - simpl. lia.
  - change (need (VSeq items)) with (S (need_items items)).
    change (stringify (VSeq items))
      with (String "[" (join "," (map stringify items) ++ "]")).
    cbn [String.length]. rewrite length_append.
    change (String.length "]") with 1%nat.
    enough (need_items items <= S (String.length (join "," (map stringify items))))%nat
      by lia.
    induction items as [|x l IHl]; [simpl; lia|].
    apply Forall_cons in IH as [Hx IH]. specialize (IHl IH).
    destruct l as [|y l].
    + simpl in *. lia.
    + change (need_items (x :: y :: l))
        with (S (need x + need_items (y :: l))).
      change (join "," (map stringify (x :: y :: l)))
        with (stringify x ++ "," ++ join "," (map stringify (y :: l))).
      rewrite !length_append. change (String.length ",") with 1%nat.
      assert (1 <= String.length (join "," (map stringify (y :: l))))%nat.
      { destruct (join_stringify_head y l) as (c & r & E & _). rewrite E.
        simpl. lia. }
      lia.
  - change (need (VMap fields)) with (S (need_fields fields)).
    change (stringify (VMap fields))
      with (String "{" (join "," (map member fields) ++ "}")).
    cbn [String.length]. rewrite length_append.
    change (String.length "}") with 1%nat.
    enough (need_fields fields <= String.length (join "," (map member fields)))%nat
      by lia.
    induction fields as [|[k x] l IHl]; [simpl; lia|].
    apply Forall_cons in IH as [Hx IH]. specialize (IHl IH). simpl in Hx.
    assert (Hm : (S (need x) <= String.length (member (k, x)))%nat).
    { unfold member, quote. simpl fst. simpl snd.
      cbn [append String.length]. rewrite !length_append.
      change (String.length ":") with 1%nat. lia. }
    destruct l as [|kv l].
    + change (need_fields [(k, x)]) with (S (need x + 0)).
      change (join "," (map member [(k, x)])) with (member (k, x)). lia.
    + change (need_fields ((k, x) :: kv :: l))
        with (S (need x + need_fields (kv :: l))).
      change (join "," (map member ((k, x) :: kv :: l)))
        with (member (k, x) ++ "," ++ join "," (map member (kv :: l))).
      rewrite !length_append. change (String.length ",") with 1%nat. lia.
Qed.

(** [JSON.parse(JSON.stringify(v))] is [v] on the representable values. *)
Lemma parse_stringify v : representable v -> parse (stringify v) = Value v.
Proof.
  intros Hrep. unfold parse.
  pose proof (parse_value_stringify v Hrep
                (S (2 * String.length (stringify v))) EmptyString) as H.
  assert (E : stringify v ++ EmptyString = stringify v).
  { generalize (stringify v). intros s.
    induction s as [|c s IH]; [reflexivity|].
    change (String c (s ++ EmptyString) = String c s). f_equal. exact IH. }
  rewrite E in H. rewrite H; [reflexivity| |apply ends_number_empty].
  pose proof (need_le_length v). lia.
Qed.

End JsonFacts.

(** ** Sample runs of the AOL codec *)

Module AolTests.
Import Values Aol.

Example parse_ex1 : parse "12" = Some (VNum 12).
Proof. vm_compute. reflexivity. Qed.

Example parse_ex2 : parse "hello" = Some (VStr "hello").
Proof. vm_compute. reflexivity. Qed.

Example parse_ex3 : parse EmptyString = Some (VNum 0).
Proof. vm_compute. reflexivity. Qed.

Example parse_ex4 : parse "+5" = Some (VNum 5).
Proof. vm_compute. reflexivity. Qed.

Example parse_ex5 : parse "1.5" = None.
Proof. vm_compute. reflexivity. Qed.

Example split_ex : split "<" "a<b<<c" = ["a"; "b"; EmptyString; "c"].
Proof. reflexivity. Qed.

Example encodeSets_ex :
  encodeSets [("a", VNum 1); ("b", VBool true); ("c", VNum 1)]
  = "a<c<1" ++ String newline "b<T".
Proof. vm_compute. reflexivity. Qed.

Example parseInstructions_ex :
  parseInstructions ("; comment" ++ String newline "a<c<1"
                     ++ String newline (String newline "#a #b"))
  = Some [ISet [("a", VNum 1); ("c", VNum 1)]; IRemove ["a"; "b"]].
Proof. vm_compute. reflexivity. Qed.

End AolTests.

(** ** The AOL text codec *)

Module CodecFacts.
Import Chars Values Aol.

(** A text that does not start with one of the letters of the short
    forms is handed to [JSON.parse]. *)
Definition short_letter (c : ascii) : bool :=
  Ascii.eqb c "N" || Ascii.eqb c "n" || Ascii.eqb c "T" || Ascii.eqb c "t"
  || Ascii.eqb c "F" || Ascii.eqb c "f".

Lemma parse_json c r v :
  short_letter c = false ->
  Json.parse (String c r) = Json.Value v ->
  parse (String c r) = Some v.
Proof.
  intros Hc Hv. unfold parse. rewrite Hv.
  assert (H : forall d, Ascii.eqb c d = false ->
                        (String c r =? String d EmptyString)%string = false).
  { intros d Hd. apply String.eqb_neq. intros [= -> _].
    rewrite Ascii.eqb_refl in Hd. discriminate. }
  unfold short_letter in Hc. repeat (apply orb_false_iff in Hc as [Hc ?]).
  rewrite !H by assumption. reflexivity.
Qed.

Lemma number_head_not_short c :
  Ascii.eqb c "-" || is_digit c = true -> short_letter c = false.
Proof.
  destruct c as [[] [] [] [] [] [] [] []]; vm_compute; intros H;
    try discriminate; reflexivity.
Qed.




(** [NaN.toString()] is the text [NaN], and that text is read as a
    string, not as a number: [JSON.parse] throws on it and [isNaN] holds
    of it. *)
Lemma nan_text_is_read_as_a_string : parse "NaN" = Some (VStr "NaN").
Proof. vm_compute. reflexivity. Qed.


End CodecFacts.

(** ** Replay of a backup file *)

Module ReplayFacts.
Import Chars Values Aol.

Definition both (x y : option (list instruction)) : option (list instruction) :=
  match x, y with
  | Some a, Some b => Some (a ++ b)%list
  | _, _ => None
  end.

Lemma split_nonempty sep s : exists p ps, split sep s = p :: ps.
Proof.
  destruct s as [|c r]; simpl; [eauto|].
  destruct (Ascii.eqb c sep); [eauto|].
  destruct (split sep r); eauto.
Qed.

Lemma split_append sep a b :
  split sep (a ++ String sep b) = (split sep a ++ split sep b)%list.
Proof.
  induction a as [|c a IH].
  - simpl. rewrite Ascii.eqb_refl. reflexivity.
  - change (String c a ++ String sep b) with (String c (a ++ String sep b)).
    simpl. destruct (Ascii.eqb c sep).
    + rewrite IH. reflexivity.
    + rewrite IH. destruct (split_nonempty sep a) as (p & ps & E).
      rewrite E. reflexivity.
Qed.

Lemma split_single sep s :
  Str.all (fun c => negb (Ascii.eqb c sep)) s = true -> split sep s = [s].
Proof.
  induction s as [|c r IH]; simpl; [reflexivity|].
  intros [Hc Hr]%andb_true_iff. apply negb_true_iff in Hc.
  rewrite Hc, (IH Hr). reflexivity.
Qed.

Lemma lines_of_append a b :
  lines_of (a ++ String newline b) = (lines_of a ++ lines_of b)%list.
Proof.
  unfold lines_of. rewrite split_append, map_app, List.filter_app.
  reflexivity.
Qed.

Lemma collect_append l1 l2 :
  collect (l1 ++ l2) = both (collect l1) (collect l2).
Proof.
  induction l1 as [|x l1 IH]; simpl.
  - destruct (collect l2); reflexivity.
  - rewrite IH. destruct (instructions_of_line x), (collect l1), (collect l2);
      simpl; try reflexivity. rewrite app_assoc. reflexivity.
Qed.

(** The instructions of a text are those of its lines, in order. *)
Lemma parseInstructions_append a b :
  parseInstructions (a ++ String newline b)
  = both (parseInstructions a) (parseInstructions b).
Proof. unfold parseInstructions. rewrite lines_of_append. apply collect_append. Qed.

Lemma both_nil_r x : both x (Some []) = x.
Proof. destruct x; simpl; [rewrite app_nil_r|]; reflexivity. Qed.

Lemma both_nil_l x : both (Some []) x = x.
Proof. destruct x; reflexivity. Qed.

(** The lines replay skips: blank after trimming, or starting with a
    semicolon after trimming. *)
Definition skipped (line : string) : Prop :=
  trim line = EmptyString \/ Str.first (trim line) = Some ";"%char.

Definition one_line (line : string) : Prop :=
  Str.all (fun c => negb (Ascii.eqb c newline)) line = true.

Lemma parseInstructions_skipped line :
  one_line line -> skipped line -> parseInstructions line = Some [].
Proof.
  intros Hone Hskip. unfold parseInstructions, lines_of.
  rewrite (split_single _ _ Hone). simpl.
  destruct Hskip as [E|E].
  - rewrite E. reflexivity.
  - destruct (trim line) as [|c r]; [discriminate|].
    injection E as ->. reflexivity.
Qed.

(** The test of [parseInstructions] on a line of the text: dropped by the
    filter (empty once trimmed) or passed over by the loop (a semicolon
    first). *)
Definition ignored (line : string) : bool :=
  match trim line with
  | EmptyString => true
  | String c _ => Ascii.eqb c ";"
  end.

Lemma ignored_skipped line : ignored line = true <-> skipped line.
Proof.
  unfold ignored, skipped. destruct (trim line) as [|c r]; simpl.
  - split; auto.
  - rewrite Ascii.eqb_eq. split.
    + intros ->. auto.
    + intros [H|[= ->]]; [discriminate|reflexivity].
Qed.

Lemma split_one_line s : Forall one_line (split newline s).
Proof.
  induction s as [|c r IH]; simpl; [repeat constructor|].
  destruct (Ascii.eqb c newline) eqn:E.
  - constructor; [reflexivity|exact IH].
  - destruct (split newline r) as [|p ps]; [repeat constructor|].
    + unfold one_line. simpl. rewrite E. reflexivity.
    + apply Forall_cons in IH as [Hp Hps]. constructor; [|exact Hps].
      unfold one_line in *. simpl. rewrite E, Hp. reflexivity.
Qed.

(** The lines of a text put together from pieces are the pieces, trimmed,
    without the empty ones. *)
Lemma lines_of_pieces pieces :
  Forall one_line pieces ->
  lines_of (Json.join (String newline EmptyString) pieces)
  = List.filter (fun line => negb (Str.is_empty line)) (map trim pieces).
Proof.
  induction pieces as [|p r IH]; intros H; [reflexivity|].
  apply Forall_cons in H as [Hp Hr].
  assert (E1 : lines_of p
               = List.filter (fun line => negb (Str.is_empty line)) [trim p]).
  { unfold lines_of. rewrite (split_single _ _ Hp). reflexivity. }
  destruct r as [|q r]; [exact E1|].
  change (Json.join (String newline EmptyString) (p :: q :: r))
    with (p ++ String newline (Json.join (String newline EmptyString) (q :: r))).
  rewrite lines_of_append, E1, (IH Hr).
  change (map trim (p :: q :: r)) with ([trim p] ++ map trim (q :: r))%list.
  rewrite List.filter_app. reflexivity.
Qed.

Lemma collect_ignored pieces :
  collect (List.filter (fun line => negb (Str.is_empty line))
                       (map trim pieces))
  = collect (List.filter (fun line => negb (Str.is_empty line))
               (map trim (List.filter (fun l => negb (ignored l)) pieces))).
Proof.
  induction pieces as [|p r IH]; [reflexivity|].
  cbn [map List.filter]. unfold ignored at 1.
  destruct (trim p) as [|c t] eqn:E.
  - cbn [Str.is_empty negb]. exact IH.
  - destruct (Ascii.eqb c ";") eqn:Ec; cbn [negb].
    + cbn [Str.is_empty negb collect]. rewrite <- IH.
      unfold instructions_of_line, starts_with. rewrite Ec. simpl.
      destruct (collect _); reflexivity.
    + cbn [map List.filter]. rewrite E. cbn [Str.is_empty negb collect].
      rewrite IH. reflexivity.
Qed.

(** C7 (as amended).  A final line is replayed whether or not a line feed
    ends it: a text and the same text with a line feed appended give the
    same instructions.  Lines that are blank or start with a semicolon,
    once trimmed, contribute no instruction wherever they stand: between
    two other lines, as the first line, as the last line or as the whole
    text; every text gives the instructions of the text made of its other
    lines. *)
Theorem replay_lines :
  forall content : string,
    parseInstructions (content ++ String newline EmptyString)
    = parseInstructions content
    /\ (forall before line after,
          content = before ++ String newline (line ++ String newline after) ->
          one_line line -> skipped line ->
          parseInstructions content
          = parseInstructions (before ++ String newline after))
    /\ (forall line,
          content = line -> one_line line -> skipped line ->
          parseInstructions content = Some [])
    /\ (forall line after,
          content = line ++ String newline after ->
          one_line line -> skipped line ->
          parseInstructions content = parseInstructions after)
    /\ (forall before line,
          content = before ++ String newline line ->
          one_line line -> skipped line ->
          parseInstructions content = parseInstructions before)
    /\ parseInstructions content
       = parseInstructions
           (Json.join (String newline EmptyString)
              (List.filter (fun line => negb (ignored line))
                           (split newline content)))
    /\ Forall (fun line => ~ skipped line)
              (List.filter (fun line => negb (ignored line))
                           (split newline content)).
Proof.
  intros content. repeat split.
  - rewrite parseInstructions_append. apply both_nil_r.
  - intros before line after -> Hone Hskip.
    rewrite !parseInstructions_append.
    rewrite (parseInstructions_skipped line Hone Hskip), both_nil_l.
    reflexivity.
  - intros line -> Hone Hskip. apply parseInstructions_skipped; assumption.
  - intros line after -> Hone Hskip.
    rewrite parseInstructions_append.
    rewrite (parseInstructions_skipped line Hone Hskip). apply both_nil_l.
  - intros before line -> Hone Hskip.
    rewrite parseInstructions_append.
    rewrite (parseInstructions_skipped line Hone Hskip). apply both_nil_r.
  - unfold parseInstructions at 2. rewrite lines_of_pieces.
    + rewrite <- collect_ignored. reflexivity.
    + apply List.Forall_forall. intros l Hl. apply filter_In in Hl as [Hl _].
      pose proof (split_one_line content) as H.
      rewrite List.Forall_forall in H. apply H, Hl.
  - apply List.Forall_forall. intros l Hl. apply filter_In in Hl as [_ Hl].
    intros Hs. apply ignored_skipped in Hs. rewrite Hs in Hl. discriminate.
Qed.

(** A comment first, a blank line, a line without a line feed last. *)
Example replay_lines_sample :
  parseInstructions ("; c" ++ String newline "a<1"
                     ++ String newline ("  " ++ String newline "b<2"))
  = Some [ISet [("a", VNum 1)]; ISet [("b", VNum 2)]]
  /\ List.filter (fun line => negb (ignored line))
       (split newline ("; c" ++ String newline "a<1"
                       ++ String newline ("  " ++ String newline "b<2")))
     = ["a<1"; "b<2"].
Proof. split; vm_compute; reflexivity. Qed.

(** C7 (as stated) fails: a backup file whose last line was cut in the
    middle of a value and has no line feed is replayed to the end.  The
    cut line [b<[1,2] sets [b] to the string ["[1,2"], also in the store
    that [restore_backup] fills (shown with the key as its own digest and
    encodings of one byte). *)
Lemma replay_unterminated_line :
  parseInstructions ("a<1" ++ String newline "b<[1,2")
  = Some [ISet [("a", VNum 1)]; ISet [("b", VStr "[1,2")]]
  /\ parseInstructions ("a<1" ++ String newline EmptyString)
     = Some [ISet [("a", VNum 1)]]
  /\ (Core.lookupValue "b"
        <$> CoreHelper.restore_backup (fun k : string => k) (fun _ => 1)
              ("a<1" ++ String newline "b<[1,2") (Core.fresh 1 false None))
     = Some (Some (VStr "[1,2")).
Proof. repeat split; vm_compute; reflexivity. Qed.

End ReplayFacts.

(** ** The AOL writer and its worker *)

Module WriterFacts.
Import Values Core Aol.

Lemma job_keeps_file a d :
  current_file_name (fst (job a d)) = current_file_name a.
Proof.
  unfold job. destruct (instructions_changed a); simpl; [|reflexivity].
  destruct (queue a); [reflexivity|].
  destruct (file_descriptor a); reflexivity.
Qed.

Lemma add_keeps_file k v a :
  current_file_name (add k v a) = current_file_name a.
Proof. reflexivity. Qed.

(** Once a file is named, [rotate] does nothing, at any later time and
    whatever the size of the file. *)
Lemma rotate_named date_now a name :
  current_file_name a = Some name -> rotate date_now a = a.
Proof. intros E. unfold rotate. rewrite E. reflexivity. Qed.

(** The worker turns down every request that is not a [set]. *)
Lemma on_message_not_set a data :
  Core.action data <> "set" -> on_message a data = (a, false).
Proof.
  intros H. unfold on_message.
  apply String.eqb_neq in H. rewrite H. reflexivity.
Qed.

(** C6.  A writer started at clock 1000000 ms names its file [1000.sfb].
    Two flushes of 21 and 22 bytes go to that file, also with [rotate()]
    called in between at clock 2000000 ms: the file holds 43 bytes and no
    file [2000.sfb] exists.  [SnowflakeAol] has no byte limit at all: the
    setting [persistent.backup_size_limit] is only printed at start-up, and
    [rotate()] does nothing once a file is named. *)
Theorem aol_never_rotates :
  let started := worker 1000000 (create "db") ∅ in
  let first := job (add "k" (VStr "0123456789abcdef") (fst started))
                   (snd started) in
  let second := job (add "k2" (VStr "0123456789abcdef")
                         (rotate 2000000 (fst first)))
                    (snd first) in
  current_file_name (fst started) = Some "1000.sfb"
  /\ String.length <$> (snd first !! "db/1000.sfb") = Some 21%nat
  /\ current_file_name (fst second) = Some "1000.sfb"
  /\ String.length <$> (snd second !! "db/1000.sfb") = Some 43%nat
  /\ snd second !! "db/2000.sfb" = None.
Proof. vm_compute. repeat split; reflexivity. Qed.

(** C2.  [remove] of a live key answers [true], appends the slot of the
    entry to the free list and clears both table entries, but posts
    nothing to the AOL worker: the list of posted requests is unchanged.
    The worker would turn a remove request down in any case.  On an absent
    key [remove] answers [false] and leaves the state alone. *)
Theorem remove_posts_nothing :
  forall (sha256 : string -> string) (k : string) (st : core),
    (exist k st = true ->
     exists e,
       Core.lookupKey k st = Some e
       /\ fst (Core.remove sha256 k st) = true
       /\ trash (tables (snd (Core.remove sha256 k st)))
          = (trash (tables st)
             ++ [Slot (key_size e) (key_position e) (key_length e)])%list
       /\ exist k (snd (Core.remove sha256 k st)) = false
       /\ (forall def,
             fst (Core.get sha256 k def (snd (Core.remove sha256 k st))) = def)
       /\ posted (snd (Core.remove sha256 k st)) = posted st)
    /\ (exist k st = false -> Core.remove sha256 k st = (false, st))
    /\ (forall a v, on_message a (Request "remove" k v) = (a, false)).
Proof.
  intros sha256 k st. split; [|split].
  - intros Hex.
    destruct (CoreFacts.remove_live sha256 k st Hex)
      as (e & He & Hr & Ht & _ & _ & _ & Hp).
    exists e. split; [unfold lookupKey; rewrite He; reflexivity|].
    split; [exact Hr|]. split; [exact Ht|].
    split; [apply CoreFacts.exist_after_remove, Hex|].
    split; [intros def; apply CoreFacts.get_after_remove, Hex|exact Hp].
  - apply CoreFacts.remove_absent.
  - intros a v. apply on_message_not_set. discriminate.
Qed.

(** With a digest that is the key itself and encodings of one byte: what
    reaches the backup file for [set("k", 7); remove("k")] is the [set]
    line alone, and replaying the file brings the removed key back. *)
Example removed_key_returns :
  let sha256 := fun k : string => k in
  let encoded_length := fun _ : Values.value => 1 in
  let st := snd (Core.remove sha256 "k"
                   (snd (Core.set sha256 encoded_length "k" (VNum 7)
                                  (fresh 1 false None)))) in
  let writer :=
    foldl (fun a r => fst (on_message a r))
          (fst (worker 1000000 (create "db") ∅)) (posted st) in
  let files := snd (job writer (snd (worker 1000000 (create "db") ∅))) in
  exist "k" st = false
  /\ files !! "db/1000.sfb" = Some ("k<7" ++ String newline EmptyString)
  /\ (exist "k"
        <$> CoreHelper.restore_backup sha256 encoded_length
              ("k<7" ++ String newline EmptyString) (fresh 1 false None))
     = Some true.
Proof. vm_compute. repeat split; reflexivity. Qed.

End WriterFacts.

(** ** The store as a whole: result codes, invariants, isolation *)

Module StoreFacts.
Import Values Core CoreFacts.

Section WithCodec.

Variable sha256 : string -> string.
Variable encoded_length : Values.value -> Z.

#[local] Abbreviation sha256_cached := (Core.sha256_cached sha256).
#[local] Abbreviation setUnsafe := (Core.setUnsafe sha256 encoded_length).
#[local] Abbreviation set := (Core.set sha256 encoded_length).
#[local] Abbreviation get := (Core.get sha256).
#[local] Abbreviation remove := (Core.remove sha256).

(** The memo table [#cache] only ever holds digests of its keys. *)
Definition cache_ok (st : core) : Prop :=
  forall k h, cache st !! k = Some h -> h = sha256 k.

(** The entry [setUnsafe] files for a key that is not live. *)
Definition inserted (k : string) (v : Values.value) (st : core) : key_entry :=
  KeyEntry (fst (nextMeid st)) k (sha256 k) (encoded_length v) (-1)
           (36 + encoded_length v).

Lemma exist_tables k st1 st2 :
  tables st1 = tables st2 -> exist k st1 = exist k st2.
Proof. intros E. unfold exist, lookupKey. rewrite E. reflexivity. Qed.

Lemma sha256_cached_ok k st :
  cache_ok st ->
  fst (sha256_cached k true st) = sha256 k
  /\ cache_ok (snd (sha256_cached k true st)).
Proof.
  intros Hc. unfold Core.sha256_cached.
  destruct (cache st !! k) as [h|] eqn:E; simpl.
  - split; [apply Hc, E | exact Hc].
  - split; [reflexivity|]. intros k0 h0. unfold cache_ok in Hc. simpl.
    destruct (decide (k = k0)) as [->|Hne].
    + rewrite lookup_insert_eq. congruence.
    + rewrite lookup_insert_ne by exact Hne. apply Hc.
Qed.

Lemma sha256_cached_frame k st :
  let st1 := snd (sha256_cached k true st) in
  tables st1 = tables st /\ posted st1 = posted st
  /\ meids_size st1 = meids_size st /\ current_meid st1 = current_meid st
  /\ memory_monitor st1 = memory_monitor st /\ max_memory st1 = max_memory st.
Proof.
  unfold Core.sha256_cached. destruct (cache st !! k); simpl; auto 10.
Qed.

Lemma nextMeid_frame st :
  let st1 := snd (nextMeid st) in
  tables st1 = tables st /\ posted st1 = posted st
  /\ meids_size st1 = meids_size st /\ cache st1 = cache st
  /\ memory_monitor st1 = memory_monitor st /\ max_memory st1 = max_memory st.
Proof. unfold nextMeid. destruct (meids_size st <=? 1)%Z; simpl; auto 10. Qed.

(** What [set] returns is decided by the sanitized key and by whether
    it is live. *)
Lemma set_code k v st :
  let k' := Sanitize.sanitizeKey k false in
  fst (set k v st)
  = if Str.is_empty k' then 0 else if exist k' st then 1 else 2.
Proof.
  intros k'. unfold Core.set. fold k'.
  destruct (Str.is_empty k') eqn:Hk; [reflexivity|]. simpl negb. cbv iota.
  unfold Core.setUnsafe. rewrite Hk.
  set (st0 := askWorker (Request "set" k' v) st).
  pose proof (sha256_cached_frame k' st0) as (Ht & _).
  destruct (sha256_cached k' true st0) as [h st1]. simpl in Ht.
  rewrite (exist_tables k' st1 st) by exact Ht.
  destruct (exist k' st); [reflexivity|].
  destruct (nextMeid st1). reflexivity.
Qed.

(** The whole effect of a [set] with a non-empty sanitized key. *)
Lemma set_effect k v st :
  let k' := Sanitize.sanitizeKey k false in
  let st' := snd (set k v st) in
  let t := tables st in
  Str.is_empty k' = false ->
  cache_ok st ->
  cache_ok st'
  /\ posted st' = (posted st ++ [Request "set" k' v])%list
  /\ meids_size st' = meids_size st
  /\ (if exist k' st
      then tables st'
           = Lookup (key t) (<[sha256 k' := Some v]> (value t)) (trash t)
           /\ current_meid st' = current_meid st
      else tables st'
           = Lookup (<[k' := Some (inserted k' v st)]> (key t))
                    (<[sha256 k' := Some v]> (value t)) (trash t)
           /\ current_meid st' = current_meid (snd (nextMeid st))).
Proof.
  intros k' st' t Hk Hc. subst st'. unfold Core.set. fold k'.
  rewrite Hk. simpl negb. cbv iota.
  unfold Core.setUnsafe. rewrite Hk.
  set (st0 := askWorker (Request "set" k' v) st).
  assert (Hc0 : cache_ok st0) by exact Hc.
  pose proof (sha256_cached_frame k' st0) as (Ht & Hp & Hm & Hcur & _).
  pose proof (sha256_cached_ok k' st0 Hc0) as (Hh & Hc1).
  destruct (sha256_cached k' true st0) as [h st1].
  simpl in Ht, Hp, Hm, Hcur, Hh, Hc1. subst h.
  rewrite (exist_tables k' st1 st) by exact Ht.
  destruct (exist k' st).
  - simpl. rewrite Ht, Hp, Hm, Hcur. repeat split; auto.
  - unfold inserted, nextMeid. rewrite Hm, Hcur. simpl meids_size.
    simpl current_meid.
    destruct (meids_size st <=? 1)%Z; simpl; rewrite Ht, Hp, Hm;
      repeat split; auto.
Qed.

(** The whole effect of a [remove]. *)
Lemma remove_effect k st :
  let st' := snd (remove k st) in
  let t := tables st in
  cache_ok st ->
  cache_ok st'
  /\ posted st' = posted st
  /\ meids_size st' = meids_size st
  /\ current_meid st' = current_meid st
  /\ (if exist k st
      then exists e,
             key t !! k = Some (Some e)
             /\ fst (remove k st) = true
             /\ tables st'
                = Lookup (<[k := None]> (key t))
                         (<[sha256 k := None]> (value t))
                         (trash t ++ [Slot (key_size e) (key_position e)
                                           (key_length e)])
      else remove k st = (false, st)).
Proof.
  intros st' t Hc. subst st' t. unfold Core.remove.
  destruct (exist k st) eqn:Hex; simpl negb; cbv iota.
  2:{ simpl. auto 10. }
  destruct (exist_entry _ _ Hex) as (e & He & _).
  pose proof (sha256_cached_frame k st) as (Ht & Hp & Hm & Hcur & _).
  pose proof (sha256_cached_ok k st Hc) as (Hh & Hc1).
  destruct (sha256_cached k true st) as [h st1].
  simpl in Ht, Hp, Hm, Hcur, Hh, Hc1. subst h.
  rewrite Ht, He. simpl.
  repeat split; auto. exists e. auto.
Qed.

(** The whole effect of a [get]. *)
Lemma get_effect k def st :
  let st' := snd (get k def st) in
  cache_ok st ->
  cache_ok st'
  /\ tables st' = tables st
  /\ posted st' = posted st
  /\ meids_size st' = meids_size st
  /\ current_meid st' = current_meid st
  /\ fst (get k def st)
     = match lookupValue (sha256 k) st with Some v => v | None => def end.
Proof.
  intros st' Hc. subst st'. unfold Core.get.
  pose proof (sha256_cached_frame k st) as (Ht & Hp & Hm & Hcur & _).
  pose proof (sha256_cached_ok k st Hc) as (Hh & Hc1).
  destruct (sha256_cached k true st) as [h st1].
  simpl in Ht, Hp, Hm, Hcur, Hh, Hc1. subst h.
  assert (Hl : lookupValue (sha256 k) st1 = lookupValue (sha256 k) st)
    by (unfold lookupValue; rewrite Ht; reflexivity).
  rewrite Hl. destruct (lookupValue (sha256 k) st); simpl; auto 10.
Qed.

(** A key entry as [#setLookupKey] files it on behalf of [setUnsafe],
    in a store of [n] shards. *)
Definition entry_ok (n : Z) (k : string) (e : key_entry) : Prop :=
  name e = k /\ hash_str e = sha256 k /\ key_position e = -1
  /\ 0 <= key_size e /\ key_length e = 36 + key_size e
  /\ 0 <= meid e < Z.max n 1
  /\ Str.is_empty k = false /\ Str.all Chars.is_key_char k = true.

Definition slot_ok (s : slot) : Prop :=
  position s = -1 /\ 0 <= size s /\ length s = 36 + size s.

(** The state of a store that was only driven through [set], [get] and
    [remove]: digests are memoised correctly, the shard counter is in
    range, every live key has a well-formed entry and a binding under
    its digest, every bound digest belongs to a live key, and the free
    list holds the slots of removed entries. *)
Definition well_formed (st : core) : Prop :=
  cache_ok st
  /\ -1 <= current_meid st < Z.max (meids_size st) 1
  /\ (forall k e, key (tables st) !! k = Some (Some e) ->
        entry_ok (meids_size st) k e
        /\ exists v, value (tables st) !! sha256 k = Some (Some v))
  /\ (forall h v, value (tables st) !! h = Some (Some v) ->
        exists k e, h = sha256 k /\ key (tables st) !! k = Some (Some e))
  /\ Forall slot_ok (trash (tables st)).

Lemma nextMeid_range st :
  -1 <= current_meid st < Z.max (meids_size st) 1 ->
  0 <= fst (nextMeid st) < Z.max (meids_size st) 1
  /\ -1 <= current_meid (snd (nextMeid st)) < Z.max (meids_size st) 1.
Proof.
  intros H. unfold nextMeid.
  destruct (meids_size st <=? 1)%Z eqn:E; simpl.
  - apply Z.leb_le in E. lia.
  - apply Z.leb_gt in E.
    destruct (current_meid st + 1 >=? meids_size st)%Z eqn:G; simpl; [lia|].
    rewrite Z.geb_leb in G. apply Z.leb_gt in G. lia.
Qed.

Lemma well_formed_fresh n monitor cap : well_formed (fresh n monitor cap).
Proof.
  unfold well_formed, cache_ok. simpl.
  split; [intros k h; rewrite lookup_empty; discriminate|].
  split; [lia|].
  split; [intros k e; rewrite lookup_empty; discriminate|].
  split; [intros h v; rewrite lookup_empty; discriminate|constructor].
Qed.

Lemma exist_live k st :
  well_formed st ->
  exist k st = true <-> exists e, key (tables st) !! k = Some (Some e).
Proof.
  intros (_ & _ & Hk & _). split.
  - intros H. destruct (exist_entry _ _ H) as (e & He & _). eauto.
  - intros (e & He). unfold exist, lookupKey. rewrite He.
    destruct (Hk _ _ He) as ((_ & _ & _ & Hs & Hl & _) & _).
    apply Z.gtb_lt. lia.
Qed.

Lemma well_formed_set k v st :
  0 <= encoded_length v ->
  well_formed st -> well_formed (snd (set k v st)).
Proof.
  intros Hlen Hwf.
  destruct (Str.is_empty (Sanitize.sanitizeKey k false)) eqn:Hk.
  { unfold Core.set. rewrite Hk. exact Hwf. }
  pose proof Hwf as (Hc & Hm & Hkeys & Hvals & Htr).
  destruct (set_effect k v st Hk Hc) as (Hc' & _ & Hn & Hcase).
  set (k' := Sanitize.sanitizeKey k false) in *.
  destruct (exist k' st) eqn:Hex.
  - destruct Hcase as (Ht & Hcur).
    destruct (exist_entry _ _ Hex) as (e0 & He0 & _).
    unfold well_formed. rewrite Ht, Hn, Hcur. simpl.
    split; [exact Hc'|]. split; [exact Hm|]. split; [|split].
    + intros k0 e H. destruct (Hkeys _ _ H) as (Hok & w & Hw).
      split; [exact Hok|].
      destruct (decide (sha256 k' = sha256 k0)) as [E|E].
      * rewrite E, lookup_insert_eq. eauto.
      * rewrite lookup_insert_ne by exact E. eauto.
    + intros h w. destruct (decide (sha256 k' = h)) as [<-|E].
      * intros _. eauto.
      * rewrite lookup_insert_ne by exact E. apply Hvals.
    + exact Htr.
  - destruct Hcase as (Ht & Hcur).
    destruct (nextMeid_range st Hm) as (Hidx & Hcur').
    unfold well_formed. rewrite Ht, Hn, Hcur. simpl.
    split; [exact Hc'|]. split; [exact Hcur'|]. split; [|split].
    + intros k0 e. destruct (decide (k' = k0)) as [<-|E].
      * rewrite lookup_insert_eq. intros [= <-]. split.
        -- unfold entry_ok, inserted. simpl.
           repeat split; try lia; try exact Hk.
           apply SanitizeFacts.sanitizeKey_key_chars.
        -- rewrite lookup_insert_eq. eauto.
      * rewrite lookup_insert_ne by exact E. intros H.
        destruct (Hkeys _ _ H) as (Hok & w & Hw). split; [exact Hok|].
        destruct (decide (sha256 k' = sha256 k0)) as [E'|E'].
        -- rewrite E', lookup_insert_eq. eauto.
        -- rewrite lookup_insert_ne by exact E'. eauto.
    + intros h w. destruct (decide (sha256 k' = h)) as [<-|E].
      * intros _. exists k', (inserted k' v st).
        rewrite lookup_insert_eq. auto.
      * rewrite lookup_insert_ne by exact E. intros H.
        destruct (Hvals _ _ H) as (k0 & e & -> & He).
        exists k0. destruct (decide (k' = k0)) as [<-|E0].
        -- rewrite lookup_insert_eq. eauto.
        -- rewrite lookup_insert_ne by exact E0. eauto.
    + exact Htr.
Qed.

Lemma well_formed_get k def st :
  well_formed st -> well_formed (snd (get k def st)).
Proof.
  intros (Hc & Hm & Hkeys & Hvals & Htr).
  destruct (get_effect k def st Hc) as (Hc' & Ht & _ & Hn & Hcur & _).
  unfold well_formed. rewrite Ht, Hn, Hcur. auto.
Qed.

Lemma well_formed_remove k st :
  (forall a b, sha256 a = sha256 b -> a = b) ->
  well_formed st -> well_formed (snd (remove k st)).
Proof.
  intros Hinj Hwf. pose proof Hwf as (Hc & Hm & Hkeys & Hvals & Htr).
  destruct (remove_effect k st Hc) as (Hc' & _ & Hn & Hcur & Hcase).
  destruct (exist k st) eqn:Hex; [|rewrite Hcase; exact Hwf].
  destruct Hcase as (e & He & _ & Ht).
  unfold well_formed. rewrite Ht, Hn, Hcur. simpl.
  split; [exact Hc'|]. split; [exact Hm|]. split; [|split].
  - intros k0 e0. destruct (decide (k = k0)) as [<-|E].
    + rewrite lookup_insert_eq. discriminate.
    + rewrite lookup_insert_ne by exact E. intros H.
      destruct (Hkeys _ _ H) as (Hok & w & Hw). split; [exact Hok|].
      rewrite lookup_insert_ne; [eauto|]. intros E'. apply E, Hinj, E'.
  - intros h w. destruct (decide (sha256 k = h)) as [<-|E].
    + rewrite lookup_insert_eq. discriminate.
    + rewrite lookup_insert_ne by exact E. intros H.
      destruct (Hvals _ _ H) as (k0 & e0 & -> & He0).
      exists k0, e0. split; [reflexivity|].
      rewrite lookup_insert_ne; [exact He0|]. intros ->. apply E. reflexivity.
  - apply Forall_app. split; [exact Htr|]. constructor; [|constructor].
    destruct (Hkeys _ _ He) as ((_ & _ & Hp & Hs & Hl & _) & _).
    unfold slot_ok. simpl. auto.
Qed.

(** Calls of the core API, and the state a sequence of them leaves. *)
Inductive call : Type :=
| CSet (k : string) (v : Values.value)
| CGet (k : string) (def : Values.value)
| CRemove (k : string).

Definition step (c : call) (st : core) : core :=
  match c with
  | CSet k v => snd (set k v st)
  | CGet k def => snd (get k def st)
  | CRemove k => snd (remove k st)
  end.

Definition run (calls : list call) (st : core) : core :=
  fold_left (fun st c => step c st) calls st.

Lemma cache_ok_step c st : cache_ok st -> cache_ok (step c st).
Proof.
  intros Hc. destruct c as [k v|k def|k]; simpl.
  - destruct (Str.is_empty (Sanitize.sanitizeKey k false)) eqn:Hk.
    + unfold Core.set. rewrite Hk. exact Hc.
    + apply (set_effect k v st Hk Hc).
  - apply (get_effect k def st Hc).
  - apply (remove_effect k st Hc).
Qed.

Lemma cache_ok_run calls st : cache_ok st -> cache_ok (run calls st).
Proof.
  revert st. induction calls as [|c r IH]; intros st Hc; [exact Hc|].
  simpl. apply IH, cache_ok_step, Hc.
Qed.

Lemma cache_ok_fresh n monitor cap : cache_ok (fresh n monitor cap).
Proof. intros k h. simpl. rewrite lookup_empty. discriminate. Qed.

Lemma well_formed_run calls st :
  (forall a b, sha256 a = sha256 b -> a = b) ->
  (forall v, 0 <= encoded_length v) ->
  well_formed st -> well_formed (run calls st).
Proof.
  intros Hinj Hlen. revert st.
  induction calls as [|c r IH]; intros st Hwf; [exact Hwf|].
  simpl. apply IH. destruct c as [k v|k def|k]; simpl.
  - apply well_formed_set; [apply Hlen | exact Hwf].
  - apply well_formed_get, Hwf.
  - apply well_formed_remove; assumption.
Qed.

(** The key table, the free list and the shard counter after a [set],
    whatever the memo table holds. *)
Lemma set_keys k v st :
  let k' := Sanitize.sanitizeKey k false in
  let st' := snd (set k v st) in
  Str.is_empty k' = false ->
  trash (tables st') = trash (tables st)
  /\ (if exist k' st
      then key (tables st') = key (tables st)
           /\ current_meid st' = current_meid st
      else exists e,
           key (tables st') = <[k' := Some e]> (key (tables st))
           /\ key_size e = encoded_length v
           /\ key_length e = 36 + encoded_length v
           /\ meid e = fst (nextMeid st)).
Proof.
  intros k' st' Hk. subst st'. unfold Core.set. fold k'.
  rewrite Hk. simpl negb. cbv iota.
  unfold Core.setUnsafe. rewrite Hk.
  set (st0 := askWorker (Request "set" k' v) st).
  pose proof (sha256_cached_frame k' st0) as (Ht & Hp & Hm & Hcur & _).
  destruct (sha256_cached k' true st0) as [h st1].
  simpl in Ht, Hp, Hm, Hcur.
  rewrite (exist_tables k' st1 st) by exact Ht.
  destruct (exist k' st).
  - simpl. rewrite Ht, Hcur. auto.
  - unfold nextMeid. rewrite Hm, Hcur. simpl meids_size. simpl current_meid.
    destruct (meids_size st <=? 1)%Z; simpl; rewrite Ht;
      (split; [reflexivity|]); eexists; simpl; auto.
Qed.

Lemma trash_step c st :
  exists more,
    trash (tables (step c st)) = (trash (tables st) ++ more)%list.
Proof.
  destruct c as [k v|k def|k]; simpl.
  - exists []. rewrite app_nil_r.
    destruct (Str.is_empty (Sanitize.sanitizeKey k false)) eqn:Hk.
    + unfold Core.set. rewrite Hk. reflexivity.
    + apply (set_keys k v st Hk).
  - exists []. rewrite app_nil_r. unfold Core.get.
    pose proof (sha256_cached_frame k st) as (Ht & _).
    destruct (sha256_cached k true st) as [h st1]. simpl in Ht.
    destruct (lookupValue h st1); simpl; rewrite Ht; reflexivity.
  - destruct (exist k st) eqn:Hex.
    + destruct (remove_live sha256 k st Hex) as (e & _ & _ & Htr & _).
      eexists. exact Htr.
    + exists []. rewrite app_nil_r.
      rewrite (remove_absent sha256 k st Hex). reflexivity.
Qed.

End WithCodec.

(** The calls whose key no object inherits: the sanitized key for [set],
    the key as given for [remove]; [get] reads no key table. *)
Definition ordinary (c : call) : bool :=
  match c with
  | CSet k _ => negb (Plain.inherited (Sanitize.sanitizeKey k false))
  | CGet _ _ => true
  | CRemove k => negb (Plain.inherited k)
  end.

(** X4.  The result of [set(k, v)] is decided by the sanitized key [k'],
    for a key [k'] that no object inherits and a key table that has its
    own prototype: 0 when [k'] is empty, and then nothing at all happens
    (no table is touched and nothing is posted to the AOL worker); 1 when
    [k'] is live (its value is replaced); 2 otherwise (a new entry is
    filed). *)
Theorem set_result_code :
  forall (sha256 : string -> string) (encoded_length : Values.value -> Z)
         (k : string) (v : Values.value) (st : core),
    let k' := Sanitize.sanitizeKey k false in
    let r := Core.set sha256 encoded_length k v st in
    Plain.inherited k' = false ->
    Plain.unspoiled st ->
    (Str.is_empty k' = true -> r = (0, st))
    /\ (Str.is_empty k' = false -> exist k' st = true -> fst r = 1)
    /\ (Str.is_empty k' = false -> exist k' st = false -> fst r = 2).
Proof.
  intros sha256 encoded_length k v st k' r _ _. subst r.
  pose proof (set_code sha256 encoded_length k v st) as H. fold k' in H.
  repeat split.
  - intros Hk. unfold Core.set. fold k'. rewrite Hk. reflexivity.
  - intros Hk Hex. rewrite H, Hk, Hex. reflexivity.
  - intros Hk Hex. rewrite H, Hk, Hex. reflexivity.
Qed.

Lemma set_result_code_witness :
  let sha256 := fun k : string => k in
  let encoded_length := fun _ : Values.value => 1 in
  let st := fresh 2 false None in
  let st1 := snd (Core.set sha256 encoded_length "my key" (VNum 1) st) in
  let r := Core.set sha256 encoded_length "my key" (VNum 2) st1 in
  Plain.inherited (Sanitize.sanitizeKey "my key" false) = false
  /\ Plain.unspoiled st1
  /\ exist "my_key" st1 = true
  /\ (Str.is_empty (Sanitize.sanitizeKey "my key" false) = true ->
      r = (0, st1))
  /\ (Str.is_empty (Sanitize.sanitizeKey "my key" false) = false ->
      exist (Sanitize.sanitizeKey "my key" false) st1 = true -> fst r = 1)
  /\ (Str.is_empty (Sanitize.sanitizeKey "my key" false) = false ->
      exist (Sanitize.sanitizeKey "my key" false) st1 = false -> fst r = 2).
Proof.
  intros sha256 encoded_length st st1 r.
  split; [reflexivity|]. split; [reflexivity|]. split; [reflexivity|].
  apply (set_result_code sha256 encoded_length "my key" (VNum 2) st1);
    reflexivity.
Defined.

(** X5.  [set] on a live key replaces the value and nothing else: the
    key table keeps the entry of the first insert (shard, recorded size
    and length, also when the new value encodes to another length), the
    free list and the round-robin counter are untouched. *)
Theorem set_live_keeps_entry :
  forall (sha256 : string -> string) (encoded_length : Values.value -> Z)
         (k : string) (v : Values.value) (st : core),
    Str.is_empty (Sanitize.sanitizeKey k false) = false ->
    exist (Sanitize.sanitizeKey k false) st = true ->
    let st' := snd (Core.set sha256 encoded_length k v st) in
    key (tables st') = key (tables st)
    /\ trash (tables st') = trash (tables st)
    /\ current_meid st' = current_meid st
    /\ lookupKey (Sanitize.sanitizeKey k false) st'
       = lookupKey (Sanitize.sanitizeKey k false) st.
Proof.
  intros sha256 encoded_length k v st Hk Hex st'. subst st'.
  destruct (set_keys sha256 encoded_length k v st Hk) as (Htr & Hcase).
  rewrite Hex in Hcase. destruct Hcase as (Hkey & Hcur).
  repeat split; auto. unfold lookupKey. rewrite Hkey. reflexivity.
Qed.

Lemma set_live_keeps_entry_witness :
  let sha256 := fun k : string => k in
  let encoded_length := fun v : Values.value =>
    match v with VStr s => Z.of_nat (String.length s) | _ => 1 end in
  let st := snd (Core.set sha256 encoded_length "a" (VStr "x")
                          (fresh 2 false None)) in
  let st' := snd (Core.set sha256 encoded_length "a" (VStr "longer") st) in
  exist "a" st = true
  /\ key (tables st') = key (tables st)
  /\ trash (tables st') = trash (tables st)
  /\ current_meid st' = current_meid st
  /\ lookupKey "a" st' = lookupKey "a" st.
Proof.
  intros sha256 encoded_length st st'.
  split; [reflexivity|].
  exact (set_live_keeps_entry sha256 encoded_length "a" (VStr "longer") st
           eq_refl eq_refl).
Defined.

(** X6.  Invariants of the lookup tables.  When digests do not collide
    and encodings have a length, every state reached from a fresh store
    by [set], [get] and [remove] calls on keys that no object inherits is
    well formed: the memo table
    holds digests of its keys; the round-robin counter is in range; each
    live key is a non-empty string of key characters whose entry carries
    its name, its digest, a shard index below the shard count, position
    -1 and length 36 + size, and whose digest is bound in the value
    table; each bound digest belongs to a live key; each slot of the
    free list has length 36 + size. *)
Theorem reachable_well_formed :
  forall (sha256 : string -> string) (encoded_length : Values.value -> Z)
         (calls : list call) (n : Z) (monitor : bool) (cap : option Z),
    (forall a b, sha256 a = sha256 b -> a = b) ->
    (forall v, 0 <= encoded_length v) ->
    forallb ordinary calls = true ->
    well_formed sha256
      (run sha256 encoded_length calls (fresh n monitor cap)).
Proof.
  intros sha256 encoded_length calls n monitor cap Hinj Hlen _.
  apply well_formed_run; [exact Hinj | exact Hlen |].
  apply well_formed_fresh.
Qed.

Lemma reachable_well_formed_witness :
  let sha256 := fun k : string => k in
  let encoded_length := fun _ : Values.value => 1 in
  (forall a b : string, sha256 a = sha256 b -> a = b)
  /\ forallb ordinary
       [CSet "a b" (VNum 1); CSet "c" (VStr "x"); CRemove "a_b";
        CGet "c" VNil] = true
  /\ well_formed sha256
       (run sha256 encoded_length
            [CSet "a b" (VNum 1); CSet "c" (VStr "x"); CRemove "a_b";
             CGet "c" VNil]
            (fresh 2 false None)).
Proof.
  intros sha256 encoded_length. split; [intros a b H; exact H|].
  split; [reflexivity|].
  apply (reachable_well_formed sha256 encoded_length).
  - intros a b H. exact H.
  - intros v. unfold encoded_length. lia.
  - reflexivity.
Defined.

(** X7.  Calls on one key leave every other key alone.  In a state
    reached from a fresh store by calls on keys that no object inherits,
    [set(k, v)], [remove(k)] and [get(k)] change neither what [get(k2)]
    returns nor what [exist(k2)] answers, for every key [k2] whose digest
    differs from that of the key the call works on (the sanitized key for
    [set], the key as given for [remove], neither of them a name objects
    inherit); [get] changes them for no key at all. *)
Theorem other_keys_untouched :
  forall (sha256 : string -> string) (encoded_length : Values.value -> Z)
         (calls : list call) (n : Z) (monitor : bool) (cap : option Z)
         (k k2 : string) (v def d : Values.value),
    let st := run sha256 encoded_length calls (fresh n monitor cap) in
    let after_set := snd (Core.set sha256 encoded_length k v st) in
    let after_remove := snd (Core.remove sha256 k st) in
    let after_get := snd (Core.get sha256 k d st) in
    forallb ordinary calls = true ->
    (Plain.inherited (Sanitize.sanitizeKey k false) = false ->
     sha256 (Sanitize.sanitizeKey k false) <> sha256 k2 ->
     fst (Core.get sha256 k2 def after_set) = fst (Core.get sha256 k2 def st)
     /\ exist k2 after_set = exist k2 st)
    /\ (Plain.inherited k = false ->
        sha256 k <> sha256 k2 ->
        fst (Core.get sha256 k2 def after_remove)
        = fst (Core.get sha256 k2 def st)
        /\ exist k2 after_remove = exist k2 st)
    /\ fst (Core.get sha256 k2 def after_get) = fst (Core.get sha256 k2 def st)
    /\ exist k2 after_get = exist k2 st.
Proof.
  intros sha256 encoded_length calls n monitor cap k k2 v def d st
         after_set after_remove after_get _.
  assert (Hc : cache_ok sha256 st)
    by apply cache_ok_run, cache_ok_fresh.
  destruct (get_effect sha256 k2 def st Hc) as (_ & _ & _ & _ & _ & Hg).
  split; [|split].
  - intros _ Hne. subst after_set.
    destruct (Str.is_empty (Sanitize.sanitizeKey k false)) eqn:Hk.
    { unfold Core.set. rewrite Hk. auto. }
    destruct (set_effect sha256 encoded_length k v st Hk Hc)
      as (Hc' & _ & _ & Hcase).
    destruct (get_effect sha256 k2 def _ Hc') as (_ & _ & _ & _ & _ & Hg').
    rewrite Hg, Hg'. unfold lookupValue, exist, lookupKey.
    assert (Hkk : Sanitize.sanitizeKey k false <> k2) by congruence.
    destruct (exist (Sanitize.sanitizeKey k false) st);
      destruct Hcase as (-> & _); simpl.
    + rewrite lookup_insert_ne by exact Hne. auto.
    + rewrite lookup_insert_ne by exact Hne.
      rewrite lookup_insert_ne by exact Hkk. auto.
  - intros _ Hne. subst after_remove.
    destruct (remove_effect sha256 k st Hc) as (Hc' & _ & _ & _ & Hcase).
    destruct (get_effect sha256 k2 def _ Hc') as (_ & _ & _ & _ & _ & Hg').
    rewrite Hg, Hg'. unfold lookupValue, exist, lookupKey.
    assert (Hkk : k <> k2) by congruence.
    destruct (Core.exist k st).
    + destruct Hcase as (e & _ & _ & ->). simpl.
      rewrite lookup_insert_ne by exact Hne.
      rewrite lookup_insert_ne by exact Hkk. auto.
    + rewrite Hcase. auto.
  - subst after_get.
    destruct (get_effect sha256 k d st Hc) as (Hc' & Ht & _).
    destruct (get_effect sha256 k2 def _ Hc') as (_ & _ & _ & _ & _ & Hg').
    rewrite Hg, Hg'. unfold lookupValue, exist, lookupKey. rewrite Ht. auto.
Qed.

Lemma other_keys_untouched_witness :
  let sha256 := fun k : string => k in
  let encoded_length := fun _ : Values.value => 1 in
  let calls := [CSet "a" (VNum 1); CSet "b" (VNum 2)] in
  let st := run sha256 encoded_length calls (fresh 2 false None) in
  let after_set := snd (Core.set sha256 encoded_length "a" (VNum 3) st) in
  let after_remove := snd (Core.remove sha256 "a" st) in
  let after_get := snd (Core.get sha256 "a" VNil st) in
  forallb ordinary calls = true
  /\ fst (Core.get sha256 "b" VNil st) = VNum 2
  /\ (Plain.inherited (Sanitize.sanitizeKey "a" false) = false ->
      sha256 (Sanitize.sanitizeKey "a" false) <> sha256 "b" ->
      fst (Core.get sha256 "b" VNil after_set)
      = fst (Core.get sha256 "b" VNil st)
      /\ exist "b" after_set = exist "b" st)
  /\ (Plain.inherited "a" = false ->
      sha256 "a" <> sha256 "b" ->
      fst (Core.get sha256 "b" VNil after_remove)
      = fst (Core.get sha256 "b" VNil st)
      /\ exist "b" after_remove = exist "b" st)
  /\ fst (Core.get sha256 "b" VNil after_get)
     = fst (Core.get sha256 "b" VNil st)
  /\ exist "b" after_get = exist "b" st.
Proof.
  intros sha256 encoded_length calls st after_set after_remove after_get.
  split; [reflexivity|]. split; [reflexivity|].
  apply (other_keys_untouched sha256 encoded_length calls 2 false None
           "a" "b" (VNum 3) VNil VNil).
  reflexivity.
Defined.

(** X8.  The free list only grows: whatever calls are made, the free
    list before them is a prefix of the free list after them.  No call
    takes a slot out, so the slot of a removed entry is never handed to
    a later [set]. *)
Theorem free_list_only_grows :
  forall (sha256 : string -> string) (encoded_length : Values.value -> Z)
         (calls : list call) (st : core),
    trash (tables st)
      `prefix_of` trash (tables (run sha256 encoded_length calls st)).
Proof.
  intros sha256 encoded_length calls. induction calls as [|c r IH]; intros st.
  - reflexivity.
  - simpl. etransitivity; [|apply IH].
    destruct (trash_step sha256 encoded_length c st) as (more & ->).
    apply prefix_app_r. reflexivity.
Qed.



End StoreFacts.

(** ** Objects as dictionaries *)

Module ObjFacts.

Section Dict.
Context {V : Type}.
Implicit Types (o : list (string * V)) (k : string) (v : V).

Lemma has_get k o : Obj.has k o = true <-> is_Some (Obj.get k o).
Proof.
  induction o as [|[k' v'] r IH]; simpl.
  - split; [discriminate | intros [x H]; discriminate].
  - destruct (k' =? k)%string; simpl; [|exact IH].
    split; [eauto | reflexivity].
Qed.

Lemma has_false_get k o : Obj.has k o = false -> Obj.get k o = None.
Proof.
  intros H. destruct (Obj.get k o) eqn:E; [|reflexivity].
  assert (Obj.has k o = true) by (apply has_get; eauto). congruence.
Qed.

Lemma has_elem k o : Obj.has k o = true <-> In k (map fst o).
Proof.
  induction o as [|[k' v'] r IH]; simpl.
  - split; [discriminate | tauto].
  - rewrite orb_true_iff, IH, String.eqb_eq. tauto.
Qed.

Lemma get_replace_eq k v o :
  Obj.has k o = true -> Obj.get k (Obj.replace k v o) = Some v.
Proof.
  induction o as [|[k' v'] r IH]; simpl; [discriminate|].
  destruct (k' =? k)%string eqn:E; simpl; rewrite E; auto.
Qed.


Lemma keys_replace k v o : map fst (Obj.replace k v o) = map fst o.
Proof.
  induction o as [|[k' v'] r IH]; simpl; [reflexivity|].
  destruct (k' =? k)%string; simpl; [|rewrite IH]; reflexivity.
Qed.

Lemma get_insert_index_eq n k v o :
  Obj.has k o = false -> Obj.get k (Obj.insert_index n k v o) = Some v.
Proof.
  induction o as [|[k' v'] r IH]; simpl.
  - rewrite String.eqb_refl. reflexivity.
  - intros [E Hr]%orb_false_iff.
    destruct (Obj.array_index k') as [n'|]; [destruct (n' <? n)%N|]; simpl;
      rewrite ?String.eqb_refl, ?E; auto.
Qed.


Lemma insert_index_perm n k v o :
  Permutation (Obj.insert_index n k v o) ((k, v) :: o).
Proof.
  induction o as [|[k' v'] r IH]; simpl; [reflexivity|].
  destruct (Obj.array_index k') as [n'|]; [destruct (n' <? n)%N|];
    try reflexivity.
  rewrite IH. apply perm_swap.
Qed.

Lemma get_app k o1 o2 :
  Obj.get k (o1 ++ o2)
  = match Obj.get k o1 with Some v => Some v | None => Obj.get k o2 end.
Proof.
  induction o1 as [|[k' v'] r IH]; simpl; [reflexivity|].
  destruct (k' =? k)%string; auto.
Qed.

(** Reading a property right after assigning it. *)
Lemma get_set_eq k v o : Obj.get k (Obj.set k v o) = Some v.
Proof.
  unfold Obj.set. destruct (Obj.has k o) eqn:H.
  - apply get_replace_eq, H.
  - destruct (Obj.array_index k).
    + apply get_insert_index_eq, H.
    + rewrite get_app, (has_false_get _ _ H). simpl.
      rewrite String.eqb_refl. reflexivity.
Qed.


(** The keys after an assignment: the same when the key was there, one
    more when it was not. *)
Lemma keys_set k v o :
  if Obj.has k o then map fst (Obj.set k v o) = map fst o
  else Permutation (map fst (Obj.set k v o)) (k :: map fst o).
Proof.
  unfold Obj.set. destruct (Obj.has k o); [apply keys_replace|].
  destruct (Obj.array_index k).
  - rewrite (insert_index_perm n k v o). reflexivity.
  - rewrite map_app. simpl. symmetry. apply Permutation_cons_append.
Qed.

End Dict.

End ObjFacts.

(** ** The writer's queue and its file *)

Module QueueFacts.
Import Values Core Aol.

(** What happens to a running writer: a call of [add], a call of
    [rotate] at some clock, a firing of the flush timer, a message from
    the main thread. *)
Inductive event : Type :=
| Add (k : string) (v : Values.value)
| Rotate (date_now : Z)
| Tick
| Message (r : Core.request).

Definition handle (e : event) (s : aol * disk) : aol * disk :=
  match e with
  | Add k v => (add k v (fst s), snd s)
  | Rotate t => (rotate t (fst s), snd s)
  | Tick => job (fst s) (snd s)
  | Message r => (fst (on_message (fst s) r), snd s)
  end.

Definition handle_all (events : list event) (s : aol * disk) : aol * disk :=
  fold_left (fun s e => handle e s) events s.

(** What a file holds, an absent file counting as empty. *)
Definition content (d : disk) (p : string) : string :=
  default EmptyString (d !! p).

Lemma append_nil (s : string) : s ++ "" = s.
Proof.
  induction s as [|c r IH]; [reflexivity|].
  change (String c (r ++ "") = String c r). f_equal. exact IH.
Qed.

(** A firing of the flush timer either does nothing or appends the
    encoded queue to the file of the descriptor. *)
Lemma job_cases a d :
  job a d = (a, d)
  \/ exists fd,
       file_descriptor a = Some fd
       /\ job a d
          = (MkAol (path a) (current_file_name a) (file_path a)
                   (file_descriptor a) [] false,
             <[fd := content d fd ++ encodeSets (queue a)
                     ++ String newline EmptyString]> d).
Proof.
  unfold job. destruct (instructions_changed a); [|left; reflexivity].
  destruct (queue a) as [|kv q]; [left; reflexivity|].
  destruct (file_descriptor a) as [fd|]; [|left; reflexivity].
  right. exists fd. split; reflexivity.
Qed.

Lemma handle_frame e s name fd :
  current_file_name (fst s) = Some name ->
  file_descriptor (fst s) = Some fd ->
  current_file_name (fst (handle e s)) = Some name
  /\ file_descriptor (fst (handle e s)) = Some fd
  /\ (forall p, p <> fd -> snd (handle e s) !! p = snd s !! p)
  /\ exists more, content (snd (handle e s)) fd = content (snd s) fd ++ more.
Proof.
  intros Hn Hf. destruct s as [a d]. simpl in Hn, Hf.
  assert (Hsame : forall a',
            current_file_name a' = Some name ->
            file_descriptor a' = Some fd ->
            current_file_name (fst (a', d)) = Some name
            /\ file_descriptor (fst (a', d)) = Some fd
            /\ (forall p, p <> fd -> snd (a', d) !! p = snd (a, d) !! p)
            /\ exists more,
                 content (snd (a', d)) fd = content (snd (a, d)) fd ++ more).
  { intros a' H1 H2. split; [exact H1|]. split; [exact H2|].
    split; [reflexivity|]. exists "". symmetry. apply append_nil. }
  destruct e as [k v|t| |r].
  - apply Hsame; assumption.
  - apply Hsame; unfold handle, fst;
      rewrite (WriterFacts.rotate_named t a name Hn); assumption.
  - change (handle Tick (a, d)) with (job a d).
    destruct (job_cases a d) as [->|(fd' & Hf' & ->)];
      [apply Hsame; assumption|].
    assert (fd' = fd) as -> by congruence.
    split; [exact Hn|]. split; [exact Hf|]. split.
    + intros p Hp. unfold disk, snd. apply lookup_insert_ne. congruence.
    + eexists. unfold content at 1, snd, disk. rewrite lookup_insert_eq.
      reflexivity.
  - change (handle (Message r) (a, d)) with (fst (on_message a r), d).
    apply Hsame; unfold on_message;
      repeat match goal with
             | |- context [if ?b then _ else _] => destruct b
             end; simpl; assumption.
Qed.




(** X12.  A running writer stays with its file and only appends to it.
    Whatever calls of [add] and [rotate], timer firings and messages
    follow, at whatever clock: the file name and the descriptor stay the
    same, no other file of the directory is created or changed, and what
    the file held before is the beginning of what it holds after. *)
Theorem writer_appends_to_one_file :
  forall (events : list event) (a : aol) (d : disk) (name fd : string),
    current_file_name a = Some name ->
    file_descriptor a = Some fd ->
    let s := handle_all events (a, d) in
    current_file_name (fst s) = Some name
    /\ file_descriptor (fst s) = Some fd
    /\ (forall p, p <> fd -> snd s !! p = d !! p)
    /\ exists more, content (snd s) fd = content d fd ++ more.
Proof.
  intros events. induction events as [|e r IH];
    intros a d name fd Hn Hf s; subst s.
  - simpl. repeat split; auto. exists "". symmetry. apply append_nil.
  - change (handle_all (e :: r) (a, d))
      with (handle_all r (handle e (a, d))).
    destruct (handle_frame e (a, d) name fd Hn Hf)
      as (Hn1 & Hf1 & Ho1 & m1 & Hp1).
    destruct (handle e (a, d)) as [a1 d1].
    simpl in Hn1, Hf1, Ho1, Hp1.
    destruct (IH a1 d1 name fd Hn1 Hf1) as (Hn2 & Hf2 & Ho2 & m2 & Hp2).
    split; [exact Hn2|]. split; [exact Hf2|]. split.
    + intros p Hp. rewrite (Ho2 p Hp). apply Ho1, Hp.
    + exists (m1 ++ m2). rewrite Hp2, Hp1. apply JsonFacts.append_assoc.
Qed.

Lemma writer_appends_to_one_file_witness :
  let started := worker 1000000 (create "db") ∅ in
  let s := handle_all [Add "k" (VNum 1); Tick; Rotate 2000000;
                       Message (Request "set" "j" (VStr "x")); Tick]
                      started in
  current_file_name (fst started) = Some "1000.sfb"
  /\ file_descriptor (fst started) = Some "db/1000.sfb"
  /\ current_file_name (fst s) = Some "1000.sfb"
  /\ file_descriptor (fst s) = Some "db/1000.sfb"
  /\ (forall p, p <> "db/1000.sfb" -> snd s !! p = snd started !! p)
  /\ exists more,
       content (snd s) "db/1000.sfb"
       = content (snd started) "db/1000.sfb" ++ more.
Proof.
  intros started s. split; [reflexivity|]. split; [reflexivity|].
  exact (writer_appends_to_one_file
           [Add "k" (VNum 1); Tick; Rotate 2000000;
            Message (Request "set" "j" (VStr "x")); Tick]
           (fst started) (snd started) "1000.sfb" "db/1000.sfb"
           eq_refl eq_refl).
Defined.

(** X13.  An accepted [set] reaches the writer's queue.  For a key whose
    sanitized form [k'] is neither empty nor [__proto__], and a value
    [v] that holds no byte string (the worker receives a copy of the
    message, in which a byte string is no longer a [Buffer]), [set(k, v)]
    posts exactly one request to the AOL worker; the worker accepts it,
    and afterwards its queue holds [v] under [k'] and is marked as
    changed. *)
Theorem set_reaches_queue :
  forall (sha256 : string -> string) (encoded_length : Values.value -> Z)
         (k : string) (v : Values.value) (st : core) (a : aol),
    Str.is_empty (Sanitize.sanitizeKey k false) = false ->
    Sanitize.sanitizeKey k false <> "__proto__" ->
    Plain.buffer_free v = true ->
    let k' := Sanitize.sanitizeKey k false in
    exists r,
      posted (snd (Core.set sha256 encoded_length k v st))
      = (posted st ++ [r])%list
      /\ snd (on_message a r) = true
      /\ Obj.get k' (queue (fst (on_message a r))) = Some v
      /\ instructions_changed (fst (on_message a r)) = true.
Proof.
  intros sha256 encoded_length k v st a Hk _ _ k'.
  destruct (CoreFacts.set_state sha256 encoded_length k v st Hk)
    as (_ & _ & Hp & _).
  exists (Request "set" k' v). split; [exact Hp|]. subst k'.
  unfold on_message. cbv [Core.action Core.req_key Core.req_value].
  rewrite String.eqb_refl, Hk.
  split; [reflexivity|]. split; [apply ObjFacts.get_set_eq|reflexivity].
Qed.

Lemma set_reaches_queue_witness :
  let sha256 := fun k : string => k in
  let encoded_length := fun _ : Values.value => 1 in
  Str.is_empty (Sanitize.sanitizeKey "my key" false) = false
  /\ Sanitize.sanitizeKey "my key" false <> "__proto__"
  /\ Plain.buffer_free (VSeq [VNum 7; VStr "x"]) = true
  /\ exists r,
       posted (snd (Core.set sha256 encoded_length "my key"
                             (VSeq [VNum 7; VStr "x"])
                             (fresh 2 false None)))
       = ([] ++ [r])%list
       /\ snd (on_message (create "db") r) = true
       /\ Obj.get "my_key" (queue (fst (on_message (create "db") r)))
          = Some (VSeq [VNum 7; VStr "x"])
       /\ instructions_changed (fst (on_message (create "db") r)) = true.
Proof.
  intros sha256 encoded_length. split; [reflexivity|].
  split; [discriminate|]. split; [reflexivity|].
  apply (set_reaches_queue sha256 encoded_length "my key"
           (VSeq [VNum 7; VStr "x"]) (fresh 2 false None) (create "db"));
    [reflexivity | discriminate | reflexivity].
Defined.

End QueueFacts.

(** ** From the backup file back to the store *)

Module TextFacts.
Import Chars Values Aol ReplayFacts.

(** The strings in which the character [c] does not occur. *)
Definition free_of (c : ascii) (s : string) : bool :=
  Str.all (fun d => negb (Ascii.eqb d c)) s.

Lemma all_append p a b :
  Str.all p (a ++ b) = Str.all p a && Str.all p b.
Proof.
  induction a as [|c r IH]; [reflexivity|].
  change (Str.all p (String c r ++ b)) with (p c && Str.all p (r ++ b)).
  rewrite IH. simpl. apply andb_assoc.
Qed.

Lemma all_impl (p q : ascii -> bool) s :
  (forall c, p c = true -> q c = true) ->
  Str.all p s = true -> Str.all q s = true.
Proof.
  intros Hpq. induction s as [|c r IH]; simpl; [reflexivity|].
  intros [Hc Hr]%andb_true_iff. rewrite (Hpq c Hc), (IH Hr). reflexivity.
Qed.

Lemma last_append a c : Str.last (a ++ String c EmptyString) = Some c.
Proof.
  induction a as [|d r IH]; [reflexivity|].
  change (String d r ++ String c EmptyString)
    with (String d (r ++ String c EmptyString)).
  simpl. rewrite IH. destruct r; reflexivity.
Qed.

Lemma last_all p s c :
  Str.all p s = true -> Str.last s = Some c -> p c = true.
Proof.
  induction s as [|d r IH]; simpl; [discriminate|].
  intros [Hd Hr]%andb_true_iff. destruct r as [|e r'].
  - intros [= <-]. exact Hd.
  - intros H. apply IH; assumption.
Qed.

Lemma last_cons d s : Str.is_empty s = false -> Str.last (String d s) = Str.last s.
Proof. destruct s; [discriminate|reflexivity]. Qed.

Lemma first_append a b :
  Str.is_empty a = false -> Str.first (a ++ b) = Str.first a.
Proof. destruct a; [discriminate|reflexivity]. Qed.

Lemma trim_fixed s :
  (forall c, Str.first s = Some c -> is_space c = false) ->
  (forall c, Str.last s = Some c -> is_space c = false) ->
  trim s = s.
Proof.
  intros Hf Hl. unfold trim.
  rewrite (SanitizeFacts.drop_while_fixed _ _ Hf).
  apply SanitizeFacts.drop_while_end_fixed, Hl.
Qed.

(** What a key character is not. *)
Lemma key_char_plain c :
  is_key_char c = true ->
  is_space c = false
  /\ Ascii.eqb c newline = false
  /\ Ascii.eqb c "<" = false
  /\ Ascii.eqb c " " = false
  /\ Ascii.eqb c ";" = false
  /\ Ascii.eqb c "#" = false.
Proof.
  destruct c as [[] [] [] [] [] [] [] []]; vm_compute; intros H;
    try discriminate; repeat split.
Qed.

Lemma key_free_of c k :
  (forall d, is_key_char d = true -> Ascii.eqb d c = false) ->
  Str.all is_key_char k = true -> free_of c k = true.
Proof.
  intros H. apply all_impl. intros d Hd. rewrite (H d Hd). reflexivity.
Qed.

(** A line as the writer produces it: something without a line feed
    that trimming leaves alone. *)
Definition written_line (l : string) : Prop :=
  one_line l /\ trim l = l /\ Str.is_empty l = false.

Lemma lines_of_written l : written_line l -> lines_of l = [l].
Proof.
  intros (Hone & Htrim & Hne). unfold lines_of.
  rewrite (split_single _ _ Hone). simpl. rewrite Htrim, Hne. reflexivity.
Qed.

Lemma lines_of_empty : lines_of EmptyString = [].
Proof. reflexivity. Qed.

Lemma join_cons sep p q r :
  Json.join sep (p :: q :: r) = p ++ sep ++ Json.join sep (q :: r).
Proof. reflexivity. Qed.

(** Lines joined by line feeds are read back as they are. *)
Lemma lines_of_join ls :
  Forall written_line ls ->
  lines_of (Json.join (String newline EmptyString) ls) = ls.
Proof.
  induction ls as [|l r IH]; intros H; [reflexivity|].
  apply Forall_cons in H as [Hl Hr]. destruct r as [|l2 r].
  - apply lines_of_written, Hl.
  - rewrite join_cons.
    change (l ++ String newline EmptyString
              ++ Json.join (String newline EmptyString) (l2 :: r))
      with (l ++ String newline
                   (Json.join (String newline EmptyString) (l2 :: r))).
    rewrite lines_of_append, (lines_of_written _ Hl), (IH Hr). reflexivity.
Qed.

Lemma parseInstructions_join ls :
  Forall written_line ls ->
  parseInstructions (Json.join (String newline EmptyString) ls) = collect ls.
Proof. intros H. unfold parseInstructions. rewrite lines_of_join; auto. Qed.

(** Parts joined by a separator that occurs in none of them are split
    back as they are. *)
Lemma split_join sep parts s :
  Forall (fun p => free_of sep p = true) parts ->
  free_of sep s = true ->
  split sep (Json.join (String sep EmptyString) (parts ++ [s])%list)
  = (parts ++ [s])%list.
Proof.
  intros Hp Hs. induction parts as [|p r IH]; simpl app.
  - apply split_single, Hs.
  - apply Forall_cons in Hp as [Hp Hr].
    destruct (r ++ [s])%list as [|q r'] eqn:E.
    { destruct r; discriminate. }
    rewrite join_cons.
    change (p ++ String sep EmptyString
              ++ Json.join (String sep EmptyString) (q :: r'))
      with (p ++ String sep (Json.join (String sep EmptyString) (q :: r'))).
    rewrite split_append, (split_single _ _ Hp), (IH Hr). reflexivity.
Qed.

Lemma join_snoc sep parts s :
  parts <> [] ->
  Json.join sep (parts ++ [s])%list = Json.join sep parts ++ sep ++ s.
Proof.
  induction parts as [|p r IH]; [congruence|]. intros _.
  destruct r as [|q r].
  - reflexivity.
  - change ((p :: q :: r) ++ [s])%list with (p :: q :: (r ++ [s]))%list.
    rewrite !join_cons.
    change (q :: (r ++ [s]))%list with ((q :: r) ++ [s])%list.
    rewrite IH by discriminate.
    rewrite !JsonFacts.append_assoc. reflexivity.
Qed.

End TextFacts.

(** ** Values as the backup file holds them *)

Module BackupFormFacts.
Import Chars Values Aol ReplayFacts TextFacts.

Lemma one_line_append a b : one_line a -> one_line b -> one_line (a ++ b).
Proof.
  unfold one_line. intros Ha Hb. rewrite all_append, Ha, Hb. reflexivity.
Qed.

Lemma escape_char_line c : one_line (Json.escape_char c).
Proof. destruct c as [[] [] [] [] [] [] [] []]; vm_compute; reflexivity. Qed.

Lemma escape_line s : one_line (Json.escape s).
Proof.
  induction s as [|c r IH]; [reflexivity|].
  simpl. apply one_line_append; [apply escape_char_line | exact IH].
Qed.

Lemma quote_line s : one_line (Json.quote s).
Proof.
  unfold Json.quote.
  change (one_line (String Json.dquote EmptyString
                      ++ Json.escape s ++ String Json.dquote EmptyString)).
  repeat apply one_line_append; try reflexivity. apply escape_line.
Qed.

Lemma digit_plain c :
  is_digit c = true ->
  negb (Ascii.eqb c newline) = true /\ is_space c = false.
Proof.
  destruct c as [[] [] [] [] [] [] [] []]; vm_compute; intros H;
    try discriminate; split; reflexivity.
Qed.

Lemma of_N_line n : one_line (Dec.of_N n).
Proof.
  unfold one_line. apply (all_impl is_digit); [|apply DecFacts.all_digits_of_N].
  intros c Hc. apply digit_plain, Hc.
Qed.

Lemma of_Z_line z : one_line (Dec.of_Z z).
Proof.
  destruct z; simpl; apply of_N_line.
Qed.

Lemma join_line sep parts :
  one_line sep -> Forall one_line parts -> one_line (Json.join sep parts).
Proof.
  intros Hsep. induction parts as [|p r IH]; intros H; [reflexivity|].
  apply Forall_cons in H as [Hp Hr]. destruct r as [|q r]; [exact Hp|].
  rewrite join_cons. repeat apply one_line_append; auto.
Qed.

(** A written value holds no line feed: inside a string literal it is
    escaped. *)
Lemma json_line v : one_line (Json.stringify v).
Proof.
  induction v as [|b|z|s|bs|items IH|fields IH] using value_ind.
  - reflexivity.
  - destruct b; reflexivity.
  - apply of_Z_line.
  - apply quote_line.
  - unfold Json.stringify.
    repeat apply one_line_append; try reflexivity; try apply quote_line.
    apply join_line; [reflexivity|].
    apply Forall_map, Forall_forall. intros n _. apply of_N_line.
  - change (Json.stringify (VSeq items))
      with ("[" ++ Json.join "," (map Json.stringify items) ++ "]").
    repeat apply one_line_append; try reflexivity.
    apply join_line; [reflexivity|]. apply Forall_map. exact IH.
  - change (Json.stringify (VMap fields))
      with ("{" ++ Json.join ","
                     (map (fun kv => Json.quote (fst kv) ++ ":"
                                     ++ Json.stringify (snd kv)) fields)
                ++ "}").
    repeat apply one_line_append; try reflexivity.
    apply join_line; [reflexivity|]. apply Forall_map.
    eapply Forall_impl; [exact IH|]. intros kv Hkv. simpl.
    apply one_line_append; [apply quote_line|].
    apply one_line_append; [reflexivity|exact Hkv].
Qed.

Lemma stringify_line v : one_line (stringify v).
Proof.
  destruct v as [|[]|z|s|bs|items|fields]; try reflexivity;
    try apply of_Z_line;
    unfold stringify; apply json_line.
Qed.

Lemma last_snoc a c b :
  b = a ++ String c EmptyString -> Str.last b = Some c.
Proof. intros ->. apply last_append. Qed.

Lemma of_N_last n c : Str.last (Dec.of_N n) = Some c -> is_space c = false.
Proof.
  intros H. apply digit_plain.
  exact (last_all _ _ _ (DecFacts.all_digits_of_N n) H).
Qed.

Lemma of_Z_last z c : Str.last (Dec.of_Z z) = Some c -> is_space c = false.
Proof.
  destruct z; simpl Dec.of_Z; try apply of_N_last.
  destruct (DecFacts.of_N_head (N.pos p)) as (d & r & E & _).
  rewrite E. change (Str.last (String "-" (String d r)))
    with (Str.last (String d r)). rewrite <- E. apply of_N_last.
Qed.

(** A written value ends with a quote, a digit, a letter or a closing
    bracket, never with white space. *)
Lemma json_last v c : Str.last (Json.stringify v) = Some c -> is_space c = false.
Proof.
  destruct v as [|[]|z|s|bs|items|fields].
  - intros [= <-]. reflexivity.
  - intros [= <-]. reflexivity.
  - intros [= <-]. reflexivity.
  - apply of_Z_last.
  - unfold Json.stringify, Json.quote.
    change (String Json.dquote (Json.escape s ++ String Json.dquote EmptyString))
      with ((String Json.dquote (Json.escape s))
              ++ String Json.dquote EmptyString).
    rewrite last_append. intros [= <-]. reflexivity.
  - unfold Json.stringify.
    rewrite (last_snoc
               ("{" ++ Json.quote "type" ++ ":" ++ Json.quote "Buffer" ++ ","
                    ++ Json.quote "data" ++ ":["
                    ++ Json.join "," (map Dec.of_N bs) ++ "]") "}"%char).
    + intros [= <-]. reflexivity.
    + rewrite !JsonFacts.append_assoc. reflexivity.
  - change (Json.stringify (VSeq items))
      with ("[" ++ Json.join "," (map Json.stringify items) ++ "]").
    rewrite (last_snoc ("[" ++ Json.join "," (map Json.stringify items))
                       "]"%char).
    + intros [= <-]. reflexivity.
    + rewrite !JsonFacts.append_assoc. reflexivity.
  - change (Json.stringify (VMap fields))
      with ("{" ++ Json.join ","
                     (map (fun kv => Json.quote (fst kv) ++ ":"
                                     ++ Json.stringify (snd kv)) fields)
                ++ "}").
    rewrite (last_snoc
               ("{" ++ Json.join ","
                         (map (fun kv => Json.quote (fst kv) ++ ":"
                                         ++ Json.stringify (snd kv)) fields))
               "}"%char).
    + intros [= <-]. reflexivity.
    + rewrite !JsonFacts.append_assoc. reflexivity.
Qed.

Lemma stringify_last v c : Str.last (stringify v) = Some c -> is_space c = false.
Proof.
  destruct v as [|[]|z|s|bs|items|fields];
    try (intros [= <-]; reflexivity);
    try apply of_Z_last;
    unfold stringify; apply json_last.
Qed.

Lemma stringify_nonempty v : Str.is_empty (stringify v) = false.
Proof.
  destruct v as [|[]|z|s|bs|items|fields]; try reflexivity.
  unfold stringify.
  destruct (JsonFacts.of_Z_head z) as (c & r & E & _). rewrite E. reflexivity.
Qed.

(** Every value without a byte string comes back from its backup form. *)
Lemma parse_stringify_value v :
  Json.representable v -> parse (stringify v) = Some v.
Proof.
  intros Hrep.
  pose proof (JsonFacts.parse_stringify v Hrep) as Hjson.
  destruct v as [|[]|z|s|bs|items|fields]; try reflexivity.
  - destruct (JsonFacts.of_Z_head z) as (c & r & E & Hc).
    unfold stringify. unfold Json.stringify in Hjson. rewrite E in Hjson |- *.
    apply CodecFacts.parse_json;
      [apply CodecFacts.number_head_not_short, Hc|exact Hjson].
  - apply CodecFacts.parse_json; [reflexivity|exact Hjson].
  - destruct Hrep.
  - apply CodecFacts.parse_json; [reflexivity|exact Hjson].
  - apply CodecFacts.parse_json; [reflexivity|exact Hjson].
Qed.

End BackupFormFacts.

(** ** What a flush writes is what a restart reads *)

Module DurabilityFacts.
Import Chars Values Core Aol ReplayFacts TextFacts BackupFormFacts.

(** A key as [set] hands it to the writer: sanitized and not empty. *)
Definition key_ok (k : string) : Prop :=
  Str.is_empty k = false /\ Str.all is_key_char k = true.

(** The groups of [encodeSets]: a written value and the keys bound to
    it, and the line of a group. *)
Definition groups (data : list (string * Values.value))
  : list (string * list string) :=
  foldl (fun groups kv => group_add (stringify (snd kv)) (fst kv) groups)
        [] data.

Definition line (g : string * list string) : string :=
  Json.join "<" (snd g) ++ "<" ++ fst g.

Definition flatten (G : list (string * list string)) : list (string * string) :=
  flat_map (fun g => map (fun k => (fst g, k)) (snd g)) G.

Lemma encodeSets_lines data :
  encodeSets data
  = Json.join (String newline EmptyString) (map line (groups data)).
Proof. reflexivity. Qed.

Lemma sanitizeKey_fixed k :
  Str.all is_key_char k = true -> Sanitize.sanitizeKey k false = k.
Proof.
  intros H. unfold Sanitize.sanitizeKey.
  rewrite (SanitizeFacts.replace_spaces_fixed _ H).
  apply SanitizeFacts.filter_fixed, H.
Qed.

(** *** The groups hold the pairs of the queue *)

Lemma group_add_flatten s k G :
  flatten (group_add s k G) ≡ₚ (s, k) :: flatten G.
Proof.
  induction G as [|[s' keys] r IH]; [reflexivity|].
  simpl group_add. destruct (s' =? s)%string eqn:E.
  - apply String.eqb_eq in E. subst s'. unfold flatten. simpl.
    rewrite map_app. simpl. rewrite <- app_assoc. simpl.
    symmetry. apply Permutation_middle.
  - unfold flatten in *. simpl. rewrite IH.
    symmetry. apply Permutation_middle.
Qed.

Lemma group_add_nonempty s k G :
  Forall (fun g => snd g <> []) G ->
  Forall (fun g => snd g <> []) (group_add s k G).
Proof.
  induction G as [|[s' keys] r IH]; intros H.
  - repeat constructor. discriminate.
  - apply Forall_cons in H as [Hg Hr]. simpl group_add.
    destruct (s' =? s)%string.
    + constructor; [|exact Hr]. simpl. destruct keys; discriminate.
    + constructor; [exact Hg | apply IH, Hr].
Qed.

Lemma groups_from acc data :
  let G := foldl (fun groups kv =>
                    group_add (stringify (snd kv)) (fst kv) groups) acc data in
  flatten G
    ≡ₚ (flatten acc ++ map (fun kv => (stringify (snd kv), fst kv)) data)%list
  /\ (Forall (fun g => snd g <> []) acc -> Forall (fun g => snd g <> []) G).
Proof.
  revert acc. induction data as [|[k v] r IH]; intros acc; simpl.
  - rewrite app_nil_r. auto.
  - destruct (IH (group_add (stringify v) k acc)) as (Hp & Hn). split.
    + rewrite Hp, group_add_flatten. simpl. apply Permutation_middle.
    + intros H. apply Hn, group_add_nonempty, H.
Qed.

Lemma groups_spec data :
  flatten (groups data) ≡ₚ map (fun kv => (stringify (snd kv), fst kv)) data
  /\ Forall (fun g => snd g <> []) (groups data).
Proof.
  destruct (groups_from [] data) as (Hp & Hn). split; [exact Hp|].
  apply Hn. constructor.
Qed.

Lemma flatten_keys G : map snd (flatten G) = flat_map snd G.
Proof.
  induction G as [|[s keys] r IH]; [reflexivity|].
  unfold flatten in *. simpl. rewrite map_app, IH, map_map. simpl.
  rewrite map_id. reflexivity.
Qed.

Lemma elem_of_flatten s k G :
  (s, k) ∈ flatten G <-> exists g, g ∈ G /\ fst g = s /\ k ∈ snd g.
Proof.
  unfold flatten. rewrite list_elem_of_In, in_flat_map. split.
  - intros (g & Hg & Hin). apply in_map_iff in Hin as (k' & [= <- <-] & Hk).
    exists g. rewrite !list_elem_of_In. auto.
  - intros (g & Hg & <- & Hk). exists g. rewrite <- list_elem_of_In.
    split; [exact Hg|]. apply in_map_iff. exists k.
    rewrite <- list_elem_of_In. auto.
Qed.

(** *** The lines are read back as the groups they were written from *)

(** A written value that a line can carry. *)
Definition value_text_ok (s : string) : Prop :=
  one_line s /\ free_of "<" s = true /\ Str.is_empty s = false
  /\ (forall c, Str.last s = Some c -> is_space c = false).

Lemma value_text_stringify v :
  free_of "<" (stringify v) = true -> value_text_ok (stringify v).
Proof.
  intros H. split; [apply stringify_line|]. split; [exact H|].
  split; [apply stringify_nonempty | apply stringify_last].
Qed.

Lemma last_append_r a b :
  Str.is_empty b = false -> Str.last (a ++ b) = Str.last b.
Proof.
  intros Hb. induction a as [|c r IH]; [reflexivity|].
  change (String c r ++ b) with (String c (r ++ b)).
  rewrite last_cons; [exact IH|]. destruct r; [exact Hb | reflexivity].
Qed.

Lemma line_head g :
  snd g <> [] -> Forall key_ok (snd g) ->
  exists c rest, line g = String c rest /\ is_key_char c = true.
Proof.
  destruct g as [s [|k r]]; [simpl; intros H; now destruct H|]. intros _ H.
  apply Forall_cons in H as [[Hne Hall] _]. unfold line. simpl snd.
  destruct k as [|c k']; [discriminate|].
  apply andb_true_iff in Hall as [Hc _].
  exists c. destruct r as [|q r]; eexists; (split; [reflexivity|exact Hc]).
Qed.

Lemma line_joined g :
  snd g <> [] -> line g = Json.join "<" (snd g ++ [fst g])%list.
Proof. intros H. unfold line. symmetry. apply join_snoc, H. Qed.

Lemma line_written g :
  snd g <> [] -> Forall key_ok (snd g) -> value_text_ok (fst g) ->
  written_line (line g).
Proof.
  intros Hne Hkeys (Hone & _ & Hs & Hlast).
  destruct (line_head g Hne Hkeys) as (c & rest & E & Hc).
  split; [|split].
  - unfold line. apply one_line_append.
    + apply join_line; [reflexivity|].
      eapply Forall_impl; [exact Hkeys|]. intros k [_ Hk].
      apply (key_free_of newline); [|exact Hk].
      intros d Hd. apply key_char_plain, Hd.
    + apply one_line_append; [reflexivity | exact Hone].
  - apply trim_fixed.
    + rewrite E. intros d [= <-]. apply key_char_plain, Hc.
    + unfold line. rewrite last_append_r.
      * rewrite last_append_r by exact Hs. exact Hlast.
      * reflexivity.
  - rewrite E. reflexivity.
Qed.

Lemma instructions_of_group g v :
  snd g <> [] -> Forall key_ok (snd g) -> free_of "<" (fst g) = true ->
  parse (fst g) = Some v ->
  instructions_of_line (line g)
  = Some [ISet (foldl (fun o key => Obj.set key v o) [] (snd g))].
Proof.
  intros Hne Hkeys Hfree Hparse.
  destruct (line_head g Hne Hkeys) as (c & rest & E & Hc).
  destruct (key_char_plain c Hc) as (_ & _ & _ & _ & Hsemi & Hhash).
  unfold instructions_of_line. rewrite E. simpl starts_with.
  simpl Str.is_empty. rewrite Hsemi, Hhash. simpl orb. cbv iota.
  rewrite <- E, (line_joined g Hne).
  rewrite split_join.
  - rewrite last_last, removelast_last, Hparse. reflexivity.
  - eapply Forall_impl; [exact Hkeys|]. intros k [_ Hk].
    apply (key_free_of "<"); [|exact Hk].
    intros d Hd. apply key_char_plain, Hd.
  - exact Hfree.
Qed.

Lemma collect_lines (instr : string * list string -> instruction) G :
  Forall (fun g => instructions_of_line (line g) = Some [instr g]) G ->
  collect (map line G) = Some (map instr G).
Proof.
  induction G as [|g r IH]; intros H; [reflexivity|].
  apply Forall_cons in H as [Hg Hr]. simpl. rewrite Hg, (IH Hr). reflexivity.
Qed.

(** *** The object a line is read into *)

Section Assigned.
Context {V : Type}.
Implicit Types (o : list (string * V)) (k : string) (v : V).

Lemma elem_of_replace k v o x :
  x ∈ Obj.replace k v o -> x = (k, v) \/ x ∈ o.
Proof.
  induction o as [|[k' v'] r IH]; simpl; [auto|].
  destruct (k' =? k)%string eqn:E.
  - apply String.eqb_eq in E. subst k'.
    intros [->|H]%elem_of_cons; [auto|]. right. apply elem_of_cons. auto.
  - intros [->|H]%elem_of_cons.
    + right. apply elem_of_cons. auto.
    + destruct (IH H); [auto|]. right. apply elem_of_cons. auto.
Qed.

Lemma elem_of_set k v o x : x ∈ Obj.set k v o -> x = (k, v) \/ x ∈ o.
Proof.
  unfold Obj.set. destruct (Obj.has k o); [apply elem_of_replace|].
  destruct (Obj.array_index k).
  - rewrite (ObjFacts.insert_index_perm n k v o).
    intros [->|H]%elem_of_cons; auto.
  - intros [H|H]%elem_of_app; [auto|].
    apply list_elem_of_singleton in H. auto.
Qed.

(** The object [{}] after the assignments [o[key] = v] for the keys of a
    line, on top of what [o0] holds. *)
Definition assigned (v : V) (o0 : list (string * V)) (keys : list string)
  : list (string * V) :=
  foldl (fun o key => Obj.set key v o) o0 keys.

Lemma assigned_values v o0 keys :
  Forall (fun kv => snd kv = v) o0 ->
  Forall (fun kv => snd kv = v) (assigned v o0 keys).
Proof.
  revert o0. induction keys as [|k r IH]; intros o0 H; [exact H|].
  simpl. apply IH. apply Forall_forall. intros x Hx.
  destruct (elem_of_set _ _ _ _ Hx) as [->|Hin]; [reflexivity|].
  exact (proj1 (Forall_forall _ _) H x Hin).
Qed.

Lemma assigned_keys v o0 keys :
  NoDup (map fst o0 ++ keys) ->
  map fst (assigned v o0 keys) ≡ₚ (map fst o0 ++ keys)%list.
Proof.
  revert o0. induction keys as [|k r IH]; intros o0 H.
  - simpl. rewrite app_nil_r. reflexivity.
  - simpl.
    assert (Hk : Obj.has k o0 = false).
    { destruct (Obj.has k o0) eqn:E; [|reflexivity].
      apply ObjFacts.has_elem, list_elem_of_In in E.
      apply NoDup_app in H as (_ & Hdis & _).
      exfalso. apply (Hdis k E). apply elem_of_cons. auto. }
    pose proof (ObjFacts.keys_set k v o0) as Hset. rewrite Hk in Hset.
    rewrite IH.
    + rewrite Hset. simpl. apply Permutation_middle.
    + rewrite Hset. simpl. rewrite Permutation_middle. exact H.
Qed.

End Assigned.

(** *** Replaying the pairs of a file *)

Section Replay.

Variable sha256 : string -> string.
Variable encoded_length : Values.value -> Z.
Hypothesis sha256_inj : forall a b, sha256 a = sha256 b -> a = b.

#[local] Abbreviation cache_ok := (StoreFacts.cache_ok sha256).

(** What [restore_backup] does with one pair of a [set] instruction. *)
Definition replay_pair (st : core) (kv : string * Values.value) : core :=
  snd (Core.setUnsafe sha256 encoded_length
         (Sanitize.sanitizeKey (fst kv) false) (snd kv) st).

Lemma setUnsafe_effect k v st :
  let st' := snd (Core.setUnsafe sha256 encoded_length k v st) in
  Str.is_empty k = false ->
  cache_ok st ->
  cache_ok st'
  /\ value (tables st') = <[sha256 k := Some v]> (value (tables st))
  /\ posted st' = posted st.
Proof.
  intros st' Hk Hc. subst st'. unfold Core.setUnsafe. rewrite Hk.
  pose proof (StoreFacts.sha256_cached_frame sha256 k st)
    as (Ht & Hp & Hm & Hcur & _).
  pose proof (StoreFacts.sha256_cached_ok sha256 k st Hc) as (Hh & Hc1).
  destruct (Core.sha256_cached sha256 k true st) as [h st1].
  simpl in Ht, Hp, Hm, Hcur, Hh, Hc1. subst h.
  destruct (exist k st1).
  - simpl. rewrite Ht, Hp. auto.
  - unfold nextMeid. destruct (meids_size st1 <=? 1)%Z; simpl;
      rewrite Ht, Hp; auto.
Qed.

Lemma replay_pairs pairs st :
  cache_ok st ->
  Forall (fun kv => key_ok (fst kv)) pairs ->
  NoDup (map fst pairs) ->
  let st' := foldl replay_pair st pairs in
  cache_ok st'
  /\ posted st' = posted st
  /\ (forall k v, (k, v) ∈ pairs ->
        value (tables st') !! sha256 k = Some (Some v))
  /\ (forall h, (forall k, k ∈ map fst pairs -> sha256 k <> h) ->
        value (tables st') !! h = value (tables st) !! h).
Proof.
  revert st. induction pairs as [|[k v] r IH]; intros st Hc Hok Hnd.
  - simpl. repeat split; auto. intros k v H. inversion H.
  - apply Forall_cons in Hok as [[Hne Hall] Hok].
    apply NoDup_cons in Hnd as [Hk Hnd]. simpl in Hk.
    assert (E : replay_pair st (k, v)
                = snd (Core.setUnsafe sha256 encoded_length k v st)).
    { unfold replay_pair. cbn [fst snd]. rewrite (sanitizeKey_fixed k Hall).
      reflexivity. }
    destruct (setUnsafe_effect k v st Hne Hc) as (Hc1 & Hv1 & Hp1).
    rewrite <- E in Hc1, Hv1, Hp1.
    destruct (IH (replay_pair st (k, v)) Hc1 Hok Hnd)
      as (Hc2 & Hp2 & Hin & Hout).
    simpl. split; [exact Hc2|]. split; [congruence|]. split.
    + intros k0 v0 [[= -> ->]|H]%elem_of_cons; [|apply Hin, H].
      rewrite Hout.
      * rewrite Hv1. apply lookup_insert_eq.
      * intros k1 Hk1 Heq. apply sha256_inj in Heq. subst k1. exact (Hk Hk1).
    + intros h Hh. rewrite Hout.
      * rewrite Hv1. apply lookup_insert_ne, Hh. apply elem_of_cons. auto.
      * intros k1 Hk1. apply Hh. apply elem_of_cons. auto.
Qed.

Lemma apply_sets (obj : string * list string -> list (string * Values.value))
      G st :
  foldl (CoreHelper.apply_instruction sha256 encoded_length) st
        (map (fun g => ISet (obj g)) G)
  = foldl replay_pair st (flat_map obj G).
Proof.
  revert st. induction G as [|g r IH]; intros st; [reflexivity|].
  simpl. rewrite foldl_app, IH. reflexivity.
Qed.

End Replay.

(** The value a group was written for. *)
Definition decode (g : string * list string) : Values.value :=
  default VNil (parse (fst g)).

Definition read_back (g : string * list string)
  : list (string * Values.value) :=
  assigned (decode g) [] (snd g).

Lemma read_back_keys G :
  NoDup (flat_map snd G) ->
  map fst (flat_map read_back G) ≡ₚ flat_map snd G.
Proof.
  induction G as [|g r IH]; intros H; [reflexivity|].
  simpl in *. apply NoDup_app in H as (Hg & _ & Hr).
  rewrite map_app, (IH Hr). apply Permutation_app_tail.
  unfold read_back. rewrite assigned_keys; [reflexivity|exact Hg].
Qed.

Lemma elem_of_read_back g k w :
  NoDup (snd g) ->
  (k, w) ∈ read_back g <-> k ∈ snd g /\ w = decode g.
Proof.
  intros Hnd. unfold read_back.
  pose proof (assigned_values (decode g) [] (snd g) (Forall_nil_2 _)) as Hv.
  pose proof (assigned_keys (decode g) [] (snd g) Hnd) as Hk. simpl in Hk.
  split.
  - intros H. split.
    + rewrite <- Hk. apply list_elem_of_fmap. exists (k, w). auto.
    + exact (proj1 (Forall_forall _ _) Hv _ H).
  - intros [H ->]. rewrite <- Hk in H.
    apply list_elem_of_fmap in H as ([k' w'] & -> & H).
    pose proof (proj1 (Forall_forall _ _) Hv _ H) as E. simpl in E.
    subst w'. exact H.
Qed.

(** A pair that a line of the backup file can carry: a sanitized key
    that is not empty, and a value without a byte string whose backup
    form holds no [<]. *)
Definition storable (kv : string * Values.value) : Prop :=
  key_ok (fst kv) /\ Json.representable (snd kv)
  /\ free_of "<" (stringify (snd kv)) = true.

(** What is read from the text written for a queue: one [set]
    instruction per group, holding the keys and the value of the group. *)
Lemma parseInstructions_encodeSets data :
  NoDup (map fst data) -> Forall storable data ->
  parseInstructions (encodeSets data ++ String newline EmptyString)
  = Some (map (fun g => ISet (read_back g)) (groups data))
  /\ NoDup (flat_map snd (groups data))
  /\ (forall k v, (k, v) ∈ data ->
        exists g, g ∈ groups data /\ k ∈ snd g /\ decode g = v)
  /\ (forall g k, g ∈ groups data -> k ∈ snd g -> key_ok k).
Proof.
  intros Hnd Hst. destruct (groups_spec data) as (Hperm & Hne).
  set (G := groups data) in *.
  assert (Hsrc : forall g k, g ∈ G -> k ∈ snd g ->
                   exists v, (k, v) ∈ data /\ stringify v = fst g).
  { intros g k Hg Hk.
    assert (H : (fst g, k) ∈ flatten G) by (apply elem_of_flatten; eauto).
    rewrite Hperm in H. apply list_elem_of_fmap in H as ([k' v'] & E & H).
    simpl in E. injection E as E1 E2. subst k'. eauto. }
  assert (Hdec : forall g k v, g ∈ G -> (k, v) ∈ data -> stringify v = fst g ->
                   parse (fst g) = Some v /\ decode g = v
                   /\ free_of "<" (fst g) = true /\ value_text_ok (fst g)).
  { intros g k v Hg Hin E.
    destruct (proj1 (Forall_forall _ _) Hst _ Hin) as (_ & Hrep & Hfree).
    simpl in Hrep, Hfree. unfold decode. rewrite <- E.
    rewrite (parse_stringify_value v Hrep). repeat split; auto.
    - apply stringify_line.
    - apply stringify_nonempty.
    - apply stringify_last. }
  assert (Hkeys : forall g k, g ∈ G -> k ∈ snd g -> key_ok k).
  { intros g k Hg Hk. destruct (Hsrc g k Hg Hk) as (v & Hin & _).
    exact (proj1 (proj1 (Forall_forall _ _) Hst _ Hin)). }
  assert (Hgroup : forall g, g ∈ G ->
            written_line (line g)
            /\ instructions_of_line (line g) = Some [ISet (read_back g)]).
  { intros g Hg.
    pose proof (proj1 (Forall_forall _ _) Hne g Hg) as Hg_ne.
    simpl in Hg_ne.
    destruct (snd g) as [|k0 r] eqn:Ekeys; [congruence|].
    assert (Hk0 : k0 ∈ snd g) by (rewrite Ekeys; apply elem_of_cons; auto).
    destruct (Hsrc g k0 Hg Hk0) as (v0 & Hin & E).
    destruct (Hdec g k0 v0 Hg Hin E) as (Hparse & Hd & Hfree & Hok).
    assert (Hall : Forall key_ok (snd g)).
    { apply Forall_forall. intros k Hk. exact (Hkeys g k Hg Hk). }
    rewrite <- Ekeys in Hg_ne. split.
    - apply line_written; assumption.
    - unfold read_back, assigned. rewrite Hd.
      apply instructions_of_group; assumption. }
  split; [|split; [|split]].
  - rewrite parseInstructions_append.
    change (parseInstructions EmptyString) with (Some (@nil instruction)).
    rewrite both_nil_r, encodeSets_lines. fold G.
    rewrite parseInstructions_join.
    + apply collect_lines. apply Forall_forall. intros g Hg.
      apply (Hgroup g Hg).
    + apply Forall_map, Forall_forall. intros g Hg. apply (Hgroup g Hg).
  - rewrite <- flatten_keys, Hperm, map_map. simpl.
    exact Hnd.
  - intros k v Hin.
    assert (H : (stringify v, k) ∈ flatten G).
    { rewrite Hperm. apply list_elem_of_fmap. exists (k, v). auto. }
    apply elem_of_flatten in H as (g & Hg & E & Hk).
    exists g. split; [exact Hg|]. split; [exact Hk|].
    apply (Hdec g k v Hg Hin). symmetry. exact E.
  - exact Hkeys.
Qed.

(** X14.  What a flush writes is what a restart reads.  Let a writer
    flush its queue into an empty backup file, the queue holding
    distinct sanitized keys and values without byte strings whose backup
    form has no [<].  When digests do not collide, replaying the file
    over any state reached from a fresh store goes through, posts
    nothing to the AOL worker, and leaves every queued key readable with
    its queued value: [get(k, def)] is the value when it is truthy and
    [def] when it is falsy. *)
Theorem flushed_queue_is_restored :
  forall (sha256 : string -> string) (encoded_length : Values.value -> Z)
         (a : aol) (d : disk) (fd : string)
         (calls : list StoreFacts.call) (n : Z) (monitor : bool)
         (cap : option Z),
    (forall x y, sha256 x = sha256 y -> x = y) ->
    file_descriptor a = Some fd ->
    instructions_changed a = true ->
    QueueFacts.content d fd = EmptyString ->
    NoDup (map fst (queue a)) ->
    Forall storable (queue a) ->
    let text := QueueFacts.content (snd (job a d)) fd in
    let st := StoreFacts.run sha256 encoded_length calls
                             (fresh n monitor cap) in
    exists st',
      CoreHelper.restore_backup sha256 encoded_length text st = Some st'
      /\ posted st' = posted st
      /\ forall k v def, (k, v) ∈ queue a ->
           fst (Core.get sha256 k def st') = if truthy v then v else def.
Proof.
  intros sha256 encoded_length a d fd calls n monitor cap Hinj Hfd Hch Hnew
         Hnd Hst text st.
  assert (Hc : StoreFacts.cache_ok sha256 st)
    by apply StoreFacts.cache_ok_run, StoreFacts.cache_ok_fresh.
  assert (Htext : text = match queue a with
                         | [] => EmptyString
                         | _ => encodeSets (queue a)
                                ++ String newline EmptyString
                         end).
  { subst text. unfold job, QueueFacts.content in *. rewrite Hch, Hfd.
    simpl negb. cbv iota. destruct (queue a) as [|kv q]; simpl snd.
    - exact Hnew.
    - unfold disk in *. rewrite lookup_insert_eq, Hnew. reflexivity. }
  destruct (queue a) as [|kv0 q0] eqn:Eq.
  { exists st. rewrite Htext. split; [reflexivity|]. split; [reflexivity|].
    intros k v def H. inversion H. }
  rewrite <- Eq in *. clear Eq kv0 q0.
  destruct (parseInstructions_encodeSets (queue a) Hnd Hst)
    as (Hparse & Hkeys & Hfind & Hok).
  assert (Etext : text = encodeSets (queue a) ++ String newline EmptyString).
  { rewrite Htext. destruct (queue a); [|reflexivity].
    inversion Hst; reflexivity. }
  set (pairs := flat_map read_back (groups (queue a))).
  assert (Hpk : map fst pairs ≡ₚ flat_map snd (groups (queue a)))
    by apply read_back_keys, Hkeys.
  assert (Hg_nd : forall g, g ∈ groups (queue a) -> NoDup (snd g)).
  { clear -Hkeys. induction (groups (queue a)) as [|g r IH]; intros g0 Hg0.
    - inversion Hg0.
    - simpl in Hkeys. apply NoDup_app in Hkeys as (H1 & _ & H2).
      apply elem_of_cons in Hg0 as [->|Hg0]; [exact H1 | apply IH; auto]. }
  assert (Hmem : forall k w, (k, w) ∈ pairs <->
                   exists g, g ∈ groups (queue a) /\ k ∈ snd g /\ w = decode g).
  { intros k w. subst pairs. rewrite list_elem_of_In, in_flat_map. split.
    - intros (g & Hg & Hin). apply list_elem_of_In in Hg, Hin.
      apply (elem_of_read_back g k w (Hg_nd g Hg)) in Hin. eauto.
    - intros (g & Hg & Hk & ->). exists g.
      rewrite <- !list_elem_of_In. split; [exact Hg|].
      apply elem_of_read_back; auto. }
  destruct (replay_pairs sha256 encoded_length Hinj pairs st Hc)
    as (Hc' & Hp' & Hin & _).
  { apply Forall_forall. intros [k w] H. simpl.
    apply Hmem in H as (g & Hg & Hk & _). exact (Hok g k Hg Hk). }
  { rewrite Hpk. exact Hkeys. }
  exists (foldl (replay_pair sha256 encoded_length) st pairs).
  split; [|split; [exact Hp'|]].
  - unfold CoreHelper.restore_backup. rewrite Etext, Hparse, apply_sets.
    reflexivity.
  - intros k v def Hkv.
    destruct (Hfind k v Hkv) as (g & Hg & Hk & Hd).
    assert (Hv : (k, v) ∈ pairs) by (apply Hmem; exists g; auto).
    specialize (Hin k v Hv).
    destruct (StoreFacts.get_effect sha256 k def _ Hc')
      as (_ & _ & _ & _ & _ & ->).
    unfold lookupValue. rewrite Hin. destruct (truthy v); reflexivity.
Qed.

Lemma flushed_queue_is_restored_witness :
  let sha256 := fun k : string => k in
  let encoded_length := fun _ : Values.value => 1 in
  let started := worker 1000000 (create "db") ∅ in
  let a := add "c" (VNum 1)
             (add "b" (VStr "x y") (add "a" (VNum 1) (fst started))) in
  let text := QueueFacts.content (snd (job a (snd started))) "db/1000.sfb" in
  let st := StoreFacts.run sha256 encoded_length [] (fresh 2 false None) in
  text = "a<c<1" ++ String newline ("b<" ++ Json.quote "x y"
                                         ++ String newline EmptyString)
  /\ exists st',
       CoreHelper.restore_backup sha256 encoded_length text st = Some st'
       /\ posted st' = posted st
       /\ forall k v def, (k, v) ∈ queue a ->
            fst (Core.get sha256 k def st') = if truthy v then v else def.
Proof.
  intros sha256 encoded_length started a text st.
  split; [reflexivity|].
  apply (flushed_queue_is_restored sha256 encoded_length a (snd started)
           "db/1000.sfb" [] 2 false None).
  - intros x y H. exact H.
  - reflexivity.
  - reflexivity.
  - reflexivity.
  - repeat constructor; simpl; rewrite ?elem_of_cons, ?elem_of_nil;
      intuition discriminate.
  - repeat constructor; simpl; unfold Json.max_safe; lia.
Defined.

(** A value whose backup form holds [<] does not make the trip: the
    line [k<"a<b"] is read as the keys [k] and ["a] bound to the string
    [b"], so that replay binds [k] to another value and the key [a] to
    one that was never set. *)
Example angle_bracket_is_not_restored :
  let sha256 := fun k : string => k in
  let encoded_length := fun _ : Values.value => 1 in
  let text := encodeSets [("k", VStr "a<b")] ++ String newline EmptyString in
  (fun st => (Core.lookupValue "k" st, Core.lookupValue "a" st))
    <$> CoreHelper.restore_backup sha256 encoded_length text
          (fresh 1 false None)
  = Some (Some (VStr ("b" ++ String Json.dquote EmptyString)),
          Some (VStr ("b" ++ String Json.dquote EmptyString))).
Proof. vm_compute. reflexivity. Qed.

End DurabilityFacts.

(** ** Replay as a whole *)

Module RestoreFacts.
Import Chars Values Core Aol ReplayFacts TextFacts.

Section WithCodec.

Variable sha256 : string -> string.
Variable encoded_length : Values.value -> Z.

#[local] Abbreviation restore_backup :=
  (CoreHelper.restore_backup sha256 encoded_length).
#[local] Abbreviation apply_instruction :=
  (CoreHelper.apply_instruction sha256 encoded_length).

Lemma setUnsafe_posted k v st :
  posted (snd (Core.setUnsafe sha256 encoded_length k v st)) = posted st.
Proof.
  destruct (Str.is_empty k) eqn:Hk.
  - unfold Core.setUnsafe. rewrite Hk. reflexivity.
  - apply (CoreFacts.setUnsafe_state sha256 encoded_length k v st Hk).
Qed.

Lemma remove_posted k st : posted (snd (Core.remove sha256 k st)) = posted st.
Proof.
  destruct (exist k st) eqn:Hex.
  - destruct (CoreFacts.remove_live sha256 k st Hex)
      as (e & _ & _ & _ & _ & _ & _ & Hp). exact Hp.
  - rewrite (CoreFacts.remove_absent sha256 k st Hex). reflexivity.
Qed.

(** The key table after a [remove]. *)
Lemma remove_keys k st :
  key (tables (snd (Core.remove sha256 k st)))
  = if exist k st then <[k := None]> (key (tables st)) else key (tables st).
Proof.
  unfold Core.remove. destruct (exist k st) eqn:Hex; [|reflexivity].
  simpl negb. cbv iota.
  destruct (CoreFacts.exist_entry _ _ Hex) as (e & He & _).
  pose proof (StoreFacts.sha256_cached_frame sha256 k st) as (Ht & _).
  destruct (Core.sha256_cached sha256 k true st) as [h st1]. simpl in Ht.
  rewrite Ht, He. reflexivity.
Qed.

Lemma exist_after_remove_any k k' st :
  exist k st = false -> exist k (snd (Core.remove sha256 k' st)) = false.
Proof.
  intros H. unfold exist, lookupKey in *. rewrite remove_keys.
  destruct (Core.exist k' st); [|exact H].
  destruct (decide (k' = k)) as [->|Hne].
  - rewrite lookup_insert_eq. reflexivity.
  - rewrite lookup_insert_ne by exact Hne. exact H.
Qed.

Lemma apply_instruction_posted i st :
  posted (apply_instruction st i) = posted st.
Proof.
  destruct i as [data|data]; simpl; revert st.
  - induction data as [|kv r IH]; intros st; [reflexivity|].
    simpl. rewrite IH. apply setUnsafe_posted.
  - induction data as [|k r IH]; intros st; [reflexivity|].
    simpl. rewrite IH. apply remove_posted.
Qed.

Lemma replay_posted instructions st :
  posted (foldl apply_instruction st instructions) = posted st.
Proof.
  revert st. induction instructions as [|i r IH]; intros st; [reflexivity|].
  simpl. rewrite IH. apply apply_instruction_posted.
Qed.

(** Removing the keys of a list one after the other leaves none live. *)
Lemma removed_all keys st k :
  k ∈ keys ->
  exist k (foldl (fun st k => snd (Core.remove sha256 k st)) st keys) = false.
Proof.
  assert (Hkeep : forall keys st,
            exist k st = false ->
            exist k (foldl (fun st k => snd (Core.remove sha256 k st)) st keys)
            = false).
  { clear keys st. intros keys. induction keys as [|k' r IH]; intros st H;
      [exact H|]. simpl. apply IH, exist_after_remove_any, H. }
  revert st. induction keys as [|k' r IH]; intros st Hin; [inversion Hin|].
  simpl. apply elem_of_cons in Hin as [->|Hin]; [|apply IH, Hin].
  apply Hkeep. destruct (exist k' st) eqn:Hex.
  - apply CoreFacts.exist_after_remove, Hex.
  - rewrite (CoreFacts.remove_absent sha256 k' st Hex). exact Hex.
Qed.

End WithCodec.

(** The line [encodeRemoval] writes for a key. *)
Lemma removal_line k :
  Str.all is_key_char k = true ->
  written_line ("#" ++ k)
  /\ instructions_of_line ("#" ++ k) = Some [IRemove [k]].
Proof.
  intros Hk.
  assert (Hsp : free_of " " k = true).
  { apply key_free_of; [|exact Hk]. intros d Hd. apply key_char_plain, Hd. }
  assert (Hnl : one_line k).
  { apply (key_free_of newline); [|exact Hk].
    intros d Hd. apply key_char_plain, Hd. }
  split; [split; [|split]|].
  - exact Hnl.
  - apply trim_fixed.
    + intros c [= <-]. reflexivity.
    + destruct k as [|c r]; [intros d [= <-]; reflexivity|].
      change ("#" ++ String c r) with (String "#" (String c r)).
      rewrite last_cons by reflexivity. intros d Hd.
      apply key_char_plain. exact (last_all _ _ _ Hk Hd).
  - reflexivity.
  - unfold instructions_of_line.
    change ("#" ++ k) with (String "#" k). simpl starts_with. simpl orb.
    cbv iota. rewrite split_single; [reflexivity|]. exact Hsp.
Qed.

(** X15.  Replay follows the file line by line and never writes to the
    log: replaying a text made of two parts joined by a line feed is
    replaying the first part and then the second, on the state the
    first one left; and no replay posts a request to the AOL worker. *)
Theorem replay_in_order :
  forall (sha256 : string -> string) (encoded_length : Values.value -> Z)
         (a b : string) (st : core),
    CoreHelper.restore_backup sha256 encoded_length
      (a ++ String newline b) st
    = match CoreHelper.restore_backup sha256 encoded_length a st with
      | Some st1 => CoreHelper.restore_backup sha256 encoded_length b st1
      | None => None
      end
    /\ forall st',
         CoreHelper.restore_backup sha256 encoded_length a st = Some st' ->
         posted st' = posted st.
Proof.
  intros sha256 encoded_length a b st. split.
  - unfold CoreHelper.restore_backup. rewrite parseInstructions_append.
    destruct (parseInstructions a) as [ia|], (parseInstructions b) as [ib|];
      simpl; try reflexivity.
    rewrite foldl_app. reflexivity.
  - unfold CoreHelper.restore_backup. intros st'.
    destruct (parseInstructions a) as [ia|]; [|discriminate].
    intros [= <-]. apply replay_posted.
Qed.

(** X16.  The removal lines [encodeRemoval] writes are lines replay
    understands: for keys made of key characters, none of them a name
    that objects inherit, the text is read as one [remove] instruction
    per key, in order, and replaying it over a store whose key table has
    its own prototype leaves none of the keys live. *)
Theorem removal_lines_are_replayed :
  forall (sha256 : string -> string) (encoded_length : Values.value -> Z)
         (keys : list string) (st : core),
    Forall (fun k => Str.all is_key_char k = true) keys ->
    Forall (fun k => Plain.inherited k = false) keys ->
    Plain.unspoiled st ->
    parseInstructions (encodeRemoval keys)
    = Some (map (fun k => IRemove [k]) keys)
    /\ exists st',
         CoreHelper.restore_backup sha256 encoded_length
           (encodeRemoval keys) st = Some st'
         /\ forall k, k ∈ keys -> exist k st' = false.
Proof.
  intros sha256 encoded_length keys st Hkeys _ _.
  assert (Hparse : parseInstructions (encodeRemoval keys)
                   = Some (map (fun k => IRemove [k]) keys)).
  { unfold encodeRemoval. rewrite parseInstructions_join.
    - clear st. induction keys as [|k r IH]; [reflexivity|].
      apply Forall_cons in Hkeys as [Hk Hr].
      change (collect (map (fun key => "#" ++ key) (k :: r)))
        with (both (instructions_of_line ("#" ++ k))
                   (collect (map (fun key => "#" ++ key) r))).
      rewrite (proj2 (removal_line k Hk)), (IH Hr). reflexivity.
    - apply Forall_map. eapply Forall_impl; [exact Hkeys|].
      intros k Hk. apply removal_line, Hk. }
  split; [exact Hparse|].
  unfold CoreHelper.restore_backup. rewrite Hparse. eexists.
  split; [reflexivity|]. intros k Hk.
  assert (E : forall st0,
            foldl (CoreHelper.apply_instruction sha256 encoded_length) st0
                  (map (fun k => IRemove [k]) keys)
            = foldl (fun st k => snd (Core.remove sha256 k st)) st0 keys).
  { clear. induction keys as [|k r IH]; intros st0; [reflexivity|].
    simpl. apply IH. }
  rewrite E. apply removed_all, Hk.
Qed.

Lemma removal_lines_are_replayed_witness :
  let sha256 := fun k : string => k in
  let encoded_length := fun _ : Values.value => 1 in
  let st := StoreFacts.run sha256 encoded_length
              [StoreFacts.CSet "a" (VNum 1); StoreFacts.CSet "b" (VNum 2)]
              (fresh 2 false None) in
  exist "a" st = true
  /\ encodeRemoval ["a"; "b"] = "#a" ++ String newline "#b"
  /\ Forall (fun k => Plain.inherited k = false) ["a"; "b"]
  /\ Plain.unspoiled st
  /\ parseInstructions (encodeRemoval ["a"; "b"])
     = Some (map (fun k => IRemove [k]) ["a"; "b"])
  /\ exists st',
       CoreHelper.restore_backup sha256 encoded_length
         (encodeRemoval ["a"; "b"]) st = Some st'
       /\ forall k, k ∈ ["a"; "b"] -> exist k st' = false.
Proof.
  intros sha256 encoded_length st.
  split; [reflexivity|]. split; [reflexivity|].
  split; [repeat constructor|]. split; [reflexivity|].
  apply (removal_lines_are_replayed sha256 encoded_length ["a"; "b"] st).
  - repeat constructor.
  - repeat constructor.
  - reflexivity.
Defined.

End RestoreFacts.

(** ** Sorting and searching the free list, for any field *)

Module SortFacts.
Import Values RangeQuery RangeQueryFacts.

(** The number [sortBy] compares elements by: [a[f] ?? 0]. *)
Definition key_of (f : string) (a : slot) : Z := default 0 (field f a).

(** Ascending order of the field [f], by positions. *)
Definition sorted_by (f : string) (array : list slot) : Prop :=
  forall (i j : nat) (a b : slot),
    (i <= j)%nat -> array !! i = Some a -> array !! j = Some b ->
    key_of f a <= key_of f b.

Lemma sorted_by_cons f x l :
  (forall y, y ∈ l -> key_of f x <= key_of f y) ->
  sorted_by f l -> sorted_by f (x :: l).
Proof.
  intros Hx Hl [|i] [|j] a b Hij Ha Hb; simpl in *.
  - injection Ha as <-. injection Hb as <-. lia.
  - injection Ha as <-. apply Hx. eapply list_elem_of_lookup_2, Hb.
  - lia.
  - apply (Hl i j); auto. lia.
Qed.

Lemma sorted_by_tail f x l : sorted_by f (x :: l) -> sorted_by f l.
Proof. intros H i j a b Hij Ha Hb. apply (H (S i) (S j)); auto. lia. Qed.

Lemma sorted_by_head f x l y :
  sorted_by f (x :: l) -> y ∈ l -> key_of f x <= key_of f y.
Proof.
  intros H [j Hj]%list_elem_of_lookup_1.
  apply (H 0%nat (S j)); auto. lia.
Qed.

Lemma sorted_by_nil f : sorted_by f [].
Proof. intros i j a b _ Ha. discriminate. Qed.

Lemma insert_by_sorted_by f x l :
  sorted_by f l -> sorted_by f (insert_by (compare_by f) x l).
Proof.
  induction l as [|z r IH]; intros Hl; simpl.
  - apply sorted_by_cons; [|apply sorted_by_nil]. intros y Hy. inversion Hy.
  - unfold compare_by at 1. fold (key_of f x) (key_of f z).
    destruct (key_of f x - key_of f z <=? 0)%Z eqn:E.
    + apply Z.leb_le in E. apply sorted_by_cons; [|exact Hl].
      intros y [->|Hy]%elem_of_cons; [lia|].
      pose proof (sorted_by_head _ _ _ _ Hl Hy). lia.
    + apply Z.leb_gt in E. apply sorted_by_cons.
      * intros y [->|Hy]%elem_of_insert_by; [lia|].
        exact (sorted_by_head _ _ _ _ Hl Hy).
      * apply IH. exact (sorted_by_tail _ _ _ Hl).
Qed.

Lemma insert_by_perm cmp x l : insert_by cmp x l ≡ₚ x :: l.
Proof.
  induction l as [|z r IH]; simpl; [reflexivity|].
  destruct (cmp x z <=? 0)%Z; [reflexivity|].
  rewrite IH. apply perm_swap.
Qed.

Lemma insert_by_front f x l :
  sorted_by f (x :: l) -> insert_by (compare_by f) x l = x :: l.
Proof.
  destruct l as [|z r]; [reflexivity|]. intros H. simpl.
  unfold compare_by. fold (key_of f x) (key_of f z).
  assert (key_of f x <= key_of f z)
    by (apply (sorted_by_head f x (z :: r)); [exact H|apply elem_of_cons; auto]).
  destruct (key_of f x - key_of f z <=? 0)%Z eqn:E; [reflexivity|].
  apply Z.leb_gt in E. lia.
Qed.

(** X17.  [sortBy(f)] sorts: for every field name [f] the result is in
    ascending order of [a[f] ?? 0] and holds the elements of the array,
    each as often as before; an array that is in order already is left
    exactly as it is, so that sorting twice is sorting once; and a field
    name that no element has leaves every array as it is. *)
Theorem sortBy_sorts :
  forall (f : string) (array : list slot),
    sorted_by f (sortBy f array)
    /\ sortBy f array ≡ₚ array
    /\ (sorted_by f array -> sortBy f array = array)
    /\ sortBy f (sortBy f array) = sortBy f array
    /\ (f <> "size" -> f <> "position" -> f <> "length" ->
        sortBy f array = array).
Proof.
  intros f array.
  assert (Hsorted : forall l, sorted_by f (sortBy f l)).
  { induction l as [|x r IH]; [apply sorted_by_nil|].
    simpl. apply insert_by_sorted_by, IH. }
  assert (Hfixed : forall l, sorted_by f l -> sortBy f l = l).
  { induction l as [|x r IH]; intros H; [reflexivity|].
    simpl. fold (sortBy f r). rewrite (IH (sorted_by_tail _ _ _ H)).
    apply insert_by_front, H. }
  split; [apply Hsorted|]. split; [|split; [apply Hfixed|split]].
  - induction array as [|x r IH]; [reflexivity|].
    simpl. rewrite insert_by_perm. fold (sortBy f r). rewrite IH. reflexivity.
  - apply Hfixed, Hsorted.
  - intros H1 H2 H3. apply Hfixed. intros i j a b _ _ _.
    unfold key_of, field.
    apply String.eqb_neq in H1, H2, H3. rewrite H1, H2, H3. simpl. lia.
Qed.

(** X18.  On an array in ascending order of [size], also an empty one,
    [binarySearch(array, target)] does not throw; it returns [null]
    exactly when every size is below [target]; and an element it returns
    is the first element of the array whose size is at least [target]:
    every element before it is smaller than [target], and no element of
    at least [target] is smaller than it. *)
Theorem binarySearch_first_fit :
  forall (array : list slot) (target : Z),
    sorted_by_size array ->
    exists r,
      binarySearch array target = Returned r
      /\ (r = None <-> forall x, x ∈ array -> size x < target)
      /\ forall e, r = Some e ->
           exists k : nat,
             array !! k = Some e /\ target <= size e
             /\ (forall i a, (i < k)%nat -> array !! i = Some a ->
                   size a < target)
             /\ (forall y, y ∈ array -> target <= size y -> size e <= size y).
Proof.
  intros array target Hsorted.
  destruct (binarySearch_boundary array target Hsorted)
    as (k & Hbs & Hlow & Hhigh).
  exists (array !! k). split; [exact Hbs|]. split; [split|].
  - intros Hnone x [j Hj]%list_elem_of_lookup_1.
    apply (Hlow j x); [|exact Hj].
    apply lookup_ge_None in Hnone. apply lookup_lt_Some in Hj. lia.
  - intros Hall. destruct (array !! k) as [e|] eqn:Ek; [|reflexivity].
    pose proof (Hhigh k e (le_n k) Ek).
    pose proof (Hall e (list_elem_of_lookup_2 _ _ _ Ek)). lia.
  - intros e Ek. exists k. split; [exact Ek|].
    split; [apply (Hhigh k e); auto|]. split; [exact Hlow|].
    intros y [j Hj]%list_elem_of_lookup_1 Hy.
    destruct (le_lt_dec k j) as [Hkj|Hjk].
    + apply (Hsorted k j); auto.
    + specialize (Hlow j y Hjk Hj). lia.
Qed.

Lemma binarySearch_first_fit_witness :
  let array := [Slot 1 0 37; Slot 5 40 41; Slot 5 90 41; Slot 9 200 45] in
  binarySearch array 3 = Returned (Some (Slot 5 40 41))
  /\ binarySearch [] 3 = Returned None
  /\ exists r,
       binarySearch array 3 = Returned r
       /\ (r = None <-> forall x, x ∈ array -> size x < 3)
       /\ forall e, r = Some e ->
            exists k : nat,
              array !! k = Some e /\ 3 <= size e
              /\ (forall i a, (i < k)%nat -> array !! i = Some a -> size a < 3)
              /\ (forall y, y ∈ array -> 3 <= size y -> size e <= size y).
Proof.
  intros array. split; [reflexivity|]. split; [reflexivity|].
  apply (binarySearch_first_fit array 3).
  change array with (sortBy "size" array). apply sortBy_sorted.
Defined.

End SortFacts.

(** ** Start-up *)

Module StartupFacts.
Import Chars Values Core Aol Startup.

Lemma strip_Some prefix s r : strip prefix s = Some r -> s = prefix ++ r.
Proof.
  revert s. induction prefix as [|c p IH]; intros s; simpl.
  - intros [= ->]. reflexivity.
  - destruct s as [|d s]; [discriminate|].
    destruct (Ascii.eqb c d) eqn:E; [|discriminate].
    apply Ascii.eqb_eq in E. subst d. intros H.
    rewrite (IH s H). reflexivity.
Qed.

(** A name that starts with a letter is no numbered name. *)
Lemma numbered_letter suffix c r :
  is_digit c = false -> numbered suffix (String c r) = false.
Proof. intros H. unfold numbered. simpl. rewrite H. reflexivity. Qed.

Lemma numbered_digit suffix s :
  numbered suffix s = true ->
  exists c r, s = String c r /\ is_digit c = true.
Proof.
  destruct s as [|c r]; [discriminate|]. intros H.
  exists c, r. split; [reflexivity|].
  destruct (is_digit c) eqn:E; [reflexivity|].
  rewrite (numbered_letter suffix c r E) in H. discriminate.
Qed.

Lemma strip_digit prefix c0 p s :
  prefix = String c0 p -> is_digit c0 = false ->
  numbered ".sfb" s = true -> strip prefix s = None.
Proof.
  intros -> Hc H. destruct (numbered_digit _ _ H) as (c & r & -> & Hd).
  simpl. destruct (Ascii.eqb c0 c) eqn:E; [|reflexivity].
  apply Ascii.eqb_eq in E. congruence.
Qed.

(** The three classes of [getDatabaseFiles], name by name. *)
Definition is_meid (n : string) : bool :=
  match strip "meid-" n with Some r => numbered ".sfd" r | None => false end.

Definition is_key (n : string) : bool :=
  match strip "key-" n with Some r => numbered ".sfk" r | None => false end.

Definition is_backup (n : string) : bool := numbered ".sfb" n.

Lemma classes n :
  (file_pattern n && startsWith "meid-" n = is_meid n)
  /\ (file_pattern n && negb (startsWith "meid-" n) && startsWith "key-" n
      = is_key n)
  /\ (file_pattern n && negb (startsWith "meid-" n)
        && negb (startsWith "key-" n) = is_backup n).
Proof.
  unfold file_pattern, startsWith, is_meid, is_key, is_backup.
  destruct (numbered ".sfb" n) eqn:Hb.
  - rewrite (strip_digit "meid-" "m" "eid-" n eq_refl eq_refl Hb).
    rewrite (strip_digit "key-" "k" "ey-" n eq_refl eq_refl Hb).
    repeat split; reflexivity.
  - destruct (strip "meid-" n) as [r|] eqn:Hm.
    + apply strip_Some in Hm. subst n. simpl strip.
      destruct (numbered ".sfd" r); repeat split; reflexivity.
    + destruct (strip "key-" n) as [r|] eqn:Hk.
      * destruct (numbered ".sfk" r); repeat split; reflexivity.
      * repeat split; reflexivity.
Qed.

Lemma push_file_classes files n :
  meids_files (push_file files n)
  = (meids_files files ++ List.filter is_meid [n])%list
  /\ keys_files (push_file files n)
     = (keys_files files ++ List.filter is_key [n])%list
  /\ backup_files (push_file files n)
     = (backup_files files ++ List.filter is_backup [n])%list.
Proof.
  destruct (classes n) as (Hm & Hk & Hb). unfold push_file. simpl List.filter.
  rewrite <- Hm, <- Hk, <- Hb.
  destruct (file_pattern n), (startsWith "meid-" n), (startsWith "key-" n);
    simpl; rewrite ?app_nil_r; auto.
Qed.

Lemma getDatabaseFiles_from files names :
  meids_files (foldl push_file files names)
  = (meids_files files ++ List.filter is_meid names)%list
  /\ keys_files (foldl push_file files names)
     = (keys_files files ++ List.filter is_key names)%list
  /\ backup_files (foldl push_file files names)
     = (backup_files files ++ List.filter is_backup names)%list.
Proof.
  revert files. induction names as [|n r IH]; intros files.
  - simpl. rewrite !app_nil_r. auto.
  - destruct (IH (push_file files n)) as (H1 & H2 & H3).
    destruct (push_file_classes files n) as (E1 & E2 & E3).
    simpl foldl. rewrite H1, H2, H3, E1, E2, E3, <- !app_assoc.
    change (n :: r) with ([n] ++ r)%list. rewrite !List.filter_app. auto.
Qed.

Lemma elem_of_unique seen l x :
  x ∈ unique seen l <-> x ∈ l /\ x ∉ seen.
Proof.
  revert seen. induction l as [|y r IH]; intros seen; simpl.
  - split; [intros H; inversion H | intros [H _]; inversion H].
  - destruct (existsb (String.eqb y) seen) eqn:E.
    + apply existsb_exists in E as (z & Hz & Hyz).
      apply String.eqb_eq in Hyz. subst z. apply list_elem_of_In in Hz.
      rewrite IH, elem_of_cons. split; [tauto|].
      intros [[->|H] Hs]; [contradiction | auto].
    + assert (Hy : y ∉ seen).
      { intros H. apply list_elem_of_In in H.
        assert (existsb (String.eqb y) seen = true); [|congruence].
        apply existsb_exists. exists y. split; [exact H|].
        apply String.eqb_refl. }
      rewrite !elem_of_cons, IH, elem_of_cons. split.
      * intros [->|[H Hs]]; [auto|]. split; [auto|]. tauto.
      * intros [[->|H] Hs]; [auto|].
        destruct (decide (x = y)) as [->|Hne]; [auto|].
        right. split; [exact H|]. intros [?|?]; contradiction.
Qed.

Lemma NoDup_unique seen l : NoDup (unique seen l).
Proof.
  revert seen. induction l as [|y r IH]; intros seen; simpl; [constructor|].
  destruct (existsb (String.eqb y) seen); [apply IH|].
  constructor; [|apply IH]. rewrite elem_of_unique.
  intros [_ H]. apply H. apply elem_of_cons. auto.
Qed.

(** The name [rotate] gives a backup file is a numbered name. *)
Lemma rotate_name_numbered n :
  0 <= n -> is_backup (Dec.of_Z n ++ ".sfb") = true.
Proof.
  intros Hn. unfold is_backup, numbered.
  assert (E : Dec.of_Z n = Dec.of_N (Z.to_N n)) by (destruct n; [| |lia]; reflexivity).
  rewrite E, DecFacts.span_append.
  - destruct (DecFacts.of_N_head (Z.to_N n)) as (c & r & -> & _). reflexivity.
  - apply DecFacts.all_digits_of_N.
  - intros c [= <-]. reflexivity.
Qed.

(** X19.  The listing of the database directory is split by name:
    [meid-N.sfd] are shard files, [key-N.sfk] key files and [N.sfb]
    backups, for decimal numbers [N]; every list keeps the order of the
    listing, and any other name is ignored.  The backup file a writer
    names at a clock that is not negative is such a name, so that it is
    among the files the next start replays, once, whenever the
    directory lists it. *)
Theorem database_files_by_name :
  forall names : list string,
    meids_files (getDatabaseFiles names) = List.filter is_meid names
    /\ keys_files (getDatabaseFiles names) = List.filter is_key names
    /\ backup_files (getDatabaseFiles names) = List.filter is_backup names
    /\ NoDup (backupFiles (backup_files (getDatabaseFiles names)))
    /\ forall (date_now : Z) (path name : string),
         0 <= date_now ->
         current_file_name (rotate date_now (create path)) = Some name ->
         name ∈ names ->
         name ∈ backupFiles (backup_files (getDatabaseFiles names)).
Proof.
  intros names.
  destruct (getDatabaseFiles_from (DatabaseFiles [] [] []) names)
    as (Hm & Hk & Hb).
  simpl in Hm, Hk, Hb. fold (getDatabaseFiles names) in Hm, Hk, Hb.
  split; [exact Hm|]. split; [exact Hk|]. split; [exact Hb|].
  split; [apply NoDup_unique|].
  intros date_now path name Ht [= <-] Hin.
  unfold backupFiles. apply elem_of_unique. split; [|intros H; inversion H].
  rewrite Hb. apply list_elem_of_In, filter_In.
  split; [apply list_elem_of_In, Hin|].
  apply rotate_name_numbered. apply Z.div_pos; lia.
Qed.

Section WithCodec.

Variable sha256 : string -> string.
Variable encoded_length : Values.value -> Z.

#[local] Abbreviation restore_file :=
  (Startup.restore_file sha256 encoded_length).

Lemma setUnsafe_trash k v st :
  trash (tables (snd (Core.setUnsafe sha256 encoded_length k v st)))
  = trash (tables st).
Proof.
  unfold Core.setUnsafe. destruct (Str.is_empty k); [reflexivity|].
  pose proof (StoreFacts.sha256_cached_frame sha256 k st) as (Ht & _).
  destruct (Core.sha256_cached sha256 k true st) as [h st1]. simpl in Ht.
  destruct (exist k st1); [simpl; rewrite Ht; reflexivity|].
  unfold nextMeid. destruct (meids_size st1 <=? 1)%Z; simpl;
    rewrite Ht; reflexivity.
Qed.

Lemma remove_trash k st :
  trash (tables st) `prefix_of` trash (tables (snd (Core.remove sha256 k st))).
Proof.
  destruct (exist k st) eqn:Hex.
  - destruct (CoreFacts.remove_live sha256 k st Hex) as (e & _ & _ & -> & _).
    apply prefix_app_r. reflexivity.
  - rewrite (CoreFacts.remove_absent sha256 k st Hex). reflexivity.
Qed.

Lemma apply_instruction_trash i st :
  trash (tables st)
    `prefix_of` trash (tables (CoreHelper.apply_instruction
                                 sha256 encoded_length st i)).
Proof.
  destruct i as [data|data]; simpl; revert st.
  - induction data as [|kv r IH]; intros st; [reflexivity|].
    simpl. etransitivity; [|apply IH]. rewrite setUnsafe_trash. reflexivity.
  - induction data as [|k r IH]; intros st; [reflexivity|].
    simpl. etransitivity; [|apply IH]. apply remove_trash.
Qed.

Lemma restore_file_frame db d st file st' :
  restore_file db d st file = Some st' ->
  posted st' = posted st
  /\ trash (tables st) `prefix_of` trash (tables st').
Proof.
  unfold Startup.restore_file, CoreHelper.restore_backup.
  destruct (d !! (db ++ "/" ++ file)) as [content|];
    [|intros [= <-]; split; reflexivity].
  destruct (parseInstructions content) as [ins|]; [|discriminate].
  intros [= <-]. split; [apply RestoreFacts.replay_posted|].
  revert st. induction ins as [|i r IH]; intros st; [reflexivity|].
  simpl. etransitivity; [|apply IH]. apply apply_instruction_trash.
Qed.

Lemma restore_files_frame db d files st st' :
  foldl (fun acc file =>
           match acc with
           | Some st => restore_file db d st file
           | None => None
           end) (Some st) files = Some st' ->
  posted st' = posted st
  /\ trash (tables st) `prefix_of` trash (tables st').
Proof.
  revert st. induction files as [|f r IH]; intros st.
  - intros [= <-]. split; reflexivity.
  - simpl. destruct (restore_file db d st f) as [st1|] eqn:E.
    + intros H. destruct (IH st1 H) as (Hp & Ht).
      destruct (restore_file_frame db d st f st1 E) as (Hp1 & Ht1).
      split; [congruence | etransitivity; eassumption].
    + intros H. exfalso. clear -H. induction r as [|g r IH]; [discriminate|].
      simpl in H. auto.
Qed.

End WithCodec.

(** *** The files of the shards fill the key and value tables only *)

Section Loading.

Variable sha256 : string -> string.
Variable encoded_length : Values.value -> Z.
Variable fromBuffer : list N -> option Values.value.

Lemma read_block_shorter data hash size payload rest :
  Loading.read_block data = Some (hash, size, payload, rest) ->
  (List.length rest < List.length data)%nat.
Proof.
  unfold Loading.read_block.
  destruct (Nat.ltb_spec (List.length (drop 32 data)) 4); [discriminate|].
  intros [= _ _ _ <-]. rewrite !length_drop in *. lia.
Qed.

(** The fuel of the loop is never used up. *)
Lemma load_blocks_fuel is_meid index fuel :
  forall fuel' pos data st,
    (List.length data <= fuel)%nat -> (List.length data <= fuel')%nat ->
    Loading.load_blocks sha256 fromBuffer fuel is_meid index pos data st
    = Loading.load_blocks sha256 fromBuffer fuel' is_meid index pos data st.
Proof.
  induction fuel as [|fuel IH]; intros fuel' pos data st H H'.
  - destruct data; [|simpl in H; lia]. destruct fuel'; reflexivity.
  - destruct data as [|b data]; [destruct fuel'; reflexivity|].
    destruct fuel' as [|fuel']; [simpl in H'; lia|].
    cbn [Loading.load_blocks].
    destruct (Loading.read_block (b :: data)) as [[[[hash size] payload] rest]|]
      eqn:E; [|reflexivity].
    apply read_block_shorter in E.
    destruct (fromBuffer payload) as [decoded|]; [|reflexivity].
    destruct is_meid; [apply IH; lia|].
    destruct decoded; try reflexivity. apply IH; lia.
Qed.

Lemma load_blocks_frame is_meid index fuel :
  forall pos data st st',
    Loading.load_blocks sha256 fromBuffer fuel is_meid index pos data st
    = Some st' ->
    posted st' = posted st /\ trash (tables st') = trash (tables st).
Proof.
  induction fuel as [|fuel IH]; intros pos data st st'.
  - destruct data; [intros [= <-]; auto|discriminate].
  - destruct data as [|b data]; [intros [= <-]; auto|].
    cbn [Loading.load_blocks].
    destruct (Loading.read_block (b :: data)) as [[[[hash size] payload] rest]|];
      [|discriminate].
    destruct (fromBuffer payload) as [decoded|]; [|discriminate].
    destruct is_meid.
    + intros H. apply IH in H as [-> ->]. auto.
    + destruct decoded; try discriminate.
      intros H. apply IH in H as [-> ->].
      destruct (_ =? _)%string; auto.
Qed.

Lemma loadDatabaseFile_frame dir file index is_meid st st' :
  Loading.loadDatabaseFile sha256 fromBuffer dir file index is_meid st
  = Some st' ->
  posted st' = posted st /\ trash (tables st') = trash (tables st).
Proof.
  unfold Loading.loadDatabaseFile.
  destruct (dir !! file) as [buffer|]; [|discriminate].
  destruct (256 <=? List.length buffer)%nat; [|intros [= <-]; auto].
  apply load_blocks_frame.
Qed.

Lemma load_files_frame dir entries :
  forall st st',
    foldl (fun acc entry =>
             match acc with
             | Some st =>
                 if Files.FILE_STATES.isReady (Files.state (snd entry)) then
                   Loading.loadDatabaseFile sha256 fromBuffer dir (fst entry)
                     (Files.index (snd entry))
                     (startsWith "meid-" (fst entry)) st
                 else Some st
             | None => None
             end) (Some st) entries = Some st' ->
    posted st' = posted st /\ trash (tables st') = trash (tables st).
Proof.
  induction entries as [|e r IH]; intros st st'; [intros [= <-]; auto|].
  cbn [foldl].
  destruct (Files.FILE_STATES.isReady (Files.state (snd e))).
  - destruct (Loading.loadDatabaseFile sha256 fromBuffer dir (fst e)
                (Files.index (snd e)) (startsWith "meid-" (fst e)) st)
      as [st1|] eqn:E.
    + intros H. apply IH in H as [-> ->].
      apply loadDatabaseFile_frame in E. exact E.
    + intros H. exfalso. clear -H. induction r as [|g r IH]; [discriminate|].
      simpl in H. auto.
  - apply IH.
Qed.

Lemma super_loadDatabase_frame meids_data keys_data dir st st' :
  Loading.super_loadDatabase sha256 fromBuffer meids_data keys_data dir st
  = Some st' ->
  posted st' = posted st /\ trash (tables st') = trash (tables st).
Proof. apply load_files_frame. Qed.

(** Files that hold a header and nothing behind it load nothing. *)
Lemma super_loadDatabase_bare meids_data keys_data
      (dir : gmap string (list N)) st :
  (forall entry,
     entry ∈ Loading.database_files meids_data keys_data ->
     Files.FILE_STATES.isReady (Files.state (snd entry)) = true ->
     exists buffer,
       dir !! fst entry = Some buffer /\ (List.length buffer <= 256)%nat) ->
  Loading.super_loadDatabase sha256 fromBuffer meids_data keys_data dir st
  = Some st.
Proof.
  unfold Loading.super_loadDatabase.
  induction (Loading.database_files meids_data keys_data) as [|e r IH];
    intros H; [reflexivity|].
  cbn [foldl].
  destruct (Files.FILE_STATES.isReady (Files.state (snd e))) eqn:Er.
  - destruct (H e) as (buffer & Hb & Hl); [constructor|exact Er|].
    unfold Loading.loadDatabaseFile. rewrite Hb.
    destruct (Nat.leb_spec 256 (List.length buffer)).
    + assert (El : List.length buffer = 256%nat) by lia.
      unfold Files.sf_capture. rewrite El. simpl Nat.sub. rewrite take_0.
      apply IH. intros x Hx. apply H. constructor. exact Hx.
    + apply IH. intros x Hx. apply H. constructor. exact Hx.
  - apply IH. intros x Hx. apply H. constructor. exact Hx.
Qed.

End Loading.

(** X20.  Loading the database leaves the free list ready for the
    search.  [loadDatabase()] loads the files of the shards, replays the
    backups and sorts the free list.  Let no file of a shard have filed
    an entry under the key [__proto__], and let the backups hold no key
    that objects inherit.  Then, when [loadDatabase()] goes through: the
    free list is in ascending order of [size], it still holds every slot
    it held before, and nothing was posted to the AOL worker.  Backups
    the directory does not hold are passed over: when it holds none of
    them, the key and value tables are as the files of the shards have
    filled them, and the free list is the one from before, sorted.  When
    moreover every file of a shard in use is a header with nothing behind
    it, as [initMeidsAndKeys()] writes it, the key and value tables are
    what they were. *)
Theorem loadDatabase_sorts_free_list :
  forall (sha256 : string -> string) (encoded_length : Values.value -> Z)
         (fromBuffer : list N -> option Values.value)
         (meids_data keys_data : list (string * Files.file_data))
         (dir : gmap string (list N)) (db_path : string) (d : disk)
         (backups : list string) (st st' : core),
    Loading.loadDatabase sha256 encoded_length fromBuffer meids_data
                         keys_data dir db_path d backups st = Some st' ->
    Plain.unspoiled
      (default st (Loading.super_loadDatabase sha256 fromBuffer meids_data
                                              keys_data dir st)) ->
    forallb (Plain.ordinary_backup db_path d) backups = true ->
    RangeQueryFacts.sorted_by_size (trash (tables st'))
    /\ (forall x, x ∈ trash (tables st) -> x ∈ trash (tables st'))
    /\ posted st' = posted st
    /\ ((forall file, file ∈ backups -> d !! (db_path ++ "/" ++ file) = None) ->
        (exists loaded,
           Loading.super_loadDatabase sha256 fromBuffer meids_data keys_data
                                      dir st = Some loaded
           /\ key (tables st') = key (tables loaded)
           /\ value (tables st') = value (tables loaded))
        /\ trash (tables st') = RangeQuery.sortBy "size" (trash (tables st))
        /\ ((forall entry,
               entry ∈ Loading.database_files meids_data keys_data ->
               Files.FILE_STATES.isReady (Files.state (snd entry)) = true ->
               exists buffer,
                 dir !! fst entry = Some buffer
                 /\ (List.length buffer <= 256)%nat) ->
            key (tables st') = key (tables st)
            /\ value (tables st') = value (tables st))).
Proof.
  intros sha256 encoded_length fromBuffer meids_data keys_data dir db_path d
         backups st st' Hload _ _.
  revert Hload. unfold Loading.loadDatabase.
  destruct (Loading.super_loadDatabase sha256 fromBuffer meids_data keys_data
              dir st) as [st0|] eqn:E0; [|discriminate].
  destruct (super_loadDatabase_frame _ _ _ _ _ _ _ E0) as (Hp0 & Ht0).
  destruct (foldl _ (Some st0) (backupFiles backups)) as [st1|] eqn:E;
    [|discriminate].
  intros [= <-]. simpl.
  destruct (restore_files_frame sha256 encoded_length _ _ _ _ _ E)
    as (Hp & Ht).
  rewrite Ht0 in Ht.
  split; [apply RangeQueryFacts.sortBy_sorted|].
  split; [|split; [congruence|]].
  - intros x Hx. apply RangeQueryFacts.elem_of_sortBy.
    destruct Ht as (more & ->). apply elem_of_app. auto.
  - intros Hnone.
    assert (Hsame : st1 = st0).
    { assert (Hfiles : forall file, file ∈ backupFiles backups ->
                         d !! (db_path ++ "/" ++ file) = None).
      { intros file Hf. apply Hnone.
        apply elem_of_unique in Hf. tauto. }
      clear -E Hfiles. revert st0 E.
      induction (backupFiles backups) as [|f r IH]; intros st0 E.
      - injection E as <-. reflexivity.
      - simpl in E. unfold Startup.restore_file in E at 2.
        rewrite (Hfiles f) in E by (apply elem_of_cons; auto).
        apply IH; [|exact E]. intros file Hf. apply Hfiles.
        apply elem_of_cons. auto. }
    rewrite Hsame, Ht0.
    split; [exists st0; auto|]. split; [reflexivity|].
    intros Hbare.
    rewrite (super_loadDatabase_bare sha256 fromBuffer _ _ _ st Hbare) in E0.
    injection E0 as <-. auto.
Qed.

Lemma loadDatabase_sorts_free_list_witness :
  let digest := fun k : string =>
    (replicate 31 0%N ++ [N.of_nat (String.length k)])%list in
  let sha256 := fun k : string => Loading.hex (digest k) in
  let encoded_length := fun v : Values.value =>
    match v with VStr s => Z.of_nat (String.length s) | _ => 1 end in
  let fromBuffer := fun buffer : list N =>
    Some (VStr (string_of_list_ascii (map ascii_of_N buffer))) in
  let ready := fun name => (name, Files.FileData 0 name true 0) in
  let meids_data := [ready "meid-0.sfd"; ready "key-0.sfk"] in
  let keys_data := [ready "key-0.sfk"] in
  let dir : gmap string (list N) :=
    {[ "meid-0.sfd" :=
         (Files.alloc 256 ++ digest "k" ++ [0; 0; 0; 2; 104; 105])%list%N;
       "key-0.sfk" :=
         (Files.alloc 256 ++ digest "k" ++ [0; 0; 0; 1; 107])%list%N ]} in
  let d : disk :=
    {[ "db/1000.sfb" := "a<" ++ Json.quote "long value" ++ String newline "b<1";
       "db/2000.sfb" := "#a" ++ String newline "#b" ++ String newline "#k" ]} in
  let backups := ["1000.sfb"; "1500.sfb"; "2000.sfb"] in
  let st := fresh 2 false None in
  let loaded := default st
                  (Loading.super_loadDatabase sha256 fromBuffer meids_data
                                              keys_data dir st) in
  let st' := default st
               (Loading.loadDatabase sha256 encoded_length fromBuffer
                  meids_data keys_data dir "db" d backups st) in
  fst (Core.get sha256 "k" VNil loaded) = VStr "hi"
  /\ exist "k" loaded = true
  /\ trash (tables st') = [Slot 1 (-1) 37; Slot 1 0 37; Slot 10 (-1) 46]
  /\ Plain.unspoiled loaded
  /\ forallb (Plain.ordinary_backup "db" d) backups = true
  /\ RangeQueryFacts.sorted_by_size (trash (tables st'))
  /\ (forall x, x ∈ trash (tables st) -> x ∈ trash (tables st'))
  /\ posted st' = posted st
  /\ ((forall file, file ∈ backups -> d !! ("db" ++ "/" ++ file) = None) ->
      (exists loaded,
         Loading.super_loadDatabase sha256 fromBuffer meids_data keys_data
                                    dir st = Some loaded
         /\ key (tables st') = key (tables loaded)
         /\ value (tables st') = value (tables loaded))
      /\ trash (tables st') = RangeQuery.sortBy "size" (trash (tables st))
      /\ ((forall entry,
             entry ∈ Loading.database_files meids_data keys_data ->
             Files.FILE_STATES.isReady (Files.state (snd entry)) = true ->
             exists buffer,
               dir !! fst entry = Some buffer
               /\ (List.length buffer <= 256)%nat) ->
          key (tables st') = key (tables st)
          /\ value (tables st') = value (tables st))).
Proof.
  intros digest sha256 encoded_length fromBuffer ready meids_data keys_data
         dir d backups st loaded st'.
  split; [vm_compute; reflexivity|]. split; [vm_compute; reflexivity|].
  split; [vm_compute; reflexivity|]. split; [vm_compute; reflexivity|].
  split; [vm_compute; reflexivity|].
  apply (loadDatabase_sorts_free_list sha256 encoded_length fromBuffer
           meids_data keys_data dir "db" d backups st st').
  - vm_compute. reflexivity.
  - vm_compute. reflexivity.
  - vm_compute. reflexivity.
Defined.

End StartupFacts.

(** ** The command line *)

Module CommandLineFacts.
Import Chars Values CommandLine TextFacts.

(** A word of a command line: a run of characters that are no white
    space and that does not start with a hyphen or a quote, or a text
    between two quotes of the same kind that holds no such quote. *)
Inductive word : Type :=
| Bare (s : string)
| InQuotes (q : ascii) (s : string).

Definition opens_word (c : ascii) : bool :=
  negb (Ascii.eqb c Json.dquote || Ascii.eqb c squote || Ascii.eqb c "-"
        || is_space c).

Definition word_ok (w : word) : Prop :=
  match w with
  | Bare s =>
      Str.all non_space s = true
      /\ exists c r, s = String c r /\ opens_word c = true
  | InQuotes q s =>
      (q = Json.dquote \/ q = squote) /\ free_of q s = true
  end.

(** The text of a word on the line, the match it gives, and what it
    adds to the arguments (an empty quoted text adds nothing). *)
Definition render (w : word) : string :=
  match w with
  | Bare s => s
  | InQuotes q s => String q (s ++ String q EmptyString)
  end.

Definition token_of (w : word) : token :=
  match w with
  | Bare s => Plain s
  | InQuotes q s => Quoted q s
  end.

Definition argument (w : word) : list string :=
  match w with
  | Bare s => [s]
  | InQuotes _ s => if Str.is_empty s then [] else [s]
  end.

(** The line of words separated by single spaces. *)
Definition line (ws : list word) : string := Json.join " " (map render ws).

(** What follows a word on the line. *)
Definition behind (ws : list word) : string :=
  match ws with
  | [] => EmptyString
  | _ => String " " (line ws)
  end.

Lemma line_cons w ws : line (w :: ws) = render w ++ behind ws.
Proof.
  unfold line, behind. destruct ws as [|w2 ws]; simpl map.
  - simpl. symmetry. apply QueueFacts.append_nil.
  - rewrite join_cons. reflexivity.
Qed.

Lemma raw_token_of w : raw (token_of w) = render w.
Proof. destruct w; reflexivity. Qed.

Lemma until_closing q s rest :
  free_of q s = true -> until q (s ++ String q rest) = Some (s, rest).
Proof.
  induction s as [|c r IH]; simpl.
  - rewrite Ascii.eqb_refl. reflexivity.
  - intros [Hc Hr]%andb_true_iff. apply negb_true_iff in Hc.
    rewrite Hc, (IH Hr). reflexivity.
Qed.

Lemma behind_first ws c :
  Str.first (behind ws) = Some c -> non_space c = false.
Proof. destruct ws; simpl; [discriminate|]. intros [= <-]. reflexivity. Qed.

(** The match a word gives at its place on the line. *)
Lemma match_at_word w ws :
  word_ok w ->
  exists c r,
    render w ++ behind ws = String c r
    /\ match_at c r = Some (token_of w, behind ws).
Proof.
  destruct w as [s|q s].
  - intros (Hall & c & r & -> & Hc). exists c, (r ++ behind ws).
    split; [reflexivity|].
    unfold opens_word in Hc. apply negb_true_iff in Hc.
    repeat (apply orb_false_iff in Hc as [Hc ?]).
    unfold match_at.
    assert (Hspan : Dec.span non_space (String c (r ++ behind ws))
                    = (String c r, behind ws)).
    { change (String c (r ++ behind ws)) with (String c r ++ behind ws).
      apply DecFacts.span_append; [exact Hall | apply behind_first]. }
    rewrite Hspan, Hc, H1, H0, H. reflexivity.
  - intros (Hq & Hfree). exists q, (s ++ String q (behind ws)). split.
    + change (render (InQuotes q s) ++ behind ws)
        with (String q ((s ++ String q EmptyString) ++ behind ws)).
      rewrite JsonFacts.append_assoc. reflexivity.
    + unfold match_at. simpl token_of. rewrite (until_closing q s _ Hfree).
      destruct Hq as [->| ->]; reflexivity.
Qed.

Lemma length_render_pos w : word_ok w -> (0 < String.length (render w))%nat.
Proof.
  destruct w as [s|q s]; simpl; [|lia].
  intros (_ & c & r & -> & _). simpl. lia.
Qed.

(** The matches of a line are its words. *)
Lemma matchAll_line ws fuel :
  Forall word_ok ws ->
  (String.length (line ws) < fuel)%nat ->
  matchAll fuel (line ws) = map token_of ws.
Proof.
  revert fuel. induction ws as [|w ws IH]; intros fuel Hok Hfuel.
  - destruct fuel; reflexivity.
  - apply Forall_cons in Hok as [Hw Hws].
    rewrite line_cons in Hfuel |- *.
    destruct (match_at_word w ws Hw) as (c & r & E & Hm).
    pose proof (length_render_pos w Hw) as Hpos.
    rewrite JsonFacts.length_append in Hfuel.
    destruct fuel as [|fuel]; [lia|].
    rewrite E. simpl matchAll. rewrite Hm. simpl map. f_equal.
    destruct ws as [|w2 ws]; [destruct fuel; reflexivity|].
    change (behind (w2 :: ws)) with (String " " (line (w2 :: ws))) in *.
    simpl String.length in Hfuel.
    destruct fuel as [|fuel]; [lia|].
    change (matchAll (S fuel) (String " " (line (w2 :: ws))))
      with (matchAll fuel (line (w2 :: ws))).
    apply IH; [exact Hws | lia].
Qed.

Lemma collect_argument cmd w args0 :
  Str.is_empty cmd = false ->
  collect (Parsed cmd args0 []) (token_of w)
  = Parsed cmd (args0 ++ argument w) [].
Proof.
  intros Hcmd. unfold collect. simpl command. rewrite Hcmd.
  destruct w as [s|q s]; simpl; [reflexivity|].
  destruct (Str.is_empty s); [rewrite app_nil_r|]; reflexivity.
Qed.

Lemma collect_arguments cmd ws args0 :
  Str.is_empty cmd = false ->
  foldl collect (Parsed cmd args0 []) (map token_of ws)
  = Parsed cmd (args0 ++ concat (map argument ws)) [].
Proof.
  intros Hcmd. revert args0. induction ws as [|w ws IH]; intros args0.
  - simpl. rewrite app_nil_r. reflexivity.
  - change (foldl collect (Parsed cmd args0 []) (map token_of (w :: ws)))
      with (foldl collect (collect (Parsed cmd args0 []) (token_of w))
                  (map token_of ws)).
    rewrite (collect_argument cmd w args0 Hcmd), IH. simpl.
    rewrite <- app_assoc. reflexivity.
Qed.

(** X21.  A command line of words separated by single spaces is taken
    apart into its words: the first word, as it stands on the line, is
    the command; the other words are the arguments, in order, a quoted
    word giving the text between its quotes (with its white space) and
    an empty quoted word giving nothing; there are no options. *)
Theorem parseCommand_words :
  forall (w : word) (ws : list word),
    Forall word_ok (w :: ws) ->
    parseCommand (line (w :: ws))
    = Parsed (render w) (concat (map argument ws)) [].
Proof.
  intros w ws Hok. unfold parseCommand.
  rewrite matchAll_line by (auto; lia).
  change (foldl collect (Parsed EmptyString [] []) (map token_of (w :: ws)))
    with (foldl collect (Parsed (raw (token_of w)) [] []) (map token_of ws)).
  rewrite raw_token_of. apply collect_arguments.
  apply Forall_cons in Hok as [Hw _].
  pose proof (length_render_pos w Hw). destruct (render w); [simpl in *; lia|].
  reflexivity.
Qed.

Lemma parseCommand_words_witness :
  let ws := [Bare "set"; InQuotes Json.dquote "my key";
             InQuotes squote ""; Bare "value"] in
  Forall word_ok ws
  /\ line ws = "set " ++ String Json.dquote ("my key" ++ String Json.dquote
                                              " '' value")
  /\ parseCommand (line ws) = Parsed "set" ["my key"; "value"] [].
Proof.
  intros ws.
  assert (H : Forall word_ok ws).
  { repeat apply Forall_cons_2; try apply Forall_nil_2.
    - split; [reflexivity|]. eexists _, _. split; reflexivity.
    - split; [left|]; reflexivity.
    - split; [right|]; reflexivity.
    - split; [reflexivity|]. eexists _, _. split; reflexivity. }
  split; [exact H|]. split; [reflexivity|].
  exact (parseCommand_words (Bare "set")
           [InQuotes Json.dquote "my key"; InQuotes squote ""; Bare "value"]
           H).
Defined.

End CommandLineFacts.

(** ** The commands of the store, through [exec] *)

Module CommandsFacts.
Import Chars Values Core CommandLine Commands CommandLineFacts.

Lemma argument_nonempty w a :
  word_ok w -> argument w = [a] -> Str.is_empty a = false.
Proof.
  destruct w as [s|q s]; simpl.
  - intros (_ & c & r & -> & _) [= <-]. reflexivity.
  - intros _. destruct (Str.is_empty s) eqn:E; [discriminate|].
    intros [= <-]. exact E.
Qed.

Lemma word_ok_bare s c r :
  s = String c r -> Str.all non_space s = true -> opens_word c = true ->
  word_ok (Bare s).
Proof. intros -> Hall Hc. split; [exact Hall|]. eauto. Qed.

Section Dispatch.
Context {S : Type}.
Implicit Types (c : cli S) (h : handler S).

(** [exec] on a line of words whose first word names a known command:
    the callbacks get the other words as arguments. *)
Lemma exec_words c name ws h st :
  word_ok (Bare name) -> Forall word_ok ws ->
  commands c !! name = Some h ->
  let p := Parsed name (concat (map argument ws)) [] in
  exec c (line (Bare name :: ws)) st
  = if negb (validate h p st) then
      (Reply (Some (VStr ("command is not valid"
                           ++ String Aol.newline
                                ("try: 'help " ++ name ++ "'"
                                 ++ String Aol.newline EmptyString))))
             (Some VNil) (Some (VNum 4)) (Some VNil), st)
    else
      match exec_callback h p st with
      | (Returned (Some response), st) =>
          (Reply (response !! 0%nat) (response !! 1%nat)
                 (response !! 2%nat) (response !! 3%nat), st)
      | (Returned None, st) =>
          (Reply (Some (VStr EmptyString)) (Some VNil) (Some (VNum 0))
                 (Some VNil), st)
      | (Threw, st) => (Failed, st)
      | (Unmodelled, st) => (Outside, st)
      end.
Proof.
  intros Hname Hws Hh p. unfold exec.
  rewrite (parseCommand_words (Bare name) ws)
    by (apply Forall_cons; auto).
  simpl render. simpl command. fold p.
  destruct Hname as (_ & c0 & r0 & -> & _). simpl Str.is_empty. cbv iota.
  rewrite Hh. reflexivity.
Qed.

Lemma exec_unknown c name ws st :
  word_ok (Bare name) -> Forall word_ok ws ->
  commands c !! name = None -> name <> "__proto__" ->
  exec c (line (Bare name :: ws)) st = (not_found, st).
Proof.
  intros Hname Hws Hh Hproto. unfold exec.
  rewrite (parseCommand_words (Bare name) ws)
    by (apply Forall_cons; auto).
  simpl render. simpl command.
  destruct Hname as (_ & c0 & r0 & -> & _). simpl Str.is_empty. cbv iota.
  rewrite Hh. apply String.eqb_neq in Hproto. rewrite Hproto. reflexivity.
Qed.

End Dispatch.

Section WithCodec.

Variable sha256 : string -> string.
Variable encoded_length : Values.value -> Z.

#[local] Abbreviation get_exec := (Commands.get_exec sha256).
#[local] Abbreviation set_exec := (Commands.set_exec sha256 encoded_length).
#[local] Abbreviation delete_exec := (Commands.delete_exec sha256).
#[local] Abbreviation init := (Commands.init sha256 encoded_length).

(** [get(key, UNDEF)] and [get(key, def)] read the same binding. *)
Lemma get_undef_get k def st :
  Core.get sha256 k def st
  = (default def (fst (get_undef sha256 k st)), snd (get_undef sha256 k st)).
Proof.
  unfold Core.get, get_undef.
  destruct (Core.sha256_cached sha256 k true st) as [h st1].
  destruct (lookupValue h st1); reflexivity.
Qed.

Lemma get_undef_after_set k v st :
  let k' := Sanitize.sanitizeKey k false in
  Str.is_empty k' = false ->
  let st1 := snd (Core.set sha256 encoded_length k v st) in
  get_undef sha256 k' st1 = (if truthy v then Some v else None, st1).
Proof.
  intros k' Hk st1.
  destruct (CoreFacts.set_state sha256 encoded_length k v st Hk)
    as (Hc & Hv & _).
  fold k' st1 in Hc, Hv. unfold get_undef.
  rewrite (CoreFacts.sha256_cached_hit sha256 _ _ _ Hc).
  unfold lookupValue. rewrite Hv. reflexivity.
Qed.

(** The callbacks on the arguments of the simplest lines. *)
Lemma set_exec_pair name k v st :
  set_exec (Parsed name [k; v] []) st
  = let r := Core.set sha256 encoded_length k (VStr v) st in
    (Returned
       (Some [VStr (if (fst r =? 1)%Z then "1 entry updated"
                    else if (fst r =? 2)%Z then "1 entry inserted"
                    else EmptyString);
              VNum (if (fst r =? 1)%Z || (fst r =? 2)%Z then 1 else 0);
              VNum 0]),
     snd r).
Proof.
  unfold Commands.set_exec, has_option. cbn [args options pairs foldl Obj.has].
  unfold setItem. cbn [store fst snd updates news].
  destruct (Core.set sha256 encoded_length k (VStr v) st) as [code st1].
  cbn [fst snd].
  destruct (code =? 1)%Z; [reflexivity|].
  destruct (code =? 2)%Z; reflexivity.
Qed.

Lemma get_exec_one name k st :
  get_exec (Parsed name [k] []) st
  = match get_undef sha256 (Sanitize.sanitizeKey k false) st with
    | (None, st) =>
        (Returned (Some [VStr "key doesn't exist"; VNil; VNum 6]), st)
    | (Some v, st) =>
        (Returned (Some [VStr EmptyString; v; VNum 0; VBool true]), st)
    end.
Proof. reflexivity. Qed.

Lemma delete_exec_one name a st :
  delete_exec (Parsed name [a] []) st
  = let r := Core.remove sha256 a st in
    (Returned (Some [VStr (if fst r then "1 item deleted"
                           else "Deletion failed");
                     VBool (fst r);
                     VNum (if fst r then 0 else 5)]), snd r).
Proof.
  unfold Commands.delete_exec. cbn [args].
  destruct (Core.remove sha256 a st) as [success st1]. reflexivity.
Qed.

(** Registering a name that is neither known nor an alias. *)
Lemma register_new name (d : data core) (c : cli core) :
  aliases c !! name = None -> commands c !! name = None ->
  exists h,
    register name d c = Cli (<[name := h]> (commands c)) (aliases c)
    /\ (forall v e, data_validate d = Some v -> data_exec d = Some e ->
          h = Handler v e).
Proof.
  intros Ha Hc. unfold register, getOriginalCommand. rewrite Ha, Hc. simpl.
  eexists. split; [reflexivity|]. intros v e -> ->. reflexivity.
Qed.

(** The registry [init()] leaves when none of its names was known. *)
Lemma init_commands (c : cli core) :
  (forall name, name ∈ ["get"; "set"; "delete"; "sanitize"; "remove"] ->
     commands c !! name = None /\ aliases c !! name = None) ->
  commands (init c) !! "get" = Some (Handler some_args get_exec)
  /\ commands (init c) !! "set" = Some (Handler some_args set_exec)
  /\ commands (init c) !! "delete" = Some (Handler some_args delete_exec)
  /\ commands (init c) !! "sanitize" = Some (Handler two_args sanitize_exec)
  /\ commands (init c) !! "remove" = None
  /\ getOriginalCommand (init c) "remove" = "delete".
Proof.
  intros H.
  assert (Hin : forall name,
            In name ["get"; "set"; "delete"; "sanitize"; "remove"] ->
            commands c !! name = None /\ aliases c !! name = None)
    by (intros name Hn; apply H, list_elem_of_In, Hn).
  destruct (Hin "get") as [G1 G2]; [simpl; tauto|].
  destruct (Hin "set") as [S1 S2]; [simpl; tauto|].
  destruct (Hin "delete") as [D1 D2]; [simpl; tauto|].
  destruct (Hin "sanitize") as [A1 A2]; [simpl; tauto|].
  destruct (Hin "remove") as [R1 R2]; [simpl; tauto|].
  unfold Commands.init.
  destruct (register_new "get" (Data (Some some_args) (Some get_exec)) c G2 G1)
    as (hg & -> & Hg).
  rewrite (Hg _ _ eq_refl eq_refl).
  set (c1 := Cli _ (aliases c)).
  destruct (register_new "set" (Data (Some some_args) (Some set_exec)) c1)
    as (hs & -> & Hs);
    [exact S2 | simpl; rewrite lookup_insert_ne by discriminate; exact S1 |].
  rewrite (Hs _ _ eq_refl eq_refl).
  set (c2 := Cli _ (aliases c1)).
  destruct (register_new "delete" (Data (Some some_args) (Some delete_exec)) c2)
    as (hd & -> & Hd);
    [exact D2 | simpl; rewrite !lookup_insert_ne by discriminate; exact D1 |].
  rewrite (Hd _ _ eq_refl eq_refl).
  set (c3 := Cli _ (aliases c2)).
  destruct (register_new "sanitize"
              (Data (Some two_args) (Some sanitize_exec))
              (alias "remove" "delete" c3))
    as (ha & -> & Hsan);
    [simpl; rewrite lookup_insert_ne by discriminate; exact A2
    |simpl; rewrite !lookup_insert_ne by discriminate; exact A1 |].
  rewrite (Hsan _ _ eq_refl eq_refl). simpl.
  split; [rewrite !lookup_insert_ne by discriminate; apply lookup_insert_eq|].
  split; [rewrite !lookup_insert_ne by discriminate; apply lookup_insert_eq|].
  split; [rewrite !lookup_insert_ne by discriminate; apply lookup_insert_eq|].
  split; [apply lookup_insert_eq|].
  split; [rewrite !lookup_insert_ne by discriminate; exact R1|].
  unfold getOriginalCommand. simpl. rewrite lookup_insert_eq. reflexivity.
Qed.

End WithCodec.

(** X22.  What [exec] dispatches on.  Aliases play no part in it: a
    registry answers every line the same with and without an alias.
    Registering a name that is known (and no alias) changes nothing,
    the first registration stays.  After [init()] on a registry that
    knew none of its names, [get], [set], [delete] and [sanitize] are
    dispatched to their callbacks, while [remove], which [init()] makes
    an alias of [delete], is answered with "Command not found" (status
    3) whatever words follow it, and the state is left alone. *)
Theorem aliases_do_not_dispatch :
  forall (sha256 : string -> string) (encoded_length : Values.value -> Z)
         (c : cli core),
    (forall name, name ∈ ["get"; "set"; "delete"; "sanitize"; "remove"] ->
       commands c !! name = None /\ aliases c !! name = None) ->
    (forall a t input st, exec (alias a t c) input st = exec c input st)
    /\ (forall name d h,
          aliases c !! name = None -> commands c !! name = Some h ->
          register name d c = c)
    /\ commands (Commands.init sha256 encoded_length c) !! "get"
       = Some (Handler some_args (Commands.get_exec sha256))
    /\ commands (Commands.init sha256 encoded_length c) !! "set"
       = Some (Handler some_args (Commands.set_exec sha256 encoded_length))
    /\ commands (Commands.init sha256 encoded_length c) !! "delete"
       = Some (Handler some_args (Commands.delete_exec sha256))
    /\ commands (Commands.init sha256 encoded_length c) !! "sanitize"
       = Some (Handler two_args sanitize_exec)
    /\ getOriginalCommand (Commands.init sha256 encoded_length c) "remove"
       = "delete"
    /\ forall ws st,
         Forall word_ok ws ->
         exec (Commands.init sha256 encoded_length c)
              (line (Bare "remove" :: ws)) st
         = (not_found, st).
Proof.
  intros sha256 encoded_length c Hc.
  destruct (init_commands sha256 encoded_length c Hc)
    as (Hg & Hs & Hd & Ha & Hr & Ho).
  split; [reflexivity|]. split.
  { intros name d h Hn Hh. unfold register, getOriginalCommand.
    rewrite Hn, Hh. simpl. rewrite insert_id by exact Hh.
    destruct c. reflexivity. }
  repeat (split; [assumption|]).
  intros ws st Hws. apply exec_unknown; [|exact Hws|exact Hr|discriminate].
  split; [reflexivity|]. eexists _, _. split; reflexivity.
Qed.

Lemma aliases_do_not_dispatch_witness :
  let sha256 := fun k : string => k in
  let encoded_length := fun _ : Values.value => 1 in
  let c0 : cli core := Cli ∅ ∅ in
  let c := Commands.init sha256 encoded_length c0 in
  fst (exec c "delete k"
         (snd (exec c "set k v" (fresh 1 false None))))
  = Reply (Some (VStr "1 item deleted")) (Some (VBool true)) (Some (VNum 0))
          None
  /\ (forall a t input st, exec (alias a t c0) input st = exec c0 input st)
  /\ (forall name d h,
        aliases c0 !! name = None -> commands c0 !! name = Some h ->
        register name d c0 = c0)
  /\ commands c !! "get" = Some (Handler some_args (Commands.get_exec sha256))
  /\ commands c !! "set"
     = Some (Handler some_args (Commands.set_exec sha256 encoded_length))
  /\ commands c !! "delete"
     = Some (Handler some_args (Commands.delete_exec sha256))
  /\ commands c !! "sanitize" = Some (Handler two_args sanitize_exec)
  /\ getOriginalCommand c "remove" = "delete"
  /\ forall ws st,
       Forall word_ok ws ->
       exec c (line (Bare "remove" :: ws)) st = (not_found, st).
Proof.
  intros sha256 encoded_length c0 c. split; [vm_compute; reflexivity|].
  apply (aliases_do_not_dispatch sha256 encoded_length c0).
  intros name _. split; apply lookup_empty.
Defined.

(** X23.  A [set] line followed by a [get] line.  With the callbacks of
    [init()] registered under [set] and [get], a store whose key table
    has its own prototype, and words [k] and [v] (bare or quoted) of
    which the key has a sanitized form that is not empty and is no name
    that objects inherit: the line [set k v] answers "1 entry updated" when the
    sanitized key is live and "1 entry inserted" when it is not, with
    value 1 and status 0; and the line [get k] then answers the text
    [v], as a string, with status 0. *)
Theorem shell_set_then_get :
  forall (sha256 : string -> string) (encoded_length : Values.value -> Z)
         (c : cli core) (wk wv : word) (k v : string) (st : core),
    commands c !! "set"
    = Some (Handler some_args (Commands.set_exec sha256 encoded_length)) ->
    commands c !! "get"
    = Some (Handler some_args (Commands.get_exec sha256)) ->
    word_ok wk -> word_ok wv -> argument wk = [k] -> argument wv = [v] ->
    Str.is_empty (Sanitize.sanitizeKey k false) = false ->
    Plain.inherited (Sanitize.sanitizeKey k false) = false ->
    Plain.unspoiled st ->
    let r1 := exec c (line [Bare "set"; wk; wv]) st in
    let r2 := exec c (line [Bare "get"; wk]) (snd r1) in
    fst r1
    = Reply (Some (VStr (if exist (Sanitize.sanitizeKey k false) st
                         then "1 entry updated" else "1 entry inserted")))
            (Some (VNum 1)) (Some (VNum 0)) None
    /\ snd r1 = snd (Core.set sha256 encoded_length k (VStr v) st)
    /\ fst r2
       = Reply (Some (VStr EmptyString)) (Some (VStr v)) (Some (VNum 0))
               (Some (VBool true)).
Proof.
  intros sha256 encoded_length c wk wv k v st Hset Hget Hwk Hwv Hk Hv Hne
         _ _ r1 r2.
  assert (Hcmd : forall name,
            name = "set" \/ name = "get" -> word_ok (Bare name)).
  { intros name [->| ->]; (split; [reflexivity|]);
      eexists _, _; split; reflexivity. }
  assert (E1 : r1 = (Reply (Some (VStr (if exist (Sanitize.sanitizeKey k false) st
                                         then "1 entry updated"
                                         else "1 entry inserted")))
                            (Some (VNum 1)) (Some (VNum 0)) None,
                     snd (Core.set sha256 encoded_length k (VStr v) st))).
  { subst r1. rewrite (exec_words c "set" [wk; wv] _ st (Hcmd _ (or_introl eq_refl))
                         ltac:(repeat constructor; assumption) Hset).
    simpl map. simpl concat. rewrite Hk, Hv. simpl app.
    cbn [validate exec_callback]. rewrite set_exec_pair.
    change (some_args (Parsed "set" [k; v] []) st) with true.
    cbn [negb]. cbv iota zeta.
    pose proof (StoreFacts.set_code sha256 encoded_length k (VStr v) st) as Hcode.
    cbv zeta in Hcode. rewrite Hne in Hcode. rewrite Hcode.
    destruct (exist (Sanitize.sanitizeKey k false) st); reflexivity. }
  split; [rewrite E1; reflexivity|]. split; [rewrite E1; reflexivity|].
  subst r2. rewrite E1. simpl snd.
  rewrite (exec_words c "get" [wk] _ _ (Hcmd _ (or_intror eq_refl))
             ltac:(repeat constructor; assumption) Hget).
  simpl map. simpl concat. rewrite Hk. simpl app.
  cbn [validate exec_callback]. rewrite get_exec_one.
  change (some_args (Parsed "get" [k] []) ?s) with true.
  cbn [negb]. cbv iota.
  rewrite (get_undef_after_set sha256 encoded_length k (VStr v) st Hne).
  unfold truthy. rewrite (argument_nonempty wv v Hwv Hv). reflexivity.
Qed.

Lemma shell_set_then_get_witness :
  let sha256 := fun k : string => k in
  let encoded_length := fun _ : Values.value => 1 in
  let c := Commands.init sha256 encoded_length (Cli ∅ ∅) in
  let st := fresh 2 false None in
  let r1 := exec c (line [Bare "set"; InQuotes Json.dquote "my key";
                          Bare "1"]) st in
  let r2 := exec c (line [Bare "get"; InQuotes Json.dquote "my key"])
                 (snd r1) in
  fst r1
  = Reply (Some (VStr (if exist (Sanitize.sanitizeKey "my key" false) st
                       then "1 entry updated" else "1 entry inserted")))
          (Some (VNum 1)) (Some (VNum 0)) None
  /\ snd r1 = snd (Core.set sha256 encoded_length "my key" (VStr "1") st)
  /\ fst r2
     = Reply (Some (VStr EmptyString)) (Some (VStr "1")) (Some (VNum 0))
             (Some (VBool true)).
Proof.
  intros sha256 encoded_length c st.
  assert (Hc : forall name : string,
            name ∈ ["get"; "set"; "delete"; "sanitize"; "remove"] ->
            commands (Cli (S := core) ∅ ∅) !! name = None
            /\ aliases (Cli (S := core) ∅ ∅) !! name = None)
    by (intros name _; split; apply lookup_empty).
  apply (shell_set_then_get sha256 encoded_length c
           (InQuotes Json.dquote "my key") (Bare "1") "my key" "1" st).
  - apply (init_commands sha256 encoded_length _ Hc).
  - apply (init_commands sha256 encoded_length _ Hc).
  - split; [left|]; reflexivity.
  - split; [reflexivity|]. eexists _, _. split; reflexivity.
  - reflexivity.
  - reflexivity.
  - reflexivity.
  - reflexivity.
  - reflexivity.
Defined.

(** X24.  [delete] takes its argument as it is, without sanitizing it.
    In a state reached from a fresh store by calls on keys that no
    object inherits, the line [delete k] for a live key [k] that no
    object inherits answers "1 item deleted" with status 0, and the key is
    gone; for a word that holds a character [set] would have replaced
    or dropped (a space, a dot) it answers "Deletion failed" with
    status 5 and leaves the store alone, also when the entry that
    [set] filed for that word is live and [get] finds it. *)
Theorem shell_delete_takes_the_key_as_given :
  forall (sha256 : string -> string) (encoded_length : Values.value -> Z)
         (c : cli core) (w : word) (a : string)
         (calls : list StoreFacts.call) (n : Z) (monitor : bool)
         (cap : option Z),
    (forall x y, sha256 x = sha256 y -> x = y) ->
    (forall v, 0 <= encoded_length v) ->
    commands c !! "delete"
    = Some (Handler some_args (Commands.delete_exec sha256)) ->
    word_ok w -> argument w = [a] ->
    forallb StoreFacts.ordinary calls = true ->
    let st := StoreFacts.run sha256 encoded_length calls
                             (fresh n monitor cap) in
    let r := exec c (line [Bare "delete"; w]) st in
    (Plain.inherited a = false ->
     exist a st = true ->
     fst r = Reply (Some (VStr "1 item deleted")) (Some (VBool true))
                   (Some (VNum 0)) None
     /\ exist a (snd r) = false)
    /\ (Str.all is_key_char a = false ->
        fst r = Reply (Some (VStr "Deletion failed")) (Some (VBool false))
                      (Some (VNum 5)) None
        /\ snd r = st).
Proof.
  intros sha256 encoded_length c w a calls n monitor cap Hinj Hlen Hdel Hw Ha
         _ st r.
  assert (Hname : word_ok (Bare "delete")).
  { split; [reflexivity|]. eexists _, _. split; reflexivity. }
  assert (E : r = (let '(success, st') := Core.remove sha256 a st in
                   (Reply (Some (VStr (if success then "1 item deleted"
                                       else "Deletion failed")))
                          (Some (VBool success))
                          (Some (VNum (if success then 0 else 5))) None,
                    st'))).
  { subst r. rewrite (exec_words c "delete" [w] _ st Hname
                        ltac:(repeat constructor; assumption) Hdel).
    simpl map. simpl concat. rewrite Ha. simpl app.
    cbn [validate exec_callback]. rewrite delete_exec_one.
    change (some_args (Parsed "delete" [a] []) st) with true.
    cbn [negb]. cbv iota zeta.
    destruct (Core.remove sha256 a st) as [success st']. reflexivity. }
  split.
  - intros _ Hex. rewrite E.
    pose proof (CoreFacts.exist_after_remove sha256 a st Hex) as Hgone.
    destruct (CoreFacts.remove_live sha256 a st Hex) as (e & _ & Hr & _).
    destruct (Core.remove sha256 a st) as [success st']. simpl in Hr, Hgone.
    subst success. split; [reflexivity | exact Hgone].
  - intros Hbad. rewrite E.
    assert (Hex : exist a st = false).
    { destruct (exist a st) eqn:Hex; [|reflexivity].
      assert (Hwf : StoreFacts.well_formed sha256 st).
      { apply StoreFacts.well_formed_run;
          [exact Hinj | exact Hlen | apply StoreFacts.well_formed_fresh]. }
      destruct (CoreFacts.exist_entry _ _ Hex) as (e & He & _).
      destruct Hwf as (_ & _ & Hkeys & _).
      destruct (Hkeys _ _ He) as ((_ & _ & _ & _ & _ & _ & _ & Hall) & _).
      congruence. }
    rewrite (CoreFacts.remove_absent sha256 a st Hex). split; reflexivity.
Qed.

Lemma shell_delete_takes_the_key_as_given_witness :
  let sha256 := fun k : string => k in
  let encoded_length := fun _ : Values.value => 1 in
  let c := Commands.init sha256 encoded_length (Cli ∅ ∅) in
  let st := StoreFacts.run sha256 encoded_length
              [StoreFacts.CSet "my key" (VStr "v")] (fresh 2 false None) in
  let r := exec c (line [Bare "delete"; InQuotes Json.dquote "my key"]) st in
  fst (exec c (line [Bare "get"; InQuotes Json.dquote "my key"]) st)
  = Reply (Some (VStr EmptyString)) (Some (VStr "v")) (Some (VNum 0))
          (Some (VBool true))
  /\ forallb StoreFacts.ordinary [StoreFacts.CSet "my key" (VStr "v")] = true
  /\ (Plain.inherited "my key" = false ->
      exist "my key" st = true ->
      fst r = Reply (Some (VStr "1 item deleted")) (Some (VBool true))
                    (Some (VNum 0)) None
      /\ exist "my key" (snd r) = false)
  /\ (Str.all is_key_char "my key" = false ->
      fst r = Reply (Some (VStr "Deletion failed")) (Some (VBool false))
                    (Some (VNum 5)) None
      /\ snd r = st).
Proof.
  intros sha256 encoded_length c st r.
  split; [vm_compute; reflexivity|]. split; [reflexivity|].
  apply (shell_delete_takes_the_key_as_given sha256 encoded_length c
           (InQuotes Json.dquote "my key") "my key"
           [StoreFacts.CSet "my key" (VStr "v")] 2 false None).
  - intros x y H. exact H.
  - intros v. unfold encoded_length. lia.
  - apply (init_commands sha256 encoded_length (Cli ∅ ∅)).
    intros name _. split; apply lookup_empty.
  - split; [left|]; reflexivity.
  - reflexivity.
  - reflexivity.
Defined.

End CommandsFacts.

(** ** Keys that sanitizing leaves alone *)

Module KeyFacts.
Import Chars Sanitize.

Lemma length_filter p s : (String.length (Str.filter p s) <= String.length s)%nat.
Proof.
  induction s as [|c r IH]; simpl; [lia|]. destruct (p c); simpl; lia.
Qed.

Lemma length_map f s : String.length (Str.map f s) = String.length s.
Proof. induction s as [|c r IH]; simpl; [|rewrite IH]; reflexivity. Qed.

Lemma length_drop_while p s :
  (String.length (Str.drop_while p s) <= String.length s)%nat.
Proof.
  induction s as [|c r IH]; simpl; [lia|]. destruct (p c); simpl; lia.
Qed.

Lemma length_drop_while_end p s :
  (String.length (Str.drop_while_end p s) <= String.length s)%nat.
Proof.
  induction s as [|c r IH]; simpl; [lia|].
  destruct (Str.drop_while_end p r); [destruct (p c)|]; simpl in *; lia.
Qed.

(** X25.  The keys [sanitizeKey] leaves alone are the strings of key
    characters: [sanitizeKey(key)] is [key] exactly when every character
    of [key] is a letter, a digit, a hyphen or an underscore.  Without
    trimming, sanitizing works character by character: the result for
    a concatenation is the concatenation of the results.  With or
    without trimming the result is never longer than the key. *)
Theorem sanitizeKey_fixed_points :
  forall key : string,
    (sanitizeKey key false = key <-> Str.all is_key_char key = true)
    /\ (forall a b,
          key = a ++ b ->
          sanitizeKey key false = sanitizeKey a false ++ sanitizeKey b false)
    /\ (forall trim,
          (String.length (sanitizeKey key trim) <= String.length key)%nat).
Proof.
  intros key. split; [split|split].
  - intros E. rewrite <- E. apply SanitizeFacts.sanitizeKey_key_chars.
  - apply DurabilityFacts.sanitizeKey_fixed.
  - intros a b ->. unfold sanitizeKey, replace_spaces, strip_illegal.
    rewrite SanitizeFacts.map_append, SanitizeFacts.filter_append.
    reflexivity.
  - intros trim.
    assert (H : (String.length (strip_illegal (replace_spaces key))
                 <= String.length key)%nat).
    { unfold strip_illegal, replace_spaces.
      etransitivity; [apply length_filter|]. rewrite length_map. lia. }
    unfold sanitizeKey. destruct trim; [|exact H].
    unfold trim_underscores.
    etransitivity; [apply length_drop_while_end|].
    etransitivity; [apply length_drop_while|]. exact H.
Qed.

End KeyFacts.

(** ** Login attempts, failed and successful *)

Module LoginFacts.
Import Cli.

(** Login attempts of one client: the clock and the outcome of each. *)
Definition logins (c : cli) (remoteAddress : option string) (token : string)
           (log : list (Z * bool)) : cli :=
  foldl (fun c a => login_attempt c (fst a) remoteAddress (snd a) token)
        c log.

Definition failures (log : list (Z * bool)) : Z :=
  Z.of_nat (List.length (List.filter (fun a => negb (snd a)) log)).

(** The counter of a subject; a subject without an entry has none. *)
Definition attempts_of (c : cli) (s : string) : Z :=
  default 0 (attempts <$> lockdown c !! s).

(** Whom a failure is counted against. *)
Definition subject_of (c : cli) (remoteAddress : option string)
           (token : string) : option string :=
  if (lockdown_mode c =? "ip")%string then remoteAddress else Some token.

Lemma login_attempt_configs c t ip ok token :
  let c' := login_attempt c t ip ok token in
  lockdown_mode c' = lockdown_mode c
  /\ cooldown c' = cooldown c
  /\ max_login_attempt c' = max_login_attempt c.
Proof.
  unfold login_attempt.
  destruct (max_login_attempt c >? 0)%Z; [|auto].
  destruct ok; simpl; [auto|].
  destruct (if (lockdown_mode c =? "ip")%string then ip else Some token);
    simpl; auto.
Qed.

Lemma login_attempt_counts c t ip ok token s :
  (0 < max_login_attempt c)%Z ->
  subject_of c ip token = Some s ->
  let c' := login_attempt c t ip ok token in
  attempts_of c' s = (attempts_of c s + if ok then 0 else 1)%Z
  /\ (forall other, other <> s -> lockdown c' !! other = lockdown c !! other)
  /\ (ok = false ->
      time <$> lockdown c' !! s = Some (now false t + cooldown c * 1000)%Z).
Proof.
  intros Hmax Hs c'. subst c'. unfold login_attempt, subject_of in *.
  destruct (max_login_attempt c >? 0)%Z eqn:E;
    [|rewrite Z.gtb_ltb in E; apply Z.ltb_ge in E; lia].
  destruct ok; simpl negb; cbv iota.
  - split; [lia|]. split; [reflexivity|discriminate].
  - rewrite Hs. unfold attempts_of. simpl.
    rewrite lookup_insert_eq. simpl. split; [reflexivity|].
    split; [|reflexivity].
    intros other Hne. apply lookup_insert_ne. congruence.
Qed.

Lemma logins_configs c ip token log :
  let c' := logins c ip token log in
  lockdown_mode c' = lockdown_mode c
  /\ cooldown c' = cooldown c
  /\ max_login_attempt c' = max_login_attempt c.
Proof.
  revert c. induction log as [|a r IH]; intros c; [simpl; auto|].
  simpl. destruct (IH (login_attempt c (fst a) ip (snd a) token))
    as (H1 & H2 & H3).
  destruct (login_attempt_configs c (fst a) ip (snd a) token)
    as (G1 & G2 & G3).
  simpl in *. repeat split; congruence.
Qed.

(** X26.  Failed logins add up, and a successful login takes nothing
    back.  With a positive [max_login_attempt], after any sequence of
    attempts of one client the counter of its subject (the address in
    [ip] mode, the token otherwise), when it is not [__proto__], is what
    it was plus the number of failures, wherever the successes stand,
    and no other subject's entry has changed.  With [max_login_attempt] at most 0 the table is
    never written.  When the mode is neither [ip] nor [token] nobody is
    locked down, whatever was counted. *)
Theorem failures_add_up :
  forall (c : cli) (remoteAddress : option string) (token : string)
         (log : list (Z * bool)),
    let c' := logins c remoteAddress token log in
    ((0 < max_login_attempt c)%Z ->
     forall s, subject_of c remoteAddress token = Some s ->
       s <> "__proto__" ->
       attempts_of c' s = (attempts_of c s + failures log)%Z
       /\ forall other, other <> s ->
            lockdown c' !! other = lockdown c !! other)
    /\ ((max_login_attempt c <= 0)%Z -> c' = c)
    /\ (lockdown_mode c <> "ip" -> lockdown_mode c <> "token" ->
        forall date_now subject, lockedDown c' date_now subject = false).
Proof.
  intros c remoteAddress token log. revert c.
  induction log as [|a r IH]; intros c c'; subst c'.
  - simpl. split; [|split].
    + intros _ s _ _. unfold failures. simpl. split; [lia|reflexivity].
    + reflexivity.
    + intros H1 H2 date_now subject. unfold lockedDown.
      apply String.eqb_neq in H1, H2. rewrite H1, H2.
      destruct (max_login_attempt c <=? 0)%Z; reflexivity.
  - simpl logins.
    change (logins c remoteAddress token (a :: r))
      with (logins (login_attempt c (fst a) remoteAddress (snd a) token)
                   remoteAddress token r).
    set (c1 := login_attempt c (fst a) remoteAddress (snd a) token).
    destruct (login_attempt_configs c (fst a) remoteAddress (snd a) token)
      as (Hm & _ & Hx). fold c1 in Hm, Hx.
    destruct (IH c1) as (IH1 & IH2 & IH3).
    split; [|split].
    + intros Hmax s Hs Hplain.
      destruct (login_attempt_counts c (fst a) remoteAddress (snd a) token s
                  Hmax Hs) as (Hcount & Hother & _).
      fold c1 in Hcount, Hother.
      destruct (IH1 ltac:(lia) s) as (Hn & Ho).
      { unfold subject_of in *. rewrite Hm. exact Hs. }
      { exact Hplain. }
      split.
      * rewrite Hn, Hcount. unfold failures. simpl.
        destruct (snd a); simpl; lia.
      * intros other Hne. rewrite (Ho other Hne). apply Hother, Hne.
    + intros Hmax.
      assert (E : c1 = c).
      { unfold c1, login_attempt.
        destruct (max_login_attempt c >? 0)%Z eqn:E; [|reflexivity].
        apply Z.gtb_lt in E. lia. }
      rewrite E. apply (IH c). exact Hmax.
    + intros H1 H2. apply IH3; congruence.
Qed.

End LoginFacts.

(** ** The headers of the shard files *)

Module FilesFacts.
Import Chars Startup Files.

Lemma be_length size n : length (be size n) = size.
Proof.
  revert n. induction size as [|k IH]; intros n; simpl; [reflexivity|].
  rewrite length_app, IH. simpl. lia.
Qed.

Lemma unbe_snoc l b : unbe (l ++ [b]) = (unbe l * 256 + b)%N.
Proof. unfold unbe. rewrite foldl_app. reflexivity. Qed.

Lemma unbe_be size n : (n < 256 ^ N.of_nat size)%N -> unbe (be size n) = n.
Proof.
  revert n. induction size as [|k IH]; intros n Hn.
  - simpl in *. change (unbe []) with 0%N. lia.
  - simpl be. rewrite unbe_snoc, IH.
    + pose proof (N.div_mod n 256). lia.
    + apply N.Div0.div_lt_upper_bound.
      rewrite Nat2N.inj_succ, N.pow_succ_r' in Hn. exact Hn.
Qed.

(** The bytes of a string, character by character. *)
Fixpoint utf8 (s : string) : list N :=
  match s with
  | EmptyString => []
  | String c r => utf8_char c ++ utf8 r
  end.

Lemma utf8_char_length c :
  (1 <= length (utf8_char c) <= 2)%nat.
Proof. unfold utf8_char. destruct (_ <? _)%N; simpl; lia. Qed.

Lemma utf8_fit_length room s : (length (utf8_fit room s) <= room)%nat.
Proof.
  revert room. induction s as [|c r IH]; intros room; simpl; [lia|].
  destruct (length (utf8_char c) <=? room)%nat eqn:E; simpl; [|lia].
  apply Nat.leb_le in E. rewrite length_app.
  specialize (IH (room - length (utf8_char c))%nat). lia.
Qed.

Lemma utf8_fit_enough room s :
  (2 * String.length s <= room)%nat -> utf8_fit room s = utf8 s.
Proof.
  revert room. induction s as [|c r IH]; intros room H; simpl; [reflexivity|].
  pose proof (utf8_char_length c) as Hc. simpl in H.
  destruct (length (utf8_char c) <=? room)%nat eqn:E.
  - rewrite IH; [reflexivity|lia].
  - apply Nat.leb_gt in E. lia.
Qed.

Lemma utf8_length s : (length (utf8 s) <= 2 * String.length s)%nat.
Proof.
  induction s as [|c r IH]; simpl; [lia|].
  pose proof (utf8_char_length c). rewrite length_app. lia.
Qed.

Lemma N_of_ascii_inj c c' : N_of_ascii c = N_of_ascii c' -> c = c'.
Proof.
  intros H. rewrite <- (ascii_N_embedding c), <- (ascii_N_embedding c'), H.
  reflexivity.
Qed.

(** Two strings of one length whose bytes agree up to zeros at the end
    are equal. *)
Lemma utf8_padded_inj s s' n n' :
  String.length s = String.length s' ->
  (utf8 s ++ replicate n 0%N = utf8 s' ++ replicate n' 0%N)%list -> s = s'.
Proof.
  revert s'. induction s as [|c r IH]; intros [|c' r'] Hl H;
    try discriminate; [reflexivity|].
  simpl in Hl, H. rewrite <- !app_assoc in H.
  assert (Hc : c = c' /\ (utf8 r ++ replicate n 0%N
                          = utf8 r' ++ replicate n' 0%N)%list).
  { unfold utf8_char in H.
    pose proof (N.div_mod (N_of_ascii c) 64) as D.
    pose proof (N.div_mod (N_of_ascii c') 64) as D'.
    pose proof (N.mod_lt (N_of_ascii c) 64) as M.
    pose proof (N.mod_lt (N_of_ascii c') 64) as M'.
    destruct (N_of_ascii c <? 128)%N eqn:E;
      destruct (N_of_ascii c' <? 128)%N eqn:E'; simpl in H.
    - injection H as H1 H2.
      split; [apply N_of_ascii_inj; exact H1|exact H2].
    - injection H as H1 _. apply N.ltb_lt in E. lia.
    - injection H as H1 _. apply N.ltb_lt in E'. lia.
    - injection H as H1 H2 H3.
      split; [apply N_of_ascii_inj; lia|exact H3]. }
  destruct Hc as [-> Hr]. f_equal. apply (IH r'); [lia|exact Hr].
Qed.

Section Header.

Variable meid_version : Z.
Variable signature : string.

Let version : N := Z.to_N (Z.max meid_version 1).
Let sig : list N := utf8_fit 254 signature.

Lemma getHeader_Some date_now :
  Z.max meid_version 1 <= 65535 -> 0 <= date_now <= 8640000000000000 ->
  is_Some (getHeader meid_version signature date_now).
Proof.
  intros Hv Hd. unfold getHeader.
  destruct ((65535 <? Z.max meid_version 1)%Z) eqn:E1; [lia|].
  destruct ((date_now <? 0)%Z) eqn:E2; [lia|].
  destruct ((8640000000000000 <? date_now)%Z) eqn:E3; [lia|].
  simpl. eauto.
Qed.

(** The layout of the header: version, signature, zeros up to the data
    chunk, the time, zeros. *)
Lemma header_shape date_now h :
  getHeader meid_version signature date_now = Some h ->
  Z.max meid_version 1 <= 65535 /\ 0 <= date_now <= 8640000000000000
  /\ h = (be 2 version ++ sig
          ++ drop (length sig)
               (replicate 126 0%N ++ be 8 (Z.to_N (date_now / 1000))
                ++ replicate 120 0%N))%list.
Proof.
  unfold getHeader.
  destruct ((65535 <? Z.max meid_version 1)%Z) eqn:E1; [discriminate|].
  destruct ((date_now <? 0)%Z) eqn:E2; [discriminate|].
  destruct ((8640000000000000 <? date_now)%Z) eqn:E3; [discriminate|].
  simpl orb. cbv iota.
  fold version. change (256 - HDR_POS.SIGNATURE)%nat with 254%nat. fold sig.
  pose proof (be_length 8 (Z.to_N (date_now / 1000))) as Ht.
  pose proof (be_length 2 version) as Hv.
  set (t := be 8 (Z.to_N (date_now / 1000))) in *.
  set (v := be 2 version) in *. clearbody t v.
  intros H. split; [lia|]. split; [lia|].
  apply (inj Some). rewrite <- H. clear H.
  destruct v as [|a [|b [|? ?]]]; try discriminate.
  unfold write_at, alloc, HDR_POS.VERSION_CODE, HDR_POS.TIME,
    HDR_POS.SIGNATURE.
  rewrite Ht. cbn [length Nat.add take drop replicate app]. reflexivity.
Qed.

(** The first 128 bytes of a header depend on the version and on the
    signature alone. *)
Lemma header_front date_now h :
  getHeader meid_version signature date_now = Some h ->
  take 128 h
  = (be 2 version ++ take 126 sig
     ++ replicate (126 - length sig) 0%N)%list.
Proof.
  intros H. destruct (header_shape _ _ H) as (_ & _ & ->).
  rewrite take_app_ge by (rewrite be_length; lia).
  rewrite be_length. change (128 - 2)%nat with 126%nat.
  f_equal. rewrite take_app. f_equal.
  destruct (le_lt_dec (length sig) 126) as [Hl|Hl].
  - rewrite drop_app_le by (rewrite length_replicate; exact Hl).
    rewrite drop_replicate.
    apply take_app_length'. rewrite length_replicate. reflexivity.
  - replace (126 - length sig)%nat with 0%nat by lia. reflexivity.
Qed.

Lemma header_length date_now h :
  getHeader meid_version signature date_now = Some h -> length h = 256%nat.
Proof.
  intros H. destruct (header_shape _ _ H) as (_ & _ & ->).
  pose proof (utf8_fit_length 254 signature) as Hs. fold sig in Hs.
  rewrite !length_app, length_drop, !length_app, !length_replicate,
    !be_length.
  lia.
Qed.

(** The version and, when the signature ends before the data chunk, the
    time are read back from their places. *)
Lemma header_version date_now h :
  getHeader meid_version signature date_now = Some h ->
  unbe (sf_capture HDR_POS.VERSION_CODE HDR_SIZE.VERSION_CODE h) = version.
Proof.
  intros H. destruct (header_shape _ _ H) as (Hv & _ & ->).
  unfold sf_capture, HDR_POS.VERSION_CODE, HDR_SIZE.VERSION_CODE.
  rewrite drop_0, take_app_length' by (rewrite be_length; reflexivity).
  apply unbe_be. change (256 ^ N.of_nat 2)%N with 65536%N.
  unfold version. lia.
Qed.

Lemma header_time date_now h :
  (length sig <= 126)%nat ->
  getHeader meid_version signature date_now = Some h ->
  unbe (sf_capture HDR_POS.TIME HDR_SIZE.TIME h)
  = Z.to_N (date_now / 1000).
Proof.
  intros Hl H. destruct (header_shape _ _ H) as (_ & Hd & ->).
  unfold sf_capture, HDR_POS.TIME, HDR_SIZE.TIME.
  rewrite (drop_app_le (replicate 126 0%N) _ (length sig))
    by (rewrite length_replicate; exact Hl).
  rewrite drop_replicate.
  rewrite !app_assoc.
  rewrite <- (app_assoc _ (be 8 _)).
  rewrite drop_app_length'
    by (rewrite !length_app, be_length, length_replicate; lia).
  rewrite take_app_length' by (rewrite be_length; reflexivity).
  apply unbe_be. change (256 ^ N.of_nat 8)%N with 18446744073709551616%N.
  assert (0 <= date_now / 1000 <= 8640000000000000)
    by (split; [apply Z.div_pos; lia
               |apply Z.div_le_upper_bound; lia]).
  lia.
Qed.

End Header.

Lemma matchHeaders_true a b :
  matchHeaders a b = true <-> take 128 a = take 128 b.
Proof. unfold matchHeaders. apply bool_decide_eq_true. Qed.

(** X27: what a header holds and what makes two headers match.  The
    header [getHeader()] builds is 256 bytes long, and with a signature of
    eight characters (what [startSnowflake] accepts) the version
    [max(meid_version, 1)] and the time in seconds are read back from
    their places by [sf_capture] and the big-endian readers.  Two such
    headers match if and only if they were built for the same version and
    the same signature; the times at which they were built play no part. *)
Theorem header_identifies_version_and_signature :
  forall (v v' : Z) (sig sig' : string) (now now' : Z) (h h' : list N),
    String.length sig = 8%nat ->
    String.length sig' = 8%nat ->
    getHeader v sig now = Some h ->
    getHeader v' sig' now' = Some h' ->
    length h = 256%nat
    /\ Z.of_N (unbe (sf_capture HDR_POS.VERSION_CODE HDR_SIZE.VERSION_CODE h))
       = Z.max v 1
    /\ Z.of_N (unbe (sf_capture HDR_POS.TIME HDR_SIZE.TIME h)) = now / 1000
    /\ (matchHeaders h h' = true <-> Z.max v 1 = Z.max v' 1 /\ sig = sig').
Proof.
  intros v v' sig sig' now now' h h' Hs Hs' H H'.
  pose proof (utf8_fit_enough 254 sig ltac:(lia)) as Es.
  pose proof (utf8_fit_enough 254 sig' ltac:(lia)) as Es'.
  pose proof (utf8_length sig) as Ls. pose proof (utf8_length sig') as Ls'.
  destruct (header_shape _ _ _ _ H) as (Hv & Hd & _).
  destruct (header_shape _ _ _ _ H') as (Hv' & Hd' & _).
  split; [exact (header_length _ _ _ _ H)|].
  split; [rewrite (header_version _ _ _ _ H); lia|].
  split.
  { rewrite (header_time _ _ _ _ ltac:(rewrite Es; lia) H).
    rewrite Z2N.id; [reflexivity|apply Z.div_pos; lia]. }
  rewrite matchHeaders_true, (header_front _ _ _ _ H),
    (header_front _ _ _ _ H'), Es, Es'.
  rewrite !take_ge by lia.
  split.
  - intros E. apply app_inj_1 in E as [Ev Er];
      [|rewrite !be_length; reflexivity].
    split.
    + apply (f_equal unbe) in Ev.
      rewrite !unbe_be in Ev
        by (change (256 ^ N.of_nat 2)%N with 65536%N; lia).
      lia.
    + eapply utf8_padded_inj; [|exact Er]. congruence.
  - intros [-> ->]. reflexivity.
Qed.

(** A database of version 3 with the signature SNOWFLAK. *)
Lemma header_identifies_version_and_signature_witness :
  let h := default [] (getHeader 3 "SNOWFLAK" 1700000000123) in
  let h' := default [] (getHeader 3 "SNOWFLAK" 1800000000000) in
  length h = 256%nat
  /\ Z.of_N (unbe (sf_capture HDR_POS.VERSION_CODE HDR_SIZE.VERSION_CODE h))
     = Z.max 3 1
  /\ Z.of_N (unbe (sf_capture HDR_POS.TIME HDR_SIZE.TIME h))
     = 1700000000123 / 1000
  /\ (matchHeaders h h' = true
      <-> Z.max 3 1 = Z.max 3 1 /\ "SNOWFLAK" = "SNOWFLAK").
Proof.
  apply (header_identifies_version_and_signature
           3 3 "SNOWFLAK" "SNOWFLAK" 1700000000123 1800000000000);
    reflexivity.
Defined.

(** ** The generation of the shard files *)

Lemma existsSync_true f (d : directory) :
  existsSync f d = true <-> is_Some (d !! f).
Proof.
  unfold existsSync. destruct (d !! f); split; intros H;
    try reflexivity; try discriminate; eauto.
  destruct H as [? H]. discriminate.
Qed.

Lemma existsSync_false f (d : directory) :
  existsSync f d = false <-> d !! f = None.
Proof.
  unfold existsSync. destruct (d !! f); split; intros H;
    try reflexivity; discriminate.
Qed.

Lemma meid_is_no_key i j : meid_name i <> key_name j.
Proof. unfold meid_name, key_name. discriminate. Qed.

(** [parseInt] finds the index in the names of the shard files. *)
Lemma span_numbered n suffix :
  (forall c, Str.first suffix = Some c -> is_digit c = false) ->
  Dec.span is_digit (Dec.of_N n ++ suffix) = (Dec.of_N n, suffix).
Proof.
  intros H. apply DecFacts.span_append; [apply DecFacts.all_digits_of_N|exact H].
Qed.

Lemma of_N_nonempty n : Str.is_empty (Dec.of_N n) = false.
Proof. destruct (DecFacts.of_N_head n) as (c & r & -> & _). reflexivity. Qed.

Lemma file_index_meid i : file_index (meid_name i) = Some i.
Proof.
  unfold file_index, meid_name.
  change (strip "meid-" ("meid-" ++ Dec.of_N i ++ ".sfd"))
    with (Some (Dec.of_N i ++ ".sfd")).
  cbv iota. rewrite span_numbered by (intros c [= <-]; reflexivity).
  cbn [fst]. rewrite of_N_nonempty. apply DecFacts.to_N_of_N.
Qed.

Lemma file_index_key i : file_index (key_name i) = Some i.
Proof.
  unfold file_index, key_name.
  change (strip "meid-" ("key-" ++ Dec.of_N i ++ ".sfk")) with (@None string).
  change (strip "key-" ("key-" ++ Dec.of_N i ++ ".sfk"))
    with (Some (Dec.of_N i ++ ".sfk")).
  cbv iota. rewrite span_numbered by (intros c [= <-]; reflexivity).
  cbn [fst]. rewrite of_N_nonempty. apply DecFacts.to_N_of_N.
Qed.

Lemma meid_name_inj i j : meid_name i = meid_name j -> i = j.
Proof.
  intros H. apply (f_equal file_index) in H.
  rewrite !file_index_meid in H. congruence.
Qed.

Lemma key_name_inj i j : key_name i = key_name j -> i = j.
Proof.
  intros H. apply (f_equal file_index) in H.
  rewrite !file_index_key in H. congruence.
Qed.

(** The shards [0 .. n-1]. *)
Definition shard_numbers (n : Z) : list N :=
  map N.of_nat (seq 0 (Z.to_nat n)).

Lemma elem_of_shard_numbers n i :
  i ∈ shard_numbers n <-> Z.of_N i < n.
Proof.
  unfold shard_numbers. rewrite list_elem_of_In, in_map_iff. split.
  - intros (k & <- & Hk). apply in_seq in Hk. lia.
  - intros H. exists (N.to_nat i). split; [apply N2Nat.id|].
    apply in_seq. lia.
Qed.

(** [f] is one of the two files of a shard of [l]. *)
Definition shard_file (l : list N) (f : string) : Prop :=
  exists i, i ∈ l /\ (f = meid_name i \/ f = key_name i).

Section Generation.

Variable meid_version : Z.
Variable signature : string.
Variable date_now : Z.
Variable d : directory.

(** The directory [fs] is [d] with files of the shards [done] added, each
    holding [h]. *)
Definition grown (h : list N) (done : list N) (fs : directory) : Prop :=
  (forall f c, d !! f = Some c -> fs !! f = Some c)
  /\ (forall f c, fs !! f = Some c ->
        d !! f = Some c \/ (d !! f = None /\ c = h /\ shard_file done f)).

Lemma grown_absent h done fs f :
  grown h done fs -> fs !! f = None -> d !! f = None.
Proof.
  intros [Hk _] Hf. destruct (d !! f) as [c|] eqn:E; [|reflexivity].
  rewrite (Hk f c E) in Hf. discriminate.
Qed.

Lemma grown_more h done i fs :
  grown h done fs -> grown h (done ++ [i]) fs.
Proof.
  intros [Hk Hn]. split; [exact Hk|].
  intros f c Hf. destruct (Hn f c Hf) as [H|(H1 & H2 & j & Hj & H3)];
    [left; exact H|right].
  split; [exact H1|]. split; [exact H2|].
  exists j. split; [|exact H3]. apply elem_of_app. left. exact Hj.
Qed.

Lemma grown_insert h done fs x :
  grown h done fs -> fs !! x = None -> shard_file done x ->
  grown h done (<[x := h]> fs).
Proof.
  intros G Hx Hs. pose proof (grown_absent _ _ _ _ G Hx) as Hd.
  destruct G as [Hk Hn]. split.
  - intros f c Hf. destruct (decide (f = x)) as [->|Hne]; [congruence|].
    rewrite lookup_insert_ne by congruence. apply Hk. exact Hf.
  - intros f c Hf. destruct (decide (f = x)) as [->|Hne].
    + rewrite lookup_insert_eq in Hf. injection Hf as <-.
      right. auto.
    + rewrite lookup_insert_ne in Hf by congruence. apply Hn. exact Hf.
Qed.

(** What holds of the variables of the first loop behind the shards
    [done]. *)
Definition generated (h : list N) (done : list N) (g : generation) : Prop :=
  grown h done (files g)
  /\ (forall i, i ∈ done ->
        is_Some (files g !! meid_name i) /\ is_Some (files g !! key_name i))
  /\ (header_check g = true -> files g = d /\ header g = None)
  /\ (header_check g = false ->
        header g = Some h /\ exists f, d !! f = None /\ is_Some (files g !! f)).

Lemma generated_start h : generated h [] (Generation [] [] None true d).
Proof.
  split; [|split; [|split]]; simpl.
  - split; [auto|]. intros f c Hf. left. exact Hf.
  - intros i Hi. inversion Hi.
  - auto.
  - discriminate.
Qed.

Lemma generate_present g i :
  is_Some (files g !! meid_name i) -> is_Some (files g !! key_name i) ->
  exists ms ks,
    generate meid_version signature date_now g i
    = Some (Generation ms ks (header g) (header_check g) (files g)).
Proof.
  intros Hm Hk. apply existsSync_true in Hm, Hk.
  unfold generate. rewrite Hm, Hk. simpl. eauto.
Qed.

Lemma generate_missing h g i done :
  getHeader meid_version signature date_now = Some h ->
  generated h done g ->
  (files g !! meid_name i = None \/ files g !! key_name i = None) ->
  exists ms ks,
    generate meid_version signature date_now g i
    = Some (Generation ms ks (Some h) false
              (let fs := files g in
               let fs := if existsSync (meid_name i) (files g) then fs
                         else <[meid_name i := h]> fs in
               if existsSync (key_name i) (files g) then fs
               else <[key_name i := h]> fs)).
Proof.
  intros Hh (_ & _ & Hc & Hf) Hmiss.
  assert (E : negb (existsSync (meid_name i) (files g))
              || negb (existsSync (key_name i) (files g)) = true).
  { destruct Hmiss as [H|H]; apply existsSync_false in H; rewrite H;
      [reflexivity|apply orb_true_r]. }
  unfold generate. rewrite E.
  destruct (header_check g) eqn:Ec.
  - destruct (Hc eq_refl) as [_ ->]. rewrite Hh. simpl. eauto.
  - destruct (Hf eq_refl) as [-> _]. simpl. eauto.
Qed.

Lemma generate_step h g i done :
  getHeader meid_version signature date_now = Some h ->
  generated h done g ->
  exists g',
    generate meid_version signature date_now g i = Some g'
    /\ generated h (done ++ [i]) g'.
Proof.
  intros Hh G.
  assert (Hi : i ∈ (done ++ [i])%list) by (apply elem_of_app; right; constructor).
  assert (Sm : shard_file (done ++ [i]) (meid_name i))
    by (exists i; auto).
  assert (Sk : shard_file (done ++ [i]) (key_name i))
    by (exists i; auto).
  pose proof G as (Gg & Gd & Gc & Gf).
  apply (grown_more _ _ i) in Gg.
  assert (Gd' : forall fs : directory, (forall f, is_Some (files g !! f) -> is_Some (fs !! f)) ->
                is_Some (fs !! meid_name i) -> is_Some (fs !! key_name i) ->
                forall j, j ∈ (done ++ [i])%list ->
                  is_Some (fs !! meid_name j) /\ is_Some (fs !! key_name j)).
  { intros fs Hmono Hm Hk j Hj. apply elem_of_app in Hj as [Hj|Hj].
    - destruct (Gd j Hj). split; apply Hmono; assumption.
    - apply list_elem_of_singleton in Hj. subst j. auto. }
  destruct (files g !! meid_name i) as [cm|] eqn:Em;
    destruct (files g !! key_name i) as [ck|] eqn:Ek.
  - destruct (generate_present g i) as (ms & ks & ->);
      [rewrite Em; eauto|rewrite Ek; eauto|].
    eexists. split; [reflexivity|].
    split; [exact Gg|]. split; [|split; [exact Gc|exact Gf]].
    simpl. apply Gd'; [auto|rewrite Em; eauto|rewrite Ek; eauto].
  - destruct (generate_missing h g i done Hh G) as (ms & ks & ->);
      [auto|].
    eexists. split; [reflexivity|].
    assert (Xm : existsSync (meid_name i) (files g) = true)
      by (apply existsSync_true; rewrite Em; eauto).
    assert (Xk : existsSync (key_name i) (files g) = false)
      by (apply existsSync_false; exact Ek).
    cbv zeta. rewrite Xm, Xk.
    split; [|split; [|split]]; simpl.
    + apply grown_insert; assumption.
    + apply Gd'.
      * intros f [c Hf]. destruct (decide (f = key_name i)) as [->|Hne];
          [congruence|]. rewrite lookup_insert_ne by congruence. eauto.
      * rewrite lookup_insert_ne by (apply not_eq_sym, meid_is_no_key).
        rewrite Em. eauto.
      * rewrite lookup_insert_eq. eauto.
    + discriminate.
    + intros _. split; [reflexivity|]. exists (key_name i).
      split; [apply (grown_absent _ _ _ _ Gg Ek)|].
      rewrite lookup_insert_eq. eauto.
  - destruct (generate_missing h g i done Hh G) as (ms & ks & ->);
      [auto|].
    eexists. split; [reflexivity|].
    assert (Xm : existsSync (meid_name i) (files g) = false)
      by (apply existsSync_false; exact Em).
    assert (Xk : existsSync (key_name i) (files g) = true)
      by (apply existsSync_true; rewrite Ek; eauto).
    cbv zeta. rewrite Xm, Xk.
    split; [|split; [|split]]; simpl.
    + apply grown_insert; assumption.
    + apply Gd'.
      * intros f [c Hf]. destruct (decide (f = meid_name i)) as [->|Hne];
          [congruence|]. rewrite lookup_insert_ne by congruence. eauto.
      * rewrite lookup_insert_eq. eauto.
      * rewrite lookup_insert_ne by apply meid_is_no_key.
        rewrite Ek. eauto.
    + discriminate.
    + intros _. split; [reflexivity|]. exists (meid_name i).
      split; [apply (grown_absent _ _ _ _ Gg Em)|].
      rewrite lookup_insert_eq. eauto.
  - destruct (generate_missing h g i done Hh G) as (ms & ks & ->);
      [auto|].
    eexists. split; [reflexivity|].
    assert (Xm : existsSync (meid_name i) (files g) = false)
      by (apply existsSync_false; exact Em).
    assert (Xk : existsSync (key_name i) (files g) = false)
      by (apply existsSync_false; exact Ek).
    cbv zeta. rewrite Xm, Xk.
    assert (Ek' : <[meid_name i := h]> (files g) !! key_name i = None)
      by (rewrite lookup_insert_ne by apply meid_is_no_key; exact Ek).
    split; [|split; [|split]]; simpl.
    + apply grown_insert; [apply grown_insert; assumption|exact Ek'|exact Sk].
    + apply Gd'.
      * intros f [c Hf].
        destruct (decide (f = key_name i)) as [->|Hne]; [congruence|].
        rewrite lookup_insert_ne by congruence.
        destruct (decide (f = meid_name i)) as [->|Hne']; [congruence|].
        rewrite lookup_insert_ne by congruence. eauto.
      * rewrite lookup_insert_ne by (apply not_eq_sym, meid_is_no_key).
        rewrite lookup_insert_eq. eauto.
      * rewrite lookup_insert_eq. eauto.
    + discriminate.
    + intros _. split; [reflexivity|]. exists (key_name i).
      split; [apply (grown_absent _ _ _ _ Gg Ek)|].
      rewrite lookup_insert_eq. eauto.
Qed.

Lemma generate_loop h l :
  getHeader meid_version signature date_now = Some h ->
  forall done g,
    generated h done g ->
    exists g',
      foldl (fun acc i =>
               match acc with
               | Some g => generate meid_version signature date_now g i
               | None => None
               end) (Some g) l = Some g'
      /\ generated h (done ++ l) g'.
Proof.
  intros Hh. induction l as [|i l IH]; intros done g G.
  - exists g. rewrite app_nil_r. auto.
  - destruct (generate_step h g i done Hh G) as (g1 & E1 & G1).
    destruct (IH _ _ G1) as (g' & E' & G').
    exists g'. simpl. rewrite E1, <- app_assoc in *. auto.
Qed.

End Generation.

(** The listed shard files are names of the listing. *)
Lemma listed_from_names names f :
  f ∈ (meids_files (getDatabaseFiles names)
       ++ keys_files (getDatabaseFiles names))%list ->
  f ∈ names.
Proof.
  destruct (StartupFacts.getDatabaseFiles_from (DatabaseFiles [] [] []) names)
    as (Hm & Hk & _).
  unfold getDatabaseFiles. rewrite Hm, Hk. simpl.
  rewrite elem_of_app, !list_elem_of_In, !filter_In. tauto.
Qed.

Lemma validate_file_total md (d : directory) vh listed :
  (forall f, f ∈ listed -> is_Some (d !! f)) ->
  forall b, exists b',
    foldl (validate_file md d vh) (Some b) listed = Some b'.
Proof.
  induction listed as [|f r IH]; intros H b; [eauto|].
  simpl. destruct (H f) as [c Hc]; [constructor|]. rewrite Hc.
  apply IH. intros x Hx. apply H. constructor. exact Hx.
Qed.

Lemma validate_file_match md (d : directory) vh listed :
  (forall f, f ∈ listed ->
     exists c, d !! f = Some c
               /\ matchHeaders (take 256 (c ++ alloc 256)) vh = true) ->
  forall b, foldl (validate_file md d vh) (Some b) listed = Some b.
Proof.
  induction listed as [|f r IH]; intros H b; [reflexivity|].
  simpl. destruct (H f) as (c & Hc & Hv); [constructor|]. rewrite Hc, Hv.
  simpl. apply IH. intros x Hx. apply H. constructor. exact Hx.
Qed.

(** The number of shards [initMeidsAndKeys] settles on. *)
Definition shard_count (count : Z) (names : list string) : Z :=
  if (Z.max count (-1) <=? 0)%Z
  then Z.max (Z.of_nat (length (meids_files (getDatabaseFiles names)))) 1
  else Z.max count (-1).

Lemma shard_count_positive count names : 1 <= shard_count count names.
Proof. unfold shard_count. destruct (Z.leb_spec (Z.max count (-1)) 0); lia. Qed.

Lemma shard_count_configured count names :
  0 < count -> shard_count count names = count.
Proof.
  intros H. unfold shard_count. destruct (Z.leb_spec (Z.max count (-1)) 0); lia.
Qed.

(** [initMeidsAndKeys] in terms of its first loop. *)
Lemma initMeidsAndKeys_unfold v sig count names now (d : directory) g :
  foldl (fun acc i =>
           match acc with
           | Some g => generate v sig now g i
           | None => None
           end) (Some (Generation [] [] None true d))
        (shard_numbers (shard_count count names)) = Some g ->
  exists md kd,
    initMeidsAndKeys v sig count names now d
    = (if header_check g then
         match validateHeaders v sig
                 (meids_files (getDatabaseFiles names)
                  ++ keys_files (getDatabaseFiles names))%list
                 md (files g) now with
         | Returns =>
             Some (Shards (shard_count count names) md kd (Some true)
                          (files g))
         | Throws | Exits _ => None
         end
       else Some (Shards (shard_count count names) md kd None (files g))).
Proof.
  intros E. unfold initMeidsAndKeys.
  fold (shard_count count names).
  fold (shard_numbers (shard_count count names)).
  rewrite E. cbv zeta. eauto.
Qed.

(** A validation that fails has met a file of a shard in use whose first
    256 bytes do not match. *)
Lemma validate_file_failed md (d : directory) vh listed :
  forall b,
    foldl (validate_file md d vh) (Some b) listed = Some false ->
    b = false
    \/ exists f c data,
         f ∈ listed /\ d !! f = Some c
         /\ Obj.get f md = Some data
         /\ FILE_STATES.isReady (state data) = true
         /\ matchHeaders (take 256 (c ++ alloc 256)) vh = false.
Proof.
  induction listed as [|f r IH]; intros b; [intros [= ->]; auto|].
  simpl. destruct (d !! f) as [c|] eqn:Ec.
  - intros H. apply IH in H as [H|(f' & c' & data & Hin & H)].
    + destruct (matchHeaders (take 256 (c ++ alloc 256)) vh) eqn:Ev;
        [simpl in H; auto|].
      destruct (Obj.get f md) as [data|] eqn:Em; [|simpl in H; auto].
      destruct (FILE_STATES.isReady (state data)) eqn:Er; [|simpl in H; auto].
      right. exists f, c, data. split; [constructor|auto].
    + right. exists f', c', data. split; [constructor; exact Hin|exact H].
  - intros H. exfalso. clear -H. induction r as [|g r IH]; [discriminate|].
    simpl in H. auto.
Qed.

(** What the properties of the theorems below say of the fields of a
    result. *)
Definition initialized (count : Z) (names : list string) (d : directory)
           (h : list N) (r : shards) : Prop :=
  meids_size r = shard_count count names
  /\ (forall i : N, Z.of_N i < meids_size r ->
        is_Some (directory_of r !! meid_name i)
        /\ is_Some (directory_of r !! key_name i))
  /\ (forall f c, d !! f = Some c -> directory_of r !! f = Some c)
  /\ (forall f c, directory_of r !! f = Some c -> d !! f = None ->
        c = h /\ exists i : N, Z.of_N i < meids_size r
                               /\ (f = meid_name i \/ f = key_name i))
  /\ (is_Some (headers_valid r) <-> directory_of r = d)
  /\ (headers_valid r = Some true \/ headers_valid r = None).

(** The two ways [initMeidsAndKeys] ends when the header can be made and
    the listed files can be opened: it returns, or no file was missing
    and the validation of the headers ends the process. *)
Lemma init_cases v sig count names now (d : directory) h :
  getHeader v sig now = Some h ->
  (forall f, f ∈ names -> is_Some (d !! f)) ->
  (exists r,
     initMeidsAndKeys v sig count names now d = Some r
     /\ initialized count names d h r)
  \/ (initMeidsAndKeys v sig count names now d = None
      /\ (forall i : N, Z.of_N i < shard_count count names ->
            is_Some (d !! meid_name i) /\ is_Some (d !! key_name i))
      /\ (exists md,
            validateHeaders v sig
              (meids_files (getDatabaseFiles names)
               ++ keys_files (getDatabaseFiles names))%list md d now
            = Exits 1)
      /\ exists f c,
           f ∈ names /\ d !! f = Some c
           /\ matchHeaders (take 256 (c ++ alloc 256)) h = false).
Proof.
  intros Hh Hn.
  destruct (generate_loop v sig now d h (shard_numbers (shard_count count names))
              Hh [] _ (generated_start d h))
    as (g & E & (Gk & Gn) & Gd & Gc & Gf).
  destruct (initMeidsAndKeys_unfold _ _ _ _ _ _ _ E) as (md & kd & ->).
  simpl in Gn, Gd.
  assert (P : forall ok,
    let r := Shards (shard_count count names) md kd ok (files g) in
    meids_size r = shard_count count names
    /\ (forall i : N, Z.of_N i < meids_size r ->
          is_Some (directory_of r !! meid_name i)
          /\ is_Some (directory_of r !! key_name i))
    /\ (forall f c, d !! f = Some c -> directory_of r !! f = Some c)
    /\ (forall f c, directory_of r !! f = Some c -> d !! f = None ->
          c = h /\ exists i : N, Z.of_N i < meids_size r
                                 /\ (f = meid_name i \/ f = key_name i))).
  { intros ok r. subst r. simpl.
    split; [reflexivity|]. split; [|split; [exact Gk|]].
    - intros i Hi. apply Gd, elem_of_shard_numbers. exact Hi.
    - intros f c Hf Hd. destruct (Gn f c Hf) as [H|(_ & -> & j & Hj & H)];
        [congruence|].
      split; [reflexivity|]. exists j.
      split; [apply elem_of_shard_numbers; exact Hj|exact H]. }
  destruct (header_check g) eqn:Ec.
  - destruct (Gc eq_refl) as [Ed _].
    unfold validateHeaders. rewrite Hh.
    destruct (validate_file_total md (files g) h
                (meids_files (getDatabaseFiles names)
                 ++ keys_files (getDatabaseFiles names))%list) with (b := true)
      as [ok Hok].
    { intros f Hf. rewrite Ed. apply Hn, listed_from_names. exact Hf. }
    rewrite Hok. destruct ok.
    + left. eexists. split; [reflexivity|].
      destruct (P (Some true)) as (P1 & P2 & P3 & P4).
      unfold initialized. repeat (split; [assumption|]). simpl.
      split; [split; [auto|eauto]|auto].
    + right. split; [reflexivity|]. split; [|split].
      * intros i Hi. rewrite <- Ed. apply Gd, elem_of_shard_numbers. exact Hi.
      * exists md. rewrite <- Ed, Hok. reflexivity.
      * apply validate_file_failed in Hok
          as [Hok|(f & c & _ & Hin & Hc & _ & _ & Hv)]; [discriminate|].
        exists f, c. rewrite <- Ed.
        split; [apply listed_from_names; exact Hin|auto].
  - destruct (Gf eq_refl) as (_ & f & Hd & Hf).
    left. eexists. split; [reflexivity|].
    destruct (P None) as (P1 & P2 & P3 & P4).
    unfold initialized. repeat (split; [assumption|]). simpl.
    split; [|auto]. split; [intros [? ?]; discriminate|].
    intros Ed. rewrite Ed, Hd in Hf. destruct Hf. discriminate.
Qed.

Lemma init_returned v sig count names now (d : directory) h r :
  getHeader v sig now = Some h ->
  (forall f, f ∈ names -> is_Some (d !! f)) ->
  initMeidsAndKeys v sig count names now d = Some r ->
  meids_size r = shard_count count names
  /\ (forall i : N, Z.of_N i < meids_size r ->
        is_Some (directory_of r !! meid_name i)
        /\ is_Some (directory_of r !! key_name i))
  /\ (forall f c, d !! f = Some c -> directory_of r !! f = Some c)
  /\ (forall f c, directory_of r !! f = Some c -> d !! f = None ->
        c = h /\ exists i : N, Z.of_N i < meids_size r
                               /\ (f = meid_name i \/ f = key_name i))
  /\ (is_Some (headers_valid r) <-> directory_of r = d).
Proof.
  intros Hh Hn E.
  destruct (init_cases v sig count names now d h Hh Hn)
    as [(r0 & E0 & H1 & H2 & H3 & H4 & H5 & _)|(E0 & _)]; [|congruence].
  assert (r0 = r) as -> by congruence. auto.
Qed.

(** X28: the files of the shards behind [initMeidsAndKeys()].  When
    [getHeader()] returns (the header [h]) and the listing names files of
    the directory, the initialization ends in one of two ways.  Either it
    returns, and then it has settled on at least one shard ([meids.count]
    when that is positive, otherwise the number of listed MEID files, or
    1); both files of every shard in use exist; a file that was there is
    left as it was; a file that was not there is a file of a shard in use
    and holds exactly the header; and the headers were validated, and
    found valid, if and only if no file had to be created.  Or it does
    not return: then no file of a shard in use was missing, a listed file
    does not match the header in its first 256 bytes, and
    [validateHeaders()] has ended the process with the code 1.  As soon
    as one file of a shard in use is missing the initialization returns
    and no header is checked. *)
Theorem missing_shard_files_are_generated :
  forall (meid_version : Z) (signature : string) (count : Z)
         (names : list string) (date_now : Z) (d : directory) (h : list N),
    getHeader meid_version signature date_now = Some h ->
    (forall f, f ∈ names -> is_Some (d !! f)) ->
    let listed :=
      (meids_files (getDatabaseFiles names)
       ++ keys_files (getDatabaseFiles names))%list in
    let shards_in_use :=
      if (0 <? count)%Z then count
      else Z.max (Z.of_nat (length (meids_files (getDatabaseFiles names))))
                 1 in
    ((exists r,
        initMeidsAndKeys meid_version signature count names date_now d
        = Some r
        /\ 1 <= meids_size r
        /\ meids_size r = shards_in_use
        /\ (forall i : N, Z.of_N i < meids_size r ->
              is_Some (directory_of r !! meid_name i)
              /\ is_Some (directory_of r !! key_name i))
        /\ (forall f c, d !! f = Some c -> directory_of r !! f = Some c)
        /\ (forall f c, directory_of r !! f = Some c -> d !! f = None ->
              c = h /\ exists i : N, Z.of_N i < meids_size r
                                     /\ (f = meid_name i \/ f = key_name i))
        /\ (headers_valid r = Some true <-> directory_of r = d)
        /\ (headers_valid r = None <-> directory_of r <> d))
     \/ (initMeidsAndKeys meid_version signature count names date_now d
         = None
         /\ (forall i : N, Z.of_N i < shards_in_use ->
               is_Some (d !! meid_name i) /\ is_Some (d !! key_name i))
         /\ (exists meids_data,
               validateHeaders meid_version signature listed meids_data d
                               date_now = Exits 1)
         /\ exists f c,
              f ∈ names /\ d !! f = Some c
              /\ matchHeaders (take 256 (c ++ alloc 256)) h = false))
    /\ ((exists i : N,
           Z.of_N i < shards_in_use
           /\ (d !! meid_name i = None \/ d !! key_name i = None)) ->
        exists r,
          initMeidsAndKeys meid_version signature count names date_now d
          = Some r
          /\ headers_valid r = None).
Proof.
  intros v sig count names now d h Hh Hn listed shards_in_use.
  assert (Hc : shard_count count names = shards_in_use).
  { unfold shard_count, shards_in_use.
    destruct (Z.leb_spec (Z.max count (-1)) 0), (Z.ltb_spec 0 count);
      try reflexivity; lia. }
  assert (Hcases :
    (exists r,
       initMeidsAndKeys v sig count names now d = Some r
       /\ 1 <= meids_size r
       /\ meids_size r = shards_in_use
       /\ (forall i : N, Z.of_N i < meids_size r ->
             is_Some (directory_of r !! meid_name i)
             /\ is_Some (directory_of r !! key_name i))
       /\ (forall f c, d !! f = Some c -> directory_of r !! f = Some c)
       /\ (forall f c, directory_of r !! f = Some c -> d !! f = None ->
             c = h /\ exists i : N, Z.of_N i < meids_size r
                                    /\ (f = meid_name i \/ f = key_name i))
       /\ (headers_valid r = Some true <-> directory_of r = d)
       /\ (headers_valid r = None <-> directory_of r <> d))
    \/ (initMeidsAndKeys v sig count names now d = None
        /\ (forall i : N, Z.of_N i < shards_in_use ->
              is_Some (d !! meid_name i) /\ is_Some (d !! key_name i))
        /\ (exists meids_data,
              validateHeaders v sig listed meids_data d now = Exits 1)
        /\ exists f c,
             f ∈ names /\ d !! f = Some c
             /\ matchHeaders (take 256 (c ++ alloc 256)) h = false)).
  { destruct (init_cases v sig count names now d h Hh Hn)
      as [(r & E & Hs & H1 & H2 & H3 & H4 & H5)|(E & H1 & H2 & H3)].
    - left. exists r. split; [exact E|].
      split; [rewrite Hs; apply shard_count_positive|].
      split; [rewrite Hs; exact Hc|].
      split; [exact H1|]. split; [exact H2|]. split; [exact H3|].
      destruct H4 as [H4 H4']. split; split.
      + intros Hv. apply H4. rewrite Hv. eauto.
      + intros Hd. destruct (H4' Hd) as [b Hb].
        destruct H5 as [H5|H5]; congruence.
      + intros Hv Hd. destruct (H4' Hd) as [b Hb]. congruence.
      + intros Hd. destruct H5 as [H5|H5]; [|exact H5].
        exfalso. apply Hd, H4. rewrite H5. eauto.
    - right. rewrite <- Hc. auto. }
  split; [exact Hcases|].
  intros (i & Hi & Hmiss).
  destruct Hcases as [(r & E & _ & _ & _ & H2 & _ & H4 & H5)|(_ & Hall & _)].
  - exists r. split; [exact E|]. apply H5. intros Hd.
    destruct (init_returned v sig count names now d h r Hh Hn E)
      as (Hs & H1 & _).
    destruct (H1 i) as [[cm Hm] [ck Hk]]; [rewrite Hs, Hc; exact Hi|].
    rewrite Hd in Hm, Hk. destruct Hmiss; congruence.
  - destruct (Hall i Hi) as [[cm Hm] [ck Hk]]. destruct Hmiss; congruence.
Qed.

(** A database of two shards where one file exists already, and one
    whose only shard holds a file that is no file of this database. *)
Lemma missing_shard_files_are_generated_witness :
  let d1 : directory := {[ "meid-0.sfd" := [7%N] ]} in
  let d2 : directory :=
    {[ "meid-0.sfd" := [7%N]; "key-0.sfk" := [7%N] ]} in
  let h := default [] (getHeader 1 "SNOWFLAK" 1700000000123) in
  (exists r,
     initMeidsAndKeys 1 "SNOWFLAK" 2 ["meid-0.sfd"] 1700000000123 d1
     = Some r
     /\ headers_valid r = None)
  /\ initMeidsAndKeys 1 "SNOWFLAK" 1 ["meid-0.sfd"; "key-0.sfk"]
                      1700000000123 d2 = None
  /\ ((exists r,
         initMeidsAndKeys 1 "SNOWFLAK" 2 ["meid-0.sfd"] 1700000000123 d1
         = Some r
         /\ 1 <= meids_size r
         /\ meids_size r = 2
         /\ (forall i : N, Z.of_N i < meids_size r ->
               is_Some (directory_of r !! meid_name i)
               /\ is_Some (directory_of r !! key_name i))
         /\ (forall f c, d1 !! f = Some c -> directory_of r !! f = Some c)
         /\ (forall f c, directory_of r !! f = Some c -> d1 !! f = None ->
               c = h /\ exists i : N, Z.of_N i < meids_size r
                                      /\ (f = meid_name i \/ f = key_name i))
         /\ (headers_valid r = Some true <-> directory_of r = d1)
         /\ (headers_valid r = None <-> directory_of r <> d1))
      \/ (initMeidsAndKeys 1 "SNOWFLAK" 2 ["meid-0.sfd"] 1700000000123 d1
          = None
          /\ (forall i : N, Z.of_N i < 2 ->
                is_Some (d1 !! meid_name i) /\ is_Some (d1 !! key_name i))
          /\ (exists meids_data,
                validateHeaders 1 "SNOWFLAK" ["meid-0.sfd"] meids_data d1
                                1700000000123 = Exits 1)
          /\ exists f c,
               f ∈ ["meid-0.sfd"] /\ d1 !! f = Some c
               /\ matchHeaders (take 256 (c ++ alloc 256)) h = false))
  /\ ((exists i : N,
         Z.of_N i < 2
         /\ (d1 !! meid_name i = None \/ d1 !! key_name i = None)) ->
      exists r,
        initMeidsAndKeys 1 "SNOWFLAK" 2 ["meid-0.sfd"] 1700000000123 d1
        = Some r
        /\ headers_valid r = None).
Proof.
  intros d1 d2 h.
  split; [eexists; split; vm_compute; reflexivity|].
  split; [vm_compute; reflexivity|].
  apply (missing_shard_files_are_generated
           1 "SNOWFLAK" 2 ["meid-0.sfd"] 1700000000123 d1 h).
  - reflexivity.
  - intros f Hf. apply list_elem_of_singleton in Hf. subst f.
    vm_compute. eauto.
Defined.

(** ** A generated database at the next start *)

Lemma foldl_generate_None v sig now l :
  foldl (fun acc i =>
           match acc with
           | Some g => generate v sig now g i
           | None => None
           end) None l = None.
Proof. induction l as [|i l IH]; [reflexivity|exact IH]. Qed.

Lemma shard_numbers_first n :
  1 <= n -> exists l, shard_numbers n = 0%N :: l.
Proof.
  intros H. unfold shard_numbers.
  destruct (Z.to_nat n) as [|k] eqn:E; [lia|]. simpl. eauto.
Qed.

(** In an empty directory nothing is initialized without a header. *)
Lemma init_empty_header v sig count now r :
  initMeidsAndKeys v sig count [] now ∅ = Some r ->
  is_Some (getHeader v sig now).
Proof.
  destruct (getHeader v sig now) as [h|] eqn:Hh; [eauto|].
  intros H. exfalso. revert H. unfold initMeidsAndKeys.
  fold (shard_count count []). fold (shard_numbers (shard_count count [])).
  destruct (shard_numbers_first _ (shard_count_positive count []))
    as [l ->].
  cbn [foldl]. unfold generate at 2. cbn [files header].
  unfold existsSync. rewrite !lookup_empty. cbn [negb orb].
  rewrite Hh, foldl_generate_None. discriminate.
Qed.

Lemma generate_loop_present v sig now l :
  forall g,
    (forall i, i ∈ l ->
       is_Some (files g !! meid_name i) /\ is_Some (files g !! key_name i)) ->
    exists g',
      foldl (fun acc i =>
               match acc with
               | Some g => generate v sig now g i
               | None => None
               end) (Some g) l = Some g'
      /\ files g' = files g /\ header_check g' = header_check g.
Proof.
  induction l as [|i l IH]; intros g H; [eauto|].
  destruct (H i) as [Hm Hk]; [constructor|].
  destruct (generate_present v sig now g i Hm Hk) as (ms & ks & E).
  cbn [foldl]. rewrite E.
  destruct (IH (Generation ms ks (header g) (header_check g) (files g)))
    as (g' & E' & Hf & Hc).
  { intros j Hj. apply H. constructor. exact Hj. }
  exists g'. auto.
Qed.

(** When the files of all shards exist and every listed file matches the
    valid header, the initialization validates the headers, finds them
    valid and writes nothing. *)
Lemma init_valid v sig count names now (d : directory) h :
  getHeader v sig now = Some h ->
  (forall i : N, Z.of_N i < shard_count count names ->
     is_Some (d !! meid_name i) /\ is_Some (d !! key_name i)) ->
  (forall f, f ∈ names ->
     exists c, d !! f = Some c
               /\ matchHeaders (take 256 (c ++ alloc 256)) h = true) ->
  exists r,
    initMeidsAndKeys v sig count names now d = Some r
    /\ headers_valid r = Some true
    /\ directory_of r = d
    /\ meids_size r = shard_count count names.
Proof.
  intros Hh Hs Hn.
  destruct (generate_loop_present v sig now
              (shard_numbers (shard_count count names))
              (Generation [] [] None true d))
    as (g & E & Hf & Hc).
  { intros i Hi. apply Hs, elem_of_shard_numbers. exact Hi. }
  destruct (initMeidsAndKeys_unfold _ _ _ _ _ _ _ E) as (md & kd & ->).
  simpl in Hf, Hc. rewrite Hc, Hf. unfold validateHeaders. rewrite Hh.
  rewrite validate_file_match.
  - eexists. split; [reflexivity|]. simpl. auto.
  - intros f Hl. apply Hn, listed_from_names. exact Hl.
Qed.

Lemma is_meid_meid i : StartupFacts.is_meid (meid_name i) = true.
Proof.
  unfold StartupFacts.is_meid, meid_name.
  change (strip "meid-" ("meid-" ++ Dec.of_N i ++ ".sfd"))
    with (Some (Dec.of_N i ++ ".sfd")).
  cbv iota. unfold numbered.
  rewrite span_numbered by (intros c [= <-]; reflexivity).
  rewrite of_N_nonempty. reflexivity.
Qed.

Lemma is_meid_key i : StartupFacts.is_meid (key_name i) = false.
Proof. reflexivity. Qed.

Lemma NoDup_map_inj {A B : Type} (f : A -> B) (l : list A) :
  (forall x y, f x = f y -> x = y) -> NoDup l -> NoDup (map f l).
Proof.
  intros Hf. induction 1 as [|x l Hx Hl IH]; simpl; constructor; [|exact IH].
  rewrite list_elem_of_In, in_map_iff. intros (y & Hy & Hin).
  apply Hf in Hy. subst y. apply Hx, list_elem_of_In. exact Hin.
Qed.

Lemma NoDup_list_filter {A : Type} (p : A -> bool) (l : list A) :
  NoDup l -> NoDup (List.filter p l).
Proof.
  induction 1 as [|x l Hx Hl IH]; simpl; [constructor|].
  destruct (p x); [|exact IH]. constructor; [|exact IH].
  rewrite list_elem_of_In, filter_In, <- list_elem_of_In. tauto.
Qed.

Lemma NoDup_shard_numbers n : NoDup (shard_numbers n).
Proof.
  unfold shard_numbers. apply NoDup_map_inj; [|apply NoDup_seq].
  intros x y H. lia.
Qed.

Lemma length_shard_numbers n : length (shard_numbers n) = Z.to_nat n.
Proof. unfold shard_numbers. rewrite length_map, length_seq. reflexivity. Qed.

(** A listing of exactly the files of [n] shards lists [n] MEID files. *)
Lemma listed_meids n names :
  NoDup names ->
  (forall f, f ∈ names <-> shard_file (shard_numbers n) f) ->
  length (meids_files (getDatabaseFiles names)) = Z.to_nat n.
Proof.
  intros Hnd Hn.
  destruct (StartupFacts.getDatabaseFiles_from (DatabaseFiles [] [] []) names)
    as (Hm & _).
  unfold getDatabaseFiles. rewrite Hm. simpl.
  rewrite <- (length_shard_numbers n),
    <- (length_map meid_name (shard_numbers n)).
  apply Permutation_length, NoDup_Permutation.
  - apply NoDup_list_filter. exact Hnd.
  - apply NoDup_map_inj; [apply meid_name_inj|apply NoDup_shard_numbers].
  - intros f. rewrite !list_elem_of_In, filter_In, in_map_iff,
      <- list_elem_of_In, Hn.
    split.
    + intros [(i & Hi & [->| ->]) Hf].
      * exists i. split; [reflexivity|apply list_elem_of_In; exact Hi].
      * rewrite is_meid_key in Hf. discriminate.
    + intros (i & <- & Hi). apply list_elem_of_In in Hi.
      split; [exists i; auto|apply is_meid_meid].
Qed.

(** X29: a database generated in an empty directory passes the validation
    of the next start.  When [initMeidsAndKeys()] has returned in an empty
    directory, a second initialization with the same configuration, on a
    listing of exactly the files the first one left, at any later time in
    the range of [Date], returns too: it settles on the same number of
    shards, creates and changes no file, validates the headers and finds
    every one of them valid. *)
Theorem generated_database_is_valid_at_restart :
  forall (meid_version : Z) (signature : string) (count : Z)
         (date_now date_later : Z) (names : list string) (r : shards),
    initMeidsAndKeys meid_version signature count [] date_now ∅ = Some r ->
    names ≡ₚ (map_to_list (directory_of r)).*1 ->
    0 <= date_later <= 8640000000000000 ->
    exists r',
      initMeidsAndKeys meid_version signature count names date_later
                       (directory_of r) = Some r'
      /\ headers_valid r' = Some true
      /\ directory_of r' = directory_of r
      /\ meids_size r' = meids_size r.
Proof.
  intros v sig count now later names r E Hp Hl.
  destruct (init_empty_header _ _ _ _ _ E) as [h Hh].
  destruct (init_returned v sig count [] now ∅ h r Hh) as (Hs & He & _ & Hf & _).
  { intros f Hf. inversion Hf. }
  { exact E. }
  destruct (header_shape _ _ _ _ Hh) as (Hv & _ & _).
  destruct (getHeader_Some v sig later Hv Hl) as [h' Hh'].
  assert (Hin : forall f, f ∈ names <-> is_Some (directory_of r !! f)).
  { intros f. rewrite Hp, list_elem_of_fmap. split.
    - intros ([f' c] & -> & Hc). apply elem_of_map_to_list in Hc.
      simpl. eauto.
    - intros [c Hc]. exists (f, c). split; [reflexivity|].
      apply elem_of_map_to_list. exact Hc. }
  assert (Hnd : NoDup names).
  { rewrite Hp. apply NoDup_fst_map_to_list. }
  assert (Hsh : forall f, f ∈ names
                          <-> shard_file (shard_numbers (meids_size r)) f).
  { intros f. rewrite Hin. split.
    - intros [c Hc].
      destruct (Hf f c Hc (lookup_empty f)) as (_ & i & Hi & H).
      exists i. split; [apply elem_of_shard_numbers; exact Hi|exact H].
    - intros (i & Hi & H). apply elem_of_shard_numbers in Hi.
      destruct (He i Hi) as [Hm Hk]. destruct H as [-> | ->]; assumption. }
  assert (Hc : shard_count count names = meids_size r).
  { pose proof (listed_meids _ _ Hnd Hsh) as Hlen.
    pose proof (shard_count_positive count []) as Hpos.
    rewrite Hs in *. unfold shard_count in *. rewrite Hlen.
    destruct (Z.leb_spec (Z.max count (-1)) 0); [|reflexivity].
    simpl in *. lia. }
  destruct (init_valid v sig count names later (directory_of r) h' Hh')
    as (r' & E' & Hval & Hdir & Hsize).
  - intros i Hi. apply He. rewrite <- Hc. exact Hi.
  - intros f Hfn. apply Hin in Hfn as [c Hc'].
    destruct (Hf f c Hc' (lookup_empty f)) as (-> & _).
    exists h. split; [exact Hc'|].
    rewrite take_app_length'
      by (symmetry; apply (header_length _ _ _ _ Hh)).
    apply matchHeaders_true.
    rewrite (header_front _ _ _ _ Hh), (header_front _ _ _ _ Hh').
    reflexivity.
  - exists r'. rewrite Hsize, Hc. auto.
Qed.

(** Two shards, generated and started again a while later. *)
Lemma generated_database_is_valid_at_restart_witness :
  let r := default (Shards 0 [] [] None ∅)
                   (initMeidsAndKeys 1 "SNOWFLAK" 2 [] 1700000000123 ∅) in
  exists r',
    initMeidsAndKeys 1 "SNOWFLAK" 2
                     ["key-1.sfk"; "key-0.sfk"; "meid-1.sfd"; "meid-0.sfd"]
                     1800000000000 (directory_of r) = Some r'
    /\ headers_valid r' = Some true
    /\ directory_of r' = directory_of r
    /\ meids_size r' = meids_size r.
Proof.
  apply (generated_database_is_valid_at_restart
           1 "SNOWFLAK" 2 1700000000123 1800000000000
           ["key-1.sfk"; "key-0.sfk"; "meid-1.sfd"; "meid-0.sfd"]
           (default (Shards 0 [] [] None ∅)
                    (initMeidsAndKeys 1 "SNOWFLAK" 2 [] 1700000000123 ∅))).
  - vm_compute. reflexivity.
  - vm_compute. reflexivity.
  - lia.
Defined.

End FilesFacts.

(** ** The authorization of a shell *)

Module ShellFacts.
Import Chars Startup Cli Shell.

(** The input is longer than the shell takes. *)
Definition too_long (sh : shell) (command : string) : bool :=
  (max_input_size sh >? 0)%Z
  && (Z.of_nat (String.length command) >? max_input_size sh)%Z.

(** The commands the handler answers itself, with or without access. *)
Definition special (command : string) : bool :=
  (command =? "@json")%string || (command =? "@echo")%string
  || startsWith "@timing" command
  || (command =? "clear")%string || (command =? "cls")%string.

(** The address of the client is locked down. *)
Definition address_locked (sv : server) (remote_ip : option string)
           (t : clock) : bool :=
  match remote_ip with
  | Some ip =>
      negb (Str.is_empty ip)
      && Cli.lockedDown (cli sv) (at_address t) (Some ip)
  | None => false
  end.

(** What it takes for [command] to open a shell with [a]. *)
Definition admits (access_keys : gmap string access_key) (sh : shell)
           (sv : server) (command : string) (remote_ip : option string)
           (t : clock) (a : auth) : Prop :=
  too_long sh command = false
  /\ special command = false
  /\ authenticate access_keys command = Some a
  /\ address_locked sv remote_ip t = false
  /\ Cli.lockedDown (cli sv) (at_token t) (Some command) = false
  /\ (connection_limit a = -1
      \/ tokenSessions sv command < connection_limit a).

(** The shell [command] has opened with [a]. *)
Definition opened (sh : shell) (command : string) (a : auth) (reported : bool)
  : shell :=
  MkShell (Some a) (alias_of a) (Some command) (mode sh) (timing sh)
          (max_input_size sh) reported.

Lemma login_attempt_success c t ip token :
  Cli.login_attempt c t ip true token = c.
Proof.
  unfold Cli.login_attempt. destruct (max_login_attempt c >? 0)%Z; reflexivity.
Qed.

Lemma login_attempt_event_success sv t ip token :
  login_attempt_event sv t ip true token = Some sv.
Proof.
  unfold login_attempt_event. simpl. rewrite login_attempt_success.
  destruct sv. reflexivity.
Qed.

Lemma report_lockdown_access sh sv command ip t out sh' sv' out' :
  report_lockdown sh sv command ip t out = Handled sh' sv' out' ->
  access sh' = access sh.
Proof.
  unfold report_lockdown. destruct (lockdown_reported sh).
  - intros [= <- _ _]. reflexivity.
  - destruct (login_attempt_event sv (at_attempt t) ip false command);
      [|discriminate].
    intros [= <- _ _]. reflexivity.
Qed.

Lemma report_lockdown_ends sh sv command ip t out c sh' sv' :
  report_lockdown sh sv command ip t out <> Executes c sh' sv'.
Proof.
  unfold report_lockdown. destruct (lockdown_reported sh); [discriminate|].
  destruct (login_attempt_event sv (at_attempt t) ip false command);
    discriminate.
Qed.

Lemma limit_allows a n :
  negb (connection_limit a =? -1)%Z && (connection_limit a <=? n)%Z = false
  <-> connection_limit a = -1 \/ n < connection_limit a.
Proof.
  destruct (Z.eqb_spec (connection_limit a) (-1)) as [E|E];
    destruct (Z.leb_spec (connection_limit a) n) as [L|L]; simpl;
    split; intros H; try reflexivity; try discriminate; try lia; auto.
Qed.

(** A shell without access never reaches [exec] through [authorize]; it
    comes out with access only on the branch of the authorization. *)
Lemma authorize_ends access_keys sh sv command ip locked t c sh' sv' :
  authorize access_keys sh sv command ip locked t <> Executes c sh' sv'.
Proof.
  unfold authorize.
  destruct (authenticate access_keys command) as [a|].
  - destruct locked.
    + apply report_lockdown_ends.
    + destruct (Cli.lockedDown (cli sv) (at_token t) (Some command));
        [apply report_lockdown_ends|].
      destruct (negb (connection_limit a =? -1)%Z
                && (connection_limit a <=? tokenSessions sv command)%Z).
      * destruct (login_attempt_event _ _ _ false _); discriminate.
      * destruct (login_attempt_event _ _ _ true _); discriminate.
  - destruct locked; [apply report_lockdown_ends|].
    destruct (login_attempt_event _ _ _ false _); discriminate.
Qed.

Lemma authorize_granted access_keys sh sv command ip locked t sh' sv' out a :
  access sh = None ->
  authorize access_keys sh sv command ip locked t = Handled sh' sv' out ->
  access sh' = Some a ->
  authenticate access_keys command = Some a
  /\ locked = false
  /\ Cli.lockedDown (cli sv) (at_token t) (Some command) = false
  /\ (connection_limit a = -1
      \/ tokenSessions sv command < connection_limit a).
Proof.
  intros Hacc. unfold authorize.
  destruct (authenticate access_keys command) as [a'|].
  - destruct locked.
    + intros H Ha. apply report_lockdown_access in H. congruence.
    + destruct (Cli.lockedDown (cli sv) (at_token t) (Some command)) eqn:Et.
      { intros H Ha. apply report_lockdown_access in H. congruence. }
      destruct (negb (connection_limit a' =? -1)%Z
                && (connection_limit a' <=? tokenSessions sv command)%Z)
        eqn:El.
      * destruct (login_attempt_event _ _ _ false _); [|discriminate].
        intros [= <- _ _] Ha. congruence.
      * rewrite login_attempt_event_success.
        intros [= <- _ _] Ha. simpl in Ha. injection Ha as <-.
        apply limit_allows in El. auto.
  - destruct locked.
    + intros H Ha. apply report_lockdown_access in H. congruence.
    + destruct (login_attempt_event _ _ _ false _); [|discriminate].
      intros [= <- _ _] Ha. congruence.
Qed.

Lemma authorize_admitted access_keys sh sv command ip t a :
  authenticate access_keys command = Some a ->
  Cli.lockedDown (cli sv) (at_token t) (Some command) = false ->
  (connection_limit a = -1
   \/ tokenSessions sv command < connection_limit a) ->
  exists out,
    authorize access_keys sh sv command ip false t
    = Handled (opened sh command a (lockdown_reported sh))
              (shell_authorized_event sv command) out.
Proof.
  intros Ha Et Hl. apply limit_allows in Hl.
  unfold authorize. rewrite Ha, Et, Hl, login_attempt_event_success.
  simpl. eauto.
Qed.

Lemma special_false command :
  special command = false ->
  ((command =? "@json")%string || (command =? "@echo")%string = false)
  /\ startsWith "@timing" command = false
  /\ ((command =? "clear")%string || (command =? "cls")%string = false).
Proof.
  unfold special.
  destruct (command =? "@json")%string, (command =? "@echo")%string,
    (startsWith "@timing" command), (command =? "clear")%string,
    (command =? "cls")%string; simpl; intros H; try discriminate; auto.
Qed.

(** [on_data] behind its first checks. *)
Lemma on_data_plain access_keys sh sv data ip t :
  too_long sh (Aol.trim data) = false ->
  special (Aol.trim data) = false ->
  on_data access_keys sh sv data ip t
  = let locked := address_locked sv ip t in
    let sh1 := if locked then sh else with_reported false sh in
    match access sh with
    | None => authorize access_keys sh1 sv (Aol.trim data) ip locked t
    | Some _ =>
        if (Aol.trim data =? "")%string then Handled sh1 sv (writePrompt sh1 0)
        else Executes (Aol.trim data) sh1 sv
    end.
Proof.
  intros Hl Hs. destruct (special_false _ Hs) as (H1 & H2 & H3).
  unfold on_data. fold (too_long sh (Aol.trim data)). rewrite Hl.
  fold (address_locked sv ip t). cbv zeta. rewrite H1, H2, H3.
  destruct (address_locked sv ip t); reflexivity.
Qed.

(** Where [on_data] answers itself, the access of the shell stays. *)
Lemma on_data_answered access_keys sh sv data ip t :
  too_long sh (Aol.trim data) = true \/ special (Aol.trim data) = true ->
  exists sh' out,
    on_data access_keys sh sv data ip t = Handled sh' sv out
    /\ access sh' = access sh.
Proof.
  intros H. unfold on_data. fold (too_long sh (Aol.trim data)).
  destruct (too_long sh (Aol.trim data)) eqn:Hl; [eauto|].
  destruct H as [H|H]; [discriminate|].
  fold (address_locked sv ip t). cbv zeta.
  unfold special in H.
  destruct ((Aol.trim data =? "@json")%string
            || (Aol.trim data =? "@echo")%string) eqn:H1.
  { destruct (address_locked sv ip t); eauto. }
  simpl in H.
  destruct (startsWith "@timing" (Aol.trim data)) eqn:H2.
  { destruct (address_locked sv ip t); eauto. }
  simpl in H.
  destruct ((Aol.trim data =? "clear")%string
            || (Aol.trim data =? "cls")%string) eqn:H3.
  { destruct (address_locked sv ip t); eauto. }
  discriminate.
Qed.

(** X30: how a shell comes to execute commands.  A shell without access
    never hands its input to [exec].  It comes out of the handler with
    access exactly when the trimmed input is within the size limit, is not
    one of the commands the handler answers itself, is accepted by
    [authenticate], neither the address of the client nor the token is
    locked down, and the token has no limit of connections or fewer
    sessions than its limit; then the shell holds what [authenticate]
    returned, the token and the alias, the token has one session more, and
    the lockdown tracker is as it was.  A shell with access hands every
    other input that is not empty to [exec], trimmed.  [authenticate] looks
    the token up in [access_keys] along the prototype of the object: a name
    every object inherits is accepted like a key, without a limit of
    connections, whatever [access_keys] holds under other names. *)
Theorem shell_access_is_granted_by_a_token :
  forall (access_keys : gmap string access_key) (sh : shell) (sv : server)
         (data : string) (remote_ip : option string) (t : clock),
    (access sh = None ->
     forall c sh' sv',
       on_data access_keys sh sv data remote_ip t <> Executes c sh' sv')
    /\ (access sh = None ->
        forall a,
          admits access_keys sh sv (Aol.trim data) remote_ip t a ->
          exists out,
            on_data access_keys sh sv data remote_ip t
            = Handled (opened sh (Aol.trim data) a false)
                      (Server (cli sv)
                              (<[Aol.trim data
                                 := tokenSessions sv (Aol.trim data) + 1]>
                                 (sessions sv)))
                      out)
    /\ (access sh = None ->
        forall sh' sv' out a,
          on_data access_keys sh sv data remote_ip t = Handled sh' sv' out ->
          access sh' = Some a ->
          admits access_keys sh sv (Aol.trim data) remote_ip t a)
    /\ (forall a,
          access sh = Some a ->
          too_long sh (Aol.trim data) = false ->
          special (Aol.trim data) = false ->
          Aol.trim data <> "" ->
          exists sh',
            on_data access_keys sh sv data remote_ip t
            = Executes (Aol.trim data) sh' sv
            /\ access sh' = Some a)
    /\ (forall name,
          name ∈ prototype_names ->
          access_keys !! name = None ->
          authenticate access_keys name = Some Inherited
          /\ connection_limit Inherited = -1).
Proof.
  intros keys sh sv data ip t.
  split; [|split; [|split; [|split]]].
  - intros Hacc c sh' sv'.
    destruct (too_long sh (Aol.trim data)) eqn:Hl.
    { destruct (on_data_answered keys sh sv data ip t) as (s & o & -> & _);
        [auto|discriminate]. }
    destruct (special (Aol.trim data)) eqn:Hs.
    { destruct (on_data_answered keys sh sv data ip t) as (s & o & -> & _);
        [auto|discriminate]. }
    rewrite on_data_plain by assumption. cbv zeta. rewrite Hacc.
    apply authorize_ends.
  - intros Hacc a (Hl & Hs & Ha & Hip & Ht & Hlim).
    rewrite on_data_plain by assumption. cbv zeta. rewrite Hacc, Hip.
    destruct (authorize_admitted keys (with_reported false sh) sv
                (Aol.trim data) ip t a Ha Ht Hlim) as [out E].
    exists out. exact E.
  - intros Hacc sh' sv' out a E Ha.
    destruct (too_long sh (Aol.trim data)) eqn:Hl.
    { destruct (on_data_answered keys sh sv data ip t) as (s & o & E' & Hs);
        [auto|]. rewrite E' in E. injection E as <- _ _. congruence. }
    destruct (special (Aol.trim data)) eqn:Hs.
    { destruct (on_data_answered keys sh sv data ip t) as (s & o & E' & Hs');
        [auto|]. rewrite E' in E. injection E as <- _ _. congruence. }
    rewrite on_data_plain in E by assumption. cbv zeta in E.
    rewrite Hacc in E.
    apply authorize_granted with (a := a) in E;
      [|destruct (address_locked sv ip t); exact Hacc|exact Ha].
    destruct E as (E1 & E2 & E3 & E4).
    repeat (split; [assumption|]). exact E4.
  - intros a Hacc Hl Hs Hne.
    rewrite on_data_plain by assumption. cbv zeta. rewrite Hacc.
    destruct (String.eqb_spec (Aol.trim data) "") as [E|_]; [contradiction|].
    eexists. split; [reflexivity|].
    destruct (address_locked sv ip t); exact Hacc.
  - intros name Hn Hk. split; [|reflexivity].
    unfold authenticate. rewrite Hk.
    destruct (existsb (String.eqb name) prototype_names) eqn:E;
      [reflexivity|].
    exfalso. apply list_elem_of_In in Hn.
    assert (X : existsb (String.eqb name) prototype_names = true).
    { apply existsb_exists. exists name. split; [exact Hn|].
      apply String.eqb_refl. }
    congruence.
Qed.

End ShellFacts.
